(** * circkit / wboxkit: circuits, their rewrites, ISW masking and the raw serializer

    A shallow embedding of the Python sources

      - [circkit/operation.py], [circkit/param.py], [circkit/const_manager.py]
      - [circkit/node.py], [circkit/circuit.py]
      - [circkit/arithmetic.py], [circkit/boolean.py], [circkit/array.py]
      - [circkit/bitwise/ring.py]
      - [circkit/transformers/core.py], [circkit/transformers/isw.py]
      - [wboxkit/serialize.py]

    Python objects are identified by the [id] the circuit hands out
    ([_get_next_node_id]); a circuit is the record of its mutable fields and
    every method that mutates it is a function in the state-and-exception
    monad [M].  A raised exception keeps the mutations made before it. *)

From stdpp Require Import gmap strings list sorting pretty.
From Stdlib Require Import ZArith.
From Stdlib Require Strings.Byte.

(* ===================================================================== *)
(** * Exceptions and results *)
(* ===================================================================== *)

(** The exception classes the embedded code raises.  [NotEmbedded] is not
    an exception of Python: it is the outcome of a call on values the
    embedding does not represent (a string handed to [int] or [tuple], say,
    which gives an integer parsed from the string or a tuple of strings).
    What the code does there is left open, and no theorem is about it. *)
Inductive exn :=
  | TypeError | KeyError | ValueError | IndexError | AttributeError
  | AssertionError | RuntimeError | UnboundLocalError | StructError
  | NotEmbedded.

Inductive result (A : Type) : Type :=
  | Ok (a : A)
  | Raise (e : exn).
Arguments Ok {A} a.
Arguments Raise {A} e.

#[export] Instance exn_eq_dec : EqDecision exn.
Proof. solve_decision. Defined.

#[export] Instance result_eq_dec {A} `{EqDecision A} : EqDecision (result A).
Proof. solve_decision. Defined.

Definition rbind {A B} (r : result A) (f : A → result B) : result B :=
  match r with
  | Ok a => f a
  | Raise e => Raise e
  end.

Notation "'try' x ← a ; b" := (rbind a (λ x, b))
  (at level 10, x name, a at level 100, b at level 200,
   format "'[v' 'try'  x  ←  a ;  '/' b ']'").

(** [[f(x) for x in l]] where [f] may raise. *)
Fixpoint rmap {A B} (f : A → result B) (l : list A) : result (list B) :=
  match l with
  | [] => Ok []
  | x :: l' => try y ← f x; try ys ← rmap f l'; Ok (y :: ys)
  end.

(** A left-to-right loop [for x in l: acc = f(acc, x)] where [f] may raise. *)
Fixpoint rfold {A S} (f : S → A → result S) (s : S) (l : list A) : result S :=
  match l with
  | [] => Ok s
  | x :: l' => try s' ← f s x; rfold f s' l'
  end.

Definition is_Ok {A} (r : result A) : bool :=
  match r with Ok _ => true | Raise _ => false end.

(** [assert cond] *)
Definition assert (b : bool) : result unit :=
  if b then Ok tt else Raise AssertionError.

(** ** Mutable state with exceptions *)

(** A computation over a mutable state [S]: it returns the state, mutated,
    with a value or an exception. *)
Definition ST (S A : Type) : Type := S → S * result A.

Definition ret {S A} (a : A) : ST S A := λ s, (s, Ok a).
Definition raise {S A} (e : exn) : ST S A := λ s, (s, Raise e).
Definition bind {S A B} (m : ST S A) (f : A → ST S B) : ST S B :=
  λ s, match m s with
       | (s', Ok a) => f a s'
       | (s', Raise e) => (s', Raise e)
       end.
Definition get {S} : ST S S := λ s, (s, Ok s).
Definition modify {S} (f : S → S) : ST S unit := λ s, (f s, Ok tt).
Definition lift {S A} (r : result A) : ST S A := λ s, (s, r).

Notation "'do' x ← a ; b" := (bind a (λ x, b))
  (at level 10, x name, a at level 100, b at level 200,
   format "'[v' 'do'  x  ←  a ;  '/' b ']'").

(** [[f(x) for x in l]] for a stateful [f]. *)
Fixpoint mmap {S A B} (f : A → ST S B) (l : list A) : ST S (list B) :=
  match l with
  | [] => ret []
  | x :: l' => do y ← f x; do ys ← mmap f l'; ret (y :: ys)
  end.

(** [for x in l: f(x)] *)
Fixpoint mfor {S A} (l : list A) (f : A → ST S unit) : ST S unit :=
  match l with
  | [] => ret tt
  | x :: l' => do _ ← f x; mfor l' f
  end.

(** [for x in l: acc = f(acc, x)] for a stateful [f]. *)
Fixpoint mfold {S A B} (f : B → A → ST S B) (b : B) (l : list A) : ST S B :=
  match l with
  | [] => ret b
  | x :: l' => do b' ← f b x; mfold f b' l'
  end.

(** The state after the computation [m] started in [s]. *)
Definition exec {S A} (m : ST S A) (s : S) : S := (m s).1.

(** A relation between the state before and after that every step keeps is
    kept by the computation, whether it returns or raises. *)
Definition keeps {S A} (P : S → S → Prop) (m : ST S A) : Prop :=
  ∀ s s' r, m s = (s', r) → P s s'.

(* ===================================================================== *)
(** * Values: the operators the [eval] methods use *)
(* ===================================================================== *)

(** Circuit values are Python objects (ints for boolean circuits, elements
    of the base ring for arithmetic ones).  The class lists the operators
    and conversions the embedded code applies to them.  The base ring itself
    is an external collaborator. *)
Class PyValue (V : Type) := {
  v_eq_dec :: EqDecision V;
  v_add : V → V → V;            (* a + b *)
  v_sub : V → V → V;            (* a - b *)
  v_mul : V → V → V;            (* a * b *)
  v_neg : V → V;                (* -a *)
  v_and : V → V → V;            (* a & b *)
  v_or : V → V → V;             (* a | b *)
  v_xor : V → V → V;            (* a ^ b *)
  v_int : V → result Z;         (* int(a) *)
  v_of_int : Z → V;             (* an int literal as a value *)
  integer_representation : V → Z;   (* a.integer_representation() *)
  ring_create : V → result V;   (* ConstManager.Arithmetic.create *)
  ring_output : V → V;          (* ConstManager.Arithmetic.output *)
}.

(** Python ints: the values of boolean circuits, and of arithmetic circuits
    over the integers. *)
#[export] Instance PyInt : PyValue Z := {|
  v_add := Z.add; v_sub := Z.sub; v_mul := Z.mul; v_neg := Z.opp;
  v_and := Z.land; v_or := Z.lor; v_xor := Z.lxor;
  v_int := Ok; v_of_int := λ z, z;
  integer_representation := λ z, z;
  ring_create := Ok; ring_output := λ z, z;
|}.

(* ===================================================================== *)
(** * Operations ([circkit/operation.py], [circkit/param.py]) *)
(* ===================================================================== *)

(** The operation classes of [Circuit.Operations],
    [ArithmeticCircuit.Operations] and [BooleanCircuit.Operations].
    [DIV], [EXP] and [INV] of arithmetic circuits, whose results may leave
    the ring, and the bitwise circuits are not embedded. *)
Inductive opname :=
  | INPUT | CONST | GET
  | ADD | SUB | MUL | NEG
  | AND | OR | XOR | NOT
  | LUT | RND.

#[export] Instance opname_eq_dec : EqDecision opname.
Proof. solve_decision. Defined.

(** The circuit classes; the three class attributes below are theirs. *)
Inductive CircuitClass :=
  | ArithmeticCircuit | OptArithmeticCircuit
  | BooleanCircuit | OptBooleanCircuit.

#[export] Instance CircuitClass_eq_dec : EqDecision CircuitClass.
Proof. solve_decision. Defined.

Definition is_boolean (cls : CircuitClass) : bool :=
  match cls with
  | BooleanCircuit | OptBooleanCircuit => true
  | _ => false
  end.

Definition CACHE_OPERATIONS (cls : CircuitClass) : bool :=
  match cls with
  | OptArithmeticCircuit | OptBooleanCircuit => true
  | _ => false
  end.

Definition CACHE_NODES (cls : CircuitClass) : bool :=
  match cls with
  | OptArithmeticCircuit | OptBooleanCircuit => true
  | _ => false
  end.

Definition PRECOMPUTE_CONSTANT_OPERATIONS (cls : CircuitClass) : bool :=
  match cls with
  | OptArithmeticCircuit | OptBooleanCircuit => true
  | _ => false
  end.

(** [cls.operations]: the operation classes reachable as [circuit.OP]. *)
Definition operations (cls : CircuitClass) : list opname :=
  if is_boolean cls
  then [INPUT; CONST; GET; AND; OR; XOR; NOT; LUT; RND]
  else [INPUT; CONST; GET; ADD; SUB; MUL; NEG; LUT; RND].

(** [Operation.n_inputs]: a fixed arity or [VARIABLE]. *)
Inductive arity := Fixed (n : nat) | VARIABLE.

Definition n_inputs (cls : CircuitClass) (op : opname) : arity :=
  match op with
  | INPUT | CONST | RND => Fixed 0
  | GET | NEG | NOT => Fixed 1
  | ADD | SUB | MUL | AND | OR | XOR => Fixed 2
  | LUT => if is_boolean cls then VARIABLE else Fixed 1
  end.

Definition SYMMETRIC (op : opname) : bool :=
  match op with
  | ADD | MUL | AND | OR | XOR => true
  | _ => false
  end.

Definition PRECOMPUTABLE (op : opname) : bool :=
  match op with
  | INPUT | RND => false
  | _ => true
  end.

(** The parameter descriptors of [param.py] that the operations declare. *)
Inductive Param := Param_InputName | Param_Const | Param_Int | Param_Tuple.

(** [_param_descriptions]: the annotated parameters of each operation class,
    in declaration order.  The boolean [LUT] declares none. *)
Definition _param_descriptions (cls : CircuitClass) (op : opname)
    : list (string * Param) :=
  match op with
  | INPUT => [("name", Param_InputName)]
  | CONST => [("value", Param_Const)]
  | GET => [("index", Param_Int)]
  | LUT => if is_boolean cls then [] else [("table", Param_Tuple)]
  | _ => []
  end.

Section circkit.
Context {V : Type} `{!PyValue V}.

(** Python values passed as operation parameters. *)
Inductive pyval :=
  | PStr (s : string)
  | PInt (z : Z)
  | PVal (v : V)
  | PTuple (t : list V).

#[export] Instance pyval_eq_dec : EqDecision pyval.
Proof. solve_decision. Defined.

(** An operation instance: its class name and its parameter slots. *)
Record Operation := mkOperation {
  _name : opname;
  _parameters : list (string * pyval);
}.

#[export] Instance Operation_eq_dec : EqDecision Operation.
Proof. solve_decision. Defined.

(** ** The constant managers ([const_manager.py]) *)

(** [BooleanConstManager.create]. *)
Definition Boolean_create (value : V) : result V :=
  try z ← v_int value;
  if bool_decide (z = 0%Z ∨ z = 1%Z) then Ok (v_of_int z) else Raise ValueError.

(** [circuit.const_manager.create]: boolean circuits use
    [ConstManager.Boolean], arithmetic ones the manager of their base
    ring. *)
Definition const_manager_create (cls : CircuitClass) (value : V) : result V :=
  if is_boolean cls then Boolean_create value else ring_create value.

Definition const_manager_output (cls : CircuitClass) (value : V) : V :=
  if is_boolean cls then value else ring_output value.

(** ** Parameters *)

(** [InputNameParam.create]: a [str] or an [int] is valid; on a tuple
    [is_valid] evaluates [all(...)] of a bool and raises [TypeError].  A
    circuit value as a name is valid when it is a Python [int] and rejected
    otherwise, which the embedding of the values does not tell. *)
Definition InputNameParam_create (value : pyval) : result pyval :=
  match value with
  | PStr _ | PInt _ => Ok value
  | PTuple _ => Raise TypeError
  | PVal _ => Raise NotEmbedded
  end.

(** [param.create(operation, value)]: [ConstParam] asks the constant
    manager, [IntParam] (without bounds) is [int(value)] and [TupleParam] is
    [tuple(value)].  [int] of a tuple and [tuple] of an [int] raise
    [TypeError].  A string is parsed by [int] and by the constant managers
    and split into a tuple of strings by [tuple], and the base ring decides
    about a tuple as a constant and about [tuple] of one of its elements:
    those results are not values of the embedding. *)
Definition Param_create (cls : CircuitClass) (p : Param) (value : pyval)
    : result pyval :=
  match p with
  | Param_InputName => InputNameParam_create value
  | Param_Const =>
      match value with
      | PVal v => try c ← const_manager_create cls v; Ok (PVal c)
      | PInt z => try c ← const_manager_create cls (v_of_int z); Ok (PVal c)
      | PTuple _ => if is_boolean cls then Raise TypeError
                    else Raise NotEmbedded
      | PStr _ => Raise NotEmbedded
      end
  | Param_Int =>
      match value with
      | PInt z => Ok (PInt z)
      | PVal v => try z ← v_int v; Ok (PInt z)
      | PTuple _ => Raise TypeError
      | PStr _ => Raise NotEmbedded
      end
  | Param_Tuple =>
      match value with
      | PTuple t => Ok (PTuple t)
      | PInt _ => Raise TypeError
      | PStr _ | PVal _ => Raise NotEmbedded
      end
  end.

(** First loop of [Operation.__init__]: positional values are matched with
    the descriptors in order; a descriptor without a value takes its
    default, and none of the embedded descriptors has one ([KeyError]). *)
Fixpoint bind_values (descrs : list (string * Param)) (values : list pyval)
    : result (list (string * Param * pyval)) :=
  match descrs, values with
  | [], _ => Ok []
  | (name, param) :: descrs', v :: values' =>
      try rest ← bind_values descrs' values';
      Ok ((name, param, v) :: rest)
  | _ :: _, [] => Raise KeyError
  end.

(** [Operation.__init__] with positional parameter values. *)
Definition Operation_init (cls : CircuitClass) (name : opname)
    (values : list pyval) : result Operation :=
  let descrs := _param_descriptions cls name in
  if bool_decide (length descrs < length values) then Raise TypeError else
  try kvalues ← bind_values descrs values;
  try slots ← rmap (λ '(pname, param, v),
                      try v' ← Param_create cls param v; Ok (pname, v'))
                   kvalues;
  Ok (mkOperation name slots).

(** [INPUT.__init__(self, name, ...)]: the name is a required argument of
    the override, so a call without values is a [TypeError]; the other
    values go on to [Operation.__init__].  The name [None], which asks for
    an unnamed input, is not among the embedded values. *)
Definition INPUT_init (cls : CircuitClass) (values : list pyval)
    : result Operation :=
  match values with
  | [] => Raise TypeError
  | _ :: _ => Operation_init cls INPUT values
  end.

(** [circuit.OP(values...)]: [getattr(circuit, OP)] and
    [OperationMeta.__call__], which calls the constructor of the operation
    class.  Operation instances are compared by value in the embedding, so
    the operation cache has no visible effect. *)
Definition new_Operation (cls : CircuitClass) (name : opname)
    (values : list pyval) : result Operation :=
  if bool_decide (name ∈ operations cls)
  then if bool_decide (name = INPUT)
       then INPUT_init cls values
       else Operation_init cls name values
  else Raise AttributeError.

(** Attribute access [op.attr] on an operation instance for a name that is
    not a class attribute: the parameter slots are the only instance
    attributes. *)
Definition Operation_getattr (op : Operation) (attr : string) : result pyval :=
  match list_find (λ kv, kv.1 = attr) (_parameters op) with
  | Some (_, (_, v)) => Ok v
  | None => Raise AttributeError
  end.

(** [op._cache_key]: the name with the frozen set of parameter keys; the
    slots are kept in declaration order, so the instance itself is the
    key. *)
Definition _cache_key (op : Operation) : Operation := op.

(** ** [eval] *)

(** [t[idx]] on a tuple: negative indices count from the end. *)
Definition py_index {A} (t : list A) (idx : Z) : result A :=
  let len := Z.of_nat (length t) in
  let i := if bool_decide (idx < 0)%Z then (len + idx)%Z else idx in
  if bool_decide (0 ≤ i < len)%Z
  then match t !! Z.to_nat i with Some x => Ok x | None => Raise IndexError end
  else Raise IndexError.

(** A parameter slot read as a circuit value. *)
Definition pyval_to_V (p : pyval) : result V :=
  match p with
  | PVal v => Ok v
  | PInt z => Ok (v_of_int z)
  | _ => Raise TypeError
  end.

(** [op.eval] on the argument values.  A call with the wrong number of arguments is a
    [TypeError].  [rnd] is the value the random source returns for this
    call ([randrange(2)], [base_ring.random_element()]).  No embedded value
    is subscriptable, so [GET.eval] raises; the boolean [LUT] reads
    [self.table], which it does not declare, and would index a tuple with a
    tuple. *)
Definition eval (cls : CircuitClass) (rnd : V) (op : Operation)
    (args : list V) : result V :=
  match _name op, args with
  | INPUT, [value] => Ok value
  | CONST, [] => try v ← Operation_getattr op "value"; pyval_to_V v
  | GET, [x] => Raise TypeError
  | ADD, [a; b] => Ok (v_add a b)
  | SUB, [a; b] => Ok (v_sub a b)
  | MUL, [a; b] => Ok (v_mul a b)
  | NEG, [a] => Ok (v_neg a)
  | AND, [a; b] => Ok (v_and a b)
  | OR, [a; b] => Ok (v_or a b)
  | XOR, [a; b] => Ok (v_xor a b)
  | NOT, [a] => Ok (v_xor (v_of_int 1) a)
  | LUT, _ =>
      if is_boolean cls then
        try table ← Operation_getattr op "table";
        Raise TypeError
      else
        match args with
        | [idx] =>
            try table ← Operation_getattr op "table";
            match table with
            | PTuple t => py_index t (integer_representation idx)
            | _ => Raise TypeError
            end
        | _ => Raise TypeError
        end
  | RND, [] => Ok rnd
  | _, _ => Raise TypeError
  end.

(* ===================================================================== *)
(** * Nodes and circuits ([circkit/node.py], [circkit/circuit.py]) *)
(* ===================================================================== *)

(** A node; [incoming] and [outgoing] hold the ids of the nodes they refer
    to.  Every embedded operation has [n_outputs = UNIT], so the field is
    left out, and so are the location and the info store. *)
Record Node := mkNode {
  id : nat;
  operation : Operation;
  incoming : list nat;
  outgoing : list nat;
}.

Definition set_outgoing (nodes : list nat) (nd : Node) : Node :=
  mkNode (id nd) (operation nd) (incoming nd) nodes.

Definition set_incoming (nodes : list nat) (nd : Node) : Node :=
  mkNode (id nd) (operation nd) nodes (outgoing nd).

(** [node.is_OP()] *)
Definition is_op (name : opname) (nd : Node) : bool :=
  bool_decide (_name (operation nd) = name).

(** The mutable state of a circuit.  [_input_names] is a set and
    [_nodes_cache] a dictionary from node cache keys to nodes; both are kept
    as lists searched with decidable equality. *)
Record Circuit := mkCircuit {
  cls : CircuitClass;
  nodes : list Node;
  inputs : list nat;
  outputs : list nat;
  node_counter : nat;
  _input_names : list pyval;
  _nodes_cache : list (list nat * Operation * nat);
}.

Definition set_nodes (f : list Node → list Node) (c : Circuit) : Circuit :=
  mkCircuit (cls c) (f (nodes c)) (inputs c) (outputs c) (node_counter c)
            (_input_names c) (_nodes_cache c).
Definition set_inputs (f : list nat → list nat) (c : Circuit) : Circuit :=
  mkCircuit (cls c) (nodes c) (f (inputs c)) (outputs c) (node_counter c)
            (_input_names c) (_nodes_cache c).
Definition set_outputs (f : list nat → list nat) (c : Circuit) : Circuit :=
  mkCircuit (cls c) (nodes c) (inputs c) (f (outputs c)) (node_counter c)
            (_input_names c) (_nodes_cache c).
Definition set_node_counter (n : nat) (c : Circuit) : Circuit :=
  mkCircuit (cls c) (nodes c) (inputs c) (outputs c) n
            (_input_names c) (_nodes_cache c).
Definition set_input_names (f : list pyval → list pyval) (c : Circuit)
    : Circuit :=
  mkCircuit (cls c) (nodes c) (inputs c) (outputs c) (node_counter c)
            (f (_input_names c)) (_nodes_cache c).
Definition set_nodes_cache
    (f : list (list nat * Operation * nat) → list (list nat * Operation * nat))
    (c : Circuit) : Circuit :=
  mkCircuit (cls c) (nodes c) (inputs c) (outputs c) (node_counter c)
            (_input_names c) (f (_nodes_cache c)).

(** [Circuit.__init__] / [clear]: an empty circuit of class [cls]. *)
Definition new_Circuit (cls : CircuitClass) : Circuit :=
  mkCircuit cls [] [] [] 0 [] [].

(** [base.clone_empty()] *)
Definition clone_empty (c : Circuit) : Circuit := new_Circuit (cls c).

(** The node object with a given id. *)
Definition find_node (c : Circuit) (i : nat) : option Node :=
  snd <$> list_find (λ nd, id nd = i) (nodes c).

(** ** The monad of circuit methods *)

(** A method gets the circuit and returns it, mutated, with a value or an
    exception. *)
Definition M (A : Type) : Type := ST Circuit A.

(** ** Node creation *)

Definition _get_next_node_id : M nat :=
  λ c, (set_node_counter (S (node_counter c)) c, Ok (node_counter c)).

(** [sub.add_outgoing(node)] on the node object [sub]. *)
Definition add_outgoing (sub node : nat) (ns : list Node) : list Node :=
  (λ nd, if bool_decide (id nd = sub)
         then set_outgoing (outgoing nd ++ [node]) nd else nd) <$> ns.

(** [Node.__init__]: takes the next id, stores the operation and the
    incoming tuple and registers itself with each parent, once per
    occurrence. *)
Definition Node_init (op : Operation) (incoming : list nat) : M Node :=
  do i ← _get_next_node_id;
  do _ ← modify (set_nodes (λ ns,
                   foldl (λ ns sub, add_outgoing sub i ns) ns incoming));
  ret (mkNode i op incoming []).

Definition _register_input_node (node : Node) : M unit :=
  modify (set_inputs (λ l, l ++ [id node])).

Definition _register_output_node (node : nat) : M unit :=
  modify (set_outputs (λ l, l ++ [node])).

Definition add_node (node : Node) : M unit :=
  do _ ← modify (set_nodes (λ ns, ns ++ [node]));
  if is_op INPUT node then _register_input_node node else ret tt.

(** Arguments of an operation call: a node of this circuit, a node of
    another circuit, or a bare value. *)
Inductive arg :=
  | ANode (n : nat)
  | AForeign
  | AValue (v : V).

(** [op.before_create_node(incoming...)]: [INPUT] refuses a name already in
    [_input_names] and records a new one; [GET] refuses a parent with
    [n_outputs = UNIT], which every embedded node has. *)
Definition before_create_node (op : Operation) (incoming : list nat)
    : M unit :=
  match _name op with
  | INPUT =>
      do name ← lift (Operation_getattr op "name");
      do c ← get;
      if bool_decide (name ∈ _input_names c)
      then raise KeyError
      else modify (set_input_names (λ s, name :: s))
  | GET => raise TypeError
  | _ => ret tt
  end.

(** The node cache key: the ids of the incoming nodes, sorted for a
    symmetric operation, with the operation's cache key. *)
Definition node_cache_key (op : Operation) (incoming : list nat)
    : list nat * Operation :=
  (if SYMMETRIC (_name op) then merge_sort (≤) incoming else incoming,
   _cache_key op).

(** [cache.get(key, None)] *)
Definition cache_get (key : list nat * Operation)
    (cache : list (list nat * Operation * nat)) : option nat :=
  (λ r, r.2.2) <$> list_find (λ kv, kv.1 = key) cache.

(** [cache[key] = node] *)
Definition cache_set (key : list nat * Operation) (node : nat)
    (cache : list (list nat * Operation * nat))
    : list (list nat * Operation * nat) :=
  (key, node) :: filter (λ kv, kv.1 ≠ key) cache.

(** [Operation.__call__] from the node cache probe on: probe, validation
    hook, node creation, registration, cache insert. *)
Definition create_node (op : Operation) (incoming : list nat) : M nat :=
  do c ← get;
  let cache_key := node_cache_key op incoming in
  match (if CACHE_NODES (cls c)
         then cache_get cache_key (_nodes_cache c) else None) with
  | Some node_old => ret node_old
  | None =>
      do _ ← before_create_node op incoming;
      do node ← Node_init op incoming;
      do _ ← add_node node;
      do _ ← (if CACHE_NODES (cls c)
              then modify (set_nodes_cache (cache_set cache_key (id node)))
              else ret tt);
      ret (id node)
  end.

(** [circuit.add_const(value)], that is [CONST(value)()].  With no incoming
    node the arity check of [__call__] passes and constant folding is
    skipped, so the call is [create_node]; [add_const_is_call] below
    states it for the embedded [__call__]. *)
Definition add_const (value : pyval) : M nat :=
  do c ← get;
  do op ← lift (new_Operation (cls c) CONST [value]);
  create_node op [].

(** [node.operation.value] of every incoming node, if all are [CONST]. *)
Definition const_values (c : Circuit) (incoming : list nat)
    : option (list pyval) :=
  mapM (λ i, nd ← find_node c i;
             if is_op CONST nd
             then match Operation_getattr (operation nd) "value" with
                  | Ok v => Some v
                  | Raise _ => None
                  end
             else None) incoming.

(** The constant-folding step of [__call__].  After [eval] the code reads
    [self.circuit]; an operation has the attribute [_circuit] and its
    parameter slots, so the read is a parameter lookup, and a parameter
    value has no [add_const]. *)
Definition precompute (op : Operation) (incoming : list nat)
    : M (option nat) :=
  do c ← get;
  if PRECOMPUTE_CONSTANT_OPERATIONS (cls c)
  then
    if PRECOMPUTABLE (_name op) && bool_decide (incoming ≠ [])
    then
      match const_values c incoming with
      | Some values =>
          do args ← lift (rmap pyval_to_V values);
          do value ← lift (eval (cls c) (v_of_int 0) op args);
          do circuit ← lift (Operation_getattr op "circuit");
          raise AttributeError
      | None => ret None
      end
    else ret None
  else ret None.

(** [Operation.__call__]: arity check, wrapping of bare values, constant
    folding, then [create_node]. *)
Definition Operation_call (op : Operation) (incoming : list arg) : M nat :=
  do c ← get;
  do _ ← (match n_inputs (cls c) (_name op) with
          | Fixed n => if bool_decide (length incoming = n)
                       then ret tt else raise TypeError
          | VARIABLE => ret tt
          end);
  do incoming2 ← mmap (λ value,
                         match value with
                         | ANode n => ret n
                         | AForeign => raise TypeError
                         | AValue v => add_const (PVal v)
                         end) incoming;
  do folded ← precompute op incoming2;
  match folded with
  | Some node => ret node
  | None => create_node op incoming2
  end.

(** [circuit.OP(values...)(incoming...)] *)
Definition apply (name : opname) (values : list pyval) (incoming : list arg)
    : M nat :=
  do c ← get;
  do op ← lift (new_Operation (cls c) name values);
  Operation_call op incoming.

(** [circuit.add_input(name)] with an explicit name. *)
Definition add_input (name : pyval) : M nat := apply INPUT [name] [].

(** [circuit.add_output(node)] for a node of this circuit: no embedded node
    is iterable, so the node is registered. *)
Definition add_output (node : nat) : M unit := _register_output_node node.

(** ** Evaluation *)

(** [mem[sub]] *)
Definition mem_get (mem : gmap nat V) (sub : nat) : result V :=
  match mem !! sub with Some v => Ok v | None => Raise KeyError end.

(** One round of the loop of [evaluate]; [rnd] gives the value each [RND]
    node draws. *)
Definition evaluate_node (cls : CircuitClass) (rnd : nat → V)
    (mem : gmap nat V) (node : Node) : result (gmap nat V) :=
  if is_op INPUT node then Ok mem else
  try args ← rmap (mem_get mem) (incoming node);
  try v ← eval cls (rnd (id node)) (operation node) args;
  Ok (<[id node := v]> mem).

(** [circuit.evaluate(input, convert_input, convert_output, with_mem=True)]:
    the outputs and the memory.  The input nodes are [INPUT] nodes, whose
    [eval] returns the given value. *)
Definition evaluate_with_mem (c : Circuit) (rnd : nat → V) (input : list V)
    (convert_input convert_output : bool) : result (list V * gmap nat V) :=
  if bool_decide (length input ≠ length (inputs c)) then Raise ValueError else
  try input ← (if convert_input
               then rmap (const_manager_create (cls c)) input
               else Ok input);
  let mem := foldl (λ m nv, <[nv.1 := nv.2]> m) ∅ (zip (inputs c) input) in
  try mem ← rfold (evaluate_node (cls c) rnd) mem (nodes c);
  try output ← rmap (mem_get mem) (outputs c);
  let output := if convert_output
                then const_manager_output (cls c) <$> output else output in
  Ok (output, mem).

Definition evaluate (c : Circuit) (rnd : nat → V) (input : list V)
    (convert_input convert_output : bool) : result (list V) :=
  try r ← evaluate_with_mem c rnd input convert_input convert_output;
  Ok r.1.


(* ===================================================================== *)
(** * In-place rewrites *)
(* ===================================================================== *)

(** [node.incoming] of the node object with id [i]; an id with no node in
    the list has no tracked edges. *)
Definition incoming_of (c : Circuit) (i : nat) : list nat :=
  match find_node c i with
  | Some nd => incoming nd
  | None => []
  end.

(** The inner loop of the search: every parent not yet in [used] is queued
    and marked. *)
Definition mark_incoming (subs : list nat) (st : list nat * gset nat)
    : list nat * gset nat :=
  foldl (λ st sub,
           if bool_decide (sub ∈ st.2) then st
           else (st.1 ++ [sub], {[sub]} ∪ st.2))
        st subs.

(** [while not q.empty()]: the queue is a list, its head is [q.get()].
    The loop is cut after [fuel] rounds; [used_nodes_total] shows that the
    fuel [search_fuel] is never used up. *)
Fixpoint search (fuel : nat) (c : Circuit) (q : list nat) (used : gset nat)
    : option (gset nat) :=
  match q with
  | [] => Some used
  | node :: q' =>
      match fuel with
      | 0 => None
      | S fuel' =>
          let st := mark_incoming (incoming_of c node) (q', used) in
          search fuel' c st.1 st.2
      end
  end.

Definition search_fuel (c : Circuit) : nat :=
  length (outputs c) + length (nodes c ≫= incoming).

(** The set [used] of [in_place_remove_unused_nodes]: the inputs, the
    outputs and everything reached backwards from the outputs. *)
Definition used_nodes (c : Circuit) : option (gset nat) :=
  search (search_fuel c) c (outputs c)
         (list_to_set (inputs c) ∪ list_to_set (outputs c)).

Definition in_place_remove_unused_nodes : M unit :=
  λ c,
    match used_nodes c with
    | None => (c, Raise RuntimeError)
    | Some used =>
        if bool_decide (size used = length (nodes c)) then (c, Ok tt) else
        let kept := filter (λ nd, id nd ∈ used) (nodes c) in
        let kept := (λ nd, set_outgoing
                             (filter (λ o, o ∈ used) (outgoing nd)) nd)
                    <$> kept in
        (set_nodes (λ _, kept) c, Ok tt)
    end.

(** ** Duplicate removal *)

(** Keys of the dictionary [seen]: the 128-bit hash values stored by
    [seen[h] = node], and node objects, which the membership test
    [node in seen] looks up.  A node hashes as its id and compares by
    identity, so it never equals an int key. *)
Inductive seen_key :=
  | KHash (h : Z)
  | KNode (node : nat).

#[export] Instance seen_key_eq_dec : EqDecision seen_key.
Proof. solve_decision. Defined.

(** [node_inc(node)] *)
Definition node_inc (nd : Node) : list nat :=
  if SYMMETRIC (_name (operation nd))
  then merge_sort (≤) (incoming nd) else incoming nd.

(** The locals of [in_place_remove_duplicate_nodes].  [store] holds the node
    objects of [self.nodes], which the surgery mutates; [new_order] lists
    positions in it; [sub] is the loop variable of [for sub in
    node.incoming], which stays bound after its loop. *)
Record dup_state := mkDup {
  store : list Node;
  seen : list (seen_key * nat);
  new_order : list nat;
  n_removed : nat;
  sub : option nat;
}.

(** Mutate the node object with id [i]. *)
Definition update_node (i : nat) (f : Node → Node) (ns : list Node)
    : list Node :=
  match list_find (λ nd, id nd = i) ns with
  | Some (k, nd) => <[k := f nd]> ns
  | None => ns
  end.

Definition replace_id (node node0 : nat) (l : list nat) : list nat :=
  (λ x, if bool_decide (x = node) then node0 else x) <$> l.

Section remove_duplicates.
(** [hash((tag, key))] of Python, for [tag] 0 and 1. *)
Variable py_hash : Z → Operation * list nat → Z.

(** One round of [for node in self], on the node object at position [k]. *)
Definition dup_visit (k : nat) : ST dup_state unit :=
  do st ← get;
  do node ← lift (match store st !! k with
                  | Some nd => Ok nd | None => Raise IndexError end);
  let key := (_cache_key (operation node), node_inc node) in
  let h := Z.lor (Z.lor 0 (Z.shiftl (py_hash 0 key) 64)) (py_hash 1 key) in
  match list_find (λ kv, kv.1 = KNode (id node)) (seen st) with
  | Some (_, (_, k0)) =>
      (* node0 = seen[node] *)
      do node0 ← lift (match store st !! k0 with
                       | Some nd => Ok nd | None => Raise IndexError end);
      if bool_decide (operation node0 ≠ operation node
                      ∨ node_inc node0 ≠ node_inc node)
      then raise RuntimeError
      else
        do _ ← modify (λ st, mkDup (store st) (seen st) (new_order st)
                                   (S (n_removed st)) (sub st));
        (* for sub in node.incoming: rewrite sub.outgoing *)
        do _ ← mfor (incoming node) (λ s,
                 modify (λ st,
                   mkDup (update_node s
                            (λ nd, set_outgoing
                                     (replace_id (id node) (id node0)
                                                 (outgoing nd)) nd)
                            (store st))
                         (seen st) (new_order st) (n_removed st) (Some s)));
        (* for out in node.outgoing: ...; sub.incoming = tuple(incoming) *)
        mfor (outgoing node) (λ out,
          do st ← get;
          let incoming' :=
            replace_id (id node) (id node0)
              (default [] (incoming <$>
                 (snd <$> list_find (λ nd, id nd = out) (store st)))) in
          match sub st with
          | None => raise UnboundLocalError
          | Some s =>
              modify (λ st, mkDup (update_node s (set_incoming incoming')
                                               (store st))
                                  (seen st) (new_order st) (n_removed st)
                                  (sub st))
          end)
  | None =>
      (* seen[h] = node; new_order.append(node) *)
      modify (λ st, mkDup (store st) ((KHash h, k) :: seen st)
                          (new_order st ++ [k]) (n_removed st) (sub st))
  end.

(** The node objects are shared with the circuit, so their mutations stay
    when the loop raises; [self.nodes[:] = new_order] runs only after a
    complete loop. *)
Definition in_place_remove_duplicate_nodes : M unit :=
  λ c,
    match mfor (seq 0 (length (nodes c))) dup_visit
               (mkDup (nodes c) [] [] 0 None) with
    | (st, Raise e) => (set_nodes (λ _, store st) c, Raise e)
    | (st, Ok _) =>
        (set_nodes (λ _, omap (λ k, store st !! k) (new_order st)) c, Ok tt)
    end.

End remove_duplicates.

(* ===================================================================== *)
(** * Rebuilding and composition *)
(* ===================================================================== *)

(** [d[k]] on a dictionary. *)
Definition dict_get {A} (d : gmap nat A) (k : nat) : result A :=
  match d !! k with Some v => Ok v | None => Raise KeyError end.

(** [operation.reapply(circuit)]: the operation class of the same name in
    the target circuit, instantiated with the same parameter values. *)
Definition Operation_reapply (op : Operation) : M Operation :=
  do c ← get;
  lift (new_Operation (cls c) (_name op) (snd <$> _parameters op)).

(** [node.reapply(incoming..., circuit=target)] for a target circuit other
    than the node's own, with incoming nodes of the target. *)
Definition Node_reapply (node : Node) (incoming : list nat) : M nat :=
  do operation ← Operation_reapply (operation node);
  Operation_call operation (ANode <$> incoming).

(** [self.reapply(circuit, input, do_output)], a method of the target
    circuit's state; [input] is [None] or a list of target nodes. *)
Definition reapply (self : Circuit) (input : option (list nat))
    (do_output : bool) : M (gmap nat nat) :=
  do rep ← (match input with
            | None | Some [] => ret ∅
            | Some input =>
                if bool_decide (length input ≠ length (inputs self))
                then raise ValueError
                else ret (foldl (λ m sd, <[sd.1 := sd.2]> m) (∅ : gmap nat nat)
                                (zip (inputs self) input))
            end);
  do m ← mfold (λ (m : gmap nat nat) node,
                  match rep !! id node with
                  | Some dst => ret (<[id node := dst]> m)
                  | None =>
                      do incoming ← lift (rmap (dict_get m) (incoming node));
                      do clone ← Node_reapply node incoming;
                      ret (<[id node := clone]> m)
                  end) ∅ (nodes self);
  do _ ← (if do_output
          then mfor (outputs self) (λ node,
                 do t ← lift (dict_get m node); add_output t)
          else ret tt);
  ret m.

(** Python sequences: the starred parameter and its slices are tuples. *)
Inductive pyseq (A : Type) :=
  | PyTuple (l : list A)
  | PyList (l : list A).
Arguments PyTuple {A} l.
Arguments PyList {A} l.

Definition items {A} (s : pyseq A) : list A :=
  match s with PyTuple l | PyList l => l end.

(** [s[::-1]] keeps the type of [s]. *)
Definition py_reversed {A} (s : pyseq A) : pyseq A :=
  match s with
  | PyTuple l => PyTuple (rev l)
  | PyList l => PyList (rev l)
  end.

(** [s.append(x)]: a tuple has no [append]. *)
Definition py_append {A} (s : pyseq A) (x : A) : result (pyseq A) :=
  match s with
  | PyList l => Ok (PyList (l ++ [x]))
  | PyTuple _ => Raise AttributeError
  end.

(** [self.compose(A, B, ...)]; [circuits] is the tuple of the arguments. *)
Definition compose (self : Circuit) (circuits : list Circuit)
    : result Circuit :=
  let circuits := py_reversed (PyTuple circuits) in
  try circuits ← py_append circuits self;
  match items circuits with
  | [] => Raise IndexError
  | base :: rest =>
      let C := clone_empty base in
      let r := reapply base None false C in
      try m ← r.2;
      try input ← rmap (dict_get m) (outputs base);
      try final ←
        rfold (λ (st : Circuit * list nat * Circuit) (io : nat * Circuit),
                 let '(C, input, base) := st in
                 let '(i, other) := io in
                 try _ ← assert (bool_decide (length (inputs other)
                                              = length (outputs base)));
                 let r := reapply self (Some input)
                            (bool_decide (i = length (items circuits) - 1)) C in
                 try m ← r.2;
                 try input ← rmap (dict_get m) (outputs other);
                 Ok (r.1, input, other))
              (r.1, input, base) (imap (λ i other, (i, other)) rest);
      Ok final.1.1
  end.

(* ===================================================================== *)
(** * Operator sugar on nodes *)
(* ===================================================================== *)

(** [node.is_CONST() and node.operation.value == z] *)
Definition is_const (c : Circuit) (node : nat) (z : Z) : bool :=
  match find_node c node with
  | Some nd => is_op CONST nd
               && bool_decide (Operation_getattr (operation nd) "value"
                               = Ok (PVal (v_of_int z)))
  | None => false
  end.

(** The head of the optimized operators: a right operand that is not a node
    of this class is wrapped into a constant. *)
Definition as_node (b : arg) : M nat :=
  match b with
  | ANode n => ret n
  | AForeign => raise AssertionError
  | AValue v => add_const (PVal v)
  end.

(** [a + b]: [Node.__add__] of the circuit class of [a]. *)
Definition Node_add (a : nat) (b : arg) : M nat :=
  do c ← get;
  match cls c with
  | ArithmeticCircuit => apply ADD [] [ANode a; b]
  | BooleanCircuit | OptBooleanCircuit => apply XOR [] [ANode a; b]
  | OptArithmeticCircuit =>
      do b ← as_node b;
      do c ← get;
      if is_const c b 0 then ret a
      else if is_const c a 0 then ret b
      else apply ADD [] [ANode a; ANode b]
  end.

(** [-a] *)
Definition Node_neg (a : nat) : M nat := apply NEG [] [ANode a].

(** [a - b] *)
Definition Node_sub (a : nat) (b : arg) : M nat :=
  do c ← get;
  match cls c with
  | ArithmeticCircuit => apply SUB [] [ANode a; b]
  | BooleanCircuit | OptBooleanCircuit => apply XOR [] [ANode a; b]
  | OptArithmeticCircuit =>
      do b ← as_node b;
      do c ← get;
      if is_const c b 0 then ret a
      else if is_const c a 0 then Node_neg b
      else apply SUB [] [ANode a; ANode b]
  end.

(** [a * b] *)
Definition Node_mul (a : nat) (b : arg) : M nat :=
  do c ← get;
  match cls c with
  | ArithmeticCircuit => apply MUL [] [ANode a; b]
  | BooleanCircuit | OptBooleanCircuit => apply AND [] [ANode a; b]
  | OptArithmeticCircuit =>
      do b ← as_node b;
      do c ← get;
      if is_const c b 0 then ret b
      else if is_const c b 1 then ret a
      else if is_const c a 0 then ret a
      else if is_const c a 1 then ret b
      else apply MUL [] [ANode a; ANode b]
  end.

(* ===================================================================== *)
(** * The ISW transformer ([transformers/core.py], [transformers/isw.py]) *)
(* ===================================================================== *)

(** What a visit stores in [self.result]: an [Array] of target nodes or a
    single target node. *)
Inductive tres :=
  | RArray (a : list nat)
  | RNode (n : nat).

(** [x[i]]: list indexing on an [Array]; a node is not iterable. *)
Definition tres_get (x : tres) (i : nat) : result nat :=
  match x with
  | RArray a => match a !! i with Some n => Ok n | None => Raise IndexError end
  | RNode _ => Raise TypeError
  end.

(** [z[i] = n] *)
Definition tres_set (z : tres) (i : nat) (n : nat) : result tres :=
  match z with
  | RArray a => if bool_decide (i < length a) then Ok (RArray (<[i := n]> a))
                else Raise IndexError
  | RNode _ => Raise TypeError
  end.

(** [x op y] for results: [Array._binary_operator] when [x] is an [Array],
    the node operator otherwise.  A node applied to an [Array] wraps the
    [Array] with [add_const], whose constant manager rejects it. *)
Definition tres_binop (op : nat → arg → M nat) (x y : tres) : M tres :=
  match x, y with
  | RArray xs, RArray ys =>
      if bool_decide (length ys ≠ length xs) then raise ValueError
      else do zs ← mmap (λ ab, op ab.1 (ANode ab.2)) (zip xs ys);
           ret (RArray zs)
  | RArray xs, RNode b =>
      do zs ← mmap (λ a, op a (ANode b)) xs; ret (RArray zs)
  | RNode a, RArray _ => raise TypeError
  | RNode a, RNode b => do z ← op a (ANode b); ret (RNode z)
  end.

(** [str(name)] inside the f-string of [visit_INPUT]; input names are
    strings or ints. *)
Definition py_str (name : pyval) : result string :=
  match name with
  | PStr s => Ok s
  | PInt z => Ok (pretty z)
  | _ => Raise TypeError
  end.

Section isw.
Variable order : nat.
Let n_shares := order + 1.

Definition visit_INPUT (node : Node) : M tres :=
  do shares ← mmap (λ i,
                      do name ← lift (Operation_getattr (operation node) "name");
                      do name ← lift (py_str name);
                      add_input (PStr (name +:+ "_share" +:+ pretty i)))
                   (seq 0 n_shares);
  ret (RArray shares).

Definition visit_ADD (node : Node) (x y : tres) : M tres :=
  tres_binop Node_add x y.

(** [r[i][j] = v] on the list of lists [r]; an entry is a node or the
    initial int [0] ([None]). *)
Definition r_set (r : list (list (option nat))) (i j : nat) (v : nat)
    : list (list (option nat)) :=
  alter (λ row, <[j := Some v]> row) i r.

Definition r_get (r : list (list (option nat))) (i j : nat)
    : result (option nat) :=
  match r !! i ≫= (λ row, row !! j) with
  | Some cell => Ok cell
  | None => Raise IndexError
  end.

Definition visit_MUL (node : Node) (x y : tres) : M tres :=
  let r := replicate n_shares (replicate n_shares None) in
  do r ← mfold (λ r i,
           mfold (λ r j,
                    do rij ← apply RND [] [];
                    let r := r_set r i j rij in
                    (* r[i][j] + x[i]*y[j] + x[j]*y[i] *)
                    do xi ← lift (tres_get x i);
                    do yj ← lift (tres_get y j);
                    do xiyj ← Node_mul xi (ANode yj);
                    do t ← Node_add rij (ANode xiyj);
                    do xj ← lift (tres_get x j);
                    do yi ← lift (tres_get y i);
                    do xjyi ← Node_mul xj (ANode yi);
                    do rji ← Node_add t (ANode xjyi);
                    ret (r_set r j i rji))
                 r (seq (i + 1) (n_shares - (i + 1))))
         r (seq 0 n_shares);
  do z ← tres_binop Node_mul x y;
  mfold (λ z i,
           mfold (λ z j,
                    if bool_decide (i ≠ j) then
                      do zi ← lift (tres_get z i);
                      do rij ← lift (r_get r i j);
                      do zi' ← Node_sub zi (match rij with
                                            | Some n => ANode n
                                            | None => AValue (v_of_int 0)
                                            end);
                      lift (tres_set z i zi')
                    else ret z)
                 z (seq 0 n_shares))
        z (seq 0 n_shares).

Definition visit_CONST (node : Node) : M tres :=
  do shares ← mmap (λ _, apply RND [] []) (seq 0 order);
  do value ← lift (Operation_getattr (operation node) "value");
  do c ← add_const value;
  do c ← mfold (λ c i,
                  match shares !! i with
                  | Some s => Node_add c (ANode s)
                  | None => raise IndexError
                  end) c (seq 0 order);
  ret (RArray (shares ++ [c])).

(** [Transformer.visit_GET]: [multi_result[node.operation.index]] *)
Definition visit_GET (node : Node) (multi_result : tres) : M tres :=
  match multi_result with
  | RArray a =>
      do index ← lift (Operation_getattr (operation node) "index");
      match index with
      | PInt z => do n ← lift (py_index a z); ret (RNode n)
      | _ => raise TypeError
      end
  | RNode _ => raise TypeError
  end.

(** [CircuitTransformer.visit_generic]: [node.reapply] on the results of the
    parents; it reads [.circuit] of each, which an [Array] does not have. *)
Definition visit_generic (node : Node) (args : list tres) : M tres :=
  do incoming ← lift (rmap (λ a, match a with
                                 | RNode n => Ok n
                                 | RArray _ => Raise AttributeError
                                 end) args);
  do clone ← Node_reapply node incoming;
  ret (RNode clone).

(** [Transformer.visit]: dispatch on the operation name; a visit method
    called with the wrong number of results raises [TypeError]. *)
Definition visit (node : Node) (args : list tres) : M tres :=
  match _name (operation node) with
  | INPUT => match args with [] => visit_INPUT node | _ => raise TypeError end
  | ADD | XOR =>
      match args with [x; y] => visit_ADD node x y | _ => raise TypeError end
  | MUL | AND =>
      match args with [x; y] => visit_MUL node x y | _ => raise TypeError end
  | CONST => match args with [] => visit_CONST node | _ => raise TypeError end
  | GET => match args with [m] => visit_GET node m | _ => raise TypeError end
  | _ => visit_generic node args
  end.

(** [CircuitTransformer.make_output] *)
Definition make_output (result : tres) : M unit :=
  match result with
  | RNode n => add_output n
  | RArray a => mfor a add_output
  end.

(** [Transformer.visit_all] and the output loop of [transform], on the
    target circuit. *)
Definition transform_body (source : Circuit) : M unit :=
  do result ← mfold (λ (result : gmap nat tres) node,
                       do args ← lift (rmap (dict_get result) (incoming node));
                       do r ← visit node args;
                       ret (<[id node := r]> result))
                    ∅ (nodes source);
  mfor (outputs source) (λ node,
    do r ← lift (dict_get result node); make_output r).

(** [IswOnArithmetic(order).transform(source)]: the target circuit is a new
    circuit of the class of the source. *)
Definition IswOnArithmetic_transform (source : Circuit) : result Circuit :=
  let r := transform_body source (new_Circuit (cls source)) in
  try _ ← r.2; Ok r.1.

End isw.

(* ===================================================================== *)
(** * The raw serializer ([wboxkit/serialize.py]) *)
(* ===================================================================== *)

(** The options of [RawSerializer] that can be overridden at
    initialization; [little] is the endianness [endian = "<"]. *)
Record Options := mkOptions {
  bytes_op : nat;
  bytes_input : nat;
  bytes_output : nat;
  bytes_addr : nat;
  little : bool;
  reuse_memory : bool;
}.

Definition default_options : Options := mkOptions 1 1 1 2 true true.

(** [FORMATS[width]] is defined for 1, 2, 4 and 8 bytes. *)
Definition FORMATS (width : nat) : result nat :=
  if bool_decide (width ∈ [1; 2; 4; 8]) then Ok width else Raise KeyError.

Definition byte_of_Z (z : Z) : Byte.byte :=
  default Byte.x00 (Byte.of_N (Z.to_N z)).

(** The [width] little-endian bytes of [z]. *)
Fixpoint le_bytes (width : nat) (z : Z) : list Byte.byte :=
  match width with
  | 0 => []
  | S w => byte_of_Z (z `mod` 256) :: le_bytes w (z `div` 256)
  end.

(** [struct.pack] of one unsigned integer; a value out of range raises
    [struct.error]. *)
Definition pack_int (o : Options) (width : nat) (z : Z)
    : result (list Byte.byte) :=
  if bool_decide (0 ≤ z < 2 ^ (8 * Z.of_nat width))%Z
  then Ok (if little o then le_bytes width z else rev (le_bytes width z))
  else Raise StructError.

(** [self.pack(format, args...)]; no argument gives the empty string. *)
Definition pack (o : Options) (width : nat) (args : list Z)
    : result (list Byte.byte) :=
  try bs ← rmap (pack_int o width) args; Ok (mjoin bs).

(** [operation._name] as the string the code looks up. *)
Definition opname_str (op : opname) : string :=
  match op with
  | INPUT => "INPUT" | CONST => "CONST" | GET => "GET"
  | ADD => "ADD" | SUB => "SUB" | MUL => "MUL" | NEG => "NEG"
  | AND => "AND" | OR => "OR" | XOR => "XOR" | NOT => "NOT"
  | LUT => "LUT" | RND => "RND"
  end.

(** [RawSerializer.opmap]: [dict(XOR=1, AND=2, OR=3, NOT=4,
    RANDOM=5).__getitem__]. *)
Definition opmap (name : string) : result Z :=
  if bool_decide (name = "XOR") then Ok 1%Z
  else if bool_decide (name = "AND") then Ok 2%Z
  else if bool_decide (name = "OR") then Ok 3%Z
  else if bool_decide (name = "NOT") then Ok 4%Z
  else if bool_decide (name = "RANDOM") then Ok 5%Z
  else Raise KeyError.

(** The attributes of a serializer during a run; [result] is the visit
    record of [Transformer] (every visit returns [None]). *)
Record Serializer := mkSerializer {
  free : list nat;
  bit_id : gmap nat nat;
  ram_size : nat;
  code : list (list Byte.byte);
  n_used : gmap nat nat;
  result_of : gmap nat unit;
}.

(** [before_transform] *)
Definition Serializer_init : Serializer := mkSerializer [] ∅ 0 [] ∅ ∅.

(** [l.pop()] on a non-empty list. *)
Definition list_pop {A} (l : list A) : result (list A * A) :=
  match last l with
  | Some x => Ok (removelast l, x)
  | None => Raise IndexError
  end.

Definition alloc (bit : nat) : ST Serializer unit :=
  do _ ← modify (λ s, if bool_decide (free s = [])
                      then mkSerializer (free s ++ [ram_size s]) (bit_id s)
                             (S (ram_size s)) (code s) (n_used s) (result_of s)
                      else s);
  do s ← get;
  do p ← lift (list_pop (free s));
  modify (λ s, mkSerializer p.1 (<[bit := p.2]> (bit_id s)) (ram_size s)
                 (code s) (n_used s) (result_of s)).

Section serializer.
Variable o : Options.
Variable source_circuit : Circuit.

(** [bit.is_OUTPUT()] *)
Definition is_OUTPUT (bit : nat) : bool :=
  bool_decide (bit ∈ outputs source_circuit).

(** [len(arg.outgoing)] *)
Definition n_outgoing (arg : nat) : nat :=
  match find_node source_circuit arg with
  | Some nd => length (outgoing nd)
  | None => 0
  end.

(** [RawSerializer.on_free]: outputs are kept; otherwise
    [Serializer.on_free].  ["free"] is in [ignore_ops], so nothing is
    emitted. *)
Definition on_free (bit : nat) : ST Serializer unit :=
  if is_OUTPUT bit then ret tt else
  if reuse_memory o then
    do s ← get;
    match bit_id s !! bit with
    | None => raise AssertionError
    | Some cell =>
        modify (λ s, mkSerializer (free s ++ [cell]) (bit_id s) (ram_size s)
                       (code s) (n_used s) (result_of s))
    end
  else ret tt.

(** [self.bit_id[bit]] *)
Definition bit_id_get (s : Serializer) (bit : nat) : result Z :=
  match bit_id s !! bit with
  | Some cell => Ok (Z.of_nat cell)
  | None => Raise KeyError
  end.

Definition serialize_bit (bit : Node) : ST Serializer unit :=
  do s ← get;
  do opc ← lift (opmap (opname_str (_name (operation bit))));
  do format_op ← lift (FORMATS (bytes_op o));
  do format_addr ← lift (FORMATS (bytes_addr o));
  do b_op ← lift (pack o format_op [opc]);
  do dst ← lift (bit_id_get s (id bit));
  do b_dst ← lift (pack o format_addr [dst]);
  do b_src ← (if bool_decide (incoming bit ≠ [])
              then do srcs ← lift (rmap (bit_id_get s) (incoming bit));
                   lift (pack o format_addr srcs)
              else ret []);
  modify (λ s, mkSerializer (free s) (bit_id s) (ram_size s)
                 (code s ++ [b_op ++ b_dst ++ b_src]) (n_used s)
                 (result_of s)).

(** [visit_INPUT]: the input is allocated; [serialize_input] does
    nothing. *)
Definition Serializer_visit_INPUT (bit : Node) : ST Serializer unit :=
  alloc (id bit).

Definition Serializer_visit_generic (bit : Node) : ST Serializer unit :=
  do _ ← alloc (id bit);
  do _ ← serialize_bit bit;
  mfor (incoming bit) (λ arg,
    do _ ← modify (λ s, mkSerializer (free s) (bit_id s) (ram_size s) (code s)
                          (<[arg := S (default 0 (n_used s !! arg))]> (n_used s))
                          (result_of s));
    do s ← get;
    let used := default 0 (n_used s !! arg) in
    do _ ← lift (assert (bool_decide (used ≤ n_outgoing arg)));
    if bool_decide (used = n_outgoing arg) then on_free arg else ret tt).

(** [Transformer.visit] for the serializer: the results of the parents are
    looked up first; [visit_GET] of [Transformer] subscripts the result of
    the parent, which is [None]. *)
Definition Serializer_visit (node : Node) : ST Serializer unit :=
  do s ← get;
  do _ ← lift (rmap (dict_get (result_of s)) (incoming node));
  do _ ← (match _name (operation node) with
          | INPUT => match incoming node with
                     | [] => Serializer_visit_INPUT node
                     | _ => raise TypeError
                     end
          | GET => raise TypeError
          | _ => Serializer_visit_generic node
          end);
  modify (λ s, mkSerializer (free s) (bit_id s) (ram_size s) (code s)
                 (n_used s) (<[id node := tt]> (result_of s))).

(** What a finished run leaves: the attributes set by [after_transform] and
    the two lists [serialize] returns. *)
Record Serialized := mkSerialized {
  info : list Z;
  input_addr : list Z;
  output_addr : list Z;
  header : list (list Byte.byte);
  code_out : list (list Byte.byte);
}.

(** [RawSerializer.after_transform] *)
Definition after_transform (s : Serializer) : result Serialized :=
  let info := [Z.of_nat (length (inputs source_circuit));
               Z.of_nat (length (outputs source_circuit));
               Z.of_nat (length (code s));
               Z.of_nat (sum_list (length <$> code s));
               Z.of_nat (ram_size s)] in
  try input_addr ← rmap (bit_id_get s) (inputs source_circuit);
  try output_addr ← rmap (bit_id_get s) (outputs source_circuit);
  try _ ← assert (bool_decide
                    (size (list_to_set input_addr : gset Z)
                     = length (inputs source_circuit)));
  try _ ← assert (bool_decide
                    (size (list_to_set output_addr : gset Z)
                     = length (outputs source_circuit)));
  try format_addr ← FORMATS (bytes_addr o);
  try h_info ← pack o 8 info;
  try h_in ← pack o format_addr input_addr;
  try h_out ← pack o format_addr output_addr;
  Ok (mkSerialized info input_addr output_addr [h_info; h_in; h_out]
                   (code s)).

(** [Transformer.visit_all] over [list(circuit)]. *)
Definition Serializer_visit_all : ST Serializer unit :=
  mfor (nodes source_circuit) Serializer_visit.

(** [RawSerializer(options).serialize(circuit)]: initialization, the visits,
    the output loop (which reads [self.result[node]]; [make_output] does
    nothing) and [after_transform]. *)
Definition serialize : result Serialized :=
  try _ ← FORMATS (bytes_op o);
  try _ ← FORMATS (bytes_input o);
  try _ ← FORMATS (bytes_output o);
  try _ ← FORMATS (bytes_addr o);
  let r := Serializer_visit_all Serializer_init in
  try _ ← r.2;
  try _ ← rmap (dict_get (result_of r.1)) (outputs source_circuit);
  after_transform r.1.

End serializer.

(** ** Execution of the emitted program *)









(* ===================================================================== *)
(** * Invariants and relations of the proofs *)
(* ===================================================================== *)

Definition hash_keys_only (st : dup_state) : Prop :=
  Forall (λ kv, ∃ h, kv.1 = KHash h) (seen st).

Definition same_ram (s s' : Serializer) : Prop := ram_size s' = ram_size s.

(** Forward and backward edges agree on the nodes of the circuit. *)
Definition edges_agree c : Prop :=
  ∀ u v, u ∈ nodes c → v ∈ nodes c →
         (id v ∈ outgoing u ↔ id u ∈ incoming v).

(** What node creation and the in-place rewrites maintain. *)
Record circuit_inv c : Prop := mkInv {
  inv_ids : ∀ nd, nd ∈ nodes c → id nd < node_counter c;
  inv_nodup : NoDup (id <$> nodes c);
  inv_out : ∀ nd o, nd ∈ nodes c → o ∈ outgoing nd → o < node_counter c;
  inv_inc : ∀ nd p, nd ∈ nodes c → p ∈ incoming nd → p < node_counter c;
  inv_edges : edges_agree c;
  inv_cache : ∀ kv, kv ∈ _nodes_cache c → kv.2 < node_counter c;
  inv_inputs : ∀ nd, nd ∈ nodes c → id nd ∈ inputs c → is_op INPUT nd = true;
  inv_inputs_lt : ∀ i, i ∈ inputs c → i < node_counter c;
  inv_input_inc : ∀ nd, nd ∈ nodes c → is_op INPUT nd = true → incoming nd = [];
  inv_inputs_order :
    inputs c = id <$> filter (λ nd, is_op INPUT nd = true) (nodes c);
}.

(** An argument of a call is a bare value or a node this circuit has
    created. *)
Definition arg_ok c (a : arg) : Prop :=
  match a with
  | ANode n => n < node_counter c
  | _ => True
  end.

(** The circuits that the construction interface and the rewrites produce. *)
Inductive reachable : Circuit → Prop :=
  | reach_new cls : reachable (new_Circuit cls)
  | reach_call c op args :
      reachable c → Forall (arg_ok c) args →
      reachable (exec (Operation_call op args) c)
  | reach_output c n :
      reachable c → reachable (exec (add_output n) c)
  | reach_unused c :
      reachable c → reachable (exec in_place_remove_unused_nodes c)
  | reach_duplicate py_hash c :
      reachable c →
      reachable (exec (in_place_remove_duplicate_nodes py_hash) c).

(** The nodes after [Node.__init__] has registered the new node [i] with
    its parents. *)
Definition with_child (inc : list nat) (i : nat) nd : Node :=
  set_outgoing (outgoing nd ++ ((λ _, i) <$> filter (λ p, p = id nd) inc)) nd.

(** The circuit after [Node.__init__] and [add_node] for a new node with
    operation [op] and parents [inc]. *)
Definition created (op : Operation) (inc : list nat) c : Circuit :=
  let i := node_counter c in
  mkCircuit (cls c)
    ((with_child inc i <$> nodes c) ++ [mkNode i op inc []])
    (if bool_decide (_name op = INPUT) then inputs c ++ [i] else inputs c)
    (outputs c) (S i) (_input_names c) (_nodes_cache c).

(** The outcome of a call that builds nodes: the invariant is kept, no id is
    taken back, and a returned value satisfies [Q], also when the call
    raises half-way. *)
Definition builds {A} (m : M A) (P : Circuit → Prop)
    (Q : A → Circuit → Prop) : Prop :=
  ∀ c c' r, circuit_inv c → P c → m c = (c', r) →
    circuit_inv c' ∧ node_counter c ≤ node_counter c'
    ∧ ∀ a, r = Ok a → Q a c'.

Definition created_node (n : nat) c : Prop := n < node_counter c.

(** The circuit [in_place_remove_unused_nodes] leaves for the set [used]. *)
Definition pruned (used : gset nat) c : Circuit :=
  set_nodes (λ ns,
    (λ nd, set_outgoing (filter (λ o, o ∈ used) (outgoing nd)) nd)
    <$> filter (λ nd, id nd ∈ used) ns) c.

Definition universe c : gset nat := list_to_set (nodes c ≫= incoming).

(** A set is closed when it holds the inputs and the outputs and, with
    every node that is not an input, its parents. *)
Definition closed c (used : gset nat) : Prop :=
  (∀ i, i ∈ inputs c → i ∈ used)
  ∧ (∀ o, o ∈ outputs c → o ∈ used)
  ∧ ∀ v, v ∈ used → v ∈ inputs c ∨ ∀ p, p ∈ incoming_of c v → p ∈ used.

(** A node feeds an output when it is reached backwards from an output. *)
Inductive feeds_output c : nat → Prop :=
  | feeds_self o : o ∈ outputs c → feeds_output c o
  | feeds_parent nd p :
      nd ∈ nodes c → feeds_output c (id nd) → p ∈ incoming nd →
      feeds_output c p.

Definition agree (used : gset nat) (m1 m2 : gmap nat V) : Prop :=
  ∀ i, i ∈ used → m1 !! i = m2 !! i.

(* ===================================================================== *)
(** * Masking: sums of shares and the circuits under construction *)
(* ===================================================================== *)

(** The operators behind [+], [*] and [-] on the nodes of a circuit of
    class [cl]. *)
Definition v_plus (cl : CircuitClass) : V → V → V :=
  if is_boolean cl then v_xor else v_add.
Definition v_times (cl : CircuitClass) : V → V → V :=
  if is_boolean cl then v_and else v_mul.
Definition v_minus (cl : CircuitClass) : V → V → V :=
  if is_boolean cl then v_xor else v_sub.
Definition v_zero : V := v_of_int 0.

(** The sum of a list of shares. *)
Definition share_sum (cl : CircuitClass) (l : list V) : V := foldr (v_plus cl) v_zero l.

(** [m] values, each the sum of the next [n] shares of [l]. *)
Definition share_sums (cl : CircuitClass) (n m : nat) (l : list V) : list V :=
  (λ k, share_sum cl (take n (drop (k * n) l))) <$> seq 0 m.

(** The value domain of the class has characteristic 2: addition is
    commutative and associative with neutral element 0, every value is its
    own opposite, subtraction is addition, multiplication distributes, and
    the constant manager returns the values it accepts unchanged. *)
Record masking_laws (cl : CircuitClass) : Prop := mkLaws {
  plus_comm : ∀ a b, v_plus cl a b = v_plus cl b a;
  plus_assoc : ∀ a b c, v_plus cl a (v_plus cl b c) = v_plus cl (v_plus cl a b) c;
  plus_zero : ∀ a, v_plus cl v_zero a = a;
  plus_self : ∀ a, v_plus cl a a = v_zero;
  minus_plus : ∀ a b, v_minus cl a b = v_plus cl a b;
  times_plus_l : ∀ a b c,
    v_times cl (v_plus cl a b) c = v_plus cl (v_times cl a c) (v_times cl b c);
  times_plus_r : ∀ a b c,
    v_times cl a (v_plus cl b c) = v_plus cl (v_times cl a b) (v_times cl a c);
  create_fixed : ∀ v v', const_manager_create cl v = Ok v' → v' = v;
}.

(** The circuit classes without caching and constant folding. *)
Definition plain (cl : CircuitClass) : Prop :=
  cl = ArithmeticCircuit ∨ cl = BooleanCircuit.

(** The operations behind [+], [*] and [-] on the nodes of the class. *)
Definition add_op (cl : CircuitClass) : opname :=
  if is_boolean cl then XOR else ADD.
Definition mul_op (cl : CircuitClass) : opname :=
  if is_boolean cl then AND else MUL.
Definition sub_op (cl : CircuitClass) : opname :=
  if is_boolean cl then XOR else SUB.

(** The operations of the class that the ISW transformer has a visit method
    for. *)
Definition supported (c : Circuit) : Prop :=
  ∀ nd, nd ∈ nodes c →
        _name (operation nd) ∈ [INPUT; CONST; add_op (cls c); mul_op (cls c)].

(** ** Circuits under construction *)

(** What evaluation reads of a node. *)
Definition entry (nd : Node) : nat * Operation * list nat :=
  (id nd, operation nd, incoming nd).

Definition skeleton (c : Circuit) : list (nat * Operation * list nat) :=
  entry <$> nodes c.

(** [c'] extends [c]: it has the nodes, inputs and outputs of [c] and more
    after them. *)
Definition extends (c c' : Circuit) : Prop :=
  skeleton c `prefix_of` skeleton c'
  ∧ inputs c `prefix_of` inputs c'
  ∧ outputs c `prefix_of` outputs c'
  ∧ cls c' = cls c
  ∧ node_counter c ≤ node_counter c'.

(** A node whose evaluation cannot fail. *)
Definition total (cl : CircuitClass) (nd : Node) : Prop :=
  is_op INPUT nd = false →
  ∀ r args, length args = length (incoming nd) →
            ∃ v, eval cl r (operation nd) args = Ok v.

(** A freshly built circuit of a plain class: the ids are the positions,
    parents come first, and every node evaluates. *)
Record well_built (cl : CircuitClass) (c : Circuit) : Prop := mkFresh {
  fresh_cls : cls c = cl;
  fresh_ids : id <$> nodes c = seq 0 (node_counter c);
  fresh_inc : ∀ nd p, nd ∈ nodes c → p ∈ incoming nd → p < id nd;
  fresh_inputs :
    inputs c = id <$> filter (λ nd, is_op INPUT nd = true) (nodes c);
  fresh_total : ∀ nd, nd ∈ nodes c → total cl nd;
}.

(** The value of node [i] in the memory of an evaluation. *)
Definition val (mem : gmap nat V) (i : nat) : V := default v_zero (mem !! i).

(** The memory [mem] satisfies the equations of the circuit: every node
    that is not an input holds the value of its operation on the values of
    its parents, and the input nodes hold the values of [xs]. *)
Definition sem (cl : CircuitClass) (rnd : nat → V) (mem : gmap nat V)
    (xs : list V) (c : Circuit) : Prop :=
  (∀ i op inc, (i, op, inc) ∈ skeleton c → _name op ≠ INPUT →
     eval cl (rnd i) op (val mem <$> inc) = Ok (val mem i))
  ∧ (∀ p t x, inputs c !! p = Some t → xs !! p = Some x → val mem t = x).

(** A call that returns keeps the circuit fresh, only adds nodes that are
    not inputs, and establishes [Q]. *)
Definition step (cl : CircuitClass) {A} (m : M A) (c : Circuit)
    (Q : A → Circuit → Prop) : Prop :=
  ∀ c' a, m c = (c', Ok a) →
    well_built cl c' ∧ extends c c' ∧ inputs c' = inputs c
    ∧ outputs c' = outputs c ∧ Q a c'.

(** The sum of [f 0 .. f (n-1)]. *)
Fixpoint bsum (cl : CircuitClass) (f : nat → V) (n : nat) : V :=
  match n with
  | 0 => v_zero
  | S n => v_plus cl (bsum cl f n) (f n)
  end.

(** The value of share [i] of a product after the first [m] rounds of the
    second loop of [visit_MUL]: the product of the shares with the cells
    [d i j] of the other columns subtracted. *)
Definition row_fold (cl : CircuitClass) (d : nat → nat → V) (xy : V)
    (i m : nat) : V :=
  foldl (λ acc j, if bool_decide (i ≠ j) then v_minus cl acc (d i j) else acc)
        xy (seq 0 m).

(** An array of [n] nodes of the circuit. *)
Definition arr (n : nat) (c : Circuit) (a : list nat) : Prop :=
  length a = n ∧ Forall (λ i, i < node_counter c) a.

(** The value an array of shares stands for. *)
Definition sumv (cl : CircuitClass) (mem : gmap nat V) (a : list nat) : V :=
  share_sum cl (val mem <$> a).

(** The result of a visit: an array of [n] shares whose sum is [v] in
    every memory that satisfies the circuit. *)
Definition shares_of (cl : CircuitClass) (rnd : nat → V) (mem : gmap nat V)
    (xs : list V) (n : nat) (v : V) (r : tres) (c : Circuit) : Prop :=
  ∃ z, r = RArray z ∧ arr n c z
       ∧ (sem cl rnd mem xs c → sumv cl mem z = v).

(** The value of share [i] of an array. *)
Definition nthv (mem : gmap nat V) (a : list nat) (i : nat) : V :=
  nth i (val mem <$> a) v_zero.

(** The table [r] of [visit_MUL] has [n] rows of [n] cells. *)
Definition shape (n : nat) (r : list (list (option nat))) : Prop :=
  length r = n ∧ Forall (λ row, length row = n) r.

(** The value of the cell [r[i][j]]. *)
Definition cell (mem : gmap nat V) (r : list (list (option nat)))
    (i j : nat) : V :=
  match r_get r i j with
  | Ok (Some a) => val mem a
  | _ => v_zero
  end.

(** The cells [r[i][j]] and [r[j][i]] are filled, with
    [r[j][i] = r[i][j] + x[i]*y[j] + x[j]*y[i]]. *)
Definition good (cl : CircuitClass) (rnd : nat → V) (mem : gmap nat V)
    (xs : list V) (ax ay : list nat) (r : list (list (option nat)))
    (c : Circuit) (i j : nat) : Prop :=
  ∃ a b, r_get r i j = Ok (Some a) ∧ r_get r j i = Ok (Some b)
    ∧ a < node_counter c ∧ b < node_counter c
    ∧ (sem cl rnd mem xs c →
       val mem b
       = v_plus cl (v_plus cl (val mem a)
                          (v_times cl (nthv mem ax i) (nthv mem ay j)))
                 (v_times cl (nthv mem ax j) (nthv mem ay i))).

(** The first loop of [visit_MUL] after [k] rows and [m] more cells. *)
Definition rows_done (cl : CircuitClass) (rnd : nat → V) (mem : gmap nat V)
    (xs : list V) (n : nat) (ax ay : list nat) (k m : nat)
    (r : list (list (option nat))) (c : Circuit) : Prop :=
  shape n r
  ∧ ∀ i j, i < j < n → i < k ∨ (i = k ∧ j < k + 1 + m) →
           good cl rnd mem xs ax ay r c i j.

(** How many rounds of the inner loop share [i] has seen when the second
    loop of [visit_MUL] has done [k] rows and [m] more rounds. *)
Definition progress (n k m i : nat) : nat :=
  if bool_decide (i < k) then n else if bool_decide (i = k) then m else 0.

(** The second loop of [visit_MUL] after [k] rows and [m] more rounds. *)
Definition rows_subtracted (cl : CircuitClass) (rnd : nat → V)
    (mem : gmap nat V) (xs : list V) (n : nat) (ax ay : list nat)
    (r : list (list (option nat))) (k m : nat) (z : tres)
    (c : Circuit) : Prop :=
  ∃ az, z = RArray az ∧ arr n c az
    ∧ (sem cl rnd mem xs c → ∀ i, i < n →
       nthv mem az i
       = row_fold cl (cell mem r)
           (v_times cl (nthv mem ax i) (nthv mem ay i)) i (progress n k m i)).

(** The main loop of the transformer after the nodes [pre] of the source:
    the target is fresh and has [n] inputs for every input of [pre], and
    the result of every visited node [p] is an array of shares of the
    value [p] has in the memory [mem_s] of the source. *)
Definition visited (cl : CircuitClass) (rnd : nat → V) (mem : gmap nat V)
    (xs : list V) (n : nat) (mem_s : gmap nat V) (pre : list (Node))
    (res : gmap nat tres) (c : Circuit) : Prop :=
  well_built cl c ∧ outputs c = []
  ∧ length (inputs c)
    = n * length (filter (λ nd, is_op INPUT nd = true) pre)
  ∧ ∀ p r, res !! p = Some r →
           shares_of cl rnd mem xs n (val mem_s p) r c.

End circkit.

(** An input name is a string or an int. *)
Definition is_input_name {V} `{!PyValue V} (name : pyval (V:=V)) : bool :=
  match name with
  | PStr _ | PInt _ => true
  | _ => false
  end.

(** The node cache key of the input [name]. *)
Definition input_cache_key {V} `{!PyValue V} (name : pyval (V:=V))
    : list nat * Operation :=
  ([], mkOperation INPUT [("name", name)]).

(* ===================================================================== *)
(** * Example circuits *)
(* ===================================================================== *)

(** [y = (a AND b) XOR c] as a boolean circuit. *)
Definition and_xor_circuit : Circuit (V:=Z) :=
  exec (do a ← add_input (PStr "a");
        do b ← add_input (PStr "b");
        do c ← add_input (PStr "c");
        do t ← apply AND [] [ANode a; ANode b];
        do y ← apply XOR [] [ANode t; ANode c];
        add_output y)
       (new_Circuit BooleanCircuit).

(** [y = (a + b) * (a + b)] with the sum built twice, as an arithmetic
    circuit over the integers. *)
Definition twice_sum_circuit : Circuit (V:=Z) :=
  exec (do a ← add_input (PStr "a");
        do b ← add_input (PStr "b");
        do s1 ← apply ADD [] [ANode a; ANode b];
        do s2 ← apply ADD [] [ANode a; ANode b];
        do y ← apply MUL [] [ANode s1; ANode s2];
        add_output y)
       (new_Circuit ArithmeticCircuit).

(** A boolean circuit [y = a XOR r] with a random bit [r]. *)
Definition masked_bit_circuit : Circuit (V:=Z) :=
  exec (do a ← add_input (PStr "a");
        do r ← apply RND [] [];
        do y ← apply XOR [] [ANode a; ANode r];
        add_output y)
       (new_Circuit BooleanCircuit).

(** An optimized boolean circuit holding the constants 0 and 1. *)
Definition two_consts_circuit : Circuit (V:=Z) :=
  exec (do c0 ← add_const (PInt 0); do c1 ← add_const (PInt 1); ret tt)
       (new_Circuit OptBooleanCircuit).

(** An optimized boolean circuit with the input [x]. *)
Definition one_input_opt_circuit : Circuit (V:=Z) :=
  exec (add_input (PStr "x")) (new_Circuit OptBooleanCircuit).

(** [out = a XOR b] in a boolean circuit that also holds the unused node
    [a AND b], built call by call. *)
Definition unused_and_circuit : Circuit (V:=Z) :=
  exec (add_output 3)
    (exec (Operation_call (mkOperation XOR []) [ANode 0; ANode 1])
       (exec (Operation_call (mkOperation AND []) [ANode 0; ANode 1])
          (exec (Operation_call (mkOperation INPUT [("name", PStr "b")]) [])
             (exec (Operation_call (mkOperation INPUT [("name", PStr "a")])
                                   [])
                (new_Circuit BooleanCircuit))))).

(** [unused_and_circuit] masked at order 1. *)
Definition masked_unused_and_circuit : Circuit (V:=Z) :=
  match IswOnArithmetic_transform 1 unused_and_circuit with
  | Ok c => c
  | Raise _ => new_Circuit BooleanCircuit
  end.

(* ===================================================================== *)
(** * Arrays ([circkit/array.py]) *)
(* ===================================================================== *)

(** The exceptions of [exn] and [ZeroDivisionError], which the arithmetic
    of [array.py] and [bitwise/ring.py] raises. *)
Inductive pyexn :=
  | Exn (e : exn)
  | ZeroDivisionError.

(** The outcome of a call that may raise one of them. *)
Inductive outcome (A : Type) : Type :=
  | Returns (a : A)
  | Raises (e : pyexn).
Arguments Returns {A} a.
Arguments Raises {A} e.

(** [range(start, stop, step)] for a step other than 0. *)
Definition py_range (start stop step : Z) : list Z :=
  let n := if bool_decide (0 < step)%Z
           then ((stop - start + step - 1) `div` step)%Z
           else ((start - stop - step - 1) `div` (- step))%Z in
  (λ k, (start + Z.of_nat k * step)%Z) <$> seq 0 (Z.to_nat n).

(** An index of a slice, clipped to the sequence: a negative one counts
    from the end. *)
Definition py_clip (len i : Z) : nat :=
  Z.to_nat (if bool_decide (i < 0)%Z then Z.max 0 (len + i) else Z.min i len).

(** [l[i:j]] *)
Definition py_slice {A} (l : list A) (i j : Z) : list A :=
  let len := Z.of_nat (length l) in
  take (py_clip len j - py_clip len i) (drop (py_clip len i) l).

Section array.
Context {A : Type}.

(** [Array.concat(args...)] *)
Definition Array_concat (args : list (list A)) : list A := mjoin args.

(** [Array.dup(element, n)]: a tuple times a negative number is empty. *)
Definition Array_dup (element : A) (n : Z) : list A :=
  replicate (Z.to_nat n) element.

(** [self.rol(n)]: [n %= len(self)] divides by the length; afterwards
    [0 <= n < len(self)]. *)
Definition Array_rol (self : list A) (n : Z) : outcome (list A) :=
  if bool_decide (length self = 0) then Raises ZeroDivisionError else
  let n := (n `mod` Z.of_nat (length self))%Z in
  Returns (py_slice self n (Z.of_nat (length self)) ++ py_slice self 0 n).

Definition Array_ror (self : list A) (n : Z) : outcome (list A) :=
  Array_rol self (- n).

(** [self.padr(n, value)] *)
Definition Array_padr (self : list A) (n : Z) (value : A)
    : result (list A) :=
  if bool_decide (n < Z.of_nat (length self))%Z then Raise ValueError
  else if bool_decide (n = Z.of_nat (length self)) then Ok self
  else Ok (Array_concat [self; Array_dup value (n - Z.of_nat (length self))]).

(** [self.chunks(size, num)]; each of the two is [None] or an int.  The
    missing one is computed by a ceiling division; [range] refuses a step
    of 0. *)
Definition Array_chunks (self : list A) (size num : option Z)
    : outcome (list (list A)) :=
  let len := Z.of_nat (length self) in
  let size' :=
    match size, num with
    | None, None => Raises (Exn TypeError)
    | None, Some num =>
        if bool_decide (num = 0%Z) then Raises ZeroDivisionError
        else Returns ((len + num - 1) `div` num)%Z
    | Some size, None =>
        if bool_decide (size = 0%Z) then Raises ZeroDivisionError
        else Returns size
    | Some size, Some _ => Returns size
    end in
  match size' with
  | Raises e => Raises e
  | Returns size =>
      if bool_decide (size = 0%Z) then Raises (Exn ValueError)
      else Returns ((λ i, py_slice self i (i + size)) <$> py_range 0 len size)
  end.

(** [self.flatten()] of an [Array] of [Array]s. *)
Definition Array_flatten (self : list (list A)) : list A := Array_concat self.

End array.

(* ===================================================================== *)
(** * Bit-words ([circkit/bitwise/ring.py]) *)
(* ===================================================================== *)

Definition obind {A B} (m : outcome A) (f : A → outcome B) : outcome B :=
  match m with
  | Returns a => f a
  | Raises e => Raises e
  end.

Notation "'let!' x := a 'in' b" := (obind a (λ x, b))
  (at level 10, x name, a at level 100, b at level 200,
   format "'[v' 'let!'  x  :=  a  'in'  '/' b ']'").

(** [a << v] and [a >> v] on ints: a negative shift count is a
    [ValueError]. *)
Definition py_lshift (a v : Z) : outcome Z :=
  if bool_decide (v < 0)%Z then Raises (Exn ValueError)
  else Returns (Z.shiftl a v).

Definition py_rshift (a v : Z) : outcome Z :=
  if bool_decide (v < 0)%Z then Raises (Exn ValueError)
  else Returns (Z.shiftr a v).

(** [a % b] on ints. *)
Definition py_mod (a b : Z) : outcome Z :=
  if bool_decide (b = 0)%Z then Raises ZeroDivisionError
  else Returns (a `mod` b)%Z.

(** The attributes of a [BitwiseRing]. *)
Record BitwiseRing := mkBitwiseRing {
  word_size : Z;
  mask : Z;
}.

(** [BitwiseRing(word_size)] *)
Definition BitwiseRing_init (word_size : Z) : result BitwiseRing :=
  if bool_decide (0 < word_size)%Z
  then Ok (mkBitwiseRing word_size (Z.shiftl 1 word_size - 1))
  else Raise AssertionError.

(** [ring.order()] *)
Definition BitwiseRing_order (R : BitwiseRing) : Z :=
  Z.shiftl 1 (word_size R).

(** The slots of a [Word]. *)
Record Word := mkWord {
  value : Z;
  ring : BitwiseRing;
}.

(** [Word(value, ring)] for an int [value]. *)
Definition Word_init (value : Z) (ring : BitwiseRing) : Word :=
  mkWord (Z.land value (mask ring)) ring.

Definition Word_integer_representation (self : Word) : Z := value self.

Definition Word_xor (self b : Word) : Word :=
  Word_init (Z.lxor (value self) (value b)) (ring self).
Definition Word_or (self b : Word) : Word :=
  Word_init (Z.lor (value self) (value b)) (ring self).
Definition Word_and (self b : Word) : Word :=
  Word_init (Z.land (value self) (value b)) (ring self).
Definition Word_invert (self : Word) : Word :=
  Word_init (Z.lnot (value self)) (ring self).

Definition Word_lshift (self : Word) (v : Z) : outcome Word :=
  let! r := py_lshift (value self) v in
  Returns (Word_init r (ring self)).

Definition Word_rshift (self : Word) (v : Z) : outcome Word :=
  let! r := py_rshift (value self) v in
  Returns (Word_init r (ring self)).

Definition Word_rol (self : Word) (v : Z) : outcome Word :=
  let! v := py_mod v (word_size (ring self)) in
  let! hi := py_lshift (value self) v in
  let! lo := py_rshift (value self) (word_size (ring self) - v) in
  Returns (Word_init (Z.lor hi lo) (ring self)).

Definition Word_ror (self : Word) (v : Z) : outcome Word :=
  let! v := py_mod v (word_size (ring self)) in
  let! lo := py_rshift (value self) v in
  let! hi := py_lshift (value self) (word_size (ring self) - v) in
  Returns (Word_init (Z.lor lo hi) (ring self)).

Definition Word_add (self b : Word) : Word :=
  Word_init (value self + value b) (ring self).
Definition Word_sub (self b : Word) : Word :=
  Word_init (value self - value b) (ring self).
Definition Word_mul (self b : Word) : Word :=
  Word_init (value self * value b) (ring self).
Definition Word_mod (self b : Word) : outcome Word :=
  let! r := py_mod (value self) (value b) in
  Returns (Word_init r (ring self)).
Definition Word_neg (self : Word) : Word :=
  Word_init (- value self) (ring self).

(** The operations the raw serializer has an opcode for. *)
Definition gate (name : opname) : Prop := name ∈ [XOR; AND; OR; NOT].

(** The attributes only [alloc] and the final bookkeeping of a visit
    change. *)
Definition same_cells (s s' : Serializer) : Prop :=
  bit_id s' = bit_id s ∧ ram_size s' = ram_size s
  ∧ result_of s' = result_of s.

Definition same_code (s s' : Serializer) : Prop := code s' = code s.

Definition same_free (s s' : Serializer) : Prop := free s' = free s.

(** The instruction of a node: the packed opcode of its operation, then the
    cell of the node and the cells of its parents, [bytes_addr] bytes
    each. *)
Definition instruction_of {V} `{!PyValue V} (o : Options)
    (nd : Node (V:=V)) (instr : list Byte.byte) : Prop :=
  ∃ opc b_op rest,
    opmap (opname_str (_name (operation nd))) = Ok opc
    ∧ pack o (bytes_op o) [opc] = Ok b_op
    ∧ instr = b_op ++ rest
    ∧ length instr
      = bytes_op o + bytes_addr o * (1 + length (incoming nd)).

(** The size of the instruction of a node. *)
Definition instruction_size {V} `{!PyValue V} (o : Options)
    (nd : Node (V:=V)) : nat :=
  bytes_op o + bytes_addr o * (1 + length (incoming nd)).

(** [node.is_INPUT()] is false. *)
Definition not_INPUT {V} `{!PyValue V} (nd : Node (V:=V)) : Prop :=
  _name (operation nd) ≠ INPUT.

#[export] Instance not_INPUT_dec {V} `{!PyValue V} (nd : Node (V:=V)) :
  Decision (not_INPUT nd).
Proof. unfold not_INPUT. apply _. Defined.

(* ===================================================================== *)
(** * More circuit methods ([circkit/circuit.py]) *)
(* ===================================================================== *)

Section circuit_methods.
Context {V : Type} `{!PyValue V}.

(** What [trace] returns: the dictionary of node values, or their list in
    node order. *)
Inductive traced :=
  | TDict (mem : gmap nat V)
  | TList (values : list V).

(** [circuit.trace(input, convert_input, convert_values, as_list)] *)
Definition trace (c : Circuit (V:=V)) (rnd : nat → V) (input : list V)
    (convert_input convert_values as_list : bool) : result traced :=
  try r ← evaluate_with_mem c rnd input convert_input false;
  let mem := if convert_values
             then const_manager_output (cls c) <$> r.2 else r.2 in
  if as_list
  then try values ← rmap (λ nd, mem_get mem (id nd)) (nodes c);
       Ok (TList values)
  else Ok (TDict mem).

(** The list handed to a reordering method: the list object the circuit
    holds itself, as in [c.in_place_reorder_inputs(c.inputs)], or a list
    object of its own with the given nodes. *)
Inductive reorder_arg :=
  | OwnList
  | OtherList (l : list nat).

(** [circuit.in_place_reorder_inputs(inputs)] for a list of nodes of this
    circuit.  The check reads the argument, [self.inputs.clear()] empties
    the list of the circuit in place, and the loop reads the argument again
    and calls [_register_input_node] on each node: when the argument is the
    list of the circuit, the loop finds the list [clear()] has emptied. *)
Definition in_place_reorder_inputs (arg : reorder_arg) : M (V:=V) unit :=
  λ c,
    let read c := match arg with OwnList => inputs c | OtherList l => l end in
    if bool_decide (length (read c) ≠ length (inputs c)
                    ∨ (list_to_set (read c) : gset nat)
                      ≠ list_to_set (inputs c))
    then (c, Raise ValueError)
    else let c0 := set_inputs (λ _, []) c in
         mfor (read c0) (λ node, modify (set_inputs (λ l, l ++ [node]))) c0.

(** [circuit.in_place_reorder_outputs(outputs)], with [self.outputs] in the
    place of [self.inputs]. *)
Definition in_place_reorder_outputs (arg : reorder_arg) : M (V:=V) unit :=
  λ c,
    let read c := match arg with OwnList => outputs c | OtherList l => l end in
    if bool_decide (length (read c) ≠ length (outputs c)
                    ∨ (list_to_set (read c) : gset nat)
                      ≠ list_to_set (outputs c))
    then (c, Raise ValueError)
    else let c0 := set_outputs (λ _, []) c in
         mfor (read c0) _register_output_node c0.

(** [circuit.in_place_reorder_inputs_first()].  The entries of [inputs] are
    node objects of the node list; an id without a node in the list has no
    record in the embedding and is left out of [order]. *)
Definition in_place_reorder_inputs_first : M (V:=V) unit :=
  λ c,
    let order := omap (find_node c) (inputs c)
                 ++ filter (λ nd, is_op INPUT nd = false) (nodes c) in
    if bool_decide (length order = length (nodes c))
    then (set_nodes (λ _, order) c, Ok tt)
    else (c, Raise AssertionError).

(** The loop of [INPUT._get_unnamed_input_name()]: the names [x0], [x1],
    ... are tried from the counter on until one is not in [_input_names].
    [cntr] is [_unnamed_input_counter]; the result is the name and the
    counter left behind.  The loop is cut after [fuel] rounds;
    [unnamed_input_name_fresh] shows that the fuel of
    [_get_unnamed_input_name] is never used up. *)
Fixpoint unnamed_input_loop (fuel : nat) (input_names : list pyval)
    (cntr : nat) : option (string * nat) :=
  match fuel with
  | 0 => None
  | S fuel' =>
      let name := "x" +:+ pretty cntr in
      if bool_decide (PStr name ∈ input_names)
      then unnamed_input_loop fuel' input_names (S cntr)
      else Some (name, S cntr)
  end.

Definition _get_unnamed_input_name (c : Circuit (V:=V)) (cntr : nat)
    : option (string * nat) :=
  unnamed_input_loop (S (length (_input_names c))) (_input_names c) cntr.

End circuit_methods.

(** The half adder [s = a XOR b], [c = a AND b] as a boolean circuit with
    the outputs [s] and [c]. *)
Definition half_adder_circuit : Circuit (V:=Z) :=
  exec (do a ← add_input (PStr "a");
        do b ← add_input (PStr "b");
        do s ← apply XOR [] [ANode a; ANode b];
        do c ← apply AND [] [ANode a; ANode b];
        do _ ← add_output s;
        add_output c)
       (new_Circuit BooleanCircuit).

(** An optimized boolean circuit with the inputs [a] and [b]. *)
Definition two_inputs_opt_circuit : Circuit (V:=Z) :=
  exec (do a ← add_input (PStr "a"); do b ← add_input (PStr "b"); ret tt)
       (new_Circuit OptBooleanCircuit).

Section transformer.
Context {V : Type} `{!PyValue V}.

(** [Transformer.visit] for a [CircuitTransformer] without visit methods of
    its own: [visit_GET] is inherited, every other node goes to
    [visit_generic]. *)
Definition CircuitTransformer_visit (node : Node (V:=V)) (args : list tres)
    : M tres :=
  match _name (operation node) with
  | GET => match args with
           | [m] => visit_GET node m
           | _ => raise TypeError
           end
  | _ => visit_generic node args
  end.

(** [CircuitTransformer().transform(source)]: the target is a new circuit of
    the class of the source. *)
Definition CircuitTransformer_transform (source : Circuit (V:=V))
    : result Circuit :=
  let r := (do result ← mfold (λ (result : gmap nat tres) node,
                            do args ← lift (rmap (dict_get result)
                                                 (incoming node));
                            do r ← CircuitTransformer_visit node args;
                            ret (<[id node := r]> result))
                         ∅ (nodes source);
            mfor (outputs source) (λ node,
              do r ← lift (dict_get result node); make_output r))
           (new_Circuit (cls source)) in
  try _ ← r.2; Ok r.1.

(** What [reapply] leaves in an empty circuit of a plain class [cl]: node
    [k] of the source is rebuilt as node [k], on the copies of its
    parents, which come before it. *)
Definition copied (cl : CircuitClass) (pre : list (Node (V:=V)))
    (m : gmap nat nat) (c : Circuit (V:=V)) : Prop :=
  cls c = cl ∧ node_counter c = length pre ∧ outputs c = []
  ∧ length (skeleton c) = length pre
  ∧ (∀ k nd, pre !! k = Some nd →
       m !! id nd = Some k
       ∧ ∃ op' inc',
           skeleton c !! k = Some (k, op', inc')
           ∧ new_Operation cl (_name (operation nd))
               (snd <$> _parameters (operation nd)) = Ok op'
           ∧ Forall2 (λ p q, m !! p = Some q ∧ q < k) (incoming nd) inc')
  ∧ (∀ p q, m !! p = Some q → ∃ nd, pre !! q = Some nd ∧ id nd = p)
  ∧ inputs c
    = (λ nd, default 0 (m !! id nd))
      <$> filter (λ nd, is_op INPUT nd = true) pre.

End transformer.

(** The body of the loop of [visit_generic] over [bit.incoming]: the use is
    counted, and the parent is freed with its last use. *)
Definition count_use {V} `{!PyValue V} (o : Options) (c : Circuit (V:=V))
    (arg : nat) : ST Serializer unit :=
  do _ ← modify (λ s, mkSerializer (free s) (bit_id s) (ram_size s) (code s)
                        (<[arg := S (default 0 (n_used s !! arg))]> (n_used s))
                        (result_of s));
  do s ← get;
  let used := default 0 (n_used s !! arg) in
  do _ ← lift (assert (bool_decide (used ≤ n_outgoing c arg)));
  if bool_decide (used = n_outgoing c arg) then on_free o c arg else ret tt.

(** How often [p] occurs in the list of parents [us]. *)
Definition uses (p : nat) (us : list nat) : nat :=
  length (filter (λ a, a = p) us).

(** The parents of the nodes [ns], in the order the serializer counts
    them. *)
Definition parents_of {V} `{!PyValue V} (ns : list (Node (V:=V)))
    : list nat :=
  ns ≫= incoming.

(** After the uses [us] the serializer has given the cell of [p] back. *)
Definition released {V} `{!PyValue V} (o : Options) (c : Circuit (V:=V))
    (p : nat) (us : list nat) : Prop :=
  reuse_memory o = true ∧ is_OUTPUT c p = false
  ∧ p ∈ us ∧ uses p us = n_outgoing c p.

#[export] Instance released_dec {V} `{!PyValue V} (o : Options)
    (c : Circuit (V:=V)) p us : Decision (released o c p us).
Proof. unfold released. apply _. Defined.

(** The state of the serializer after the nodes [al] have been allocated
    and the uses [us] counted: every cell handed out is free or held by a
    node that has not been released. *)
Record cells_inv {V} `{!PyValue V} (o : Options) (c : Circuit (V:=V))
    (al us : list nat) (s : Serializer) : Prop := mkCells {
  ci_used : ∀ p, default 0 (n_used s !! p) = uses p us;
  ci_bound : ∀ p, p ∈ us → uses p us ≤ n_outgoing c p;
  ci_dom : ∀ p, is_Some (bit_id s !! p) ↔ p ∈ al;
  ci_ram : ∀ p cell, bit_id s !! p = Some cell → cell < ram_size s;
  ci_free_nodup : NoDup (free s);
  ci_free_ram : ∀ cell, cell ∈ free s → cell < ram_size s;
  ci_live : ∀ p cell, bit_id s !! p = Some cell → ¬ released o c p us →
                      cell ∉ free s;
  ci_share : ∀ p q cell, p ≠ q → bit_id s !! p = Some cell →
                         bit_id s !! q = Some cell →
                         released o c p us ∨ released o c q us;
  ci_alloc : ∀ p, p ∈ us → p ∈ al;
  ci_al_nodup : NoDup al;
  ci_count : length (free s)
             + length (filter (λ p, ¬ released o c p us) al) = ram_size s;
}.

(** The state the visits of the nodes [pre] leave: the cells are handed out
    as [cells_inv] says, only visited nodes have a result, and a node that
    got the cell of an earlier node got it after the earlier one had been
    released. *)
Definition cells_visited {V} `{!PyValue V} (o : Options) (c : Circuit (V:=V))
    (pre : list (Node (V:=V))) (s : Serializer) : Prop :=
  cells_inv o c (id <$> pre) (parents_of pre) s
  ∧ (∀ p, is_Some (result_of s !! p) → p ∈ id <$> pre)
  ∧ ∀ i j p nd, i < j → pre !! i = Some p → pre !! j = Some nd →
      bit_id s !! id p = bit_id s !! id nd →
      released o c (id p) (parents_of (take j pre)).

(** ** Nodes that hold a cell *)

(** What [visit_generic] and [RawSerializer.on_free] make of the circuit:
    the node [nd] has given its cell back before the node at position [k]
    of the node list is allocated when memory is reused, [nd] is not an
    output, it has children, and the nodes before position [k] read it as
    often as it has children.  Only the circuit and the option are read, no
    state of the serializer. *)
Definition freed_before {V} `{!PyValue V} (o : Options) (c : Circuit (V:=V))
    (k : nat) (nd : Node (V:=V)) : Prop :=
  reuse_memory o = true ∧ (id nd ∉ outputs c) ∧ outgoing nd ≠ []
  ∧ uses (id nd) (parents_of (take k (nodes c))) = length (outgoing nd).

#[export] Instance freed_before_dec {V} `{!PyValue V} (o : Options)
    (c : Circuit (V:=V)) k nd : Decision (freed_before o c k nd).
Proof. unfold freed_before. apply _. Defined.





(* ===================================================================== *)
(** * Composition *)
(* ===================================================================== *)

(** C2.  [compose] never returns the composed circuit: the reversed
    argument tuple has no [append], so for every circuit [self] and every
    list of stages the call raises [AttributeError] before anything is
    rebuilt; in particular for a one-stage composition of
    [and_xor_circuit] stages. *)
Theorem compose_raises :
  (∀ {V} `{!PyValue V} (self : Circuit (V:=V)) circuits,
     compose self circuits = Raise AttributeError)
  ∧ compose twice_sum_circuit [twice_sum_circuit] = Raise AttributeError.
Proof. split; reflexivity. Qed.

(* ===================================================================== *)
(** * Duplicate removal *)
(* ===================================================================== *)

Section duplicates.
Context {V : Type} `{!PyValue V}.
Variable py_hash : Z → Operation (V:=V) * list nat → Z.

(** A node object is never found among the hash keys of [seen], so a visit
    records the node and keeps it. *)
Lemma dup_visit_keeps st k nd :
  store st !! k = Some nd →
  hash_keys_only st →
  ∃ h, dup_visit py_hash k st
       = (mkDup (store st) ((KHash h, k) :: seen st) (new_order st ++ [k])
                (n_removed st) (sub st), Ok tt).
Proof.
  intros Hk Hseen. unfold dup_visit, bind, get, lift. rewrite Hk.
  destruct (list_find _ (seen st)) as [[i [key k0]]|] eqn:Hfind.
  - apply list_find_Some in Hfind as (Hi & Heq & _). simpl in Heq.
    apply list_elem_of_lookup_2 in Hi.
    eapply (proj1 (Forall_forall _ _)) in Hseen; [|exact Hi].
    destruct Hseen as [h Hh]. simpl in Hh. congruence.
  - eexists. reflexivity.
Qed.

Lemma dup_loop_keeps n : ∀ a st,
  a + n ≤ length (store st) →
  hash_keys_only st →
  ∃ seen',
    mfor (seq a n) (dup_visit py_hash) st
    = (mkDup (store st) seen' (new_order st ++ seq a n) (n_removed st)
             (sub st), Ok tt).
Proof using Type.
  induction n as [|n IH]; intros a st Hlen Hseen.
  - exists (seen st). simpl. rewrite app_nil_r. by destruct st.
  - destruct (lookup_lt_is_Some_2 (store st) a) as [nd Hnd]; [lia|].
    destruct (dup_visit_keeps st a nd Hnd Hseen) as [h Hv].
    simpl. unfold bind. rewrite Hv.
    edestruct (IH (S a)
                 (mkDup (store st) ((KHash h, a) :: seen st)
                        (new_order st ++ [a]) (n_removed st) (sub st)))
      as [seen' Hloop].
    + simpl. lia.
    + constructor; [by eexists | exact Hseen].
    + exists seen'. rewrite Hloop. simpl. by rewrite <- app_assoc.
Qed.

Lemma omap_lookup_seq {A} (l2 : list A) : ∀ l1,
  omap (λ k, (l1 ++ l2) !! k) (seq (length l1) (length l2)) = l2.
Proof.
  induction l2 as [|x l2 IH]; intros l1; [done|].
  simpl. rewrite list_lookup_middle by done. f_equal.
  specialize (IH (l1 ++ [x])). rewrite <- app_assoc in IH. simpl in IH.
  rewrite length_app in IH. simpl in IH.
  by replace (length l1 + 1) with (S (length l1)) in IH by lia.
Qed.

(** As written, duplicate removal returns every circuit unchanged. *)
Lemma remove_duplicate_nodes_unchanged (c : Circuit) :
  in_place_remove_duplicate_nodes py_hash c = (c, Ok tt).
Proof using Type.
  unfold in_place_remove_duplicate_nodes.
  destruct (dup_loop_keeps (length (nodes c)) 0
              (mkDup (nodes c) [] [] 0 None)) as [seen' Hloop].
  - simpl. lia.
  - constructor.
  - rewrite Hloop. simpl.
    pose proof (omap_lookup_seq (nodes c) []) as Hall. simpl in Hall.
    rewrite Hall. by destruct c.
Qed.

End duplicates.

(** C3.  On [twice_sum_circuit], whose nodes 2 and 3 are both [ADD] of the
    inputs 0 and 1 and so have the same duplicate key,
    [in_place_remove_duplicate_nodes] drops nothing: for every hash
    function the later duplicate 3 stays in the node list and the [MUL]
    node still reads its second operand from node 3. *)
Theorem remove_duplicate_nodes_keeps_duplicate py_hash :
  let c := exec (in_place_remove_duplicate_nodes py_hash) twice_sum_circuit in
  (node_inc <$> find_node twice_sum_circuit 2)
    = (node_inc <$> find_node twice_sum_circuit 3)
  ∧ (operation <$> find_node twice_sum_circuit 2)
    = (operation <$> find_node twice_sum_circuit 3)
  ∧ id <$> nodes c = [0; 1; 2; 3; 4]
  ∧ incoming <$> find_node c 4 = Some [2; 3].
Proof.
  unfold exec. rewrite remove_duplicate_nodes_unchanged. by vm_compute.
Qed.

(* ===================================================================== *)
(** * The instantiation pipeline *)
(* ===================================================================== *)

(** C4.  In the optimized boolean circuit [two_consts_circuit], whose nodes
    0 and 1 are the constants 0 and 1, applying [XOR] to the two constants
    does not fold: the call raises [AttributeError] and the circuit is left
    without a new constant. *)
Theorem constant_folding_raises :
  PRECOMPUTE_CONSTANT_OPERATIONS (cls two_consts_circuit) = true
  ∧ PRECOMPUTABLE XOR = true
  ∧ apply XOR [] [ANode 0; ANode 1] two_consts_circuit
    = (two_consts_circuit, Raise AttributeError).
Proof. by vm_compute. Qed.

(** C5.  In a boolean circuit the operation [LUT] with the table
    [(0,1,1,0)] cannot be constructed: the class declares no parameter and
    the constructor raises [TypeError].  Constructed without a table and
    applied to the two inputs, its evaluation raises [AttributeError] on
    each of the four assignments. *)
Theorem boolean_LUT_fails :
  new_Operation (V:=Z) BooleanCircuit LUT [PTuple [0; 1; 1; 0]%Z]
    = Raise TypeError
  ∧ let c := exec (do a ← add_input (PStr "a");
                   do b ← add_input (PStr "b");
                   do y ← apply LUT [] [ANode a; ANode b];
                   add_output y) (new_Circuit BooleanCircuit) in
    (_name ∘ operation) <$> nodes c = [INPUT; INPUT; LUT]
    ∧ (λ ab, evaluate c (λ _, 0%Z) ab true true)
        <$> [[0; 0]; [0; 1]; [1; 0]; [1; 1]]%Z
      = [Raise AttributeError; Raise AttributeError;
         Raise AttributeError; Raise AttributeError].
Proof. by vm_compute. Qed.

(** C9 (as stated, it fails).  The optimized boolean circuit
    [one_input_opt_circuit] already has the input [x]; [add_input("x")]
    raises nothing and returns the existing node 0. *)
Lemma add_input_duplicate_cached_returns :
  PStr "x" ∈ _input_names one_input_opt_circuit
  ∧ add_input (PStr "x") one_input_opt_circuit
    = (one_input_opt_circuit, Ok 0).
Proof. split; [by apply list_elem_of_here | reflexivity]. Qed.

(** C9 (amended).  [add_input] with a name already used by an input never
    adds a node: it leaves the circuit as it is.  It raises [KeyError],
    except that a circuit with node caching whose cache holds the input
    node of that name returns this node. *)
Theorem add_input_duplicate_name {V} `{!PyValue V} (c : Circuit (V:=V))
    (name : pyval) :
  is_input_name name = true →
  name ∈ _input_names c →
  add_input name c
  = (c, match (if CACHE_NODES (cls c)
               then cache_get (input_cache_key name) (_nodes_cache c)
               else None) with
        | Some node => Ok node
        | None => Raise KeyError
        end).
Proof.
  intros Hname Hused.
  assert (Hop : new_Operation (cls c) INPUT [name]
                = Ok (mkOperation INPUT [("name", name)])).
  { unfold new_Operation, Operation_init.
    destruct name; try discriminate; by destruct (cls c). }
  unfold add_input, apply, bind, get, lift. rewrite Hop.
  unfold Operation_call, bind, get. simpl.
  unfold ret, precompute, bind, get. simpl.
  replace (if PRECOMPUTE_CONSTANT_OPERATIONS (cls c)
           then ret None else ret None) with (ret (S:=Circuit (V:=V)) (None : option nat))
    by by destruct (PRECOMPUTE_CONSTANT_OPERATIONS (cls c)).
  unfold ret, create_node, bind, get. simpl.
  unfold input_cache_key, _cache_key.
  destruct (if CACHE_NODES (cls c) then _ else None) as [node|]; [done|].
  unfold before_create_node, bind, lift, get. simpl.
  by rewrite bool_decide_true.
Qed.

(** C9, witness: the plain boolean circuit with the input [x]. *)
Lemma add_input_duplicate_name_witness :
  add_input (PStr "x") (exec (add_input (V:=Z) (PStr "x"))
                             (new_Circuit BooleanCircuit))
  = (exec (add_input (PStr "x")) (new_Circuit BooleanCircuit),
     Raise KeyError).
Proof.
  apply (add_input_duplicate_name
           (exec (add_input (V:=Z) (PStr "x")) (new_Circuit BooleanCircuit))
           (PStr "x")).
  - reflexivity.
  - vm_compute. apply list_elem_of_here.
Defined.

(* ===================================================================== *)
(** * Serialization: opcodes *)
(* ===================================================================== *)

(** C6.  The opcode table maps the names [XOR], [AND], [OR] and [NOT] to 1,
    2, 3 and 4, but it has no entry for the operation name [RND] (the entry
    for 5 is named [RANDOM]): serializing the boolean circuit
    [masked_bit_circuit], which contains an [RND] node, raises [KeyError]
    and emits no program. *)
Theorem serialize_RND_raises :
  opmap (opname_str XOR) = Ok 1%Z
  ∧ opmap (opname_str AND) = Ok 2%Z
  ∧ opmap (opname_str OR) = Ok 3%Z
  ∧ opmap (opname_str NOT) = Ok 4%Z
  ∧ opmap (opname_str RND) = Raise KeyError
  ∧ (_name ∘ operation) <$> nodes masked_bit_circuit = [INPUT; RND; XOR]
  ∧ serialize default_options masked_bit_circuit = Raise KeyError.
Proof. by vm_compute. Qed.

(* ===================================================================== *)
(** * Facts about stateful computations *)
(* ===================================================================== *)

Section monad_facts.
Context {S : Type}.

Lemma bind_Ok {A B} (m : ST S A) (f : A → ST S B) s s' b :
  bind m f s = (s', Ok b) →
  ∃ a s1, m s = (s1, Ok a) ∧ f a s1 = (s', Ok b).
Proof.
  unfold bind. destruct (m s) as [s1 [a|e]]; [eauto|discriminate].
Qed.

Lemma bind_run {A B} (m : ST S A) (f : A → ST S B) s s1 a :
  m s = (s1, Ok a) → bind m f s = f a s1.
Proof. unfold bind. by intros ->. Qed.

Lemma mfor_app {A} (l1 l2 : list A) (f : A → ST S unit) s s1 :
  mfor l1 f s = (s1, Ok tt) → mfor (l1 ++ l2) f s = mfor l2 f s1.
Proof.
  revert s. induction l1 as [|x l1 IH]; intros s; simpl.
  - unfold ret. by intros [= ->].
  - intros H. apply bind_Ok in H as (u & s2 & Hx & Hrest).
    rewrite (bind_run _ _ _ _ _ Hx). by apply IH.
Qed.

Section keeps.
Context (P : S → S → Prop) `{!Reflexive P} `{!Transitive P}.

Lemma keeps_ret {A} (a : A) : keeps P (ret a).
Proof. intros s s' r [= <- _]. reflexivity. Qed.
Lemma keeps_raise {A} e : keeps P (raise (A:=A) e).
Proof. intros s s' r [= <- _]. reflexivity. Qed.
Lemma keeps_lift {A} (x : result A) : keeps P (lift x).
Proof. intros s s' r [= <- _]. reflexivity. Qed.
Lemma keeps_get : keeps P get.
Proof. intros s s' r [= <- _]. reflexivity. Qed.
Lemma keeps_modify f : (∀ s, P s (f s)) → keeps P (modify f).
Proof. intros Hf s s' r [= <- _]. apply Hf. Qed.
Lemma keeps_bind {A B} (m : ST S A) (f : A → ST S B) :
  keeps P m → (∀ a, keeps P (f a)) → keeps P (bind m f).
Proof.
  intros Hm Hf s s' r. unfold bind.
  destruct (m s) as [s1 [a|e]] eqn:Hms.
  - intros Hfa. etrans; [by eapply Hm | by eapply Hf].
  - intros [= <- _]. by eapply Hm.
Qed.
Lemma keeps_mfor {A} (l : list A) (f : A → ST S unit) :
  (∀ x, keeps P (f x)) → keeps P (mfor l f).
Proof.
  intros Hf. induction l as [|x l IH]; simpl.
  - apply keeps_ret.
  - apply keeps_bind; [apply Hf | by intros _].
Qed.
Lemma keeps_mmap {A B} (l : list A) (f : A → ST S B) :
  (∀ x, keeps P (f x)) → keeps P (mmap f l).
Proof.
  intros Hf. induction l as [|x l IH]; simpl.
  - apply keeps_ret.
  - apply keeps_bind; [apply Hf | intros y].
    apply keeps_bind; [apply IH | intros ys; apply keeps_ret].
Qed.
Lemma keeps_mfold {A B} (l : list A) (f : B → A → ST S B) :
  (∀ b x, keeps P (f b x)) → ∀ b, keeps P (mfold f b l).
Proof.
  intros Hf. induction l as [|x l IH]; intros b; simpl.
  - apply keeps_ret.
  - apply keeps_bind; [apply Hf | intros b'; apply IH].
Qed.
End keeps.
End monad_facts.

(* ===================================================================== *)
(** * Serialization: cells *)
(* ===================================================================== *)

Section cells.
Context {V : Type} `{!PyValue V}.
Variable o : Options.
Variable c : Circuit (V:=V).

#[local] Instance same_ram_refl : Reflexive same_ram.
Proof. by intros s. Qed.
#[local] Instance same_ram_trans : Transitive same_ram.
Proof. unfold same_ram. intros s1 s2 s3 H1 H2. congruence. Qed.







Lemma size_list_to_set_le {A} `{Countable A} (l : list A) :
  size (list_to_set l : gset A) ≤ length l.
Proof.
  induction l as [|x l IH].
  - by rewrite list_to_set_nil, size_empty.
  - rewrite list_to_set_cons, size_union_alt, size_singleton.
    cbn [length]. apply le_n_S. etrans; [|apply IH].
    apply subseteq_size. set_solver.
Qed.

Lemma size_list_to_set_NoDup {A} `{Countable A} (l : list A) :
  size (list_to_set l : gset A) = length l → NoDup l.
Proof.
  induction l as [|x l IH]; [constructor|].
  rewrite list_to_set_cons. cbn [length].
  intros Hsize. pose proof (size_list_to_set_le l) as Hle.
  destruct (decide (x ∈ l)) as [Hin|Hnin].
  - assert ({[x]} ∪ list_to_set l = (list_to_set l : gset A)) as Heq
      by set_solver.
    rewrite Heq in Hsize. lia.
  - constructor; [done|]. apply IH.
    rewrite size_union, size_singleton in Hsize by set_solver. lia.
Qed.

Lemma rmap_length {A B} (f : A → result B) l l' :
  rmap f l = Ok l' → length l' = length l.
Proof.
  revert l'. induction l as [|x l IH]; intros l'; simpl.
  - by intros [= <-].
  - destruct (f x); [|discriminate]. simpl.
    destruct (rmap f l); [|discriminate]. simpl.
    intros [= <-]. simpl. f_equal. by apply IH.
Qed.

Ltac rbind_Ok :=
  match goal with
  | |- rbind ?x _ = Ok _ → _ =>
      destruct x eqn:?; cbn [rbind]; [|intros; discriminate]
  end.

Lemma serialize_cells out :
  serialize o c = Ok out →
  length (input_addr out) = length (inputs c)
  ∧ NoDup (input_addr out)
  ∧ length (output_addr out) = length (outputs c)
  ∧ NoDup (output_addr out).
Proof.
  unfold serialize. do 4 rbind_Ok.
  destruct (Serializer_visit_all o c Serializer_init) as [s [[]|e]] eqn:Hrun;
    cbn [rbind snd fst]; [|intros; discriminate].
  rbind_Ok. unfold after_transform.
  destruct (rmap (bit_id_get s) (inputs c)) as [ia|] eqn:Hia;
    cbn [rbind]; [|intros; discriminate].
  destruct (rmap (bit_id_get s) (outputs c)) as [oa|] eqn:Hoa;
    cbn [rbind]; [|intros; discriminate].
  unfold assert.
  case_bool_decide as Hin; cbn [rbind]; [|intros; discriminate].
  case_bool_decide as Hout; cbn [rbind]; [|intros; discriminate].
  do 4 rbind_Ok.
  intros [= <-]. cbn.
  apply rmap_length in Hia, Hoa.
  repeat split; try done.
  - apply size_list_to_set_NoDup. congruence.
  - apply size_list_to_set_NoDup. congruence.
Qed.
End cells.

(* ===================================================================== *)
(** * The circuit invariant *)
(* ===================================================================== *)

Section invariants.
Context {V : Type} `{!PyValue V}.
Implicit Types (c : Circuit (V:=V)) (nd : Node (V:=V)).

Lemma add_outgoing_fold inc i : ∀ ns : list (Node (V:=V)),
  foldl (λ ns sub, add_outgoing sub i ns) ns inc = with_child inc i <$> ns.
Proof.
  induction inc as [|s inc IH]; intros ns; simpl.
  - rewrite <- (list_fmap_id ns) at 1. apply list_fmap_ext.
    intros k [i0 op0 inc0 out0] _. unfold with_child, set_outgoing.
    cbn [outgoing id operation incoming]. by rewrite filter_nil, app_nil_r.
  - rewrite IH. unfold add_outgoing. rewrite <- list_fmap_compose.
    apply list_fmap_ext. intros k nd _.
    unfold with_child. rewrite filter_cons.
    unfold Basics.compose.
    destruct (decide (s = id nd)) as [Hd|Hd].
    + rewrite bool_decide_true by done. unfold set_outgoing.
      cbn [outgoing id operation incoming fmap list_fmap].
      by rewrite <- app_assoc.
    + by rewrite bool_decide_false by done.
Qed.

Lemma with_child_id inc i nd : id (with_child inc i nd) = id nd.
Proof. done. Qed.
Lemma with_child_incoming inc i nd :
  incoming (with_child inc i nd) = incoming nd.
Proof. done. Qed.
Lemma with_child_operation inc i nd :
  operation (with_child inc i nd) = operation nd.
Proof. done. Qed.

Lemma elem_of_with_child inc i nd o :
  o ∈ outgoing (with_child inc i nd) ↔ o ∈ outgoing nd ∨ (o = i ∧ id nd ∈ inc).
Proof.
  unfold with_child. simpl. rewrite elem_of_app, list_elem_of_fmap.
  split; intros [?|H]; auto.
  - destruct H as (p & -> & Hp). apply list_elem_of_filter in Hp as [-> ?]. auto.
  - destruct H as [-> H]. right. exists (id nd). split; [done|].
    by apply list_elem_of_filter.
Qed.

Lemma Node_init_add_node {A} op inc (k : Node → M A) c :
  (do node ← Node_init op inc; do _ ← add_node node; k node) c
  = k (mkNode (node_counter c) op inc []) (created op inc c).
Proof.
  unfold Node_init, add_node, _get_next_node_id, bind, modify, ret,
    _register_input_node, is_op, set_nodes, set_node_counter, set_inputs.
  cbn [nodes inputs outputs node_counter cls _input_names _nodes_cache
       operation id].
  rewrite add_outgoing_fold. unfold created.
  by case_bool_decide.
Qed.

Lemma filter_with_child inc i (ns : list (Node (V:=V))) :
  id <$> filter (λ nd, is_op INPUT nd = true) (with_child inc i <$> ns)
  = id <$> filter (λ nd, is_op INPUT nd = true) ns.
Proof.
  induction ns as [|nd ns IH]; [done|].
  rewrite fmap_cons, !filter_cons.
  change (is_op INPUT (with_child inc i nd)) with (is_op INPUT nd).
  destruct (decide (is_op INPUT nd = true)); [|done].
  rewrite !fmap_cons. by f_equal.
Qed.

#[local] Arguments with_child : simpl never.

Lemma created_inv op inc c :
  circuit_inv c →
  Forall (λ p, p < node_counter c) inc →
  (_name op = INPUT → inc = []) →
  circuit_inv (created op inc c).
Proof.
  intros [Hids Hnd Hout Hinc Hedges Hcache Hin Hinlt Hininc Hord] Hlt Hinput.
  rewrite Forall_forall in Hlt.
  assert (Hmem : ∀ nd, nd ∈ nodes (created op inc c) →
            (∃ nd0, nd0 ∈ nodes c ∧ nd = with_child inc (node_counter c) nd0)
            ∨ nd = mkNode (node_counter c) op inc []).
  { intros nd. simpl. rewrite elem_of_app, list_elem_of_fmap, list_elem_of_singleton.
    intros [(nd0 & -> & ?)| -> ]; eauto. }
  split.
  - intros nd [(nd0 & Hnd0 & ->)| -> ]%Hmem; simpl; [|lia].
    rewrite ?with_child_id. specialize (Hids _ Hnd0). lia.
  - simpl. rewrite fmap_app, <- list_fmap_compose. simpl.
    apply NoDup_app. split; [done|]. split; [|apply NoDup_singleton].
    intros x Hx. rewrite list_elem_of_singleton. intros ->.
    apply list_elem_of_fmap in Hx as (nd0 & Heq & Hnd0).
    specialize (Hids _ Hnd0). simpl in Heq. rewrite ?with_child_id in Heq. lia.
  - intros nd o [(nd0 & Hnd0 & ->)| -> ]%Hmem.
    + rewrite elem_of_with_child. simpl. intros [Ho| [-> _]]; [|lia].
      specialize (Hout _ _ Hnd0 Ho). lia.
    + simpl. by intros ?%elem_of_nil.
  - intros nd p [(nd0 & Hnd0 & ->)| -> ]%Hmem; simpl; intros Hp.
    + specialize (Hinc _ _ Hnd0 Hp). lia.
    + specialize (Hlt _ Hp). lia.
  - intros u v [(u0 & Hu0 & ->)| -> ]%Hmem [(v0 & Hv0 & ->)| -> ]%Hmem.
    + rewrite elem_of_with_child, !with_child_id, with_child_incoming.
      rewrite <- (Hedges u0 v0) by done.
      specialize (Hids _ Hv0). split; [intros [?|[? _]]; [done|lia] | auto].
    + rewrite elem_of_with_child, with_child_id. simpl.
      split; [intros [Ho|[_ ?]]; [|done] | auto].
      specialize (Hout _ _ Hu0 Ho). lia.
    + rewrite with_child_id, with_child_incoming. simpl.
      split; [by intros ?%elem_of_nil|].
      intros Hp. specialize (Hinc _ _ Hv0 Hp). lia.
    + simpl. split; [by intros ?%elem_of_nil|].
      intros Hp. specialize (Hlt _ Hp). lia.
  - intros kv Hkv. simpl. specialize (Hcache _ Hkv). lia.
  - intros nd [(nd0 & Hnd0 & ->)| -> ]%Hmem; simpl.
    + unfold is_op. rewrite ?with_child_id, ?with_child_operation.
      case_bool_decide.
      * rewrite elem_of_app, list_elem_of_singleton.
        specialize (Hids _ Hnd0). intros [?|?]; [by apply Hin|lia].
      * by apply Hin.
    + unfold is_op. simpl. case_bool_decide as Hop; [done|].
      intros Hi. specialize (Hinlt _ Hi). lia.
  - intros i. simpl. case_bool_decide.
    + rewrite elem_of_app, list_elem_of_singleton.
      intros [Hi| ->]; [|lia]. specialize (Hinlt _ Hi). lia.
    + intros Hi. specialize (Hinlt _ Hi). lia.
  - intros nd [(nd0 & Hnd0 & ->)| -> ]%Hmem; simpl.
    + unfold is_op. rewrite ?with_child_operation, ?with_child_incoming.
      by apply Hininc.
    + unfold is_op. simpl. intros Hop. apply Hinput.
      by apply bool_decide_eq_true in Hop.
  - simpl. rewrite filter_app, fmap_app, filter_with_child, <- Hord.
    rewrite filter_cons, filter_nil. unfold is_op. simpl.
    case_bool_decide as Hop.
    + by rewrite decide_True.
    + rewrite decide_False by done. by rewrite app_nil_r.
Qed.

Lemma inv_set_input_names f c :
  circuit_inv c → circuit_inv (set_input_names f c).
Proof. by intros []. Qed.

Lemma inv_set_outputs f c : circuit_inv c → circuit_inv (set_outputs f c).
Proof. by intros []. Qed.

Lemma inv_set_nodes_cache f c :
  (∀ kv, kv ∈ f (_nodes_cache c) → kv.2 < node_counter c) →
  circuit_inv c → circuit_inv (set_nodes_cache f c).
Proof. by intros ? []. Qed.

Lemma before_create_node_spec op inc c c' r :
  before_create_node op inc c = (c', r) →
  c' = c ∨ ∃ f, c' = set_input_names f c.
Proof.
  unfold before_create_node. destruct (_name op);
    try (unfold ret, raise; intros [= <- _]; by left).
  unfold bind, lift, get, raise, modify.
  destruct (Operation_getattr op "name"); [|intros [= <- _]; by left].
  case_bool_decide; intros [= <- _]; [by left|]. right. by eexists.
Qed.

Lemma cache_get_elem key cache n :
  cache_get (V:=V) key cache = Some n → ∃ kv, kv ∈ cache ∧ kv.2 = n.
Proof.
  unfold cache_get. destruct (list_find _ cache) as [[k kv]|] eqn:Hf; [|done].
  intros [= <-]. apply list_find_Some in Hf as (Hk & _).
  exists kv. split; [by eapply list_elem_of_lookup_2|done].
Qed.

Lemma create_node_unfold op inc c :
  create_node op inc c
  = match (if CACHE_NODES (cls c)
           then cache_get (node_cache_key op inc) (_nodes_cache c)
           else None) with
    | Some old => (c, Ok old)
    | None =>
        match before_create_node op inc c with
        | (c1, Ok _) =>
            ((if CACHE_NODES (cls c)
              then set_nodes_cache (cache_set (node_cache_key op inc)
                                              (node_counter c1))
              else λ c, c) (created op inc c1),
             Ok (node_counter c1))
        | (c1, Raise e) => (c1, Raise e)
        end
    end.
Proof.
  unfold create_node. unfold bind at 1, get at 1.
  destruct (if CACHE_NODES (cls c) then _ else None); [done|].
  unfold bind at 1.
  destruct (before_create_node op inc c) as [c1 [[]|e]]; [|done].
  rewrite Node_init_add_node. by destruct (CACHE_NODES (cls c)).
Qed.

Lemma create_node_builds op inc :
  builds (create_node op inc)
    (λ c, Forall (λ p, p < node_counter c) inc ∧ (_name op = INPUT → inc = []))
    created_node.
Proof.
  intros c c' r Hinv [Hlt Hinput]. rewrite create_node_unfold.
  destruct (if CACHE_NODES (cls c) then _ else None) as [old|] eqn:Hprobe.
  - intros [= <- <-]. split; [done|]. split; [done|].
    intros a [= <-]. destruct (CACHE_NODES (cls c)); [|done].
    apply cache_get_elem in Hprobe as (kv & Hkv & <-).
    by apply (inv_cache _ Hinv).
  - destruct (before_create_node op inc c) as [c1 [[]|e]] eqn:Hb.
    2:{ intros [= <- <-]. apply before_create_node_spec in Hb as [->|[f ->]].
        - done.
        - split; [by apply inv_set_input_names|done]. }
    assert (Hinv1 : circuit_inv c1 ∧ node_counter c1 = node_counter c).
    { apply before_create_node_spec in Hb as [->|[f ->]]; [done|].
      split; [by apply inv_set_input_names|done]. }
    destruct Hinv1 as [Hinv1 Hcnt].
    assert (Hinv2 : circuit_inv (created op inc c1)).
    { apply created_inv; [done|by rewrite Hcnt|done]. }
    intros [= <- <-].
    split; [|split; [destruct (CACHE_NODES (cls c)); simpl; lia|]].
    + destruct (CACHE_NODES (cls c)); [|done].
      apply inv_set_nodes_cache; [|done].
      intros kv. unfold cache_set. rewrite elem_of_cons, list_elem_of_filter.
      intros [->|[_ Hkv]]; simpl; [lia|]. by apply (inv_cache _ Hinv2).
    + intros a [= <-]. unfold created_node.
      destruct (CACHE_NODES (cls c)); simpl; lia.
Qed.

(** An operation instance that was created has gone through
    [Operation.__init__]. *)
Lemma new_Operation_Ok cl name values (op : Operation (V:=V)) :
  new_Operation cl name values = Ok op →
  name ∈ operations cl ∧ Operation_init cl name values = Ok op.
Proof.
  unfold new_Operation. case_bool_decide as Hin; [|done].
  case_bool_decide as Hname; [|done]. subst name.
  unfold INPUT_init. by destruct values.
Qed.

Lemma new_Operation_name cl name values (op : Operation (V:=V)) :
  new_Operation cl name values = Ok op → _name op = name.
Proof.
  intros [_ Hop]%new_Operation_Ok. revert Hop. unfold Operation_init.
  case_bool_decide; [done|].
  destruct (bind_values _ _); [|done]. simpl.
  destruct (rmap _ _); [|done]. simpl. by intros [= <-].
Qed.

Lemma add_const_builds value :
  builds (add_const value) (λ _, True) created_node.
Proof.
  intros c c' r Hinv _. unfold add_const, bind, get, lift.
  destruct (new_Operation (cls c) CONST [value]) as [op|e] eqn:Hop.
  - intros Hc. eapply create_node_builds; [done| |done].
    split; [constructor|done].
  - by intros [= <- <-].
Qed.

Lemma precompute_unchanged op inc c c' r :
  precompute op inc c = (c', r) → c' = c ∧ r ≠ Ok (Some 0) ∧ ∀ n, r ≠ Ok (Some n).
Proof.
  unfold precompute, bind, get.
  destruct (PRECOMPUTE_CONSTANT_OPERATIONS (cls c));
    [|unfold ret; by intros [= <- <-]].
  destruct (PRECOMPUTABLE (_name op) && bool_decide (inc ≠ []));
    [|unfold ret; by intros [= <- <-]].
  destruct (const_values c inc); [|unfold ret; by intros [= <- <-]].
  unfold lift, raise.
  destruct (rmap pyval_to_V l); [|by intros [= <- <-]].
  destruct (eval _ _ _ _); [|by intros [= <- <-]].
  destruct (Operation_getattr op "circuit"); by intros [= <- <-].
Qed.

Lemma wrap_args_builds args :
  builds (mmap (λ value : arg,
                  match value with
                  | ANode n => ret n
                  | AForeign => raise TypeError
                  | AValue v => add_const (PVal v)
                  end) args)
    (λ c, Forall (arg_ok c) args)
    (λ l c, Forall (λ p, p < node_counter c) l ∧ length l = length args).
Proof.
  induction args as [|a args IH]; intros c c' r Hinv Hargs; simpl.
  - unfold ret. intros [= <- <-]. split; [done|]. split; [done|].
    by intros l [= <-].
  - apply Forall_cons in Hargs as [Ha Hargs]. unfold bind.
    match goal with |- context [match ?m c with _ => _ end] =>
      assert (Hfirst : builds m (λ c0, c0 = c) created_node) end.
    { destruct a; intros c0 c1 r1 Hinv0 ->.
      - unfold ret. intros [= <- <-]. split; [done|]. split; [done|].
        by intros n' [= <-].
      - unfold raise. by intros [= <- <-].
      - by apply add_const_builds. }
    match goal with |- context [match ?m c with _ => _ end] =>
      destruct (m c) as [c1 [n|e]] eqn:Hm end.
    2:{ intros [= <- <-]. destruct (Hfirst _ _ _ Hinv eq_refl Hm) as (?&?&_).
        done. }
    destruct (Hfirst _ _ _ Hinv eq_refl Hm) as (Hinv1 & Hle1 & Hn).
    specialize (Hn _ eq_refl).
    assert (Hargs1 : Forall (arg_ok c1) args).
    { eapply Forall_impl; [exact Hargs|]. intros [m| |v] Hm'; simpl in *; lia. }
    destruct (mmap _ args c1) as [c2 [l|e]] eqn:Hrest.
    + unfold ret. intros [= <- <-].
      destruct (IH _ _ _ Hinv1 Hargs1 Hrest)
        as (Hinv2 & Hle2 & Hl).
      destruct (Hl _ eq_refl) as [Hl1 Hl2].
      split; [done|]. split; [lia|]. intros l' [= <-].
      split; [|simpl; lia]. constructor; [unfold created_node in Hn; lia|done].
    + intros [= <- <-].
      destruct (IH _ _ _ Hinv1 Hargs1 Hrest)
        as (Hinv2 & Hle2 & _).
      split; [done|]. split; [lia|done].
Qed.

Lemma Operation_call_builds op args :
  builds (Operation_call op args) (λ c, Forall (arg_ok c) args) created_node.
Proof.
  intros c c' r Hinv Hargs. unfold Operation_call, bind at 1, get at 1.
  unfold bind at 1.
  destruct (match n_inputs (cls c) (_name op) with _ => _ end c)
    as [c0 [[]|e]] eqn:Harity.
  2:{ assert (c0 = c) as ->.
      { destruct (n_inputs _ _); [case_bool_decide|];
          unfold ret, raise in Harity; congruence. }
      by intros [= <- <-]. }
  assert (c0 = c ∧ (_name op = INPUT → args = [])) as [-> Hinput].
  { destruct (n_inputs (cls c) (_name op)) as [n|] eqn:Hn.
    - case_bool_decide as Hlen; unfold ret, raise in Harity; [|congruence].
      split; [congruence|]. intros Hop. rewrite Hop in Hn. simpl in Hn.
      injection Hn as <-. by destruct args.
    - split; [unfold ret in Harity; congruence|].
      intros Hop. rewrite Hop in Hn. done. }
  unfold bind at 1.
  destruct (mmap _ args c) as [c1 [inc|e]] eqn:Hwrap.
  2:{ intros [= <- <-].
      destruct (wrap_args_builds args _ _ _ Hinv Hargs Hwrap) as (?&?&_).
      done. }
  destruct (wrap_args_builds args _ _ _ Hinv Hargs Hwrap) as (Hinv1 & Hle1 & Hl).
  destruct (Hl _ eq_refl) as [Hlt Hlen].
  unfold bind.
  destruct (precompute op inc c1) as [c2 r2] eqn:Hpre.
  apply precompute_unchanged in Hpre as (-> & _ & Hnone).
  destruct r2 as [[n|]|e].
  - by destruct (Hnone n).
  - intros Hc.
    assert (Hinc : _name op = INPUT → inc = []).
    { intros Hop. rewrite (Hinput Hop) in Hlen. by destruct inc. }
    destruct (create_node_builds op inc _ _ _ Hinv1 (conj Hlt Hinc) Hc)
      as (Hinv2 & Hle2 & Hn).
    split; [done|]. split; [lia|done].
  - intros [= <- <-]. done.
Qed.

(** ** Removal of unused nodes *)

Lemma remove_unused_cases c :
  in_place_remove_unused_nodes c = (c, Raise RuntimeError) ∧ used_nodes c = None
  ∨ ∃ used, used_nodes c = Some used
      ∧ (in_place_remove_unused_nodes c = (c, Ok tt)
           ∧ size used = length (nodes c)
         ∨ in_place_remove_unused_nodes c = (pruned used c, Ok tt)).
Proof.
  unfold in_place_remove_unused_nodes.
  destruct (used_nodes c) as [used|]; [|by left].
  right. exists used. split; [done|]. case_bool_decide; [by left|by right].
Qed.

Lemma elem_of_pruned used c nd :
  nd ∈ nodes (pruned used c) ↔
  ∃ nd0, nd0 ∈ nodes c ∧ id nd0 ∈ used
         ∧ nd = set_outgoing (filter (λ o, o ∈ used) (outgoing nd0)) nd0.
Proof.
  unfold pruned. simpl. rewrite list_elem_of_fmap.
  split; intros (nd0 & H1 & H2).
  - apply list_elem_of_filter in H2 as [? ?]. eauto.
  - destruct H2 as [? ->]. exists nd0. split; [done|].
    apply list_elem_of_filter. by split.
Qed.

Lemma filter_pruned (used : gset nat) (ns : list (Node (V:=V))) :
  (∀ nd, nd ∈ ns → is_op INPUT nd = true → id nd ∈ used) →
  id <$> filter (λ nd, is_op INPUT nd = true)
           ((λ nd, set_outgoing (filter (λ o, o ∈ used) (outgoing nd)) nd)
            <$> filter (λ nd, id nd ∈ used) ns)
  = id <$> filter (λ nd, is_op INPUT nd = true) ns.
Proof.
  induction ns as [|nd ns IH]; intros Hall; [done|].
  assert (Hall' : ∀ nd', nd' ∈ ns → is_op INPUT nd' = true → id nd' ∈ used).
  { intros nd' ?. apply Hall. by apply list_elem_of_further. }
  rewrite (filter_cons (λ nd, id nd ∈ used)).
  destruct (decide (id nd ∈ used)) as [Hu|Hu].
  - rewrite fmap_cons, !(filter_cons (λ nd, is_op INPUT nd = true)).
    change (is_op INPUT (set_outgoing _ nd)) with (is_op INPUT nd).
    destruct (decide (is_op INPUT nd = true)); [|by apply IH].
    rewrite !fmap_cons. simpl. f_equal. by apply IH.
  - rewrite (filter_cons (λ nd, is_op INPUT nd = true)).
    rewrite decide_False; [by apply IH|].
    intros Hop. apply Hu, Hall; [apply list_elem_of_here|done].
Qed.

Lemma pruned_inv used c :
  (∀ i, i ∈ inputs c → i ∈ used) →
  circuit_inv c → circuit_inv (pruned used c).
Proof.
  intros Hused [Hids Hnd Hout Hinc Hedges Hcache Hin Hinlt Hininc Hord].
  split.
  - intros nd (nd0 & Hnd0 & _ & ->)%elem_of_pruned. simpl. by apply Hids.
  - unfold pruned. simpl. rewrite <- list_fmap_compose.
    eapply sublist_NoDup; [exact Hnd|].
    apply fmap_sublist, sublist_filter.
  - intros nd o (nd0 & Hnd0 & _ & ->)%elem_of_pruned. simpl.
    intros [_ Ho]%list_elem_of_filter. by eapply Hout.
  - intros nd p (nd0 & Hnd0 & _ & ->)%elem_of_pruned. simpl. by apply (Hinc nd0).
  - intros u v (u0 & Hu0 & _ & ->)%elem_of_pruned
                (v0 & Hv0 & Hv & ->)%elem_of_pruned. simpl.
    rewrite list_elem_of_filter, (Hedges u0 v0) by done. naive_solver.
  - done.
  - intros nd (nd0 & Hnd0 & _ & ->)%elem_of_pruned. by apply (Hin nd0).
  - done.
  - intros nd (nd0 & Hnd0 & _ & ->)%elem_of_pruned. by apply (Hininc nd0).
  - unfold pruned. cbn [set_nodes inputs nodes]. rewrite Hord at 1.
    symmetry. apply filter_pruned.
    intros nd Hin' Hop. apply Hused. rewrite Hord.
    apply list_elem_of_fmap. exists nd. split; [done|].
    by apply list_elem_of_filter.
Qed.

(** ** The backward search *)

Lemma size_difference_fresh (U used : gset nat) (x : nat) :
  x ∈ U → x ∉ used → size (U ∖ used) = S (size (U ∖ ({[x]} ∪ used))).
Proof.
  intros HU Hused.
  assert (U ∖ used = {[x]} ∪ U ∖ ({[x]} ∪ used)) as ->.
  { apply set_eq. intros y. rewrite elem_of_union, !elem_of_difference,
      elem_of_union, elem_of_singleton.
    destruct (decide (y = x)) as [->|]; [|naive_solver].
    split; [auto|]. intros _. by split. }
  rewrite size_union by set_solver. by rewrite size_singleton.
Qed.

Lemma mark_incoming_spec subs : ∀ q used q' used',
  mark_incoming subs (q, used) = (q', used') →
  used' = used ∪ list_to_set subs
  ∧ (∀ x, x ∈ q → x ∈ q')
  ∧ (∀ x, x ∈ used' → x ∈ used ∨ x ∈ q')
  ∧ (∀ U : gset nat, list_to_set subs ⊆ U →
       length q' + size (U ∖ used') = length q + size (U ∖ used)).
Proof.
  unfold mark_incoming.
  induction subs as [|sub subs IH]; intros q used q' used'; simpl.
  - intros [= <- <-]. split; [set_solver|]. split; [done|].
    split; [auto|done].
  - case_bool_decide as Hsub; simpl.
    + intros (-> & Hq & Hu & Hm)%IH. split; [set_solver|].
      split; [done|]. split; [done|].
      intros U HU. apply Hm. set_solver.
    + intros (-> & Hq & Hu & Hm)%IH. split; [set_solver|].
      split; [intros x Hx; apply Hq; set_solver|].
      split.
      { intros x Hx. destruct (Hu x Hx) as [Hx'|?]; [|by right].
        apply elem_of_union in Hx' as [->%elem_of_singleton|?]; [|by left].
        right. apply Hq. set_solver. }
      intros U HU. rewrite Hm by set_solver. rewrite length_app. simpl.
      rewrite (size_difference_fresh U used sub) by set_solver. lia.
Qed.

Lemma incoming_of_universe c v : list_to_set (incoming_of c v) ⊆ universe c.
Proof.
  unfold incoming_of, find_node, universe.
  destruct (list_find _ (nodes c)) as [[k nd]|] eqn:Hf; simpl; [|set_solver].
  apply list_find_Some in Hf as (Hk & _).
  apply list_elem_of_lookup_2 in Hk.
  intros x Hx. apply elem_of_list_to_set in Hx. apply elem_of_list_to_set.
  apply list_elem_of_bind. eauto.
Qed.

Lemma search_total c fuel : ∀ q used,
  length q + size (universe c ∖ used) ≤ fuel →
  is_Some (search fuel c q used).
Proof.
  induction fuel as [|fuel IH]; intros [|node q] used Hfuel; simpl;
    [by eexists|simpl in Hfuel; lia|by eexists|].
  destruct (mark_incoming (incoming_of c node) (q, used)) as [q1 used1] eqn:Hm.
  apply mark_incoming_spec in Hm as (_ & _ & _ & Hm).
  simpl. apply IH. rewrite (Hm _ (incoming_of_universe c node)).
  simpl in Hfuel. lia.
Qed.

(** The search never runs out of fuel. *)
Lemma used_nodes_total c : is_Some (used_nodes c).
Proof.
  unfold used_nodes, search_fuel. apply search_total.
  apply Nat.add_le_mono_l. etrans; [apply subseteq_size|].
  { apply subseteq_difference_l. reflexivity. }
  apply size_list_to_set_le.
Qed.

Lemma search_closed c fuel : ∀ q used res,
  search fuel c q used = Some res →
  (∀ v, v ∈ used →
        v ∈ q ∨ v ∈ inputs c ∨ ∀ p, p ∈ incoming_of c v → p ∈ used) →
  used ⊆ res
  ∧ ∀ v, v ∈ res → v ∈ inputs c ∨ ∀ p, p ∈ incoming_of c v → p ∈ res.
Proof.
  induction fuel as [|fuel IH]; intros [|node q] used res; simpl; try done.
  - intros [= <-] HJ. split; [done|]. intros v Hv.
    destruct (HJ v Hv) as [?%elem_of_nil|?]; [done|done].
  - intros [= <-] HJ. split; [done|]. intros v Hv.
    destruct (HJ v Hv) as [?%elem_of_nil|?]; [done|done].
  - destruct (mark_incoming (incoming_of c node) (q, used))
      as [q1 used1] eqn:Hm.
    apply mark_incoming_spec in Hm as (-> & Hq & Hu & _). simpl.
    intros Hs HJ. apply IH in Hs as [Hsub Hres].
    + split; [set_solver|done].
    + intros v Hv. destruct (Hu v Hv) as [Hv'|?]; [|by left].
      destruct (HJ v Hv') as [[->|?]%elem_of_cons|[?|Hp]].
      * right. right. intros p Hp. set_solver.
      * left. by apply Hq.
      * by right; left.
      * right. right. intros p ?. specialize (Hp p). set_solver.
Qed.

Lemma used_nodes_closed c used : used_nodes c = Some used → closed c used.
Proof.
  unfold used_nodes. intros Hs. apply search_closed in Hs as [Hsub Hres].
  - repeat split; [set_solver..|done].
  - intros v [Hv|Hv]%elem_of_union; apply elem_of_list_to_set in Hv; auto.
Qed.

Lemma new_Circuit_inv cl : circuit_inv (V:=V) (new_Circuit cl).
Proof.
  split; simpl; try (by intros ? ?%elem_of_nil);
    try (by intros ? ? ?%elem_of_nil); [constructor|done].
Qed.

(** Every circuit built through the interface satisfies the invariant. *)
Lemma reachable_inv c : reachable c → circuit_inv c.
Proof.
  induction 1 as [cl|c op args _ IH Hargs|c n _ IH|c _ IH|py_hash c _ IH].
  - apply new_Circuit_inv.
  - unfold exec.
    destruct (Operation_call op args c) as [c' r] eqn:Hcall.
    by destruct (Operation_call_builds op args _ _ _ IH Hargs Hcall).
  - by apply inv_set_outputs.
  - unfold exec.
    destruct (remove_unused_cases c) as [[-> _]|(used & Hu & [[-> _]| ->])];
      [done..|]. apply pruned_inv; [|done].
    by apply (used_nodes_closed _ _ Hu).
  - unfold exec. by rewrite remove_duplicate_nodes_unchanged.
Qed.

(** ** Evaluation after the removal of unused nodes *)

Lemma find_node_NoDup c nd :
  NoDup (id <$> nodes c) → nd ∈ nodes c → find_node c (id nd) = Some nd.
Proof.
  intros Hnd Hin. unfold find_node.
  destruct (list_find_elem_of (λ nd0, id nd0 = id nd) (nodes c) nd Hin eq_refl)
    as [[k nd'] Hf].
  rewrite Hf. simpl. f_equal.
  apply list_find_Some in Hf as (Hk & Heq & _).
  apply list_elem_of_lookup_1 in Hin as [j Hj].
  assert (k = j) as ->; [|congruence].
  eapply NoDup_lookup; [exact Hnd| |];
    rewrite list_lookup_fmap; [by rewrite Hk|by rewrite Hj; simpl; f_equal].
Qed.

(** With the invariant, a closed set holds the parents of each of its nodes
    that is evaluated. *)
Lemma closed_incoming c used nd p :
  circuit_inv c → closed c used →
  nd ∈ nodes c → id nd ∈ used → is_op INPUT nd = false →
  p ∈ incoming nd → p ∈ used.
Proof.
  intros Hinv (_ & _ & Hcl) Hnd Hused Hop Hp.
  destruct (Hcl _ Hused) as [Hi|Hinc].
  - rewrite (inv_inputs _ Hinv _ Hnd Hi) in Hop. done.
  - apply Hinc. unfold incoming_of.
    by rewrite (find_node_NoDup _ _ (inv_nodup _ Hinv) Hnd).
Qed.

Lemma feeds_output_used c used v :
  circuit_inv c → closed c used → feeds_output c v → v ∈ used.
Proof.
  intros Hinv Hcl. induction 1 as [o Ho|nd p Hnd _ IH Hp].
  - by apply Hcl.
  - destruct (is_op INPUT nd) eqn:Hop.
    + rewrite (inv_input_inc _ Hinv _ Hnd Hop) in Hp. by apply elem_of_nil in Hp.
    + by eapply closed_incoming.
Qed.

Lemma rmap_ext_elem {A B} (f g : A → result B) l :
  (∀ x, x ∈ l → f x = g x) → rmap f l = rmap g l.
Proof.
  induction l as [|x l IH]; intros Hfg; simpl; [done|].
  rewrite (Hfg x) by apply list_elem_of_here.
  rewrite IH; [done|]. intros y Hy. apply Hfg. by apply list_elem_of_further.
Qed.

Lemma pruned_evaluate used cl rnd : ∀ (ns : list (Node (V:=V))) mem1 mem2 mem1',
  (∀ nd p, nd ∈ ns → id nd ∈ used → is_op INPUT nd = false →
           p ∈ incoming nd → p ∈ used) →
  agree used mem1 mem2 →
  rfold (evaluate_node cl rnd) mem1 ns = Ok mem1' →
  ∃ mem2',
    rfold (evaluate_node cl rnd) mem2
      ((λ nd, set_outgoing (filter (λ o, o ∈ used) (outgoing nd)) nd)
       <$> filter (λ nd, id nd ∈ used) ns) = Ok mem2'
    ∧ agree used mem1' mem2'.
Proof.
  induction ns as [|nd ns IH]; intros mem1 mem2 mem1' Hcl Hag; simpl.
  - intros [= <-]. by exists mem2.
  - destruct (evaluate_node cl rnd mem1 nd) as [m1|] eqn:Hev; [|done].
    simpl. intros Hrest.
    assert (Hcl' : ∀ nd0 p, nd0 ∈ ns → id nd0 ∈ used →
                     is_op INPUT nd0 = false → p ∈ incoming nd0 → p ∈ used).
    { intros nd0 p ?. apply Hcl. by apply list_elem_of_further. }
    rewrite filter_cons. destruct (decide (id nd ∈ used)) as [Hu|Hu].
    + rewrite fmap_cons. cbn [rfold].
      assert (∃ m2, evaluate_node cl rnd mem2
                      (set_outgoing (filter (λ o, o ∈ used) (outgoing nd)) nd)
                    = Ok m2 ∧ agree used m1 m2) as (m2 & -> & Hag').
      { revert Hev. unfold evaluate_node, is_op. simpl.
        case_bool_decide as Hop; [intros [= <-]; by exists mem2|].
        rewrite (rmap_ext_elem (mem_get mem1) (mem_get mem2)).
        2:{ intros p Hp. unfold mem_get. rewrite Hag; [done|].
            eapply (Hcl nd p); [apply list_elem_of_here|done| |done].
            unfold is_op. by rewrite bool_decide_false. }
        destruct (rmap (mem_get mem2) (incoming nd)) as [args|]; [|done].
        simpl. destruct (eval _ _ _ _) as [v|]; [|done]. simpl.
        intros [= <-]. eexists. split; [done|].
        intros i Hi. destruct (decide (i = id nd)) as [->|].
        - by rewrite !lookup_insert_eq.
        - rewrite !lookup_insert_ne by done. by apply Hag. }
      simpl. by eapply IH.
    + eapply IH; [done| |exact Hrest].
      revert Hev. unfold evaluate_node.
      destruct (is_op INPUT nd); [by intros [= <-]|].
      destruct (rmap _ _); [|done]. simpl.
      destruct (eval _ _ _ _); [|done]. simpl. intros [= <-].
      intros i Hi. rewrite lookup_insert_ne; [by apply Hag|].
      intros <-. done.
Qed.

Lemma remove_unused_evaluate c rnd input ci co ys mem :
  circuit_inv c →
  evaluate_with_mem c rnd input ci co = Ok (ys, mem) →
  ∃ c' mem',
    in_place_remove_unused_nodes c = (c', Ok tt)
    ∧ evaluate_with_mem c' rnd input ci co = Ok (ys, mem')
    ∧ inputs c' = inputs c ∧ outputs c' = outputs c
    ∧ (∀ nd', nd' ∈ nodes c' →
         mem' !! id nd' = mem !! id nd'
         ∧ ∃ nd, nd ∈ nodes c ∧ id nd = id nd'
                 ∧ operation nd = operation nd' ∧ incoming nd = incoming nd')
    ∧ (∀ nd, nd ∈ nodes c →
         id nd ∈ inputs c ∨ feeds_output c (id nd) →
         id nd ∈ (id <$> nodes c')).
Proof.
  intros Hinv Hev.
  destruct (remove_unused_cases c) as [[_ Hnone]|(used & Hused & Hcase)].
  { destruct (used_nodes_total c) as [? ?]. congruence. }
  destruct Hcase as [[-> _]| ->].
  { exists c, mem. repeat split; try done.
    - exists nd'. done.
    - intros nd Hnd _. apply list_elem_of_fmap. eauto. }
  pose proof (used_nodes_closed _ _ Hused) as Hcl.
  assert (∃ mem2, evaluate_with_mem (pruned used c) rnd input ci co
                  = Ok (ys, mem2) ∧ agree used mem mem2) as (mem2 & Hev2 & Hag).
  { revert Hev. unfold evaluate_with_mem.
    cbn [pruned set_nodes cls inputs outputs nodes].
    case_bool_decide; [done|].
    destruct (if ci then _ else _) as [input'|]; [|done]. cbn [rbind].
    destruct (rfold _ _ (nodes c)) as [mem1|] eqn:Hrun; [|done]. cbn [rbind].
    destruct (rmap (mem_get mem1) (outputs c)) as [out|] eqn:Hout; [|done].
    cbn [rbind]. intros [= <- ->].
    destruct (pruned_evaluate used (cls c) rnd (nodes c) _ _ _
                (λ nd p Hnd, closed_incoming c used nd p Hinv Hcl Hnd)
                (λ i _, eq_refl) Hrun) as (mem2 & Hrun2 & Hag).
    exists mem2. rewrite Hrun2. cbn [rbind].
    rewrite <- (rmap_ext_elem (mem_get mem) (mem_get mem2)), Hout.
    { done. }
    intros o Ho. unfold mem_get. rewrite Hag; [done|]. by apply (proj1 (proj2 Hcl)). }
  exists (pruned used c), mem2. repeat split; try done.
  - apply elem_of_pruned in H as (nd0 & ? & ? & ->). simpl.
    symmetry. by apply Hag.
  - apply elem_of_pruned in H as (nd0 & ? & ? & ->). by exists nd0.
  - intros nd Hnd Hkeep. apply list_elem_of_fmap.
    exists (set_outgoing (filter (λ o, o ∈ used) (outgoing nd)) nd).
    split; [done|]. apply elem_of_pruned. exists nd. split; [exact Hnd|].
    split; [|done]. destruct Hkeep as [?|?]; [by apply (proj1 Hcl)|].
    by eapply feeds_output_used.
Qed.

End invariants.

(** C8.  In every circuit built through the construction interface and the
    in-place rewrites, for every pair of nodes [u], [v] of the circuit, [v]
    is in [u.outgoing] if and only if [u] is in [v.incoming]; this still
    holds after a further node creation (whatever the operation and the
    arguments, whether the call returns or raises), after
    [in_place_remove_unused_nodes] and after
    [in_place_remove_duplicate_nodes]. *)
Theorem edges_agree_preserved {V} `{!PyValue V} (c : Circuit (V:=V)) :
  reachable c →
  edges_agree c
  ∧ (∀ op args, Forall (arg_ok c) args →
       edges_agree (exec (Operation_call op args) c))
  ∧ edges_agree (exec in_place_remove_unused_nodes c)
  ∧ ∀ py_hash, edges_agree (exec (in_place_remove_duplicate_nodes py_hash) c).
Proof.
  intros Hc. split_and!.
  - by apply inv_edges, reachable_inv.
  - intros op args Hargs. by apply inv_edges, reachable_inv, reach_call.
  - by apply inv_edges, reachable_inv, reach_unused.
  - intros py_hash. by apply inv_edges, reachable_inv, reach_duplicate.
Qed.

Lemma unused_and_circuit_reachable : reachable unused_and_circuit.
Proof.
  unfold unused_and_circuit.
  apply reach_output.
  repeat (apply reach_call;
          [|vm_compute; repeat constructor]).
  apply reach_new.
Qed.

(** C8, witness: the circuit [unused_and_circuit]. *)
Lemma edges_agree_preserved_witness :
  edges_agree unused_and_circuit
  ∧ edges_agree (exec in_place_remove_unused_nodes unused_and_circuit).
Proof.
  destruct (edges_agree_preserved unused_and_circuit
              unused_and_circuit_reachable) as (H1 & _ & H2 & _).
  by split.
Defined.

(** C10.  For a circuit built through the interface that has no [RND] node,
    and an input on which [evaluate] returns, removing the unused nodes
    succeeds and [evaluate] returns the same outputs afterwards.  Every
    surviving node is a node of the original circuit with the same
    operation and parents and gets the same value; every input node and
    every node reached backwards from an output survives. *)
Theorem remove_unused_nodes_preserves_evaluate {V} `{!PyValue V}
    (c : Circuit (V:=V)) rnd input convert_input convert_output ys mem :
  reachable c →
  (∀ nd, nd ∈ nodes c → is_op RND nd = false) →
  evaluate_with_mem c rnd input convert_input convert_output = Ok (ys, mem) →
  ∃ c' mem',
    in_place_remove_unused_nodes c = (c', Ok tt)
    ∧ evaluate c rnd input convert_input convert_output = Ok ys
    ∧ evaluate c' rnd input convert_input convert_output = Ok ys
    ∧ evaluate_with_mem c' rnd input convert_input convert_output
      = Ok (ys, mem')
    ∧ inputs c' = inputs c ∧ outputs c' = outputs c
    ∧ (∀ nd', nd' ∈ nodes c' →
         mem' !! id nd' = mem !! id nd'
         ∧ ∃ nd, nd ∈ nodes c ∧ id nd = id nd'
                 ∧ operation nd = operation nd' ∧ incoming nd = incoming nd')
    ∧ (∀ nd, nd ∈ nodes c →
         id nd ∈ inputs c ∨ feeds_output c (id nd) →
         id nd ∈ (id <$> nodes c')).
Proof.
  intros Hc _ Hev.
  destruct (remove_unused_evaluate c rnd input convert_input convert_output
              ys mem (reachable_inv c Hc) Hev)
    as (c' & mem' & Hrun & Hev' & Hin & Hout & Hsurv & Hkeep).
  exists c', mem'. unfold evaluate. rewrite Hev, Hev'. by split_and!.
Qed.

(** C10, witness: [unused_and_circuit] on the input [a = 1, b = 0]; the
    unused [AND] node 2 is removed and the output stays 1. *)
Lemma remove_unused_nodes_preserves_evaluate_witness :
  ∃ c' (mem' : gmap nat Z),
    in_place_remove_unused_nodes unused_and_circuit = (c', Ok tt)
    ∧ id <$> nodes c' = [0; 1; 3]
    ∧ evaluate unused_and_circuit (λ _, 0%Z) [1; 0]%Z true true = Ok [1%Z]
    ∧ evaluate c' (λ _, 0%Z) [1; 0]%Z true true = Ok [1%Z]
    ∧ mem' !! 3 = Some 1%Z.
Proof.
  destruct (evaluate_with_mem unused_and_circuit (λ _, 0%Z) [1; 0]%Z true true)
    as [[ys mem]|] eqn:Hev; [|vm_compute in Hev; discriminate].
  destruct (remove_unused_nodes_preserves_evaluate unused_and_circuit
              (λ _, 0%Z) [1; 0]%Z true true ys mem
              unused_and_circuit_reachable)
    as (c' & mem' & Hrun & Hev0 & Hev1 & Hev2 & _).
  - intros nd Hnd. vm_compute in Hnd.
    repeat (apply elem_of_cons in Hnd as [->|Hnd]; [reflexivity|]).
    by apply elem_of_nil in Hnd.
  - exact Hev.
  - assert (ys = [1%Z]) as ->.
    { vm_compute in Hev0. congruence. }
    exists c', mem'. split; [exact Hrun|].
    vm_compute in Hrun. injection Hrun as <-.
    split; [reflexivity|]. split; [exact Hev0|]. split; [exact Hev1|].
    vm_compute in Hev2. injection Hev2 as <-. reflexivity.
Defined.

(* ===================================================================== *)
(** * ISW masking *)
(* ===================================================================== *)

Section masking.
Context {V : Type} `{!PyValue V}.

#[local] Instance extends_refl : Reflexive (extends (V:=V)).
Proof. intros c. by repeat split. Qed.
#[local] Instance extends_trans : Transitive (extends (V:=V)).
Proof.
  intros c1 c2 c3 (?&?&?&?&?) (?&?&?&?&?).
  split_and!; [by etrans|by etrans|by etrans|congruence|lia].
Qed.

Lemma skeleton_created op inc (c : Circuit (V:=V)) :
  skeleton (created op inc c) = skeleton c ++ [(node_counter c, op, inc)].
Proof.
  unfold skeleton. simpl. rewrite fmap_app, <- list_fmap_compose. done.
Qed.

Lemma created_extends op inc (c : Circuit (V:=V)) : extends c (created op inc c).
Proof.
  split_and!.
  - rewrite skeleton_created. by apply prefix_app_r.
  - simpl. case_bool_decide; [by apply prefix_app_r|done].
  - done.
  - done.
  - simpl. lia.
Qed.

Lemma created_fresh cl op inc (c : Circuit (V:=V)) :
  well_built cl c →
  Forall (λ p, p < node_counter c) inc →
  total cl (mkNode (node_counter c) op inc []) →
  well_built cl (created op inc c).
Proof.
  intros [Hcls Hids Hinc Hin Htot] Hlt Hnew.
  rewrite Forall_forall in Hlt.
  assert (Hmem : ∀ nd, nd ∈ nodes (created op inc c) →
            (∃ nd0, nd0 ∈ nodes c ∧ nd = with_child inc (node_counter c) nd0)
            ∨ nd = mkNode (node_counter c) op inc []).
  { intros nd. simpl. rewrite elem_of_app, list_elem_of_fmap, list_elem_of_singleton.
    intros [(nd0 & -> & ?)| -> ]; eauto. }
  split.
  - done.
  - unfold created. cbn [nodes node_counter].
    rewrite fmap_app, <- list_fmap_compose.
    change (id ∘ with_child inc (node_counter c)) with (id (V:=V)).
    rewrite Hids, seq_S. done.
  - intros nd p [(nd0 & Hnd0 & ->)| -> ]%Hmem; simpl; [by apply Hinc|].
    apply Hlt.
  - simpl. rewrite filter_app, fmap_app, filter_with_child, <- Hin.
    rewrite filter_cons, filter_nil. unfold is_op. simpl.
    case_bool_decide as Hop.
    + by rewrite decide_True.
    + rewrite decide_False by done. by rewrite app_nil_r.
  - intros nd [(nd0 & Hnd0 & ->)| -> ]%Hmem; [|done].
    by apply (Htot nd0).
Qed.

(** ** Calls in a plain circuit *)

Lemma wrap_nodes (inc : list nat) (c : Circuit (V:=V)) :
  mmap (λ value : arg,
          match value with
          | ANode n => ret n
          | AForeign => raise TypeError
          | AValue v => add_const (PVal v)
          end) (ANode <$> inc) c = (c, Ok inc).
Proof.
  induction inc as [|p inc IH]; [done|].
  rewrite fmap_cons. cbn [mmap].
  rewrite (bind_run _ _ c c p eq_refl).
  by rewrite (bind_run _ _ c c inc IH).
Qed.

Lemma plain_flags cl :
  plain cl →
  CACHE_NODES cl = false ∧ PRECOMPUTE_CONSTANT_OPERATIONS cl = false.
Proof. by intros [->| ->]. Qed.

(** In a plain circuit a call on nodes with the right arity runs the
    validation hook and creates the node. *)
Lemma plain_call op inc (c : Circuit (V:=V)) :
  plain (cls c) →
  n_inputs (cls c) (_name op) = Fixed (length inc)
  ∨ n_inputs (cls c) (_name op) = VARIABLE →
  Operation_call op (ANode <$> inc) c
  = match before_create_node op inc c with
    | (c1, Ok _) => (created op inc c1, Ok (node_counter c1))
    | (c1, Raise e) => (c1, Raise e)
    end.
Proof.
  intros [Hcache Hpre]%plain_flags Harity.
  assert (match n_inputs (cls c) (_name op) with
          | Fixed n => if bool_decide (length (ANode (V:=V) <$> inc) = n)
                       then ret () else raise TypeError
          | VARIABLE => ret ()
          end c = (c, Ok tt)) as Hcheck.
  { destruct Harity as [-> | ->]; [|done].
    by rewrite length_fmap, bool_decide_true. }
  assert (precompute op inc c = (c, Ok None)) as Hfold.
  { unfold precompute. rewrite (bind_run get _ c c c eq_refl).
    by rewrite Hpre. }
  unfold Operation_call.
  rewrite (bind_run get _ c c c eq_refl).
  rewrite (bind_run _ _ c c tt Hcheck).
  rewrite (bind_run _ _ c c inc (wrap_nodes inc c)).
  rewrite (bind_run _ _ c c None Hfold).
  rewrite create_node_unfold, Hcache.
  by destruct (before_create_node op inc c) as [c1 [[]|e]].
Qed.

Lemma plain_apply name inc (c : Circuit (V:=V)) :
  plain (cls c) →
  name ∈ [ADD; SUB; MUL; AND; XOR; RND] →
  name ∈ operations (cls c) →
  n_inputs (cls c) name = Fixed (length inc) →
  apply name [] (ANode <$> inc) c
  = (created (mkOperation name []) inc c, Ok (node_counter c)).
Proof.
  intros Hplain Hname Hops Harity.
  assert (new_Operation (V:=V) (cls c) name [] = Ok (mkOperation name []))
    as Hop.
  { unfold new_Operation. rewrite bool_decide_true by done.
    unfold Operation_init.
    repeat (apply elem_of_cons in Hname as [->|Hname]; [done|]).
    by apply elem_of_nil in Hname. }
  unfold apply. rewrite (bind_run get _ c c c eq_refl).
  rewrite (bind_run (lift _) _ c c _ (f_equal (pair c) Hop)).
  rewrite plain_call by auto.
  unfold before_create_node. simpl.
  repeat (apply elem_of_cons in Hname as [->|Hname]; [done|]).
  by apply elem_of_nil in Hname.
Qed.

Lemma Node_add_plain a b (c : Circuit (V:=V)) :
  plain (cls c) →
  Node_add a (ANode b) c
  = (created (mkOperation (add_op (cls c)) []) [a; b] c, Ok (node_counter c)).
Proof.
  intros Hplain. unfold Node_add. rewrite (bind_run get _ c c c eq_refl).
  destruct Hplain as [Hc|Hc]; rewrite Hc;
    apply (plain_apply _ [a; b]); rewrite ?Hc;
    try (by left); try (by right); try done;
    repeat (first [apply list_elem_of_here | apply list_elem_of_further]).
Qed.

Lemma Node_mul_plain a b (c : Circuit (V:=V)) :
  plain (cls c) →
  Node_mul a (ANode b) c
  = (created (mkOperation (mul_op (cls c)) []) [a; b] c, Ok (node_counter c)).
Proof.
  intros Hplain. unfold Node_mul. rewrite (bind_run get _ c c c eq_refl).
  destruct Hplain as [Hc|Hc]; rewrite Hc;
    apply (plain_apply _ [a; b]); rewrite ?Hc;
    try (by left); try (by right); try done;
    repeat (first [apply list_elem_of_here | apply list_elem_of_further]).
Qed.

Lemma Node_sub_plain a b (c : Circuit (V:=V)) :
  plain (cls c) →
  Node_sub a (ANode b) c
  = (created (mkOperation (sub_op (cls c)) []) [a; b] c, Ok (node_counter c)).
Proof.
  intros Hplain. unfold Node_sub. rewrite (bind_run get _ c c c eq_refl).
  destruct Hplain as [Hc|Hc]; rewrite Hc;
    apply (plain_apply _ [a; b]); rewrite ?Hc;
    try (by left); try (by right); try done;
    repeat (first [apply list_elem_of_here | apply list_elem_of_further]).
Qed.

Lemma RND_plain (c : Circuit (V:=V)) :
  plain (cls c) →
  apply RND [] [] c
  = (created (mkOperation RND []) [] c, Ok (node_counter c)).
Proof.
  intros Hplain.
  apply (plain_apply RND [] c Hplain).
  - repeat (first [apply list_elem_of_here | apply list_elem_of_further]).
  - destruct Hplain as [-> | ->];
      repeat (first [apply list_elem_of_here | apply list_elem_of_further]).
  - by destruct Hplain as [-> | ->].
Qed.

(** ** Sums in characteristic 2 *)

Section algebra.
Variable cl : CircuitClass.
Hypothesis laws : masking_laws cl.

#[local] Infix "⊕" := (v_plus cl) (at level 50, left associativity).
#[local] Infix "⊗" := (v_times cl) (at level 40, left associativity).

Lemma plus_zero_r a : a ⊕ v_zero = a.
Proof. rewrite (plus_comm _ laws). apply (plus_zero _ laws). Qed.

Lemma plus_swap4 a b c d : (a ⊕ b) ⊕ (c ⊕ d) = (a ⊕ c) ⊕ (b ⊕ d).
Proof.
  rewrite <- !(plus_assoc _ laws). f_equal.
  rewrite !(plus_assoc _ laws). f_equal. apply (plus_comm _ laws).
Qed.

Lemma plus_cancel a b : (a ⊕ b) ⊕ b = a.
Proof.
  by rewrite <- (plus_assoc _ laws), (plus_self _ laws), plus_zero_r.
Qed.

Lemma times_zero_r a : a ⊗ v_zero = v_zero.
Proof.
  rewrite <- (plus_self _ laws (a ⊗ v_zero)) at 2.
  rewrite <- (times_plus_r _ laws). by rewrite (plus_zero _ laws).
Qed.

Lemma times_zero_l a : v_zero ⊗ a = v_zero.
Proof.
  rewrite <- (plus_self _ laws (v_zero ⊗ a)) at 2.
  rewrite <- (times_plus_l _ laws). by rewrite (plus_zero _ laws).
Qed.

Lemma sum_app l1 l2 : share_sum cl (l1 ++ l2) = share_sum cl l1 ⊕ share_sum cl l2.
Proof.
  induction l1 as [|a l1 IH]; simpl.
  - by rewrite (plus_zero _ laws).
  - by rewrite IH, (plus_assoc _ laws).
Qed.

Lemma sum_snoc l a : share_sum cl (l ++ [a]) = share_sum cl l ⊕ a.
Proof. rewrite sum_app. simpl. by rewrite plus_zero_r. Qed.

Lemma sum_zip_plus l1 l2 :
  length l1 = length l2 →
  share_sum cl (zip_with (v_plus cl) l1 l2) = share_sum cl l1 ⊕ share_sum cl l2.
Proof.
  revert l2. induction l1 as [|a l1 IH]; intros [|b l2] [=]; simpl.
  - by rewrite (plus_zero _ laws).
  - rewrite IH by done. apply plus_swap4.
Qed.

Lemma bsum_ext f g n : (∀ i, i < n → f i = g i) → bsum cl f n = bsum cl g n.
Proof.
  induction n as [|n IH]; intros Hfg; simpl; [done|].
  rewrite IH, Hfg by (intros; auto with lia). done.
Qed.

Lemma bsum_plus f g n :
  bsum cl (λ i, f i ⊕ g i) n = bsum cl f n ⊕ bsum cl g n.
Proof.
  induction n as [|n IH]; simpl.
  - by rewrite (plus_zero _ laws).
  - rewrite IH. apply plus_swap4.
Qed.

Lemma bsum_zero n : bsum cl (λ _, v_zero) n = v_zero.
Proof.
  induction n as [|n IH]; simpl; [done|]. by rewrite IH, (plus_zero _ laws).
Qed.

Lemma bsum_times_l a g n : bsum cl (λ j, a ⊗ g j) n = a ⊗ bsum cl g n.
Proof.
  induction n as [|n IH]; simpl.
  - by rewrite times_zero_r.
  - by rewrite IH, (times_plus_r _ laws).
Qed.

Lemma bsum_times_r f b n : bsum cl (λ i, f i ⊗ b) n = bsum cl f n ⊗ b.
Proof.
  induction n as [|n IH]; simpl.
  - by rewrite times_zero_l.
  - by rewrite IH, (times_plus_l _ laws).
Qed.

(** The sum of a list is the sum of its entries by position. *)
Lemma sum_bsum (l : list V) d :
  share_sum cl l = bsum cl (λ i, nth i l d) (length l).
Proof.
  induction l as [|a l IH] using rev_ind; [done|].
  rewrite sum_snoc, length_app, Nat.add_1_r. simpl.
  rewrite app_nth2, Nat.sub_diag by lia. simpl. f_equal.
  rewrite IH. apply bsum_ext. intros i Hi. by rewrite app_nth1.
Qed.

(** Two square tables with the same sums of mirrored cells have the same
    sum, the diagonal of the first being apart. *)
Lemma bsum_mirror (M P : nat → nat → V) n :
  (∀ i, i < n → M i i = v_zero) →
  (∀ i j, i < j < n → M i j ⊕ M j i = P i j ⊕ P j i) →
  bsum cl (λ i, P i i) n ⊕ bsum cl (λ i, bsum cl (M i) n) n
  = bsum cl (λ i, bsum cl (P i) n) n.
Proof.
  induction n as [|n IH]; intros Hdiag Hmirror.
  - simpl. by rewrite (plus_zero _ laws).
  - cbn [bsum]. rewrite !bsum_plus.
    rewrite Hdiag, plus_zero_r by lia.
    rewrite <- IH by (intros; auto with lia).
    set (D := bsum cl (λ i, P i i) n).
    set (SM := bsum cl (λ i, bsum cl (M i) n) n).
    assert (bsum cl (λ i, M i n) n ⊕ bsum cl (M n) n
            = bsum cl (λ i, P i n) n ⊕ bsum cl (P n) n) as Hcol.
    { rewrite <- !bsum_plus. apply bsum_ext. intros i Hi.
      apply Hmirror. lia. }
    set (cM := bsum cl (λ i, M i n) n) in *.
    set (rM := bsum cl (M n) n) in *.
    set (cP := bsum cl (λ i, P i n) n) in *.
    set (rP := bsum cl (P n) n) in *.
    transitivity ((D ⊕ SM) ⊕ (cM ⊕ rM) ⊕ P n n).
    + rewrite <- !(plus_assoc _ laws). f_equal.
      rewrite (plus_comm _ laws (P n n)).
      by rewrite <- !(plus_assoc _ laws).
    + rewrite Hcol. by rewrite <- !(plus_assoc _ laws).
Qed.

Lemma row_fold_bsum d xy i m :
  row_fold cl d xy i m
  = xy ⊕ bsum cl (λ j, if bool_decide (i = j) then v_zero else d i j) m.
Proof.
  unfold row_fold. induction m as [|m IH].
  - simpl. by rewrite plus_zero_r.
  - rewrite seq_S, foldl_app. cbn [foldl bsum]. rewrite IH. simpl.
    case_bool_decide; case_bool_decide; try done.
    + by rewrite (minus_plus _ laws), <- (plus_assoc _ laws).
    + by rewrite plus_zero_r.
Qed.

(** The shares the ISW multiplication returns sum to the product. *)
Lemma isw_product (X Y Z : nat → V) (d : nat → nat → V) n :
  (∀ i j, i < j < n → d j i = (d i j ⊕ X i ⊗ Y j) ⊕ X j ⊗ Y i) →
  (∀ i, i < n → Z i = row_fold cl d (X i ⊗ Y i) i n) →
  bsum cl Z n = bsum cl X n ⊗ bsum cl Y n.
Proof.
  intros Hd HZ.
  rewrite (bsum_ext Z (λ i, X i ⊗ Y i ⊕
             bsum cl (λ j, if bool_decide (i = j) then v_zero else d i j) n)).
  2: { intros i Hi. rewrite HZ by done. apply row_fold_bsum. }
  rewrite bsum_plus.
  rewrite (bsum_mirror _ (λ i j, X i ⊗ Y j)).
  - rewrite <- bsum_times_r. apply bsum_ext. intros i _.
    apply bsum_times_l.
  - intros i _. by rewrite bool_decide_true.
  - intros i j Hij. rewrite !bool_decide_false by lia.
    rewrite (Hd i j) by done.
    rewrite (plus_assoc _ laws), (plus_assoc _ laws).
    rewrite (plus_self _ laws), (plus_zero _ laws). done.
Qed.

(** The shares of a constant: [d] random values and the constant plus
    all of them. *)
Lemma isw_const v l : share_sum cl (l ++ [v ⊕ share_sum cl l]) = v.
Proof.
  rewrite sum_snoc, (plus_comm _ laws v), (plus_assoc _ laws).
  by rewrite (plus_self _ laws), (plus_zero _ laws).
Qed.

End algebra.

(** ** Evaluation and the equations of a circuit *)

Section evaluation.

Lemma rfold_inv {A B} (f : B → A → result B) (I : list A → B → Prop) l :
  (∀ pre x post b b', l = pre ++ x :: post → I pre b → f b x = Ok b' →
     I (pre ++ [x]) b') →
  ∀ b0 b, I [] b0 → rfold f b0 l = Ok b → I l b.
Proof.
  intros Hstep.
  assert (∀ l' pre b0 b, l = pre ++ l' → I pre b0 →
            rfold f b0 l' = Ok b → I l b) as H.
  { induction l' as [|x l' IH]; intros pre b0 b Hl HI Hrun.
    - injection Hrun as <-. by rewrite Hl, app_nil_r.
    - cbn [rfold] in Hrun. destruct (f b0 x) as [b'|] eqn:Hx; [|done].
      apply (IH (pre ++ [x]) b'); [by rewrite <- app_assoc| |done].
      by apply (Hstep pre x l' b0). }
  intros b0 b. by apply (H l []).
Qed.

Lemma rfold_ok {A B} (f : B → A → result B) (I : list A → B → Prop) l :
  (∀ pre x post b, l = pre ++ x :: post → I pre b →
     ∃ b', f b x = Ok b' ∧ I (pre ++ [x]) b') →
  ∀ b0, I [] b0 → ∃ b, rfold f b0 l = Ok b ∧ I l b.
Proof.
  intros Hstep.
  assert (∀ l' pre b0, l = pre ++ l' → I pre b0 →
            ∃ b, rfold f b0 l' = Ok b ∧ I l b) as H.
  { induction l' as [|x l' IH]; intros pre b0 Hl HI.
    - exists b0. by rewrite Hl, app_nil_r.
    - destruct (Hstep pre x l' b0 Hl HI) as (b' & Hx & HI').
      cbn [rfold]. rewrite Hx. simpl.
      apply (IH (pre ++ [x])); [by rewrite <- app_assoc|done]. }
  intros b0. by apply (H l []).
Qed.

Lemma input_mem_notin (ks : list nat) (vs : list V) (m0 : gmap nat V) t :
  t ∉ ks →
  foldl (λ m nv, <[nv.1 := nv.2]> m) m0 (zip ks vs) !! t = m0 !! t.
Proof.
  revert vs m0. induction ks as [|k ks IH]; intros [|v vs] m0 Ht;
    simpl; try done.
  apply not_elem_of_cons in Ht as [Hk Ht].
  rewrite IH by done. by rewrite lookup_insert_ne by congruence.
Qed.

Lemma input_mem_lookup (ks : list nat) (vs : list V) (m0 : gmap nat V) p t x :
  NoDup ks → ks !! p = Some t → vs !! p = Some x →
  foldl (λ m nv, <[nv.1 := nv.2]> m) m0 (zip ks vs) !! t = Some x.
Proof.
  revert vs m0 p. induction ks as [|k ks IH]; intros [|v vs] m0 [|p] Hnd;
    simpl; try done.
  - intros [= ->] [= ->]. apply NoDup_cons in Hnd as [Hk _].
    rewrite input_mem_notin by done. by rewrite lookup_insert_eq.
  - apply NoDup_cons in Hnd as [_ Hnd]. by apply IH.
Qed.

Lemma input_mem_dom (ks : list nat) (vs : list V) (m0 : gmap nat V) t :
  is_Some (foldl (λ m nv, <[nv.1 := nv.2]> m) m0 (zip ks vs) !! t) →
  is_Some (m0 !! t) ∨ t ∈ ks.
Proof.
  revert vs m0. induction ks as [|k ks IH]; intros [|v vs] m0; simpl; auto.
  intros [Hs|Hin]%IH.
  - destruct (decide (k = t)) as [->|Hne]; [right; left|].
    rewrite lookup_insert_ne in Hs by done. by left.
  - right. by right.
Qed.

Lemma rmap_mem_get (m : gmap nat V) l args :
  rmap (mem_get m) l = Ok args →
  args = val m <$> l ∧ Forall (λ p, is_Some (m !! p)) l.
Proof.
  revert args. induction l as [|p l IH]; intros args; simpl.
  - by intros [= <-].
  - unfold mem_get at 1. destruct (m !! p) as [v|] eqn:Hp; [|done]. simpl.
    destruct (rmap (mem_get m) l) as [vs|]; [|done]. simpl.
    intros [= <-]. destruct (IH vs eq_refl) as [-> Hl].
    split; [|by constructor]. unfold val at 2. by rewrite Hp.
Qed.

Lemma rmap_mem_get_ok (m : gmap nat V) l :
  Forall (λ p, is_Some (m !! p)) l → rmap (mem_get m) l = Ok (val m <$> l).
Proof.
  induction 1 as [|p l [v Hp] _ IH]; simpl; [done|].
  unfold mem_get at 1. rewrite Hp. simpl. rewrite IH. simpl.
  unfold val at 2. by rewrite Hp.
Qed.

Lemma val_insert_ne (m : gmap nat V) k v p :
  p ≠ k → val (<[k:=v]> m) p = val m p.
Proof. intros Hne. unfold val. by rewrite lookup_insert_ne by congruence. Qed.

Lemma vals_insert_ne (m : gmap nat V) k v l :
  m !! k = None → Forall (λ p, is_Some (m !! p)) l →
  val (<[k:=v]> m) <$> l = val m <$> l.
Proof.
  intros Hk Hl. apply list_fmap_ext. intros i p Hp.
  apply val_insert_ne. intros ->.
  rewrite Forall_forall in Hl.
  destruct (Hl k) as [? Hs]; [by eapply list_elem_of_lookup_2|congruence].
Qed.

Lemma NoDup_fmap_inj {A B} (f : A → B) l x y :
  NoDup (f <$> l) → x ∈ l → y ∈ l → f x = f y → x = y.
Proof.
  intros Hnd [i Hi]%list_elem_of_lookup_1 [j Hj]%list_elem_of_lookup_1 Hxy.
  assert (i = j) as ->; [|congruence].
  apply (NoDup_lookup _ _ _ (f x) Hnd); rewrite list_lookup_fmap.
  - by rewrite Hi.
  - rewrite Hj. simpl. by rewrite Hxy.
Qed.

(** The memory of a successful evaluation satisfies the equations of the
    circuit, and the outputs are read from it. *)
Lemma evaluate_models c rnd xs ys mem :
  NoDup (id <$> nodes c) →
  inputs c = id <$> filter (λ nd, is_op INPUT nd = true) (nodes c) →
  evaluate_with_mem c rnd xs false false = Ok (ys, mem) →
  sem (cls c) rnd mem xs c ∧ ys = val mem <$> outputs c
  ∧ length xs = length (inputs c).
Proof.
  intros Hnd Hin. unfold evaluate_with_mem.
  case_bool_decide as Hlen; [done|]. simpl.
  set (mem0 := foldl _ _ _).
  destruct (rfold _ mem0 (nodes c)) as [mem1|] eqn:Hfold; [|done]. simpl.
  destruct (rmap (mem_get mem1) (outputs c)) as [out|] eqn:Hout; [|done].
  simpl. intros [= <- <-].
  assert (NoDup (inputs c)) as Hnd_in.
  { rewrite Hin. eapply sublist_NoDup; [exact Hnd|].
    apply fmap_sublist, sublist_filter. }
  pose (J := λ (pre : list Node) (m : gmap nat V),
    (∀ nd, nd ∈ pre → is_op INPUT nd = false →
       is_Some (m !! id nd)
       ∧ Forall (λ p, is_Some (m !! p)) (incoming nd)
       ∧ eval (cls c) (rnd (id nd)) (operation nd) (val m <$> incoming nd)
         = Ok (val m (id nd)))
    ∧ (∀ p t x, inputs c !! p = Some t → xs !! p = Some x → m !! t = Some x)
    ∧ (∀ i, is_Some (m !! i) → i ∈ inputs c ∨ i ∈ id <$> pre)).
  assert (J (nodes c) mem1) as (Hnodes & Hinputs & _).
  { apply (rfold_inv (evaluate_node (cls c) rnd) J (nodes c))
      with (b0 := mem0) (b := mem1); [|split_and!|done].
    - intros pre nd post m m' Hl (Hn & Hi & Hd) Hstep.
      unfold evaluate_node in Hstep.
      destruct (is_op INPUT nd) eqn:Hop.
      { injection Hstep as <-. split_and!; [|done|].
        - intros nd0 [Hnd0| ->%list_elem_of_singleton]%elem_of_app ?;
            [by apply Hn|congruence].
        - intros i [?|?]%Hd; [by left|right].
          rewrite fmap_app. apply elem_of_app. by left. }
      destruct (rmap (mem_get m) (incoming nd)) as [args|] eqn:Hargs;
        [|done].
      simpl in Hstep.
      destruct (eval (cls c) (rnd (id nd)) (operation nd) args)
        as [v|] eqn:Hv; [|done].
      injection Hstep as <-.
      apply rmap_mem_get in Hargs as [-> Hargs].
      assert (m !! id nd = None) as Hfresh.
      { apply eq_None_not_Some. intros [Hi'|Hi']%Hd.
        - rewrite Hin in Hi'.
          apply list_elem_of_fmap in Hi' as (nd' & Hid & Hnd').
          apply list_elem_of_filter in Hnd' as [Hop' Hnd'].
          assert (nd = nd') as <-; [|congruence].
          apply (NoDup_fmap_inj id (nodes c)); [done| |done|done].
          rewrite Hl. apply elem_of_app. right. left.
        - rewrite Hl, fmap_app in Hnd. apply NoDup_app in Hnd as (_ & Hnd & _).
          apply (Hnd _ Hi'). left. }
      split_and!.
      + intros nd0 [Hnd0| ->%list_elem_of_singleton]%elem_of_app Hop0.
        * destruct (Hn nd0 Hnd0 Hop0) as ([v0 Hv0] & Hinc0 & Hev0).
          assert (id nd0 ≠ id nd) as Hne by congruence.
          split_and!.
          -- rewrite lookup_insert_ne by congruence. eauto.
          -- eapply Forall_impl; [exact Hinc0|]. intros p [vp Hp]. simpl.
             rewrite lookup_insert_ne by congruence. eauto.
          -- rewrite vals_insert_ne, val_insert_ne by done. done.
        * split_and!.
          -- rewrite lookup_insert_eq. eauto.
          -- eapply Forall_impl; [exact Hargs|]. intros p [vp Hp]. simpl.
             rewrite lookup_insert_ne by congruence. eauto.
          -- rewrite vals_insert_ne by done. rewrite Hv. f_equal.
             unfold val. by rewrite lookup_insert_eq.
      + intros p t x Hp Hx. rewrite lookup_insert_ne; [by eapply Hi|].
        intros <-. specialize (Hi _ _ _ Hp Hx). congruence.
      + intros i. destruct (decide (i = id nd)) as [->|Hne].
        * intros _. right. rewrite fmap_app. apply elem_of_app. right. left.
        * rewrite lookup_insert_ne by congruence.
          intros [?|?]%Hd; [by left|right].
          rewrite fmap_app. apply elem_of_app. by left.
    - intros nd Hnd0. by apply elem_of_nil in Hnd0.
    - intros p t x Hp Hx. by apply (input_mem_lookup _ _ _ p).
    - intros i [Hi|Hi]%input_mem_dom; [|by left].
      rewrite lookup_empty in Hi. by destruct Hi. }
  split_and!.
  - split.
    + intros i op inc (nd & [= -> -> ->] & Hnd0)%list_elem_of_fmap Hop.
      apply Hnodes; [done|]. unfold is_op. by rewrite bool_decide_false.
    + intros p t x Hp Hx. unfold val. by rewrite (Hinputs p t x).
  - by apply rmap_mem_get in Hout as [-> _].
  - destruct (decide (length xs = length (inputs c))); [done|].
    by destruct Hlen.
Qed.

(** A fresh circuit evaluates on every input of the right length and every
    assignment of its random nodes. *)
Lemma fresh_evaluates cl c rnd xs :
  well_built cl c → length xs = length (inputs c) →
  Forall (λ o, o < node_counter c) (outputs c) →
  ∃ ys mem, evaluate_with_mem c rnd xs false false = Ok (ys, mem).
Proof.
  intros [Hcls Hids Hinc Hin Htot] Hlen Hout. unfold evaluate_with_mem.
  rewrite bool_decide_false by lia. simpl.
  set (mem0 := foldl _ _ _).
  assert (NoDup (inputs c)) as Hnd_in.
  { rewrite Hin. eapply sublist_NoDup; [|apply fmap_sublist, sublist_filter].
    rewrite Hids. apply NoDup_seq. }
  assert (length (nodes c) = node_counter c) as Hnodes_len.
  { by rewrite <- (length_fmap id), Hids, length_seq. }
  pose (K := λ (pre : list (Node (V:=V))) (m : gmap nat V),
    (∀ t, t ∈ inputs c → is_Some (m !! t))
    ∧ (∀ i, i < length pre → is_Some (m !! i))).
  destruct (rfold_ok (evaluate_node (cls c) rnd) K (nodes c)) with (b0 := mem0)
    as (mem1 & -> & _ & Hdom).
  - intros pre nd post m Hl [Hi Hp].
    assert (id nd = length pre) as Hid.
    { assert ((id <$> nodes c) !! length pre = Some (id nd)) as Hk.
      { rewrite list_lookup_fmap, Hl, list_lookup_middle; done. }
      rewrite Hids in Hk. apply lookup_seq in Hk. lia. }
    assert (nd ∈ nodes c) as Hnd.
    { rewrite Hl. apply elem_of_app. right. left. }
    unfold evaluate_node. destruct (is_op INPUT nd) eqn:Hop.
    + exists m. split; [done|]. split; [done|].
      intros i. rewrite length_app. simpl. intros Hlt.
      destruct (decide (i = length pre)) as [->|]; [|apply Hp; lia].
      apply Hi. rewrite Hin, <- Hid. apply list_elem_of_fmap.
      exists nd. split; [done|]. by apply list_elem_of_filter.
    + assert (Forall (λ p, is_Some (m !! p)) (incoming nd)) as Hargs.
      { apply Forall_forall. intros p Hpin. apply Hp.
        specialize (Hinc nd p Hnd Hpin). lia. }
      rewrite (rmap_mem_get_ok _ _ Hargs). simpl.
      destruct (Htot nd Hnd Hop (rnd (id nd)) (val m <$> incoming nd))
        as [v Hv]; [by rewrite length_fmap|].
      rewrite Hcls, Hv. simpl. eexists. split; [done|]. split.
      * intros t Ht. apply lookup_insert_is_Some'. right. by apply Hi.
      * intros i. rewrite length_app. simpl. intros Hlt.
        apply lookup_insert_is_Some'.
        destruct (decide (i = length pre)) as [->|]; [by left|].
        right. apply Hp. lia.
  - split; [|simpl; lia].
    intros t [p Hp]%list_elem_of_lookup_1.
    destruct (lookup_lt_is_Some_2 xs p) as [x Hx].
    { apply lookup_lt_Some in Hp. lia. }
    exists x. by apply (input_mem_lookup _ _ _ p).
  - simpl. rewrite rmap_mem_get_ok; [simpl; eauto|].
    eapply Forall_impl; [exact Hout|]. intros o Ho. apply Hdom.
    simpl in Ho. lia.
Qed.

End evaluation.

(** ** Rules for [step] *)

Section rules.
Implicit Types c : Circuit (V:=V).
Variable cl : CircuitClass.
Variables (rnd : nat → V) (mem : gmap nat V) (xs : list V).

Lemma sem_mono c c' : extends c c' → sem cl rnd mem xs c' → sem cl rnd mem xs c.
Proof.
  intros (Hsk & Hin & _) [Hnodes Hinputs]. split.
  - intros i op inc Hi. apply Hnodes.
    destruct Hsk as [k ->]. apply elem_of_app; by left.
  - intros p t x Hp. apply Hinputs.
    destruct Hin as [k ->]. by apply lookup_app_l_Some.
Qed.

Lemma step_ret {A} (a : A) c (Q : A → Circuit → Prop) :
  well_built cl c → Q a c → step cl (ret a) c Q.
Proof. intros Hf HQ c' a' [= <- <-]. by split_and!. Qed.

Lemma step_lift {A} (r : result A) c (Q : A → Circuit → Prop) :
  well_built cl c → (∀ a, r = Ok a → Q a c) → step cl (lift r) c Q.
Proof.
  intros Hf HQ c' a' [= <- ->]. split_and!; [done..|by apply HQ].
Qed.

Lemma step_bind {A B} (m : M A) (f : A → M B) c Q1 (Q : B → Circuit → Prop) :
  step cl m c Q1 →
  (∀ a c1, well_built cl c1 → extends c c1 → Q1 a c1 → step cl (f a) c1 Q) →
  step cl (bind m f) c Q.
Proof.
  intros Hm Hf c' b (a & c1 & Hrun & Hrest)%bind_Ok.
  destruct (Hm _ _ Hrun) as (Hfresh & Hext & Hin & Hout & HQ1).
  destruct (Hf a c1 Hfresh Hext HQ1 _ _ Hrest) as (? & ? & ? & ? & ?).
  split_and!; [done|by etrans|congruence|congruence|done].
Qed.

Lemma step_conseq {A} (m : M A) c (Q Q' : A → Circuit → Prop) :
  step cl m c Q →
  (∀ a c', well_built cl c' → extends c c' → Q a c' → Q' a c') →
  step cl m c Q'.
Proof.
  intros Hm HQ c' a Hrun.
  destruct (Hm _ _ Hrun) as (? & ? & ? & ? & ?). split_and!; auto.
Qed.

Lemma mfold_inv {A B} (f : B → A → M B)
    (I : list A → B → Circuit (V:=V) → Prop) l :
  (∀ pre x post b c b' c', l = pre ++ x :: post → I pre b c →
     f b x c = (c', Ok b') → I (pre ++ [x]) b' c') →
  ∀ b0 c0 b c, I [] b0 c0 → mfold f b0 l c0 = (c, Ok b) → I l b c.
Proof.
  intros Hstep.
  assert (∀ l' pre b0 c0 b c, l = pre ++ l' → I pre b0 c0 →
            mfold f b0 l' c0 = (c, Ok b) → I l b c) as H.
  { induction l' as [|x l' IH]; intros pre b0 c0 b c Hl HI Hrun.
    - injection Hrun as <- <-. by rewrite Hl, app_nil_r.
    - cbn [mfold] in Hrun. apply bind_Ok in Hrun as (b' & c1 & Hx & Hrest).
      apply (IH (pre ++ [x]) b' c1); [by rewrite <- app_assoc| |done].
      by apply (Hstep pre x l' b0 c0). }
  intros b0 c0 b c. by apply (H l []).
Qed.

Lemma step_mfold {A B} (f : B → A → M B)
    (I : list A → B → Circuit (V:=V) → Prop) l b0 c0 :
  well_built cl c0 → I [] b0 c0 →
  (∀ pre x post b c, l = pre ++ x :: post → well_built cl c → extends c0 c →
     I pre b c → step cl (f b x) c (I (pre ++ [x]))) →
  step cl (mfold f b0 l) c0 (I l).
Proof.
  intros Hf HI Hstep c b Hrun.
  apply (mfold_inv f (λ pre b c,
           well_built cl c ∧ extends c0 c ∧ inputs c = inputs c0
           ∧ outputs c = outputs c0 ∧ I pre b c) l) in Hrun; [done| |done].
  intros pre x post b1 c1 b' c' Hl (Hf1 & He1 & Hi1 & Ho1 & HI1) Hx.
  destruct (Hstep pre x post b1 c1 Hl Hf1 He1 HI1 _ _ Hx)
    as (? & ? & ? & ? & ?).
  split_and!; [done|by etrans|congruence|congruence|done].
Qed.

Lemma seq_split a m pre (x : nat) post :
  seq a m = pre ++ x :: post → x = a + length pre ∧ length pre < m.
Proof.
  intros Hl.
  assert (seq a m !! length pre = Some x) as Hx.
  { rewrite Hl. by rewrite list_lookup_middle. }
  apply lookup_seq in Hx. lia.
Qed.

(** A loop over a range, with an invariant on the number of rounds. *)
Lemma step_mfold_seq {B} (f : B → nat → M B)
    (I : nat → B → Circuit (V:=V) → Prop) a m b0 c0 :
  well_built cl c0 → I 0 b0 c0 →
  (∀ k b c, k < m → well_built cl c → extends c0 c → I k b c →
     step cl (f b (a + k)) c (I (S k))) →
  step cl (mfold f b0 (seq a m)) c0 (I m).
Proof.
  intros Hf HI Hstep.
  eapply step_conseq.
  - apply (step_mfold f (λ pre, I (length pre))); [done|done|].
    intros pre x post b c [-> Hlen]%seq_split Hfc Hec HIc.
    rewrite length_app, Nat.add_1_r. by apply Hstep.
  - intros b c _ _. by rewrite length_seq.
Qed.

Lemma step_mmap {A B} (f : A → M B) (R : A → B → Circuit (V:=V) → Prop) l c0 :
  well_built cl c0 →
  (∀ x b c c', R x b c → extends c c' → R x b c') →
  (∀ x c, x ∈ l → well_built cl c → extends c0 c → step cl (f x) c (R x)) →
  step cl (mmap f l) c0 (λ bs c, Forall2 (λ x b, R x b c) l bs).
Proof.
  intros Hf Hmono. revert c0 Hf.
  induction l as [|x l IH]; intros c0 Hf Hstep.
  - apply step_ret; [done|constructor].
  - cbn [mmap]. eapply step_bind.
    { apply Hstep; [left|done|done]. }
    intros b c1 Hf1 He1 HR. eapply step_bind.
    + apply IH; [done|]. intros y c Hy Hfc Hec.
      apply Hstep; [by right|done|by etrans].
    + intros bs c2 Hf2 He2 HF. apply step_ret; [done|].
      constructor; [by eapply Hmono|done].
Qed.

(** ** The node operators *)

Hypothesis Hplain : plain cl.

Lemma sem_new op inc c :
  sem cl rnd mem xs (created op inc c) → _name op ≠ INPUT →
  eval cl (rnd (node_counter c)) op (val mem <$> inc)
  = Ok (val mem (node_counter c)).
Proof.
  intros [Hnodes _]. apply Hnodes. rewrite skeleton_created.
  apply elem_of_app. right. apply list_elem_of_here.
Qed.

Lemma fresh_plain c : well_built cl c → plain (cls c).
Proof. intros [-> _ _ _ _]. done. Qed.

(** A call that creates one node with parents [inc]. *)
Lemma step_created (m : M nat) op inc c :
  well_built cl c →
  m c = (created op inc c, Ok (node_counter c)) →
  _name op ≠ INPUT →
  Forall (λ p, p < node_counter c) inc →
  (∀ r args, length args = length inc → ∃ v, eval cl r op args = Ok v) →
  step cl m c (λ z c', z < node_counter c'
     ∧ (sem cl rnd mem xs c' →
        eval cl (rnd z) op (val mem <$> inc) = Ok (val mem z))).
Proof.
  intros Hf Hrun Hop Hinc Htot c' z. rewrite Hrun. intros [= <- <-].
  split_and!.
  - apply created_fresh; [done|done|]. intros _. apply Htot.
  - apply created_extends.
  - simpl. by rewrite bool_decide_false.
  - done.
  - simpl. lia.
  - intros Hsem. by apply sem_new.
Qed.

Lemma step_binary (m : M nat) (opn : CircuitClass → opname) f a b c :
  (∀ c : Circuit (V:=V), plain (cls c) →
     m c = (created (mkOperation (opn (cls c)) []) [a; b] c,
            Ok (node_counter c))) →
  (∀ r x y, eval cl r (mkOperation (opn cl) []) [x; y] = Ok (f x y)) →
  opn cl ≠ INPUT →
  well_built cl c → a < node_counter c → b < node_counter c →
  step cl m c (λ z c', z < node_counter c'
     ∧ (sem cl rnd mem xs c' → val mem z = f (val mem a) (val mem b))).
Proof.
  intros Hm Heval Hop Hf Ha Hb.
  eapply step_conseq.
  - apply (step_created m (mkOperation (opn cl) []) [a; b]); [done| |done| |].
    + rewrite Hm by by apply fresh_plain. by rewrite (fresh_cls _ _ Hf).
    + by repeat constructor.
    + intros r [|x [|y [|??]]] [=]. eauto.
  - intros z c' _ _ [Hz Hsem]. split; [done|].
    intros Hs. specialize (Hsem Hs). simpl in Hsem.
    rewrite Heval in Hsem. by injection Hsem.
Qed.

Lemma step_add a b c :
  well_built cl c → a < node_counter c → b < node_counter c →
  step cl (Node_add a (ANode b)) c (λ z c', z < node_counter c'
     ∧ (sem cl rnd mem xs c' → val mem z = v_plus cl (val mem a) (val mem b))).
Proof.
  apply (step_binary _ add_op).
  - intros c1 Hc1. by apply Node_add_plain.
  - by destruct Hplain as [-> | ->].
  - by destruct Hplain as [-> | ->].
Qed.

Lemma step_mul a b c :
  well_built cl c → a < node_counter c → b < node_counter c →
  step cl (Node_mul a (ANode b)) c (λ z c', z < node_counter c'
     ∧ (sem cl rnd mem xs c' → val mem z = v_times cl (val mem a) (val mem b))).
Proof.
  apply (step_binary _ mul_op).
  - intros c1 Hc1. by apply Node_mul_plain.
  - by destruct Hplain as [-> | ->].
  - by destruct Hplain as [-> | ->].
Qed.

Lemma step_sub a b c :
  well_built cl c → a < node_counter c → b < node_counter c →
  step cl (Node_sub a (ANode b)) c (λ z c', z < node_counter c'
     ∧ (sem cl rnd mem xs c' → val mem z = v_minus cl (val mem a) (val mem b))).
Proof.
  apply (step_binary _ sub_op).
  - intros c1 Hc1. by apply Node_sub_plain.
  - by destruct Hplain as [-> | ->].
  - by destruct Hplain as [-> | ->].
Qed.

Lemma step_RND c :
  well_built cl c →
  step cl (apply RND [] []) c (λ z c', z < node_counter c').
Proof.
  intros Hf. eapply step_conseq.
  - apply (step_created _ (mkOperation RND []) []); [done| |done|done|].
    + apply RND_plain. by apply fresh_plain.
    + intros r [|??] [=]. simpl. eauto.
  - by intros z c' _ _ [Hz _].
Qed.

(** ** The visit methods *)

Hypothesis laws : masking_laws cl.

Lemma counter_mono c c' i :
  extends c c' → i < node_counter c → i < node_counter c'.
Proof. intros (_&_&_&_&?) ?. lia. Qed.

Lemma arr_mono n c c' a : extends c c' → arr n c a → arr n c' a.
Proof.
  intros Hext [Hlen Ha]. split; [done|].
  eapply Forall_impl; [done|]. intros i. by apply counter_mono.
Qed.

Lemma arr_lookup n c a i : arr n c a → i < n → ∃ k, a !! i = Some k ∧ k < node_counter c.
Proof.
  intros [Hlen Ha] Hi.
  destruct (lookup_lt_is_Some_2 a i) as [k Hk]; [lia|].
  exists k. split; [done|]. exact (Forall_lookup_1 _ _ _ _ Ha Hk).
Qed.

Lemma shares_of_mono n v r c c' :
  extends c c' → shares_of cl rnd mem xs n v r c → shares_of cl rnd mem xs n v r c'.
Proof.
  intros Hext (z & -> & Ha & Hs). exists z. split_and!; [done|by eapply arr_mono|].
  intros Hs'. apply Hs. by eapply sem_mono.
Qed.

Lemma binop_vals f x y zs :
  Forall2 (λ ab z, val mem z = f (val mem ab.1) (val mem ab.2)) (zip x y) zs →
  val mem <$> zs = zip_with f (val mem <$> x) (val mem <$> y).
Proof.
  revert y zs. induction x as [|a x IH]; intros [|b y] zs HF;
    simpl in *; inversion HF; subst; simpl; [done..|].
  f_equal; [done|]. by apply IH.
Qed.

(** [x op y] on two arrays applies the operator share by share. *)
Lemma step_binop (op : nat → arg → M nat) f n x y c :
  (∀ a b c, well_built cl c → a < node_counter c → b < node_counter c →
     step cl (op a (ANode b)) c (λ z c', z < node_counter c'
       ∧ (sem cl rnd mem xs c' → val mem z = f (val mem a) (val mem b)))) →
  well_built cl c → arr n c x → arr n c y →
  step cl (tres_binop op (RArray x) (RArray y)) c (λ r c',
    ∃ z, r = RArray z ∧ arr n c' z
         ∧ (sem cl rnd mem xs c' →
            val mem <$> z = zip_with f (val mem <$> x) (val mem <$> y))).
Proof.
  intros Hop Hf [Hlx Hx] [Hly Hy]. unfold tres_binop.
  rewrite bool_decide_false by lia.
  eapply step_bind.
  - apply (step_mmap _ (λ ab z c', z < node_counter c'
        ∧ (sem cl rnd mem xs c' →
           val mem z = f (val mem ab.1) (val mem ab.2)))); [done| |].
    + intros ab z c1 c2 [Hz Hs] Hext. split; [by eapply counter_mono|].
      intros Hs2. apply Hs. by eapply sem_mono.
    + intros [a b] c1 Hab Hf1 Hext.
      rewrite Forall_forall in Hx, Hy.
      apply Hop; [done|..]; (eapply counter_mono; [done|]).
      * apply Hx. by eapply elem_of_zip_l.
      * apply Hy. by eapply elem_of_zip_r.
  - intros zs c1 Hf1 Hext HF. apply step_ret; [done|].
    exists zs. split_and!; [done| |].
    + split.
      * rewrite <- (Forall2_length _ _ _ HF), length_zip. lia.
      * apply (Forall2_Forall_r _ _ _ _ HF).
        apply Forall_forall. by intros ab _ z [Hz _].
    + intros Hs. apply binop_vals.
      apply (Forall2_impl _ _ _ _ HF). intros ab z [_ Hz]. by apply Hz.
Qed.

Lemma visit_ADD_step order nd x y vx vy c :
  well_built cl c →
  shares_of cl rnd mem xs (order + 1) vx x c →
  shares_of cl rnd mem xs (order + 1) vy y c →
  step cl (visit_ADD nd x y) c
       (shares_of cl rnd mem xs (order + 1) (v_plus cl vx vy)).
Proof.
  intros Hf (ax & -> & Hax & Hx) (ay & -> & Hay & Hy).
  eapply step_conseq.
  - apply (step_binop _ (v_plus cl) (order + 1)); [|done..].
    intros a b c1. apply step_add.
  - intros r c' Hf' Hext (z & -> & Hz & Hvals).
    exists z. split_and!; [done..|].
    intros Hs. unfold sumv. rewrite Hvals by done.
    rewrite (sum_zip_plus cl laws)
      by (rewrite !length_fmap; destruct Hax, Hay; lia).
    f_equal; [apply Hx|apply Hy]; by eapply sem_mono.
Qed.

Lemma new_CONST value v op :
  new_Operation cl CONST [value] = Ok op →
  pyval_to_V value = Ok v →
  op = mkOperation CONST [("value", PVal v)].
Proof.
  intros Hop Hv.
  assert (∀ cl0, plain cl0 →
            new_Operation (V:=V) cl0 CONST [value]
            = try v' ← Param_create cl0 Param_Const value;
              Ok (mkOperation CONST [("value", v')])) as Hnew.
  { unfold new_Operation, Operation_init.
    intros cl0 [-> | ->]; destruct value; simpl; try done;
      match goal with
      | |- context [const_manager_create ?c ?x] =>
          by destruct (const_manager_create c x)
      end. }
  rewrite Hnew in Hop by done. clear Hnew.
  destruct value as [s|z|v0|t]; try discriminate; simpl in Hop, Hv.
  - destruct (const_manager_create cl (v_of_int z)) as [c0|] eqn:Hc;
      [|discriminate].
    apply (create_fixed _ laws) in Hc. simpl in Hop. congruence.
  - destruct (const_manager_create cl v0) as [c0|] eqn:Hc; [|discriminate].
    apply (create_fixed _ laws) in Hc. simpl in Hop. congruence.
Qed.

Lemma step_add_const value v c :
  well_built cl c → pyval_to_V value = Ok v →
  step cl (add_const value) c (λ z c', z < node_counter c'
     ∧ (sem cl rnd mem xs c' → val mem z = v)).
Proof.
  intros Hf Hv c' z Hrun. unfold add_const in Hrun.
  rewrite (bind_run get _ c c c eq_refl) in Hrun.
  apply bind_Ok in Hrun as (op & c1 & [= <- Hop] & Hrun).
  rewrite (fresh_cls _ _ Hf) in Hop.
  apply (new_CONST _ v) in Hop as ->; [|done].
  revert c' z Hrun. eapply step_conseq.
  - apply (step_created _ (mkOperation CONST [("value", PVal v)]) []);
      [done| |done|done|].
    + rewrite create_node_unfold.
      destruct (plain_flags _ (fresh_plain _ Hf)) as [-> _]. done.
    + intros r [|??] [=]. simpl. eauto.
  - intros z c' _ _ [Hz Hs]. split; [done|].
    intros Hsem. specialize (Hs Hsem). simpl in Hs. by injection Hs.
Qed.

Lemma visit_CONST_step order nd c v r0 :
  well_built cl c →
  is_op CONST nd = true →
  eval cl r0 (operation nd) [] = Ok v →
  step cl (visit_CONST order nd) c (shares_of cl rnd mem xs (order + 1) v).
Proof.
  intros Hf Hconst Hev. unfold visit_CONST.
  unfold is_op in Hconst. apply bool_decide_eq_true in Hconst.
  unfold eval in Hev. rewrite Hconst in Hev.
  destruct (Operation_getattr (operation nd) "value") as [pv|] eqn:Hpv;
    [|discriminate].
  simpl in Hev.
  eapply step_bind.
  { apply (step_mmap _ (λ _ z c', z < node_counter c')); [done| |].
    - intros _ z c1 c2 Hz Hext. by eapply counter_mono.
    - intros _ c1 _ Hf1 _. by apply step_RND. }
  intros shares c1 Hf1 He1 Hshares.
  assert (length shares = order) as Hlen.
  { by rewrite <- (Forall2_length _ _ _ Hshares), length_seq. }
  assert (Forall (λ z, z < node_counter c1) shares) as Hlt.
  { apply (Forall2_Forall_r _ _ _ _ Hshares).
    apply Forall_forall. by intros ? _ z Hz. }
  eapply step_bind.
  { apply (step_lift _ _ (λ a _, a = pv)); [done|]. by intros a [= <-]. }
  intros value c2 Hf2 He2 ->.
  eapply step_bind; [by apply (step_add_const _ v)|].
  intros k0 c3 Hf3 He3 [Hk0 Hval0].
  eapply step_bind.
  { apply (step_mfold_seq _ (λ k z c',
       z < node_counter c'
       ∧ (sem cl rnd mem xs c' →
          val mem z = v_plus cl v (share_sum cl (take k (val mem <$> shares))))));
      [done| |].
    - split; [done|]. intros Hs. rewrite take_0. simpl.
      rewrite plus_zero_r by done. by apply Hval0.
    - intros k z c4 Hk Hf4 He4 [Hz Hvz]. simpl.
      destruct (lookup_lt_is_Some_2 shares k) as [s Hs]; [lia|].
      rewrite Hs. eapply step_conseq.
      + apply step_add; [done|done|].
        assert (extends c1 c4) as He14
          by (do 2 (etrans; [eassumption|]); done).
        eapply counter_mono; [exact He14|].
        exact (Forall_lookup_1 _ _ _ _ Hlt Hs).
      + intros z' c5 Hf5 He5 [Hz' Hvz']. split; [done|].
        intros Hsem. rewrite Hvz' by done.
        rewrite Hvz by by eapply sem_mono.
        rewrite (take_S_r _ _ (val mem s))
          by by rewrite list_lookup_fmap, Hs.
        rewrite sum_snoc by done.
        by rewrite (plus_assoc _ laws). }
  intros z c4 Hf4 He4 [Hz Hvz].
  apply step_ret; [done|].
  exists (shares ++ [z]). split_and!; [done| |].
  - split; [rewrite length_app; simpl; lia|].
    apply Forall_app. split; [|by repeat constructor].
    eapply Forall_impl; [exact Hlt|]. intros i Hi. simpl in Hi.
    eapply counter_mono; [|exact Hi].
    do 2 (etrans; [eassumption|]); done.
  - intros Hsem. unfold sumv. rewrite fmap_app. simpl.
    rewrite Hvz by done.
    rewrite take_ge by (rewrite length_fmap; lia).
    by apply isw_const.
Qed.

(** *** Multiplication *)

Lemma r_get_set_ne r i j v i' j' :
  (i, j) ≠ (i', j') → r_get (r_set r i j v) i' j' = r_get r i' j'.
Proof.
  intros Hne. unfold r_get, r_set.
  destruct (decide (i = i')) as [<-|Hi].
  - rewrite list_lookup_alter_eq. destruct (r !! i) as [row|]; simpl; [|done].
    rewrite list_lookup_insert_ne; [done|]. congruence.
  - by rewrite list_lookup_alter_ne.
Qed.

Lemma r_get_set_eq n r i j v :
  shape n r → i < n → j < n → r_get (r_set r i j v) i j = Ok (Some v).
Proof.
  intros [Hlen Hrows] Hi Hj. unfold r_get, r_set.
  rewrite list_lookup_alter_eq.
  destruct (lookup_lt_is_Some_2 r i) as [row Hrow]; [lia|].
  rewrite Hrow. simpl. rewrite list_lookup_insert_eq; [done|].
  rewrite (Forall_lookup_1 _ _ _ _ Hrows Hrow). done.
Qed.

Lemma shape_set n r i j v : shape n r → shape n (r_set r i j v).
Proof.
  intros [Hlen Hrows]. split; unfold r_set.
  - by rewrite length_alter.
  - apply Forall_alter; [done|]. intros row _ Hrow.
    by rewrite length_insert.
Qed.

Lemma nthv_lookup a i k : a !! i = Some k → nthv mem a i = val mem k.
Proof.
  intros Hk. unfold nthv. apply nth_lookup_Some.
  by rewrite list_lookup_fmap, Hk.
Qed.

Lemma step_lift_eq {A} (r : result A) c :
  well_built cl c → step cl (lift r) c (λ a _, r = Ok a).
Proof. intros Hf. by apply step_lift. Qed.

Ltac ext :=
  solve [ reflexivity | eassumption
        | match goal with
          | H : extends ?a ?b |- extends ?a _ =>
              transitivity b; [exact H | ext]
          end ].
Ltac lt_ext :=
  match goal with
  | H : ?k < node_counter ?c |- ?k < node_counter ?c' =>
      apply (counter_mono c c'); [ext | exact H]
  end.
Ltac sem_ext :=
  match goal with
  | H : sem _ _ _ _ ?c' |- sem _ _ _ _ ?c =>
      apply (sem_mono c c'); [ext | exact H]
  end.

(** One round of the first loop: the cells [r[k][j]] and [r[j][k]]. *)
Lemma cell_step n ax ay k m r c :
  well_built cl c → arr n c ax → arr n c ay → k + 1 + m < n →
  rows_done cl rnd mem xs n ax ay k m r c →
  step cl
    (do rij ← apply RND [] [];
     let r := r_set r k (k + 1 + m) rij in
     do xi ← lift (tres_get (RArray ax) k);
     do yj ← lift (tres_get (RArray ay) (k + 1 + m));
     do xiyj ← Node_mul xi (ANode yj);
     do t ← Node_add rij (ANode xiyj);
     do xj ← lift (tres_get (RArray ax) (k + 1 + m));
     do yi ← lift (tres_get (RArray ay) k);
     do xjyi ← Node_mul xj (ANode yi);
     do rji ← Node_add t (ANode xjyi);
     ret (r_set r (k + 1 + m) k rji))
    c (rows_done cl rnd mem xs n ax ay k (S m)).
Proof.
  intros Hf Hax Hay Hj [Hshape Hgood].
  remember (k + 1 + m) as j eqn:Ej.
  destruct (arr_lookup _ _ _ k Hax) as (xk & Hxk & Hxk_lt); [lia|].
  destruct (arr_lookup _ _ _ j Hax) as (xj & Hxj & Hxj_lt); [lia|].
  destruct (arr_lookup _ _ _ k Hay) as (yk & Hyk & Hyk_lt); [lia|].
  destruct (arr_lookup _ _ _ j Hay) as (yj & Hyj & Hyj_lt); [lia|].
  eapply step_bind; [by apply step_RND|].
  intros rij c1 Hf1 He1 Hrij. cbv beta in Hrij. cbn zeta. cbn [tres_get].
  rewrite Hxk, Hxj, Hyk, Hyj.
  eapply step_bind; [by apply step_lift_eq|]. intros ? c2 Hf2 He2 [= <-].
  eapply step_bind; [by apply step_lift_eq|]. intros ? c3 Hf3 He3 [= <-].
  eapply step_bind; [apply step_mul; [done|lt_ext..]|].
  intros xiyj c4 Hf4 He4 [Hxiyj Vxiyj].
  eapply step_bind; [apply step_add; [done|lt_ext..]|].
  intros t c5 Hf5 He5 [Ht Vt].
  eapply step_bind; [by apply step_lift_eq|]. intros ? c6 Hf6 He6 [= <-].
  eapply step_bind; [by apply step_lift_eq|]. intros ? c7 Hf7 He7 [= <-].
  eapply step_bind; [apply step_mul; [done|lt_ext..]|].
  intros xjyi c8 Hf8 He8 [Hxjyi Vxjyi].
  eapply step_bind; [apply step_add; [done|lt_ext..]|].
  intros rji c9 Hf9 He9 [Hrji Vrji].
  apply step_ret; [done|]. split.
  { by do 2 apply shape_set. }
  intros i' j' Hij' Hcase.
  destruct (decide (i' = k ∧ j' = j)) as [[-> ->]|Hold].
  - exists rij, rji. split_and!.
    + rewrite r_get_set_ne by (intros [=]; lia).
      apply (r_get_set_eq n); [done|lia..].
    + apply (r_get_set_eq n); [by apply shape_set|lia..].
    + lt_ext.
    + done.
    + intros Hs. rewrite !(nthv_lookup _ _ _ Hxk), !(nthv_lookup _ _ _ Hxj),
        !(nthv_lookup _ _ _ Hyk), !(nthv_lookup _ _ _ Hyj).
      rewrite Vrji by done. rewrite Vt by sem_ext.
      rewrite Vxiyj by sem_ext. rewrite Vxjyi by sem_ext. done.
  - destruct (Hgood i' j' Hij') as (a & b & Ha & Hb & Ha_lt & Hb_lt & Hv).
    { destruct Hcase as [?|[-> ?]]; [by left|right].
      split; [done|]. destruct (decide (j' = j)); [|lia].
      destruct Hold. by split. }
    exists a, b. split_and!.
    + rewrite !r_get_set_ne; [done|intros [=]; lia..].
    + rewrite !r_get_set_ne; [done|intros [=]; lia..].
    + lt_ext.
    + lt_ext.
    + intros Hs. apply Hv. sem_ext.
Qed.

Lemma row_fold_S d xy i m :
  row_fold cl d xy i (S m)
  = if bool_decide (i ≠ m) then v_minus cl (row_fold cl d xy i m) (d i m)
    else row_fold cl d xy i m.
Proof. unfold row_fold. by rewrite seq_S, foldl_app. Qed.

Lemma nthv_insert_ne a k z i : i ≠ k → nthv mem (<[k:=z]> a) i = nthv mem a i.
Proof.
  intros Hne. unfold nthv.
  by rewrite !nth_lookup, !list_lookup_fmap, list_lookup_insert_ne.
Qed.

Lemma nthv_zip_with f a b i :
  i < length a → i < length b →
  nth i (zip_with f (val mem <$> a) (val mem <$> b)) v_zero
  = f (nthv mem a i) (nthv mem b i).
Proof.
  intros [x Hx]%lookup_lt_is_Some_2 [y Hy]%lookup_lt_is_Some_2.
  rewrite (nthv_lookup _ _ _ Hx), (nthv_lookup _ _ _ Hy).
  apply nth_lookup_Some. rewrite lookup_zip_with, !list_lookup_fmap, Hx, Hy.
  done.
Qed.

(** One round of the second loop: [z[k] = z[k] - r[k][j]] off the
    diagonal. *)
Lemma sub_step n ax ay r k j z c :
  well_built cl c → k < n → j < n →
  (∀ i j, i < n → j < n → i ≠ j →
     ∃ a, r_get r i j = Ok (Some a) ∧ a < node_counter c) →
  rows_subtracted cl rnd mem xs n ax ay r k j z c →
  step cl
    (if bool_decide (k ≠ j) then
       do zi ← lift (tres_get z k);
       do rij ← lift (r_get r k j);
       do zi' ← Node_sub zi (match rij with
                             | Some n => ANode n
                             | None => AValue (v_of_int 0)
                             end);
       lift (tres_set z k zi')
     else ret z)
    c (rows_subtracted cl rnd mem xs n ax ay r k (S j)).
Proof.
  intros Hf Hk Hj Hcells (az & -> & Haz & Hv).
  assert (∀ i, progress n k (S j) i
               = if bool_decide (i = k) then S j else progress n k j i)
    as Hprog.
  { intros i. unfold progress. repeat case_bool_decide; lia. }
  assert (progress n k j k = j) as Hprog_k.
  { unfold progress. repeat case_bool_decide; lia. }
  case_bool_decide as Hkj.
  - destruct (arr_lookup _ _ _ k Haz) as (zk & Hzk & Hzk_lt); [lia|].
    destruct (Hcells k j) as (a & Ha & Ha_lt); [done..|].
    cbn [tres_get]. rewrite Hzk, Ha.
    eapply step_bind; [by apply step_lift_eq|]. intros ? c2 Hf2 He2 [= <-].
    eapply step_bind; [by apply step_lift_eq|]. intros ? c3 Hf3 He3 [= <-].
    eapply step_bind; [apply step_sub; [done|lt_ext..]|].
    intros zk' c4 Hf4 He4 [Hzk' Vzk'].
    apply step_lift; [done|]. intros z'. unfold tres_set.
    destruct Haz as [Hlen Hlt].
    rewrite bool_decide_true by lia. intros [= <-].
    exists (<[k:=zk']> az). split_and!; [done| |].
    + split; [by rewrite length_insert|].
      apply Forall_insert; [|done].
      eapply Forall_impl; [exact Hlt|]. intros i Hi. simpl in Hi. lt_ext.
    + intros Hs i Hi. rewrite Hprog. case_bool_decide as Hik.
      * subst i. rewrite row_fold_S, bool_decide_true by done.
        rewrite <- Hprog_k at 1. rewrite <- Hv by (done || sem_ext).
        rewrite (nthv_lookup _ _ _ Hzk).
        unfold cell. rewrite Ha. rewrite <- Vzk' by done.
        apply nthv_lookup. apply list_lookup_insert_eq. lia.
      * rewrite nthv_insert_ne by done. apply Hv; [sem_ext|done].
  - apply step_ret; [done|]. exists az. split_and!; [done..|].
    intros Hs i Hi. rewrite Hprog. case_bool_decide as Hik.
    + subst i. rewrite row_fold_S, bool_decide_false by naive_solver.
      rewrite <- Hprog_k at 1. by apply Hv.
    + by apply Hv.
Qed.

Lemma visit_MUL_step order nd x y vx vy c :
  well_built cl c →
  shares_of cl rnd mem xs (order + 1) vx x c →
  shares_of cl rnd mem xs (order + 1) vy y c →
  step cl (visit_MUL order nd x y) c
       (shares_of cl rnd mem xs (order + 1) (v_times cl vx vy)).
Proof.
  intros Hf (ax & -> & Hax & Hx) (ay & -> & Hay & Hy).
  unfold visit_MUL. set (n := order + 1) in *.
  eapply step_bind.
  { apply (step_mfold_seq _ (λ k, rows_done cl rnd mem xs n ax ay k 0));
      [done| |].
    - split.
      + split; [by rewrite length_replicate|].
        apply Forall_replicate. by rewrite length_replicate.
      + intros i j Hij [?|[-> ?]]; lia.
    - intros k r c1 Hk Hf1 He1 Hinv. eapply step_conseq.
      + apply (step_mfold_seq _
                 (λ m, rows_done cl rnd mem xs n ax ay k m)); [done|done|].
        intros m r' c2 Hm Hf2 He2 Hinv2.
        apply cell_step; [done|by eapply arr_mono; [|exact Hax]; ext
                         |by eapply arr_mono; [|exact Hay]; ext
                         |simpl; lia|done].
      + intros r' c2 Hf2 He2 [Hshape Hgood]. split; [done|].
        intros i j Hij Hcase. apply Hgood; [done|]. simpl. lia. }
  intros r c1 Hf1 He1 [Hshape Hgood].
  assert (∀ i j, i < n → j < n → i ≠ j →
            ∃ a, r_get r i j = Ok (Some a) ∧ a < node_counter c1) as Hcells.
  { intros i j Hi Hj Hij. destruct (decide (i < j)).
    - destruct (Hgood i j) as (a & b & Ha & Hb & ? & ? & _); [lia|lia|eauto].
    - destruct (Hgood j i) as (a & b & Ha & Hb & ? & ? & _); [lia|lia|eauto]. }
  eapply step_bind.
  { apply (step_binop _ (v_times cl) n);
      [intros; by apply step_mul|done
      |by eapply arr_mono; [|exact Hax]|by eapply arr_mono; [|exact Hay]]. }
  intros z0 c2 Hf2 He2 (az0 & -> & Haz0 & Hvals0).
  eapply step_conseq.
  { apply (step_mfold_seq _
             (λ k, rows_subtracted cl rnd mem xs n ax ay r k 0)); [done| |].
    - exists az0. split_and!; [done..|].
      intros Hs i Hi.
      assert (progress n 0 0 i = 0) as ->.
      { unfold progress. repeat case_bool_decide; lia. }
      unfold nthv at 1. rewrite Hvals0 by done.
      apply nthv_zip_with; [destruct Hax|destruct Hay]; lia.
    - intros k z c3 Hk Hf3 He3 Hinv. eapply step_conseq.
      + apply (step_mfold_seq _
                 (λ m, rows_subtracted cl rnd mem xs n ax ay r k m));
          [done|done|].
        intros m z' c4 Hm Hf4 He4 Hinv4.
        apply (sub_step n ax ay r k m); [done|simpl; lia|lia| |done].
        intros i j Hi Hj Hij.
        destruct (Hcells i j Hi Hj Hij) as (a & Ha & Ha_lt).
        exists a. split; [done|]. lt_ext.
      + intros z' c4 Hf4 He4 (az & -> & Haz & Hv).
        exists az. split_and!; [done..|].
        intros Hs i Hi. rewrite (Hv Hs i Hi). f_equal.
        unfold progress. simpl. repeat case_bool_decide; lia. }
  intros z c3 Hf3 He3 (az & -> & Haz & Hv).
  exists az. split_and!; [done..|].
  intros Hs. unfold sumv.
  rewrite (sum_bsum cl laws _ v_zero), length_fmap, (proj1 Haz).
  change (bsum cl (nthv mem az) n = v_times cl vx vy).
  rewrite (isw_product cl laws (nthv mem ax) (nthv mem ay) (nthv mem az)
             (cell mem r) n).
  - f_equal.
    + rewrite <- Hx by sem_ext. unfold sumv.
      rewrite (sum_bsum cl laws _ v_zero), length_fmap, (proj1 Hax). done.
    + rewrite <- Hy by sem_ext. unfold sumv.
      rewrite (sum_bsum cl laws _ v_zero), length_fmap, (proj1 Hay). done.
  - intros i j Hij.
    destruct (Hgood i j) as (a & b & Ha & Hb & _ & _ & Hab); [done|lia|].
    unfold cell. rewrite Ha, Hb. apply Hab. sem_ext.
  - intros i Hi. rewrite (Hv Hs i Hi). f_equal.
    unfold progress. repeat case_bool_decide; lia.
Qed.

(** *** Inputs *)

Lemma add_input_run s c c' z :
  well_built cl c → add_input (PStr s) c = (c', Ok z) →
  well_built cl c' ∧ extends c c' ∧ inputs c' = inputs c ++ [z]
  ∧ outputs c' = outputs c ∧ z < node_counter c'.
Proof.
  intros Hf. unfold add_input, apply.
  rewrite (bind_run get _ c c c eq_refl).
  assert (new_Operation (V:=V) (cls c) INPUT [PStr s]
          = Ok (mkOperation INPUT [("name", PStr s)])) as Hop.
  { by destruct (fresh_plain _ Hf) as [-> | ->]. }
  rewrite (bind_run (lift _) _ c c _ (f_equal (pair c) Hop)).
  pose proof (plain_call (mkOperation INPUT [("name", PStr s)]) [] c
                (fresh_plain _ Hf) (or_introl eq_refl)) as Hcall.
  cbn [fmap list_fmap] in Hcall. rewrite Hcall. clear Hcall.
  unfold before_create_node. cbn [_name].
  assert (Operation_getattr (V:=V) (mkOperation INPUT [("name", PStr s)])
            "name" = Ok (PStr s)) as Hname by reflexivity.
  rewrite (bind_run (lift _) _ c c _ (f_equal (pair c) Hname)).
  rewrite (bind_run get _ c c c eq_refl).
  case_bool_decide; [by intros [=]|].
  unfold modify. intros [= <- <-].
  assert (well_built cl (set_input_names (λ s0, PStr s :: s0) c)) as Hf1.
  { destruct Hf. by split. }
  split_and!.
  - apply created_fresh; [done|constructor|]. by intros [=].
  - etrans; [|apply created_extends]. by split_and!.
  - done.
  - done.
  - simpl. lia.
Qed.

Lemma visit_INPUT_run order nd c c' r :
  well_built cl c → visit_INPUT order nd c = (c', Ok r) →
  well_built cl c' ∧ extends c c' ∧ outputs c' = outputs c
  ∧ ∃ a, r = RArray a ∧ arr (order + 1) c' a ∧ inputs c' = inputs c ++ a.
Proof.
  intros Hf. unfold visit_INPUT.
  intros (shares & c1 & Hrun & [= <- <-])%bind_Ok.
  remember (seq 0 (order + 1)) as l eqn:El.
  assert (length shares = length l ∧ well_built cl c1 ∧ extends c c1
          ∧ outputs c1 = outputs c
          ∧ Forall (λ z, z < node_counter c1) shares
          ∧ inputs c1 = inputs c ++ shares) as H.
  { clear El. revert c shares Hf Hrun.
    induction l as [|i l IH]; intros c shares Hf.
    - intros [= <- <-]. rewrite app_nil_r. by split_and!.
    - cbn [mmap]. intros (z & c2 & Hz & Hrest)%bind_Ok.
      apply bind_Ok in Hrest as (zs & c3 & Hzs & [= <- <-]).
      apply bind_Ok in Hz as (name & ? & [= <- _] & Hz).
      apply bind_Ok in Hz as (name' & ? & [= <- _] & Hz).
      apply add_input_run in Hz as (Hf2 & He2 & Hi2 & Ho2 & Hz); [|done].
      destruct (IH c2 zs Hf2 Hzs) as (Hlen & Hf3 & He3 & Ho3 & Hlt & Hi3).
      split_and!.
      + simpl. lia.
      + done.
      + by etrans.
      + congruence.
      + constructor; [by eapply counter_mono|done].
      + rewrite Hi3, Hi2, <- app_assoc. done. }
  destruct H as (Hlen & Hf1 & He1 & Ho1 & Hlt & Hi1).
  split_and!; [done..|]. exists shares. split_and!; [done| |done].
  split; [|done]. by rewrite Hlen, El, length_seq.
Qed.

(** The values of the input nodes a call has added. *)
Lemma vals_inputs c pre a :
  sem cl rnd mem xs c → inputs c = pre ++ a →
  length pre + length a ≤ length xs →
  val mem <$> a = take (length a) (drop (length pre) xs).
Proof.
  intros [_ Hin] Hc Hlen. apply list_eq. intros i.
  rewrite list_lookup_fmap, lookup_take, lookup_drop. case_decide as Hi.
  - destruct (lookup_lt_is_Some_2 a i) as [t Ht]; [done|].
    destruct (lookup_lt_is_Some_2 xs (length pre + i)) as [x Hx]; [lia|].
    rewrite Ht, Hx. simpl. f_equal.
    apply (Hin (length pre + i)); [|done].
    rewrite Hc, lookup_app_r by lia. rewrite <- Ht. f_equal. lia.
  - rewrite lookup_ge_None_2 by lia. done.
Qed.

(** *** The main loop *)

Section transform.
Variables (order : nat) (src : Circuit (V:=V)).
Variables (rnd_s : nat → V) (mem_s : gmap nat V).
Hypothesis Hsrc_cls : cls src = cl.
Hypothesis Hsupp : supported src.
Hypothesis Hsrc_in :
  inputs src = id <$> filter (λ nd, is_op INPUT nd = true) (nodes src).
Hypothesis Hxs : length xs = (order + 1) * length (inputs src).
Hypothesis Hsem_s :
  sem cl rnd_s mem_s
      (share_sums cl (order + 1) (length (inputs src)) xs) src.

Lemma rmap_dict_get {A} (res : gmap nat A) l args :
  rmap (dict_get res) l = Ok args →
  Forall2 (λ p a, res !! p = Some a) l args.
Proof.
  revert args. induction l as [|p l IH]; intros args; simpl.
  - intros [= <-]. constructor.
  - unfold dict_get at 1. destruct (res !! p) as [a|] eqn:Hp; [|done]. simpl.
    destruct (rmap (dict_get res) l) as [as'|]; [|done]. simpl.
    intros [= <-]. constructor; [done|]. by apply IH.
Qed.

Lemma visited_step pre nd res c c1 r :
  visited cl rnd mem xs (order + 1) mem_s pre res c →
  well_built cl c1 → extends c c1 → inputs c1 = inputs c → outputs c1 = outputs c →
  is_op INPUT nd = false →
  shares_of cl rnd mem xs (order + 1) (val mem_s (id nd)) r c1 →
  visited cl rnd mem xs (order + 1) mem_s (pre ++ [nd]) (<[id nd := r]> res) c1.
Proof.
  intros (Hf & Hout & Hlen & Hres) Hf1 He1 Hi1 Ho1 Hop Hr. split_and!.
  - done.
  - congruence.
  - rewrite Hi1, Hlen, filter_app, filter_cons, filter_nil.
    rewrite decide_False by congruence. by rewrite app_nil_r.
  - intros p r' [[<- <-]|[Hne Hp]]%lookup_insert_Some; [done|].
    eapply shares_of_mono; [done|]. by apply Hres.
Qed.

Lemma source_eval nd :
  nd ∈ nodes src → _name (operation nd) ≠ INPUT →
  eval cl (rnd_s (id nd)) (operation nd) (val mem_s <$> incoming nd)
  = Ok (val mem_s (id nd)).
Proof.
  intros Hnd Hop. destruct Hsem_s as [Hnodes _]. apply Hnodes; [|done].
  apply list_elem_of_fmap. by exists nd.
Qed.

Lemma source_input pre nd post :
  nodes src = pre ++ nd :: post → is_op INPUT nd = true →
  val mem_s (id nd)
  = share_sum cl (take (order + 1)
              (drop (length (filter (λ nd, is_op INPUT nd = true) pre)
                     * (order + 1)) xs)).
Proof.
  intros Hl Hop. destruct Hsem_s as [_ Hinputs].
  set (k := length (filter (λ nd, is_op INPUT nd = true) pre)).
  assert (inputs src !! k = Some (id nd)) as Hk.
  { rewrite Hsrc_in, Hl, filter_app, filter_cons, decide_True by done.
    rewrite fmap_app, fmap_cons. apply list_lookup_middle.
    by rewrite length_fmap. }
  apply (Hinputs k); [done|]. unfold share_sums.
  rewrite list_lookup_fmap, lookup_seq_lt; [done|].
  by apply lookup_lt_Some in Hk.
Qed.

Lemma eval_add op r a b :
  _name op = add_op cl → eval cl r op [a; b] = Ok (v_plus cl a b).
Proof.
  unfold eval, add_op, v_plus. intros ->. by destruct (is_boolean cl).
Qed.

Lemma eval_mul op r a b :
  _name op = mul_op cl → eval cl r op [a; b] = Ok (v_times cl a b).
Proof.
  unfold eval, mul_op, v_times. intros ->. by destruct (is_boolean cl).
Qed.

Lemma visit_add_op nd args :
  _name (operation nd) = add_op cl →
  visit order nd args
  = match args with
    | [x; y] => visit_ADD nd x y
    | _ => raise TypeError
    end.
Proof.
  unfold visit, add_op. intros ->. by destruct (is_boolean cl).
Qed.

Lemma visit_mul_op nd args :
  _name (operation nd) = mul_op cl →
  visit order nd args
  = match args with
    | [x; y] => visit_MUL order nd x y
    | _ => raise TypeError
    end.
Proof.
  unfold visit, mul_op. intros ->. by destruct (is_boolean cl).
Qed.

(** One round of the main loop. *)
Lemma visit_round pre nd post res c res' c' :
  nodes src = pre ++ nd :: post →
  visited cl rnd mem xs (order + 1) mem_s pre res c →
  (do args ← lift (rmap (dict_get res) (incoming nd));
   do r ← visit order nd args;
   ret (<[id nd := r]> res)) c = (c', Ok res') →
  visited cl rnd mem xs (order + 1) mem_s (pre ++ [nd]) res' c'.
Proof.
  intros Hl Hvis Hrun.
  apply bind_Ok in Hrun as (args & ? & [= <- Hargs] & Hrun).
  apply bind_Ok in Hrun as (r & c1 & Hvisit & [= <- <-]).
  apply rmap_dict_get in Hargs.
  assert (nd ∈ nodes src) as Hnd.
  { rewrite Hl. apply elem_of_app. right. left. }
  pose proof (Hsupp nd Hnd) as Hname. rewrite Hsrc_cls in Hname.
  pose proof Hvis as (Hf & Hout & Hlen & Hres).
  apply elem_of_cons in Hname as [Hn|Hname].
  { unfold visit in Hvisit. rewrite Hn in Hvisit.
    destruct args; [|done].
    apply visit_INPUT_run in Hvisit
      as (Hf1 & He1 & Ho1 & a & -> & Ha & Hi1); [|done].
    assert (is_op INPUT nd = true) as Hop.
    { unfold is_op. by rewrite bool_decide_true. }
    assert (length (filter (λ nd, is_op INPUT nd = true) pre)
            < length (inputs src)) as Hk.
    { rewrite Hsrc_in, Hl, filter_app, filter_cons, decide_True by done.
      rewrite length_fmap, length_app. simpl. lia. }
    split_and!; [done|congruence| |].
    - rewrite Hi1, length_app, Hlen, (proj1 Ha).
      rewrite filter_app, filter_cons, filter_nil, decide_True by done.
      rewrite length_app. simpl. lia.
    - intros p r [[<- <-]|[Hne Hp]]%lookup_insert_Some.
      + exists a. split_and!; [done..|]. intros Hs. unfold sumv.
        rewrite (vals_inputs _ _ _ Hs Hi1) by (rewrite Hlen, (proj1 Ha); nia).
        rewrite (proj1 Ha), Hlen, Nat.mul_comm. symmetry.
        by apply (source_input pre nd post).
      + eapply shares_of_mono; [done|]. by apply Hres. }
  assert (∀ name, _name (operation nd) = name → name ≠ INPUT →
            is_op INPUT nd = false) as Hnot_input.
  { intros name Hn Hne. unfold is_op. rewrite bool_decide_false; congruence. }
  apply elem_of_cons in Hname as [Hn|Hname].
  { unfold visit in Hvisit. rewrite Hn in Hvisit.
    destruct args; [|done]. apply Forall2_nil_inv_r in Hargs.
    pose proof (source_eval nd Hnd) as Hev. rewrite Hargs, Hn in Hev.
    assert (is_op CONST nd = true) as Hconst.
    { unfold is_op. by rewrite bool_decide_true. }
    destruct (visit_CONST_step order nd c _ _ Hf Hconst (Hev ltac:(done))
                _ _ Hvisit) as (Hf1 & He1 & Hi1 & Ho1 & Hr).
    apply (visited_step pre nd res c); try done. by apply (Hnot_input CONST). }
  apply elem_of_cons in Hname as [Hn|Hname].
  { rewrite (visit_add_op _ _ Hn) in Hvisit.
    destruct args as [|x [|y [|]]]; try done.
    pose proof (Forall2_length _ _ _ Hargs) as Hlen2.
    destruct (incoming nd) as [|p [|q [|]]] eqn:Hinc;
      simpl in Hlen2; try lia.
    apply Forall2_cons in Hargs as [Hp Hargs].
    apply Forall2_cons in Hargs as [Hq _].
    pose proof (source_eval nd Hnd) as Hev. rewrite Hinc in Hev.
    simpl in Hev. rewrite (eval_add _ _ _ _ Hn) in Hev.
    assert (_name (operation nd) ≠ INPUT) as Hne.
    { rewrite Hn. unfold add_op. by destruct (is_boolean cl). }
    injection (Hev Hne) as Hval.
    destruct (visit_ADD_step order nd x y _ _ c Hf (Hres _ _ Hp) (Hres _ _ Hq)
                _ _ Hvisit) as (Hf1 & He1 & Hi1 & Ho1 & Hr).
    apply (visited_step pre nd res c); try done.
    - by apply (Hnot_input _ eq_refl).
    - by rewrite <- Hval. }
  apply elem_of_cons in Hname as [Hn|Hname].
  { rewrite (visit_mul_op _ _ Hn) in Hvisit.
    destruct args as [|x [|y [|]]]; try done.
    pose proof (Forall2_length _ _ _ Hargs) as Hlen2.
    destruct (incoming nd) as [|p [|q [|]]] eqn:Hinc;
      simpl in Hlen2; try lia.
    apply Forall2_cons in Hargs as [Hp Hargs].
    apply Forall2_cons in Hargs as [Hq _].
    pose proof (source_eval nd Hnd) as Hev. rewrite Hinc in Hev.
    simpl in Hev. rewrite (eval_mul _ _ _ _ Hn) in Hev.
    assert (_name (operation nd) ≠ INPUT) as Hne.
    { rewrite Hn. unfold mul_op. by destruct (is_boolean cl). }
    injection (Hev Hne) as Hval.
    destruct (visit_MUL_step order nd x y _ _ c Hf (Hres _ _ Hp) (Hres _ _ Hq)
                _ _ Hvisit) as (Hf1 & He1 & Hi1 & Ho1 & Hr).
    apply (visited_step pre nd res c); try done.
    - by apply (Hnot_input _ eq_refl).
    - by rewrite <- Hval. }
  by apply elem_of_nil in Hname.
Qed.

(** The main loop visits every node of the source. *)
Lemma visit_all_visited res c :
  mfold (λ (result : gmap nat tres) node,
           do args ← lift (rmap (dict_get result) (incoming node));
           do r ← visit order node args;
           ret (<[id node := r]> result))
        ∅ (nodes src) (new_Circuit cl) = (c, Ok res) →
  visited cl rnd mem xs (order + 1) mem_s (nodes src) res c.
Proof.
  apply (mfold_inv _ (visited cl rnd mem xs (order + 1) mem_s)).
  - intros pre nd post res0 c0 res1 c1 Hl Hvis Hrun.
    by apply (visit_round pre nd post res0 c0).
  - split_and!.
    + split; try done.
      * intros nd p Hnd. by apply elem_of_nil in Hnd.
      * intros nd Hnd. by apply elem_of_nil in Hnd.
    + done.
    + simpl. lia.
    + intros p r Hp. by rewrite lookup_empty in Hp.
Qed.

End transform.

End rules.

(** ** The outputs and the whole transformation *)

Lemma add_outputs_run a (c c' : Circuit (V:=V)) :
  mfor a add_output c = (c', Ok tt) →
  cls c' = cls c ∧ nodes c' = nodes c ∧ node_counter c' = node_counter c
  ∧ inputs c' = inputs c ∧ outputs c' = outputs c ++ a.
Proof.
  revert c. induction a as [|n a IH]; intros c.
  - intros [= <-]. by rewrite app_nil_r.
  - cbn [mfor]. intros (? & c1 & [= <-] & Hrest)%bind_Ok.
    destruct (IH _ Hrest) as (-> & -> & -> & -> & ->). simpl.
    by rewrite <- app_assoc.
Qed.

Lemma outputs_run (res : gmap nat tres) os (c c' : Circuit (V:=V)) :
  (∀ p r, res !! p = Some r → ∃ a, r = RArray a) →
  mfor os (λ node, do r ← lift (dict_get res node); make_output r) c
  = (c', Ok tt) →
  cls c' = cls c ∧ nodes c' = nodes c ∧ node_counter c' = node_counter c
  ∧ inputs c' = inputs c
  ∧ ∃ arrays, Forall2 (λ o a, res !! o = Some (RArray a)) os arrays
              ∧ outputs c' = outputs c ++ concat arrays.
Proof.
  intros Hres. revert c. induction os as [|o os IH]; intros c.
  - intros [= <-]. split_and!; [done..|]. exists []. split; [constructor|].
    by rewrite app_nil_r.
  - cbn [mfor]. intros (x & c1 & Hone & Hrest)%bind_Ok.
    apply bind_Ok in Hone as (r & ? & [= <- Hr] & Hone).
    unfold dict_get in Hr. destruct (res !! o) as [r'|] eqn:Ho; [|done].
    injection Hr as ->. destruct (Hres _ _ Ho) as [a ->].
    destruct x. cbn [make_output] in Hone.
    apply add_outputs_run in Hone as (Hc1 & Hn1 & Hk1 & Hi1 & Ho1).
    destruct (IH _ Hrest) as (-> & -> & -> & -> & arrays & Harr & ->).
    split_and!; [done..|]. exists (a :: arrays). split; [by constructor|].
    rewrite Ho1. simpl. by rewrite <- app_assoc.
Qed.

Lemma share_sums_concat cl n (ls : list (list V)) :
  Forall (λ a, length a = n) ls →
  share_sums cl n (length ls) (concat ls) = share_sum cl <$> ls.
Proof.
  unfold share_sums. induction 1 as [|a ls Ha _ IH]; [done|].
  cbn [length seq concat fmap list_fmap]. f_equal.
  - by rewrite Nat.mul_0_l, drop_0, take_app_length' by done.
  - rewrite <- IH, <- fmap_S_seq, <- list_fmap_compose.
    apply list_fmap_ext. intros _ k _. simpl. f_equal. f_equal.
    rewrite drop_app_ge by lia. f_equal. lia.
Qed.

Lemma sem_same cl rnd mem xs (c c' : Circuit (V:=V)) :
  nodes c' = nodes c → inputs c' = inputs c →
  sem cl rnd mem xs c → sem cl rnd mem xs c'.
Proof. unfold sem, skeleton. by intros -> ->. Qed.

Lemma length_concat_arrays n (ls : list (list nat)) :
  Forall (λ a, length a = n) ls → length (concat ls) = n * length ls.
Proof.
  induction 1 as [|a ls Ha _ IH]; simpl; [lia|].
  rewrite length_app, IH, Ha. lia.
Qed.

(** The masked circuit on raw values, without conversion of the input and
    of the output. *)
Lemma isw_correct_raw cl order (src T : Circuit (V:=V)) xs rnd_s ys :
  plain cl → masking_laws cl → cls src = cl →
  reachable src → supported src →
  IswOnArithmetic_transform order src = Ok T →
  length xs = (order + 1) * length (inputs src) →
  evaluate src rnd_s
    (share_sums cl (order + 1) (length (inputs src)) xs) false false
  = Ok ys →
  cls T = cl
  ∧ ∀ rnd, ∃ zs,
      evaluate T rnd xs false false = Ok zs
      ∧ length zs = (order + 1) * length ys
      ∧ share_sums cl (order + 1) (length ys) zs = ys.
Proof.
  intros Hplain laws Hcls Hreach Hsupp Htrans Hxs Heval.
  pose proof (reachable_inv _ Hreach) as Hinv.
  pose proof (inv_nodup _ Hinv) as Hnd.
  pose proof (inv_inputs_order _ Hinv) as Hin.
  unfold evaluate in Heval.
  destruct (evaluate_with_mem src rnd_s _ false false)
    as [[ys' mem_s]|] eqn:Hsrc; [|done].
  injection Heval as ->.
  apply evaluate_models in Hsrc as (Hsem_s & -> & _); [|done..].
  rewrite Hcls in Hsem_s.
  unfold IswOnArithmetic_transform in Htrans. rewrite Hcls in Htrans.
  destruct (transform_body order src (new_Circuit cl)) as [T' [[]|]] eqn:Hrun;
    [|done].
  injection Htrans as ->. unfold transform_body in Hrun.
  apply bind_Ok in Hrun as (res & T1 & Hloop & Hout).
  assert (∀ rnd mem, visited cl rnd mem xs (order + 1) mem_s (nodes src) res T1)
    as Hvis.
  { intros rnd' mem. by eapply visit_all_visited. }
  destruct (Hvis rnd_s ∅) as (Hf1 & Hout1 & Hlen1 & Hres1).
  apply outputs_run in Hout
    as (HcT & HnT & HkT & HiT & arrays & Harr & HoT).
  2: { intros p r Hp. destruct (Hres1 p r Hp) as (a & -> & _). by exists a. }
  rewrite Hout1 in HoT. simpl in HoT.
  assert (well_built cl T) as HfT.
  { destruct Hf1. split; rewrite ?HcT, ?HnT, ?HkT, ?HiT; done. }
  assert (Forall (λ a, arr (order + 1) T a) arrays) as Harrs.
  { apply (Forall2_Forall_r _ _ _ _ Harr). apply Forall_forall.
    intros o _ a Ho. destruct (Hres1 _ _ Ho) as (a' & [= <-] & [Hla Hlt] & _).
    split; [done|]. by rewrite HkT. }
  split; [by rewrite HcT, (fresh_cls _ _ Hf1)|]. intros rnd.
  destruct (fresh_evaluates cl T rnd xs) as (zs & mem_t & Hzs).
  - done.
  - rewrite HiT, Hlen1, Hxs, Hin, !length_fmap. done.
  - rewrite HoT. apply Forall_concat.
    eapply Forall_impl; [exact Harrs|]. by intros a [_ ?].
  - exists zs. unfold evaluate. rewrite Hzs. simpl. split; [done|].
    apply evaluate_models in Hzs as (Hsem_t & -> & _).
    2: { rewrite (fresh_ids _ _ HfT). apply NoDup_seq. }
    2: { apply (fresh_inputs _ _ HfT). }
    rewrite (fresh_cls _ _ HfT) in Hsem_t.
    assert (Forall (λ a, length a = order + 1) arrays) as Hlens.
    { eapply Forall_impl; [exact Harrs|]. by intros a [? _]. }
    assert (length arrays = length (outputs src)) as Hcount.
    { by rewrite <- (Forall2_length _ _ _ Harr). }
    rewrite !length_fmap, HoT. split.
    + rewrite (length_concat_arrays (order + 1)) by done. by rewrite Hcount.
    + rewrite <- Hcount.
      assert (val mem_t <$> concat arrays
              = concat ((λ a : list nat, val mem_t <$> a) <$> arrays)) as ->.
      { clear. induction arrays as [|a ls IH]; [done|].
        simpl. by rewrite fmap_app, IH. }
      rewrite <- (length_fmap (λ a : list nat, val mem_t <$> a)).
      rewrite share_sums_concat.
      2: { apply Forall_fmap. eapply Forall_impl; [exact Hlens|].
           intros a Ha. simpl. by rewrite length_fmap. }
      rewrite <- list_fmap_compose.
      apply list_eq. intros i. rewrite !list_lookup_fmap.
      destruct (outputs src !! i) as [o|] eqn:Ho.
      * destruct (Forall2_lookup_l _ _ _ _ _ Harr Ho) as (a & Ha & Hoa).
        rewrite Ha. simpl. f_equal.
        destruct (Hvis rnd mem_t) as (_ & _ & _ & Hres).
        destruct (Hres _ _ Hoa) as (a' & [= <-] & _ & Hsum).
        apply Hsum. by apply (sem_same _ _ _ _ T).
      * rewrite (lookup_ge_None_2 arrays); [done|].
        rewrite Hcount. by apply lookup_ge_None_1.
Qed.


(** Input conversion returns the values it accepts unchanged. *)
Lemma rmap_create_fixed cl (xs xs' : list V) :
  masking_laws cl → rmap (const_manager_create cl) xs = Ok xs' → xs' = xs.
Proof.
  intros laws. revert xs'. induction xs as [|x xs IH]; intros xs'; simpl.
  - by intros [= <-].
  - destruct (const_manager_create cl x) as [x'|] eqn:Hx; [|done]. simpl.
    destruct (rmap (const_manager_create cl) xs) as [xs0|]; [|done]. simpl.
    intros [= <-]. apply (create_fixed _ laws) in Hx as ->.
    by rewrite (IH xs0).
Qed.

Lemma evaluate_raw (c : Circuit (V:=V)) rnd xs convert_input convert_output ys :
  masking_laws (cls c) →
  (convert_output = true → ∀ v, const_manager_output (cls c) v = v) →
  evaluate c rnd xs convert_input convert_output = Ok ys →
  evaluate c rnd xs false false = Ok ys.
Proof.
  intros laws Hout. unfold evaluate, evaluate_with_mem.
  case_bool_decide; [done|].
  assert ((if convert_input then rmap (const_manager_create (cls c)) xs
           else Ok xs) = Ok xs
          ∨ ∃ e, (if convert_input
                  then rmap (const_manager_create (cls c)) xs
                  else Ok xs) = Raise e) as [-> | [e ->]]; [|simpl|done].
  { destruct convert_input; [|by left].
    destruct (rmap _ xs) as [xs'|e] eqn:Hxs; [left|right; eauto].
    by rewrite (rmap_create_fixed _ _ _ laws Hxs). }
  destruct (rfold _ _ _) as [mem|]; [|done]. simpl.
  destruct (rmap (mem_get mem) (outputs c)) as [out|]; [|done]. simpl.
  destruct convert_output; [|done].
  rewrite (list_fmap_ext _ (λ v, v) out) by (intros; by apply Hout).
  by rewrite list_fmap_id.
Qed.

Lemma evaluate_converted (c : Circuit (V:=V)) rnd xs convert_input
    convert_output ys :
  masking_laws (cls c) →
  (convert_input = true →
   ∃ xs', rmap (const_manager_create (cls c)) xs = Ok xs') →
  (convert_output = true → ∀ v, const_manager_output (cls c) v = v) →
  evaluate c rnd xs false false = Ok ys →
  evaluate c rnd xs convert_input convert_output = Ok ys.
Proof.
  intros laws Hin Hout. unfold evaluate, evaluate_with_mem.
  case_bool_decide; [done|].
  assert ((if convert_input then rmap (const_manager_create (cls c)) xs
           else Ok xs) = Ok xs) as ->.
  { destruct convert_input; [|done]. destruct Hin as [xs' Hxs]; [done|].
    by rewrite Hxs, (rmap_create_fixed _ _ _ laws Hxs). }
  simpl. destruct (rfold _ _ _) as [mem|]; [|done]. simpl.
  destruct (rmap (mem_get mem) (outputs c)) as [out|]; [|done]. simpl.
  destruct convert_output; [|done].
  rewrite (list_fmap_ext _ (λ v, v) out) by (intros; by apply Hout).
  by rewrite list_fmap_id.
Qed.

(** C1 (amended).  Let [src] be a circuit of a plain class [cl], arithmetic
    or boolean without node caching and constant folding, whose values have
    characteristic 2 ([masking_laws]), built through the construction
    interface from [INPUT], [CONST], addition and multiplication nodes.  If
    the ISW transformer of order [order] returns the circuit [T], then for
    every list [xs] of [order + 1] shares per input of [src] such that
    [src] returns [ys] on the sums of the shares, and for every assignment
    [rnd] of the [RND] nodes, [T] evaluates on [xs], returns [order + 1]
    shares per output of [src], and the shares of each output sum to the
    output of [src].  [evaluate] is called with the same conversion flags
    on both circuits: with input conversion the shares are values the
    constant manager accepts, and output conversion, when asked for, is the
    identity, as it is in the boolean circuits. *)
Theorem isw_correct cl order (src T : Circuit (V:=V)) xs rnd_s ys
    convert_input convert_output :
  plain cl → masking_laws cl → cls src = cl →
  reachable src → supported src →
  IswOnArithmetic_transform order src = Ok T →
  length xs = (order + 1) * length (inputs src) →
  (convert_input = true → ∃ xs', rmap (const_manager_create cl) xs = Ok xs') →
  (convert_output = true → ∀ v, const_manager_output cl v = v) →
  evaluate src rnd_s
    (share_sums cl (order + 1) (length (inputs src)) xs)
    convert_input convert_output
  = Ok ys →
  ∀ rnd, ∃ zs,
    evaluate T rnd xs convert_input convert_output = Ok zs
    ∧ length zs = (order + 1) * length ys
    ∧ share_sums cl (order + 1) (length ys) zs = ys.
Proof.
  intros Hplain laws Hcls Hreach Hsupp Htrans Hxs Hin Hout Heval rnd.
  apply evaluate_raw in Heval; [|by rewrite Hcls..].
  destruct (isw_correct_raw cl order src T xs rnd_s ys) as [HcT Hraw];
    [done..|].
  destruct (Hraw rnd) as (zs & Hzs & Hlen & Hsums).
  exists zs. split_and!; [|done..].
  apply evaluate_converted; [by rewrite HcT..|done].
Qed.

End masking.

(** Python ints under [^] and [&] have characteristic 2. *)
Lemma boolean_int_laws : masking_laws (V:=Z) BooleanCircuit.
Proof.
  split; unfold v_plus, v_times, v_minus, v_zero; simpl.
  - apply Z.lxor_comm.
  - intros a b c. symmetry. apply Z.lxor_assoc.
  - apply Z.lxor_0_l.
  - apply Z.lxor_nilpotent.
  - done.
  - intros a b c. apply Z.bits_inj'. intros n Hn.
    rewrite !Z.land_spec, !Z.lxor_spec, !Z.land_spec.
    by destruct (Z.testbit a n), (Z.testbit b n), (Z.testbit c n).
  - intros a b c. apply Z.bits_inj'. intros n Hn.
    rewrite !Z.land_spec, !Z.lxor_spec, !Z.land_spec.
    by destruct (Z.testbit a n), (Z.testbit b n), (Z.testbit c n).
  - intros v v'. unfold const_manager_create, Boolean_create. simpl.
    case_bool_decide; [by intros [= <-]|done].
Qed.

(** [unused_and_circuit] holds [INPUT], [AND] and [XOR] nodes only. *)
Lemma unused_and_circuit_supported : supported unused_and_circuit.
Proof.
  intros nd Hnd. vm_compute in Hnd.
  repeat (apply elem_of_cons in Hnd as [->|Hnd];
          [vm_compute; repeat (first [apply list_elem_of_here
                                     |apply list_elem_of_further])|]).
  by apply elem_of_nil in Hnd.
Qed.

(** C1, witness: the boolean circuit [unused_and_circuit], [out = a XOR b]
    with an [AND] node beside it, masked at order 1, on the shares
    [a = 1 XOR 0] and [b = 1 XOR 1] with every random bit 1. *)
Lemma isw_correct_witness :
  ∃ zs, evaluate masked_unused_and_circuit (λ _, 1%Z) [1; 0; 1; 1]%Z
          true true = Ok zs
        ∧ length zs = 2
        ∧ share_sums BooleanCircuit 2 1 zs = [1%Z].
Proof.
  apply (isw_correct BooleanCircuit 1 unused_and_circuit
           masked_unused_and_circuit [1; 0; 1; 1]%Z (λ _, 0%Z) [1%Z]
           true true).
  - by right.
  - apply boolean_int_laws.
  - reflexivity.
  - apply unused_and_circuit_reachable.
  - apply unused_and_circuit_supported.
  - vm_compute. reflexivity.
  - reflexivity.
  - intros _. exists [1; 0; 1; 1]%Z. vm_compute. reflexivity.
  - intros _ v. reflexivity.
  - vm_compute. reflexivity.
Defined.

(** C1 (as stated, it fails).  Over the integers the shares do not sum to
    the output: [twice_sum_circuit], [(a + b) * (a + b)], returns 1 on
    [a = 1 + 0], [b = 0 + 0]; masked at order 1 it returns, with every
    random value 1, the shares 0 and -1, whose sum is -1. *)
Lemma isw_arithmetic_shares_differ :
  ∃ c, IswOnArithmetic_transform 1 twice_sum_circuit = Ok c
       ∧ evaluate twice_sum_circuit (λ _, 0%Z)
           (share_sums ArithmeticCircuit 2 2 [1; 0; 0; 0]%Z) true true
         = Ok [1%Z]
       ∧ evaluate c (λ _, 1%Z) [1; 0; 0; 0]%Z true true = Ok [0; -1]%Z
       ∧ share_sums ArithmeticCircuit 2 1 [0; -1]%Z = [(-1)%Z].
Proof. eexists. split_and!; vm_compute; reflexivity. Qed.

(* ===================================================================== *)
(** * Further properties of the embedded code *)
(* ===================================================================== *)

Section array_facts.
Context {A : Type}.
Implicit Types self : list A.

Lemma py_slice_nonneg self (i j : nat) :
  i ≤ j →
  py_slice self (Z.of_nat i) (Z.of_nat j) = take (j - i) (drop i self).
Proof.
  intros Hij. unfold py_slice, py_clip.
  rewrite !bool_decide_eq_false_2 by lia.
  destruct (decide (j ≤ length self)) as [Hj|Hj].
  - rewrite !Z.min_l by lia. by rewrite !Nat2Z.id.
  - destruct (decide (i ≤ length self)) as [Hi|Hi].
    + rewrite (Z.min_l (Z.of_nat i)) by lia. rewrite Z.min_r by lia.
      rewrite !Nat2Z.id. rewrite !take_ge; [done| |];
        rewrite length_drop; lia.
    + rewrite !Z.min_r by lia. rewrite !Nat2Z.id.
      rewrite Nat.sub_diag. rewrite (drop_ge self i) by lia.
      rewrite (drop_ge self (length self)) by lia. by rewrite !take_nil.
Qed.

(** The rotation in terms of [drop] and [take]. *)
Lemma Array_rol_unfold self n :
  self ≠ [] →
  let k := Z.to_nat (n `mod` Z.of_nat (length self)) in
  Array_rol self n = Returns (drop k self ++ take k self) ∧ k < length self.
Proof.
  intros Hne k. unfold Array_rol.
  assert (0 < length self) by (destruct self; [done|simpl; lia]).
  rewrite bool_decide_eq_false_2 by lia.
  pose proof (Z.mod_pos_bound n (Z.of_nat (length self)) ltac:(lia)) as Hb.
  split; [|lia]. f_equal.
  replace (n `mod` Z.of_nat (length self))%Z with (Z.of_nat k) by lia.
  rewrite (py_slice_nonneg self k (length self)) by lia.
  change 0%Z with (Z.of_nat 0).
  rewrite (py_slice_nonneg self 0 k) by lia.
  rewrite drop_0, Nat.sub_0_r. f_equal.
  rewrite take_ge; [done|]. rewrite length_drop. lia.
Qed.

Lemma Array_rol_lookup self n r (i : nat) :
  Array_rol self n = Returns r → i < length self →
  r !! i = self !! Z.to_nat ((Z.of_nat i + n) `mod` Z.of_nat (length self)).
Proof.
  intros Hr Hi.
  assert (self ≠ []) as Hne by (intros ->; simpl in Hi; lia).
  destruct (Array_rol_unfold self n Hne) as [Hu Hk].
  rewrite Hu in Hr. injection Hr as <-.
  set (len := length self) in *.
  set (k := Z.to_nat (n `mod` Z.of_nat len)) in *.
  pose proof (Z.mod_pos_bound n (Z.of_nat len) ltac:(lia)) as Hb.
  assert (Z.of_nat k = n `mod` Z.of_nat len)%Z as Ek by lia.
  assert ((Z.of_nat i + n) `mod` Z.of_nat len
          = (Z.of_nat i + Z.of_nat k) `mod` Z.of_nat len)%Z as ->.
  { rewrite Ek. by rewrite Zplus_mod_idemp_r. }
  destruct (decide (i < len - k)) as [Hlt|Hge].
  - rewrite lookup_app_l by (rewrite length_drop; fold len; lia).
    rewrite lookup_drop. f_equal.
    rewrite Z.mod_small by lia. lia.
  - rewrite lookup_app_r by (rewrite length_drop; fold len; lia).
    rewrite length_drop. fold len.
    rewrite lookup_take_lt by lia. f_equal.
    assert ((Z.of_nat i + Z.of_nat k) `mod` Z.of_nat len
            = Z.of_nat i + Z.of_nat k - Z.of_nat len)%Z as ->.
    { symmetry. apply Z.mod_unique_pos with (q := 1%Z); lia. }
    lia.
Qed.

Lemma Array_rol_length self n r :
  Array_rol self n = Returns r → length r = length self.
Proof.
  intros Hr. destruct (decide (self = [])) as [->|Hne]; [done|].
  destruct (Array_rol_unfold self n Hne) as [Hu Hk].
  rewrite Hu in Hr. injection Hr as <-.
  rewrite length_app, length_drop, length_take. lia.
Qed.

Lemma Array_rol_returns self n :
  self ≠ [] → ∃ r, Array_rol self n = Returns r.
Proof. intros Hne. destruct (Array_rol_unfold self n Hne). eauto. Qed.

(** The chunks of a positive size in terms of [take] and [drop]. *)
Lemma Array_chunks_unfold self (size : Z) num :
  (0 < size)%Z →
  Array_chunks self (Some size) num
  = Returns ((λ k, take (Z.to_nat size) (drop (k * Z.to_nat size) self))
             <$> seq 0 (Z.to_nat ((Z.of_nat (length self) + size - 1)
                                  `div` size))).
Proof.
  intros Hs. unfold Array_chunks.
  assert ((match num with
           | Some _ => Returns size
           | None => if bool_decide (size = 0%Z)
                     then Raises ZeroDivisionError else Returns size
           end) = Returns size) as ->.
  { destruct num; [done|]. by rewrite bool_decide_eq_false_2 by lia. }
  rewrite bool_decide_eq_false_2 by lia. f_equal.
  unfold py_range. rewrite bool_decide_eq_true_2 by lia.
  rewrite Z.sub_0_r. rewrite <- list_fmap_compose.
  apply list_fmap_ext. intros i k _. simpl.
  replace (0 + Z.of_nat k * size)%Z
    with (Z.of_nat (k * Z.to_nat size)) by lia.
  replace (Z.of_nat (k * Z.to_nat size) + size)%Z
    with (Z.of_nat (k * Z.to_nat size + Z.to_nat size)) by lia.
  rewrite py_slice_nonneg by lia. f_equal. lia.
Qed.

Lemma concat_take_drop (s K : nat) self :
  mjoin ((λ k, take s (drop (k * s) self)) <$> seq 0 K) = take (K * s) self.
Proof.
  revert self. induction K as [|K IH]; intros self; [by rewrite take_0|].
  simpl. rewrite <- fmap_S_seq, <- list_fmap_compose.
  rewrite drop_0.
  erewrite (list_fmap_ext _ (λ k, take s (drop (k * s) (drop s self)))).
  2:{ intros i k _. simpl. by rewrite drop_drop. }
  rewrite IH. by rewrite take_take_drop.
Qed.

Lemma ceil_div_spec (len size : Z) :
  (0 ≤ len)%Z → (0 < size)%Z →
  let K := ((len + size - 1) `div` size)%Z in
  (0 ≤ K ∧ len ≤ K * size ∧ (K - 1) * size < len ∨ (len = 0 ∧ K = 0))%Z.
Proof.
  intros Hl Hs K.
  pose proof (Z.div_mod (len + size - 1) size ltac:(lia)) as Hdm.
  pose proof (Z.mod_pos_bound (len + size - 1) size ltac:(lia)) as Hb.
  fold K in Hdm.
  destruct (decide (len = 0%Z)) as [->|Hne].
  - right. split; [done|]. unfold K. apply Z.div_small. lia.
  - left. nia.
Qed.

Lemma Array_chunks_spec self (size : Z) num :
  (0 < size)%Z →
  ∃ cs, Array_chunks self (Some size) num = Returns cs
    ∧ Array_flatten cs = self
    ∧ Z.of_nat (length cs)
      = ((Z.of_nat (length self) + size - 1) `div` size)%Z
    ∧ ∀ k ch, cs !! k = Some ch →
        ch ≠ [] ∧ (Z.of_nat (length ch) ≤ size)%Z
        ∧ (S k < length cs → Z.of_nat (length ch) = size).
Proof.
  intros Hs. eexists. split; [by apply Array_chunks_unfold|].
  set (s := Z.to_nat size).
  set (K := Z.to_nat ((Z.of_nat (length self) + size - 1) `div` size)).
  pose proof (ceil_div_spec (Z.of_nat (length self)) size ltac:(lia) Hs)
    as HK. simpl in HK.
  split_and!.
  - unfold Array_flatten, Array_concat. rewrite concat_take_drop.
    apply take_ge. unfold K, s. nia.
  - rewrite length_fmap, length_seq. unfold K. lia.
  - intros k ch Hk. rewrite length_fmap, length_seq.
    rewrite list_lookup_fmap in Hk.
    destruct (seq 0 K !! k) as [k'|] eqn:Ek; [|done].
    apply lookup_seq in Ek as [-> Hlt]. simpl in Hk. injection Hk as <-.
    assert (length (take s (drop (k * s) self))
            = s `min` (length self - k * s)) as Hlen.
    { by rewrite length_take, length_drop. }
    split_and!.
    + intros E. rewrite E in Hlen. simpl in Hlen. unfold K, s in *. nia.
    + rewrite Hlen. unfold s. lia.
    + intros Hlast. rewrite Hlen. unfold K, s in *. nia.
Qed.

(** X1.  [rol] on an empty [Array] raises [ZeroDivisionError]; on any other
    one it returns an [Array] of the same length whose entry [i] is the
    entry [(i + n) mod len] of the original, for every int [n], and [ror]
    by the same [n] gives the original back. *)
Theorem Array_rol_ror self (n : Z) :
  match self with
  | [] => Array_rol self n = Raises ZeroDivisionError
  | _ => ∃ r, Array_rol self n = Returns r
         ∧ length r = length self
         ∧ (∀ i : nat, i < length self →
              r !! i = self !! Z.to_nat ((Z.of_nat i + n)
                                         `mod` Z.of_nat (length self)))
         ∧ Array_ror r n = Returns self
  end.
Proof.
  destruct self as [|x l] eqn:E; [done|]. rewrite <- E.
  assert (self ≠ []) as Hne by (by rewrite E).
  clear E. destruct (Array_rol_returns self n Hne) as [r Hr].
  pose proof (Array_rol_length _ _ _ Hr) as Hlen.
  exists r. split_and!; [done|done|by intros; apply Array_rol_lookup|].
  assert (r ≠ []) as Hr0.
  { intros ->. destruct self; simpl in *; [done|lia]. }
  destruct (Array_rol_returns r (- n) Hr0) as [r' Hr'].
  unfold Array_ror. rewrite Hr'. f_equal.
  pose proof (Array_rol_length _ _ _ Hr') as Hlen'.
  apply list_eq. intros i.
  destruct (decide (i < length self)) as [Hi|Hi].
  - assert (0 < Z.of_nat (length self))%Z as Hpos by lia.
    rewrite (Array_rol_lookup r (- n) r' i Hr') by lia.
    pose proof (Z.mod_pos_bound (Z.of_nat i + - n) (Z.of_nat (length r))
                  ltac:(lia)) as Hb.
    rewrite (Array_rol_lookup self n r _ Hr) by lia.
    f_equal. rewrite Z2Nat.id by lia. rewrite Hlen.
    rewrite Zplus_mod_idemp_l.
    replace (Z.of_nat i + - n + n)%Z with (Z.of_nat i) by lia.
    rewrite Z.mod_small by lia. lia.
  - rewrite !lookup_ge_None_2; [done|lia|lia].
Qed.

(** X2.  Rotations compose: rotating the result of [rol(a)] by [b] is
    [rol(a + b)], so a rotation by the length changes nothing. *)
Theorem Array_rol_add self (a b : Z) r :
  Array_rol self a = Returns r →
  Array_rol r b = Array_rol self (a + b)
  ∧ Array_rol self (Z.of_nat (length self)) = Returns self.
Proof.
  intros Hr.
  assert (self ≠ []) as Hne.
  { intros ->. done. }
  pose proof (Array_rol_length _ _ _ Hr) as Hlen.
  assert (r ≠ []) as Hr0.
  { intros ->. destruct self; simpl in *; [done|lia]. }
  assert (0 < Z.of_nat (length self))%Z as Hpos.
  { destruct self; [done|simpl; lia]. }
  assert (∀ l1 l2 : list A, length l1 = length l2 →
            (∀ i, i < length l1 → l1 !! i = l2 !! i) → l1 = l2) as Hext.
  { intros l1 l2 Hl Hi. apply list_eq. intros i.
    destruct (decide (i < length l1)); [by apply Hi|].
    rewrite !lookup_ge_None_2; [done|lia|lia]. }
  split.
  - destruct (Array_rol_returns r b Hr0) as [r1 Hr1].
    destruct (Array_rol_returns self (a + b) Hne) as [r2 Hr2].
    rewrite Hr1, Hr2. f_equal.
    pose proof (Array_rol_length _ _ _ Hr1).
    pose proof (Array_rol_length _ _ _ Hr2).
    apply Hext; [lia|]. intros i Hi.
    rewrite (Array_rol_lookup r b r1 i Hr1) by lia.
    pose proof (Z.mod_pos_bound (Z.of_nat i + b) (Z.of_nat (length r))
                  ltac:(lia)) as Hb.
    rewrite (Array_rol_lookup self a r _ Hr) by lia.
    rewrite (Array_rol_lookup self (a + b) r2 i Hr2) by lia.
    f_equal. rewrite Z2Nat.id by lia. rewrite Hlen.
    rewrite Zplus_mod_idemp_l. f_equal. f_equal. lia.
  - destruct (Array_rol_returns self (Z.of_nat (length self)) Hne)
      as [r2 Hr2].
    rewrite Hr2. f_equal.
    pose proof (Array_rol_length _ _ _ Hr2).
    apply Hext; [lia|]. intros i Hi.
    rewrite (Array_rol_lookup self _ r2 i Hr2) by lia.
    f_equal.
    rewrite <- (Z.mul_1_l (Z.of_nat (length self))) at 1.
    rewrite Z.mod_add by lia. rewrite Z.mod_small by lia. lia.
Qed.

(** X3.  [chunks(size)] with a positive size cuts the [Array] into
    [ceil(len / size)] chunks, none of them empty, all but the last of
    exactly [size] entries, and [flatten] of the chunks is the [Array]
    again. *)
Theorem Array_chunks_flatten self (size : Z) num :
  (0 < size)%Z →
  ∃ cs, Array_chunks self (Some size) num = Returns cs
    ∧ Array_flatten cs = self
    ∧ Z.of_nat (length cs)
      = ((Z.of_nat (length self) + size - 1) `div` size)%Z
    ∧ ∀ k ch, cs !! k = Some ch →
        ch ≠ [] ∧ (Z.of_nat (length ch) ≤ size)%Z
        ∧ (S k < length cs → Z.of_nat (length ch) = size).
Proof. apply Array_chunks_spec. Qed.

(** X4.  [chunks(num=n)] with a positive [n] raises [ValueError] on an
    empty [Array], since the computed size is the step 0 of a [range]; on
    any other [Array] it returns at most [n] chunks, none empty, that
    [flatten] to the [Array]. *)
Theorem Array_chunks_num self (num : Z) :
  (0 < num)%Z →
  match self with
  | [] => Array_chunks self None (Some num) = Raises (Exn ValueError)
  | _ => ∃ cs, Array_chunks self None (Some num) = Returns cs
         ∧ Array_flatten cs = self
         ∧ (Z.of_nat (length cs) ≤ num)%Z
         ∧ Forall (λ ch, ch ≠ []) cs
  end.
Proof.
  intros Hn. destruct self as [|x l] eqn:E.
  - unfold Array_chunks. rewrite bool_decide_eq_false_2 by lia. simpl.
    rewrite Z.div_small by lia. done.
  - rewrite <- E. assert (0 < length self) as Hlen by (rewrite E; simpl; lia).
    clear E.
    set (size := ((Z.of_nat (length self) + num - 1) `div` num)%Z).
    pose proof (ceil_div_spec (Z.of_nat (length self)) num ltac:(lia) Hn)
      as HK. simpl in HK. fold size in HK.
    assert (0 < size)%Z as Hs by nia.
    assert (Array_chunks self None (Some num)
            = Array_chunks self (Some size) (Some num)) as ->.
    { unfold Array_chunks. by rewrite bool_decide_eq_false_2 by lia. }
    destruct (Array_chunks_spec self size (Some num) Hs)
      as (cs & Hcs & Hflat & Hcount & Hch).
    exists cs. split_and!; [done|done| |].
    + rewrite Hcount.
      apply Z.lt_succ_r, Z.div_lt_upper_bound; [lia|]. nia.
    + apply Forall_lookup. intros k ch Hk. by apply (Hch k ch).
Qed.

(** X5.  [chunks] with the size 0 raises: [ZeroDivisionError] when [num]
    is left out, [ValueError] when it is given; with a negative size it
    returns an empty [Array] whatever [self] holds. *)
Theorem Array_chunks_nonpositive self (size : Z) num :
  (size ≤ 0)%Z →
  Array_chunks self (Some size) num
  = if bool_decide (size = 0%Z)
    then match num with
         | None => Raises ZeroDivisionError
         | Some _ => Raises (Exn ValueError)
         end
    else Returns [].
Proof.
  intros Hs. case_bool_decide as E.
  - subst. unfold Array_chunks.
    destruct num; by rewrite ?bool_decide_eq_true_2.
  - assert (Array_chunks self (Some size) num
            = Returns ((λ i, py_slice self i (i + size))
                       <$> py_range 0 (Z.of_nat (length self)) size)) as ->.
    { unfold Array_chunks.
      destruct num; by rewrite !bool_decide_eq_false_2 by lia. }
    f_equal.
    unfold py_range. rewrite bool_decide_eq_false_2 by lia.
    assert (Z.to_nat ((0 - Z.of_nat (length self) - size - 1) `div` (- size))
            = 0) as ->; [|done].
    destruct (decide (0 ≤ 0 - Z.of_nat (length self) - size - 1)%Z).
    + rewrite Z.div_small by lia. done.
    + apply Z2Nat.nonpos.
      apply Z.lt_le_incl, Z.div_lt_upper_bound; lia.
Qed.

(** X6.  [padr(n, value)] raises [ValueError] when [n] is below the length;
    otherwise the result has [n] entries, begins with the [Array] and holds
    [value] in every added entry. *)
Theorem Array_padr_spec self (n : Z) value :
  if bool_decide (n < Z.of_nat (length self))%Z
  then Array_padr self n value = Raise ValueError
  else ∃ r, Array_padr self n value = Ok r
       ∧ Z.of_nat (length r) = n
       ∧ take (length self) r = self
       ∧ ∀ i, length self ≤ i < length r → r !! i = Some value.
Proof.
  unfold Array_padr. case_bool_decide as Hlt; [done|].
  case_bool_decide as Heq.
  - exists self. split_and!; [done|lia|by rewrite take_ge|lia].
  - eexists. split; [done|].
    unfold Array_concat, Array_dup. simpl. rewrite app_nil_r.
    split_and!.
    + rewrite length_app, length_replicate. lia.
    + by rewrite take_app_length.
    + intros i Hi. rewrite length_app, length_replicate in Hi.
      rewrite lookup_app_r by lia. apply lookup_replicate_2. lia.
Qed.

End array_facts.

Lemma Array_rol_add_witness :
  Array_rol [1; 2; 3]%Z 4 = Returns [2; 3; 1]%Z
  ∧ Array_rol [2; 3; 1]%Z (-2) = Array_rol [1; 2; 3]%Z (4 + -2)
  ∧ Array_rol [1; 2; 3]%Z (Z.of_nat (length [1; 2; 3]%Z))
    = Returns [1; 2; 3]%Z.
Proof.
  split; [reflexivity|].
  apply (Array_rol_add [1; 2; 3]%Z 4 (-2) [2; 3; 1]%Z). reflexivity.
Defined.


Lemma Array_chunks_flatten_witness :
  (0 < 2)%Z
  ∧ ∃ cs, Array_chunks [1; 2; 3; 4; 5]%Z (Some 2%Z) None = Returns cs
      ∧ Array_flatten cs = [1; 2; 3; 4; 5]%Z.
Proof.
  split; [lia|].
  destruct (Array_chunks_flatten [1; 2; 3; 4; 5]%Z 2 None ltac:(lia))
    as (cs & H1 & H2 & _).
  by exists cs.
Defined.

Lemma Array_chunks_num_witness :
  (0 < 4)%Z
  ∧ ∃ cs, Array_chunks [1; 2; 3; 4; 5]%Z None (Some 4%Z) = Returns cs
      ∧ (Z.of_nat (length cs) ≤ 4)%Z.
Proof.
  split; [lia|].
  destruct (Array_chunks_num [1; 2; 3; 4; 5]%Z 4 ltac:(lia))
    as (cs & H1 & _ & H3 & _).
  by exists cs.
Defined.

Lemma Array_chunks_nonpositive_witness :
  Array_chunks [1; 2; 3]%Z (Some (-2)%Z) None = Returns [].
Proof. apply (Array_chunks_nonpositive [1; 2; 3]%Z (-2) None). lia. Defined.

Lemma mask_ones w R :
  BitwiseRing_init w = Ok R →
  (0 < w)%Z ∧ word_size R = w ∧ mask R = Z.ones w.
Proof.
  unfold BitwiseRing_init. case_bool_decide; [|done].
  intros [= <-]. simpl. split_and!; [done|done|].
  rewrite Z.ones_equiv, Z.shiftl_1_l. lia.
Qed.

Lemma Word_init_value w R z :
  BitwiseRing_init w = Ok R →
  value (Word_init z R) = (z `mod` 2 ^ w)%Z.
Proof.
  intros (Hw & _ & Hm)%mask_ones. simpl. rewrite Hm.
  apply Z.land_ones. lia.
Qed.

Lemma Word_init_bit w R z i :
  BitwiseRing_init w = Ok R →
  Z.testbit (value (Word_init z R)) i
  = Z.testbit z i && bool_decide (0 ≤ i < w)%Z.
Proof.
  intros (Hw & _ & Hm)%mask_ones. simpl. rewrite Hm.
  rewrite Z.land_spec. destruct (decide (0 ≤ i)%Z) as [Hi|Hi].
  - rewrite Z.testbit_ones_nonneg by lia.
    f_equal. case_bool_decide; [apply Z.ltb_lt|apply Z.ltb_ge]; lia.
  - rewrite !Z.testbit_neg_r by lia. done.
Qed.

Lemma Word_rol_bit w R z v :
  BitwiseRing_init w = Ok R →
  ∃ r, Word_rol (Word_init z R) v = Returns r ∧ ring r = R
    ∧ ∀ i, Z.testbit (value r) i
           = Z.testbit (value (Word_init z R)) ((i - v) `mod` w)
             && bool_decide (0 ≤ i < w)%Z.
Proof.
  intros HR. pose proof (mask_ones _ _ HR) as (Hw & Hws & Hm).
  unfold Word_rol. cbn [ring Word_init]. rewrite Hws.
  unfold py_mod. rewrite bool_decide_eq_false_2 by lia. cbn [obind].
  pose proof (Z.mod_pos_bound v w Hw) as Hb.
  unfold py_lshift, py_rshift. rewrite !bool_decide_eq_false_2 by lia.
  cbn [obind]. eexists. split; [done|]. split; [done|].
  intros i. rewrite (Word_init_bit w) by done.
  fold (Word_init z R). set (x := value (Word_init z R)).
  case_bool_decide as Hi; [|by rewrite !andb_false_r].
  rewrite !andb_true_r. rewrite Z.lor_spec.
  rewrite Z.shiftl_spec, Z.shiftr_spec by lia.
  assert (∀ j, Z.testbit x j
               = Z.testbit z j && bool_decide (0 ≤ j < w)%Z) as Hx.
  { intros j. unfold x. by apply Word_init_bit. }
  set (k := (v `mod` w)%Z) in *.
  assert ((i - v) `mod` w = (i - k) `mod` w)%Z as ->.
  { unfold k. by rewrite Zminus_mod_idemp_r. }
  destruct (decide (k ≤ i)%Z) as [Hk|Hk].
  - rewrite (Hx (i + (w - k))%Z).
    rewrite (bool_decide_eq_false_2 (0 ≤ i + (w - k) < w)%Z) by lia.
    rewrite andb_false_r, orb_false_r.
    by rewrite Z.mod_small by lia.
  - rewrite (Z.testbit_neg_r x (i - k)) by lia. simpl.
    f_equal. apply Z.mod_unique_pos with (q := (-1)%Z); lia.
Qed.

Lemma Word_ror_bit w R z v :
  BitwiseRing_init w = Ok R →
  ∃ r, Word_ror (Word_init z R) v = Returns r ∧ ring r = R
    ∧ ∀ i, Z.testbit (value r) i
           = Z.testbit (value (Word_init z R)) ((i + v) `mod` w)
             && bool_decide (0 ≤ i < w)%Z.
Proof.
  intros HR. pose proof (mask_ones _ _ HR) as (Hw & Hws & Hm).
  unfold Word_ror. cbn [ring Word_init]. rewrite Hws.
  unfold py_mod. rewrite bool_decide_eq_false_2 by lia. cbn [obind].
  pose proof (Z.mod_pos_bound v w Hw) as Hb.
  unfold py_lshift, py_rshift. rewrite !bool_decide_eq_false_2 by lia.
  cbn [obind]. eexists. split; [done|]. split; [done|].
  intros i. rewrite (Word_init_bit w) by done.
  fold (Word_init z R). set (x := value (Word_init z R)).
  case_bool_decide as Hi; [|by rewrite !andb_false_r].
  rewrite !andb_true_r. rewrite Z.lor_spec.
  rewrite Z.shiftl_spec, Z.shiftr_spec by lia.
  assert (∀ j, Z.testbit x j
               = Z.testbit z j && bool_decide (0 ≤ j < w)%Z) as Hx.
  { intros j. unfold x. by apply Word_init_bit. }
  set (k := (v `mod` w)%Z) in *.
  assert ((i + v) `mod` w = (i + k) `mod` w)%Z as ->.
  { unfold k. by rewrite Zplus_mod_idemp_r. }
  destruct (decide (i + k < w)%Z) as [Hk|Hk].
  - rewrite (Z.testbit_neg_r x (i - (w - k))) by lia.
    rewrite orb_false_r. by rewrite Z.mod_small by lia.
  - rewrite (Hx (i + k)%Z).
    rewrite (bool_decide_eq_false_2 (0 ≤ i + k < w)%Z) by lia.
    rewrite andb_false_r. simpl.
    f_equal. apply Z.mod_unique_pos with (q := 1%Z); lia.
Qed.

Lemma Word_eq (a b : Word) :
  ring a = ring b → (∀ i, (0 ≤ i)%Z → Z.testbit (value a) i = Z.testbit (value b) i) →
  a = b.
Proof.
  destruct a, b. simpl. intros -> Hb. f_equal. by apply Z.bits_inj'.
Qed.

(** A word whose value is in the range of its ring. *)
Lemma Word_init_fixed w R z :
  BitwiseRing_init w = Ok R →
  Word_init (value (Word_init z R)) R = Word_init z R.
Proof.
  intros HR. apply Word_eq; [done|]. intros i Hi.
  rewrite !(Word_init_bit w) by done. by destruct (Z.testbit z i), (bool_decide _).
Qed.

(** X7.  In a ring of [w] bits, [rol(v)] of a word moves bit [i] to bit
    [(i + v) mod w] for every int [v], negative and beyond [w] included, the
    result is a word of the ring, and [ror(v)] undoes it. *)
Theorem Word_rol_ror w R z v :
  BitwiseRing_init w = Ok R →
  ∃ r, Word_rol (Word_init z R) v = Returns r
    ∧ (0 ≤ value r < 2 ^ w)%Z
    ∧ (∀ i, (0 ≤ i < w)%Z →
         Z.testbit (value r) ((i + v) `mod` w)
         = Z.testbit (value (Word_init z R)) i)
    ∧ Word_ror r v = Returns (Word_init z R).
Proof.
  intros HR. pose proof (mask_ones _ _ HR) as (Hw & Hws & Hm).
  destruct (Word_rol_bit w R z v HR) as (r & Hr & Hring & Hbits).
  exists r. split; [done|].
  assert (r = Word_init (value r) R) as Er.
  { apply Word_eq; [done|]. intros i Hi. rewrite (Word_init_bit w) by done.
    rewrite Hbits. by destruct (Z.testbit _ _), (bool_decide _). }
  split; [|split].
  - rewrite Er, (Word_init_value w) by done.
    apply Z.mod_pos_bound. lia.
  - intros i Hi. rewrite Hbits.
    pose proof (Z.mod_pos_bound (i + v) w Hw).
    rewrite bool_decide_eq_true_2 by lia. rewrite andb_true_r.
    f_equal. rewrite Zminus_mod_idemp_l.
    replace (i + v - v)%Z with i by lia. apply Z.mod_small. lia.
  - rewrite Er.
    destruct (Word_ror_bit w R (value r) v HR) as (r' & Hr' & Hring' & Hbits').
    rewrite Hr'. f_equal. apply Word_eq; [done|]. intros i Hi.
    rewrite Hbits'. rewrite <- Er. rewrite Hbits.
    rewrite (Word_init_bit w _ z i) by done.
    pose proof (Z.mod_pos_bound (i + v) w Hw).
    rewrite (bool_decide_eq_true_2 (0 ≤ (i + v) `mod` w < w)%Z) by lia.
    rewrite andb_true_r.
    destruct (decide (0 ≤ i < w)%Z) as [Hiw|Hiw].
    + rewrite Zminus_mod_idemp_l.
      replace (i + v - v)%Z with i by lia.
      rewrite Z.mod_small by lia.
      rewrite (Word_init_bit w) by done.
      by destruct (Z.testbit z i), (bool_decide _).
    + rewrite (bool_decide_eq_false_2 (0 ≤ i < w)%Z) by done.
      by rewrite !andb_false_r.
Qed.

Lemma Word_rol_ror_witness :
  BitwiseRing_init 8 = Ok (mkBitwiseRing 8 255)
  ∧ ∃ r, Word_rol (Word_init 129 (mkBitwiseRing 8 255)) (-7) = Returns r
      ∧ Word_ror r (-7) = Returns (Word_init 129 (mkBitwiseRing 8 255)).
Proof.
  split; [reflexivity|].
  destruct (Word_rol_ror 8 (mkBitwiseRing 8 255) 129 (-7) eq_refl)
    as (r & H1 & _ & _ & H2).
  by exists r.
Defined.

(** X8.  The arithmetic of words is the arithmetic of the integers modulo
    [2^w]: sums, differences, products and opposites are reduced into the
    range of the ring of the left operand, whatever the ring of the right
    one; so subtracting what was added, negating twice and inverting twice
    give the word back. *)
Theorem Word_arithmetic w R z (b : Word) :
  BitwiseRing_init w = Ok R →
  let a := Word_init z R in
  value (Word_add a b) = ((value a + value b) `mod` 2 ^ w)%Z
  ∧ value (Word_sub a b) = ((value a - value b) `mod` 2 ^ w)%Z
  ∧ value (Word_mul a b) = ((value a * value b) `mod` 2 ^ w)%Z
  ∧ Word_sub (Word_add a b) b = a
  ∧ Word_add (Word_sub a b) b = a
  ∧ Word_neg (Word_neg a) = a
  ∧ Word_invert (Word_invert a) = a
  ∧ Word_xor (Word_xor a b) b = a.
Proof.
  intros HR a. pose proof (mask_ones _ _ HR) as (Hw & Hws & Hm).
  assert (∀ x, Z.land x (mask R) = x `mod` 2 ^ w)%Z as Hland.
  { intros x. rewrite Hm. apply Z.land_ones. lia. }
  assert (value a = value a `mod` 2 ^ w)%Z as Ha.
  { unfold a. simpl. rewrite Hland. by rewrite Z.mod_mod by lia. }
  assert (0 < 2 ^ w)%Z as Hpow by lia.
  assert (∀ x, x `mod` 2 ^ w = value a → Word_init x R = a)%Z as Hback.
  { intros x Hx. unfold Word_init at 1. rewrite Hland, Hx.
    unfold a, Word_init. done. }
  unfold Word_add, Word_sub, Word_mul, Word_neg, Word_invert, Word_xor.
  cbn [ring value Word_init]. fold a.
  assert (ring a = R) as -> by done.
  rewrite !Hland. split_and!; try done.
  - apply Hback. rewrite Zminus_mod_idemp_l.
    replace (value a + value b - value b)%Z with (value a) by lia.
    by rewrite <- Ha.
  - apply Hback. rewrite Zplus_mod_idemp_l.
    replace (value a - value b + value b)%Z with (value a) by lia.
    by rewrite <- Ha.
  - apply Hback.
    rewrite <- (Z.sub_0_l (Z.modulo (Z.opp (value a)) (2 ^ w))).
    rewrite Zminus_mod_idemp_r. rewrite Z.sub_0_l, Z.opp_involutive.
    by rewrite <- Ha.
  - apply Hback. rewrite <- !Hland.
    apply Z.bits_inj'. intros i Hi.
    rewrite !Z.land_spec, !Z.lnot_spec, !Z.land_spec, !Z.lnot_spec by lia.
    unfold a. simpl. rewrite Z.land_spec.
    by destruct (Z.testbit z i), (Z.testbit (mask R) i).
  - apply Hback. rewrite <- !Hland.
    apply Z.bits_inj'. intros i Hi.
    rewrite !Z.land_spec, !Z.lxor_spec, !Z.land_spec, !Z.lxor_spec.
    unfold a. simpl. rewrite Z.land_spec.
    by destruct (Z.testbit z i), (Z.testbit (mask R) i),
                (Z.testbit (value b) i).
Qed.

Lemma Word_arithmetic_witness :
  BitwiseRing_init 8 = Ok (mkBitwiseRing 8 255)
  ∧ Word_sub (Word_add (Word_init 200 (mkBitwiseRing 8 255))
                       (mkWord 100 (mkBitwiseRing 16 65535)))
             (mkWord 100 (mkBitwiseRing 16 65535))
    = Word_init 200 (mkBitwiseRing 8 255).
Proof.
  split; [reflexivity|].
  pose proof (Word_arithmetic 8 (mkBitwiseRing 8 255) 200
                (mkWord 100 (mkBitwiseRing 16 65535)) eq_refl) as H.
  simpl in H. apply H.
Defined.

Section loops.
Context {S : Type}.

(** A property of the visited prefix that every round of a loop keeps holds
    for the whole list when the loop returns. *)
Lemma mfor_inv {A} (f : A → ST S unit) (P : list A → S → Prop) l s s' :
  P [] s →
  (∀ pre x post s1 s2, l = pre ++ x :: post →
     P pre s1 → f x s1 = (s2, Ok tt) → P (pre ++ [x]) s2) →
  mfor l f s = (s', Ok tt) → P l s'.
Proof.
  intros H0 Hstep.
  assert (∀ post pre s1, l = pre ++ post → P pre s1 →
            mfor post f s1 = (s', Ok tt) → P l s') as Hgen.
  { induction post as [|x post IH]; intros pre s1 El HP; simpl.
    - intros [= <-]. by rewrite El, app_nil_r.
    - intros H. apply bind_Ok in H as ([] & s2 & Hx & Hrest).
      apply (IH (pre ++ [x]) s2); [by rewrite <- app_assoc| |done].
      by apply (Hstep pre x post s1 s2). }
  by apply (Hgen l [] s).
Qed.

End loops.

Section serializer_facts.
Context {V : Type} `{!PyValue V}.
Variable o : Options.
Variable c : Circuit (V:=V).

#[local] Instance same_cells_refl : Reflexive same_cells.
Proof. by intros s. Qed.
#[local] Instance same_cells_trans : Transitive same_cells.
Proof. unfold same_cells. intros s1 s2 s3 (?&?&?) (?&?&?). split_and!; congruence. Qed.

#[local] Instance same_code_refl : Reflexive same_code.
Proof. by intros s. Qed.
#[local] Instance same_code_trans : Transitive same_code.
Proof. unfold same_code. intros s1 s2 s3 ? ?. congruence. Qed.

#[local] Instance same_free_refl : Reflexive same_free.
Proof. by intros s. Qed.
#[local] Instance same_free_trans : Transitive same_free.
Proof. unfold same_free. intros s1 s2 s3 ? ?. congruence. Qed.

Ltac keeps_tac :=
  repeat first
    [ apply keeps_ret; tc_solve | apply keeps_raise; tc_solve
    | apply keeps_lift; tc_solve | apply keeps_get; tc_solve
    | apply keeps_modify; intros ?; done
    | apply keeps_bind; [tc_solve| |intros ?]
    | apply keeps_mfor; [tc_solve..|intros ?]
    | match goal with
      | |- keeps _ (if ?b then _ else _) => destruct b
      | |- keeps _ (match ?x with _ => _ end) => destruct x
      end ].

(** [alloc] takes the last free cell, or a new one when none is free. *)
Lemma alloc_unfold bit s :
  let cell := default (ram_size s) (last (free s)) in
  alloc bit s
  = (mkSerializer (removelast (free s)) (<[bit := cell]> (bit_id s))
       (if bool_decide (free s = []) then S (ram_size s) else ram_size s)
       (code s) (n_used s) (result_of s), Ok tt).
Proof.
  unfold alloc, bind, modify, get, lift.
  destruct (free s) as [|x l] eqn:Hfree; simpl.
  - done.
  - rewrite Hfree. unfold list_pop.
    destruct (last (x :: l)) as [y|] eqn:Hlast; [done|].
    by apply last_None in Hlast.
Qed.

Lemma FORMATS_Ok w w' : FORMATS w = Ok w' → w' = w.
Proof. unfold FORMATS. case_bool_decide; by intros [= <-]. Qed.

Lemma pack_length w args bs :
  pack o w args = Ok bs → length bs = w * length args.
Proof.
  unfold pack. destruct (rmap (pack_int o w) args) as [bss|] eqn:Hb;
    cbn [rbind]; [|done]. intros [= <-].
  revert bss Hb. induction args as [|z args IH]; intros bss; simpl.
  - intros [= <-]. simpl. lia.
  - destruct (pack_int o w z) as [b|] eqn:Hz; cbn [rbind]; [|done].
    destruct (rmap (pack_int o w) args) as [bs'|]; cbn [rbind]; [|done].
    intros [= <-]. simpl. rewrite length_app, (IH bs' eq_refl).
    unfold pack_int in Hz. case_bool_decide; [|done]. injection Hz as <-.
    assert (∀ w z, length (le_bytes w z) = w) as Hle.
    { clear. induction w as [|w IH]; intros z; simpl; [done|]. by rewrite IH. }
    destruct (little o); rewrite ?length_rev, Hle; lia.
Qed.

(** What [serialize_bit] appends when it returns. *)
Lemma serialize_bit_Ok (bit : Node (V:=V)) s s' :
  serialize_bit o bit s = (s', Ok tt) →
  ∃ opc b_op b_dst b_src,
    opmap (opname_str (_name (operation bit))) = Ok opc
    ∧ pack o (bytes_op o) [opc] = Ok b_op
    ∧ (∃ dst, bit_id s !! id bit = Some dst
              ∧ pack o (bytes_addr o) [Z.of_nat dst] = Ok b_dst)
    ∧ (∃ srcs, rmap (bit_id_get s) (incoming bit) = Ok srcs
               ∧ pack o (bytes_addr o) srcs = Ok b_src)
    ∧ s' = mkSerializer (free s) (bit_id s) (ram_size s)
             (code s ++ [b_op ++ b_dst ++ b_src]) (n_used s) (result_of s).
Proof.
  unfold serialize_bit. intros H.
  apply bind_Ok in H as (s0 & s1 & Hg & H). injection Hg as <- <-.
  apply bind_Ok in H as (opc & s1 & Hopc & H).
  unfold lift in Hopc. injection Hopc as <- Hopc.
  apply bind_Ok in H as (fo & s1 & Hfo & H).
  unfold lift in Hfo. injection Hfo as <- Hfo. apply FORMATS_Ok in Hfo as ->.
  apply bind_Ok in H as (fa & s1 & Hfa & H).
  unfold lift in Hfa. injection Hfa as <- Hfa. apply FORMATS_Ok in Hfa as ->.
  apply bind_Ok in H as (b_op & s1 & Hbop & H).
  unfold lift in Hbop. injection Hbop as <- Hbop.
  apply bind_Ok in H as (dst & s1 & Hdst & H).
  unfold lift in Hdst. injection Hdst as <- Hdst.
  apply bind_Ok in H as (b_dst & s1 & Hbdst & H).
  unfold lift in Hbdst. injection Hbdst as <- Hbdst.
  apply bind_Ok in H as (b_src & s1 & Hbsrc & H).
  unfold modify in H. injection H as <-.
  exists opc, b_op, b_dst, b_src. split_and!; try done.
  - unfold bit_id_get in Hdst.
    destruct (bit_id s !! id bit) as [d|]; [|done]. injection Hdst as <-.
    by exists d.
  - case_bool_decide as Hinc.
    + apply bind_Ok in Hbsrc as (srcs & s2 & Hs & Hp).
      unfold lift in *. injection Hs as <- Hs. injection Hp as <- Hp.
      by exists srcs.
    + injection Hbsrc as <- <-. rewrite Hinc.
      by exists [].
  - case_bool_decide as Hinc.
    + apply bind_Ok in Hbsrc as (srcs & s2 & Hs & Hp).
      unfold lift in *. injection Hs as <- Hs. by injection Hp as <- Hp.
    + by injection Hbsrc as <- <-.
Qed.

Lemma opmap_gate name opc : opmap (opname_str name) = Ok opc → gate name.
Proof.
  unfold gate. destruct name; vm_compute; try done; intros _;
    repeat (first [left; done | right]).
Qed.

(** A visit that returns. *)
Lemma Serializer_visit_Ok nd s s' :
  Serializer_visit o c nd s = (s', Ok tt) →
  let sa := exec (alloc (id nd)) s in
  Forall (λ p, is_Some (result_of s !! p)) (incoming nd)
  ∧ result_of s' = <[id nd := tt]> (result_of s)
  ∧ bit_id s' = bit_id sa ∧ ram_size s' = ram_size sa
  ∧ (reuse_memory o = false → free s' = free sa)
  ∧ ((_name (operation nd) = INPUT ∧ incoming nd = []
      ∧ code s' = code s ∧ free s' = free sa)
     ∨ (gate (_name (operation nd))
        ∧ ∃ instr, code s' = code s ++ [instr] ∧ instruction_of o nd instr)).
Proof.
  intros H sa. unfold Serializer_visit in H.
  apply bind_Ok in H as (s0 & s1 & Hg & H). injection Hg as <- <-.
  apply bind_Ok in H as (rs & s1 & Hl & H).
  unfold lift in Hl. injection Hl as <- Hl.
  apply bind_Ok in H as ([] & s3 & Hv & Hm).
  unfold modify in Hm. injection Hm as <-. cbn.
  assert (Forall (λ p, is_Some (result_of s !! p)) (incoming nd)) as Hpar.
  { clear -Hl. revert rs Hl. induction (incoming nd) as [|p l IH]; intros rs; simpl;
      [constructor|].
    unfold dict_get at 1. destruct (result_of s !! p) eqn:Hp; cbn [rbind]; [|done].
    destruct (rmap (dict_get (result_of s)) l) eqn:Hr; cbn [rbind]; [|done].
    intros _. constructor; [by eexists|]. by eapply IH. }
  pose proof (alloc_unfold (id nd) s) as Ha. simpl in Ha.
  assert (sa = (alloc (id nd) s).1) as Esa by done.
  rewrite Ha in Esa. simpl in Esa.
  assert (∀ s3, Serializer_visit_generic o c nd s = (s3, Ok tt) →
            bit_id s3 = bit_id sa ∧ ram_size s3 = ram_size sa
            ∧ result_of s3 = result_of s
            ∧ (reuse_memory o = false → free s3 = free sa)
            ∧ gate (_name (operation nd))
            ∧ ∃ instr, code s3 = code s ++ [instr] ∧ instruction_of o nd instr)
    as Hgen.
  { clear Hv s3. intros s3 Hv. unfold Serializer_visit_generic in Hv.
    rewrite (bind_run _ _ _ _ _ Ha) in Hv.
    apply bind_Ok in Hv as ([] & sb & Hbit & Hrel).
    apply serialize_bit_Ok in Hbit
      as (opc & b_op & b_dst & b_src & Hopc & Hbop & (dst & Hdst & Hbdst)
          & (srcs & Hsrcs & Hbsrc) & ->).
    match type of Hrel with
    | ?m _ = _ =>
        assert (keeps same_cells m) as K1 by (unfold on_free; keeps_tac);
        assert (keeps same_code m) as K2 by (unfold on_free; keeps_tac);
        assert (reuse_memory o = false → keeps same_free m) as K3
          by (intros Hreuse; unfold on_free; rewrite Hreuse; keeps_tac)
    end.
    pose proof (K1 _ _ _ Hrel) as (Hb & Hr & Hres).
    pose proof (K2 _ _ _ Hrel) as Hcode.
    unfold same_code in Hcode. simpl in *.
    rewrite Esa. simpl. split_and!; try done.
    - intros Hreuse. by apply (K3 Hreuse _ _ _ Hrel).
    - by eapply opmap_gate.
    - eexists. split; [done|]. exists opc, b_op, (b_dst ++ b_src).
      split_and!; try done.
      apply pack_length in Hbop, Hbdst, Hbsrc. apply rmap_length in Hsrcs.
      rewrite !length_app, Hbop, Hbdst, Hbsrc, Hsrcs. simpl. lia. }
  destruct (_name (operation nd)) eqn:Hname;
    try (destruct (Hgen _ Hv) as (?&?&?&?&?&?);
         split_and!; [done|by f_equal|done|done|done|by right]).
  - destruct (incoming nd) eqn:Hinc; [|done].
    unfold Serializer_visit_INPUT in Hv. rewrite Ha in Hv.
    injection Hv as <-. rewrite Esa. simpl.
    split_and!; try done. left. done.
  - done.
Qed.

Ltac rbind_Ok :=
  match goal with
  | |- rbind ?x _ = Ok _ → _ =>
      destruct x eqn:?; cbn [rbind]; [|intros; discriminate]
  end.

Lemma rmap_dict_get_Some {A} (d : gmap nat A) l rs :
  rmap (dict_get d) l = Ok rs → Forall (λ p, is_Some (d !! p)) l.
Proof.
  revert rs. induction l as [|p l IH]; intros rs; simpl; [constructor|].
  unfold dict_get at 1. destruct (d !! p) eqn:Hp; cbn [rbind]; [|done].
  destruct (rmap (dict_get d) l) eqn:Hr; cbn [rbind]; [|done].
  intros _. constructor; [by eexists|]. by eapply IH.
Qed.

(** The parts of a run that returns. *)
Lemma serialize_Ok out :
  serialize o c = Ok out →
  ∃ s, mfor (nodes c) (Serializer_visit o c) Serializer_init = (s, Ok tt)
    ∧ Forall (λ y, is_Some (result_of s !! y)) (outputs c)
    ∧ info out = [Z.of_nat (length (inputs c));
                  Z.of_nat (length (outputs c));
                  Z.of_nat (length (code s));
                  Z.of_nat (sum_list (length <$> code s));
                  Z.of_nat (ram_size s)]
    ∧ code_out out = code s
    ∧ rmap (bit_id_get s) (inputs c) = Ok (input_addr out)
    ∧ rmap (bit_id_get s) (outputs c) = Ok (output_addr out)
    ∧ ∃ h_info h_in h_out,
        header out = [h_info; h_in; h_out]
        ∧ pack o 8 (info out) = Ok h_info
        ∧ pack o (bytes_addr o) (input_addr out) = Ok h_in
        ∧ pack o (bytes_addr o) (output_addr out) = Ok h_out.
Proof.
  unfold serialize. do 4 rbind_Ok.
  unfold Serializer_visit_all.
  destruct (mfor (nodes c) (Serializer_visit o c) Serializer_init)
    as [s [[]|e]] eqn:Hrun; cbn [rbind snd fst]; [|intros; discriminate].
  rbind_Ok. unfold after_transform.
  destruct (rmap (bit_id_get s) (inputs c)) as [ia|] eqn:Hia;
    cbn [rbind]; [|intros; discriminate].
  destruct (rmap (bit_id_get s) (outputs c)) as [oa|] eqn:Hoa;
    cbn [rbind]; [|intros; discriminate].
  unfold assert.
  case_bool_decide as Hin; cbn [rbind]; [|intros; discriminate].
  case_bool_decide as Hout; cbn [rbind]; [|intros; discriminate].
  destruct (FORMATS (bytes_addr o)) as [fa|] eqn:Hfa; cbn [rbind];
    [|intros; discriminate].
  apply FORMATS_Ok in Hfa as ->.
  do 3 rbind_Ok.
  intros [= <-]. cbn. exists s. split_and!; try done.
  - by eapply rmap_dict_get_Some.
  - by eexists _, _, _.
Qed.

End serializer_facts.

(** X9.  The raw serializer returns only for circuits it can encode: every
    node is an [INPUT] without parents or an [XOR], [AND], [OR] or [NOT]
    node, the parents of every node come before it in the node list, every
    output is a node of the circuit, and no node is listed twice among the
    inputs or among the outputs. *)
Theorem serialize_accepts {V} `{!PyValue V} (o : Options)
    (c : Circuit (V:=V)) out :
  serialize o c = Ok out →
  (∀ k nd, nodes c !! k = Some nd →
     (_name (operation nd) = INPUT ∧ incoming nd = []
      ∨ gate (_name (operation nd)))
     ∧ ∀ p, p ∈ incoming nd → p ∈ id <$> take k (nodes c))
  ∧ (∀ y, y ∈ outputs c → y ∈ id <$> nodes c)
  ∧ NoDup (inputs c) ∧ NoDup (outputs c).
Proof.
  intros Hser.
  destruct (serialize_Ok o c out Hser) as (s & Hrun & Hout & _).
  pose (P := λ (pre : list (Node (V:=V))) (s : Serializer),
          (∀ p, is_Some (result_of s !! p) ↔ p ∈ id <$> pre)
          ∧ ∀ k nd, pre !! k = Some nd →
              (_name (operation nd) = INPUT ∧ incoming nd = []
               ∨ gate (_name (operation nd)))
              ∧ ∀ p, p ∈ incoming nd → p ∈ id <$> take k pre).
  assert (P (nodes c) s) as [Hdom Hnodes].
  { apply (mfor_inv (Serializer_visit o c) P (nodes c) Serializer_init s);
      [| |done].
    - split.
      + intros p. simpl. rewrite lookup_empty. split; [by intros []|].
        by intros ?%elem_of_nil.
      + intros k nd Hk. done.
    - intros pre nd post s1 s2 _ [Hd Hn] Hv.
      apply Serializer_visit_Ok in Hv as (Hpar & Hres & _ & _ & _ & Hcase).
      split.
      + intros p. rewrite Hres, fmap_app, elem_of_app. simpl.
        rewrite list_elem_of_singleton.
        destruct (decide (p = id nd)) as [->|Hne].
        * rewrite lookup_insert_eq. split; [by right|by eexists].
        * rewrite lookup_insert_ne by done. rewrite Hd. naive_solver.
      + intros k nd' Hk.
        destruct (decide (k < length pre)) as [Hlt|Hge].
        * rewrite lookup_app_l in Hk by done.
          destruct (Hn k nd' Hk) as [Hname Hinc]. split; [done|].
          intros p Hp. rewrite take_app_le by lia. by apply Hinc.
        * rewrite lookup_app_r in Hk by lia.
          destruct (k - length pre) as [|j] eqn:Ej; [|by destruct j].
          injection Hk as <-.
          assert (k = length pre) as -> by lia.
          split.
          -- destruct Hcase as [(?&?&_)|[? _]]; [by left|by right].
          -- intros p Hp. rewrite take_app_length. apply Hd.
             by apply (proj1 (Forall_forall _ _) Hpar). }
  destruct (serialize_cells o c out Hser) as (Hli & Hni & Hlo & Hno).
  destruct (serialize_Ok o c out Hser)
    as (s' & _ & _ & _ & _ & Hia & Hoa & _).
  assert (∀ (f : nat → result Z) l l',
            rmap f l = Ok l' → NoDup l' → NoDup l) as Hinj.
  { clear. intros f l. induction l as [|x l IH]; intros l'; simpl;
      [constructor|].
    destruct (f x) as [y|] eqn:Hx; cbn [rbind]; [|done].
    destruct (rmap f l) as [ys|] eqn:Hl; cbn [rbind]; [|done].
    intros [= <-] [Hny Hnd]%NoDup_cons. constructor; [|by eapply IH].
    intros Hin. apply Hny. clear -Hl Hin Hx.
    revert ys Hl. induction l as [|z l IH]; intros ys; simpl;
      [by apply elem_of_nil in Hin|].
    destruct (f z) as [y'|] eqn:Hz; cbn [rbind]; [|done].
    destruct (rmap f l) as [ys'|] eqn:Hl'; cbn [rbind]; [|done].
    intros [= <-]. apply elem_of_cons in Hin as [->|Hin].
    - rewrite Hx in Hz. injection Hz as <-. left.
    - right. by eapply IH. }
  split_and!.
  - done.
  - intros y Hy. apply Hdom. by apply (proj1 (Forall_forall _ _) Hout).
  - by eapply Hinj.
  - by eapply Hinj.
Qed.

(** X9, witness: [and_xor_circuit]. *)
Lemma serialize_accepts_witness :
  ∃ out, serialize default_options and_xor_circuit = Ok out
         ∧ NoDup (inputs and_xor_circuit)
         ∧ NoDup (outputs and_xor_circuit).
Proof.
  destruct (serialize default_options and_xor_circuit) as [out|] eqn:Hs;
    [|vm_compute in Hs; discriminate].
  exists out. split; [reflexivity|].
  destruct (serialize_accepts default_options and_xor_circuit out Hs)
    as (_ & _ & H1 & H2).
  by split.
Defined.

(** X10.  When the raw serializer returns, the code holds one instruction
    for every node that is not an input, in node order; an instruction
    starts with the packed opcode of the operation and has
    [bytes_op + bytes_addr * (1 + parents)] bytes.  The header is 40 bytes of
    counters, the number of instructions and their total size among them,
    followed by [bytes_addr] bytes for every input and for every output. *)
Theorem serialize_code_layout {V} `{!PyValue V} (o : Options)
    (c : Circuit (V:=V)) out :
  serialize o c = Ok out →
  let gates := filter not_INPUT (nodes c) in
  Forall2 (instruction_of o) gates (code_out out)
  ∧ take 4 (info out)
    = [Z.of_nat (length (inputs c)); Z.of_nat (length (outputs c));
       Z.of_nat (length gates);
       Z.of_nat (sum_list (instruction_size o <$> gates))]
  ∧ length <$> header out
    = [40; bytes_addr o * length (inputs c);
       bytes_addr o * length (outputs c)].
Proof.
  intros Hser gates.
  destruct (serialize_Ok o c out Hser)
    as (s & Hrun & _ & Hinfo & Hcode & Hia & Hoa
        & h1 & h2 & h3 & Hhdr & Hp1 & Hp2 & Hp3).
  assert (Forall2 (instruction_of o) gates (code s)) as Hall.
  { apply (mfor_inv (Serializer_visit o c)
             (λ pre s, Forall2 (instruction_of o) (filter not_INPUT pre)
                               (code s))
             (nodes c) Serializer_init s); [by constructor| |done].
    intros pre nd post s1 s2 _ HP Hv.
    apply Serializer_visit_Ok in Hv as (_ & _ & _ & _ & _ & Hcase).
    rewrite filter_app.
    destruct Hcase as [(Hname & _ & -> & _)|[Hgate (instr & -> & Hinstr)]].
    - rewrite filter_cons_False by (unfold not_INPUT; naive_solver).
      by rewrite filter_nil, app_nil_r.
    - rewrite filter_cons_True.
      2:{ unfold not_INPUT. intros E. rewrite E in Hgate.
          unfold gate in Hgate. set_solver. }
      rewrite filter_nil. apply Forall2_app; [done|]. by repeat constructor. }
  rewrite Hcode. split; [done|].
  pose proof (Forall2_length _ _ _ Hall) as Hlen.
  assert (sum_list (length <$> code s)
          = sum_list (instruction_size o <$> gates)) as Hsum.
  { clear -Hall. induction Hall as [|nd instr l l' H1 _ IH]; [done|].
    rewrite !fmap_cons. cbn [sum_list_with]. rewrite IH.
    destruct H1 as (?&?&?&_&_&_&->). done. }
  split.
  - rewrite Hinfo. cbn [take]. by rewrite Hlen, Hsum.
  - rewrite Hhdr. simpl.
    apply pack_length in Hp1, Hp2, Hp3. apply rmap_length in Hia, Hoa.
    rewrite Hp1, Hp2, Hp3, Hia, Hoa, Hinfo. done.
Qed.

(** X10, witness: [and_xor_circuit] gives two instructions of 7 bytes. *)
Lemma serialize_code_layout_witness :
  ∃ out, serialize default_options and_xor_circuit = Ok out
         ∧ take 4 (info out) = [3; 1; 2; 14]%Z
         ∧ length <$> header out = [40; 6; 2].
Proof.
  destruct (serialize default_options and_xor_circuit) as [out|] eqn:Hs;
    [|vm_compute in Hs; discriminate].
  exists out. split; [reflexivity|].
  destruct (serialize_code_layout default_options and_xor_circuit out Hs)
    as (_ & H1 & H2).
  split; [exact H1|exact H2].
Defined.

(** X11.  The memory the raw serializer reports never exceeds the number of
    nodes, and with [reuse_memory] off it is exactly the number of nodes:
    every node gets a cell of its own. *)
Theorem serialize_ram_bound {V} `{!PyValue V} (o : Options)
    (c : Circuit (V:=V)) out :
  serialize o c = Ok out →
  ∃ ram, info out !! 4 = Some (Z.of_nat ram)
    ∧ ram ≤ length (nodes c)
    ∧ (reuse_memory o = false → ram = length (nodes c)).
Proof.
  intros Hser.
  destruct (serialize_Ok o c out Hser) as (s & Hrun & _ & Hinfo & _).
  exists (ram_size s). split; [by rewrite Hinfo|].
  assert (ram_size s ≤ length (nodes c)
          ∧ (reuse_memory o = false →
             free s = [] ∧ ram_size s = length (nodes c))) as [H1 H2].
  { apply (mfor_inv (Serializer_visit o c)
             (λ (pre : list (Node (V:=V))) s,
                ram_size s ≤ length pre
                ∧ (reuse_memory o = false →
                   free s = [] ∧ ram_size s = length pre))
             (nodes c) Serializer_init s); [by split| |done].
    intros pre nd post s1 s2 _ [Hle Heq] Hv.
    apply Serializer_visit_Ok in Hv as (_ & _ & _ & Hram & Hfree & _).
    unfold exec in *. rewrite alloc_unfold in *. simpl in *.
    rewrite length_app. simpl. split.
    - rewrite Hram. case_bool_decide; lia.
    - intros Hreuse. destruct (Heq Hreuse) as [Hf Hr].
      rewrite Hfree, Hram by done. rewrite Hf. simpl.
      split; [done|]. lia. }
  split; [done|]. intros Hreuse. by apply H2.
Qed.

(** X11, witness: [and_xor_circuit] needs 4 cells with reuse and 5, one per
    node, without. *)
Lemma serialize_ram_bound_witness :
  ∃ out, serialize (mkOptions 1 1 1 2 true false) and_xor_circuit = Ok out
         ∧ info out !! 4 = Some 5%Z.
Proof.
  destruct (serialize (mkOptions 1 1 1 2 true false) and_xor_circuit)
    as [out|] eqn:Hs; [|vm_compute in Hs; discriminate].
  exists out. split; [reflexivity|].
  destruct (serialize_ram_bound _ and_xor_circuit out Hs)
    as (ram & H1 & _ & H2).
  rewrite H1, H2 by reflexivity. reflexivity.
Defined.

Lemma rmap_lookup {A B} (f : A → result B) l l' j x :
  rmap f l = Ok l' → l !! j = Some x →
  ∃ y, l' !! j = Some y ∧ f x = Ok y.
Proof.
  revert l' j. induction l as [|a l IH]; intros l' j; simpl; [done|].
  destruct (f a) as [b|] eqn:Ha; cbn [rbind]; [|done].
  destruct (rmap f l) as [bs|] eqn:Hl; cbn [rbind]; [|done].
  intros [= <-]. destruct j as [|j]; simpl.
  - intros [= <-]. eauto.
  - by apply IH.
Qed.

(** X12.  When the inputs are the first nodes of the node list, in the order
    of [inputs], the raw serializer gives input [j] the cell [j]: the cell
    of an input is never handed to another input, although it may be
    reused by later nodes. *)
Theorem serialize_input_cells {V} `{!PyValue V} (o : Options)
    (c : Circuit (V:=V)) out ins rest :
  serialize o c = Ok out →
  NoDup (id <$> nodes c) →
  nodes c = ins ++ rest →
  inputs c = id <$> ins →
  Forall (λ nd, _name (operation nd) = INPUT) ins →
  input_addr out = Z.of_nat <$> seq 0 (length (inputs c)).
Proof.
  intros Hser Hnd Hnodes Hins Hinput.
  destruct (serialize_Ok o c out Hser)
    as (s & Hrun & _ & _ & _ & Hia & _).
  set (n := length ins).
  pose (P := λ (pre : list (Node (V:=V))) (s : Serializer),
          (length pre ≤ n → free s = [] ∧ ram_size s = length pre)
          ∧ ∀ k nd, pre !! k = Some nd → k < n →
                    bit_id s !! id nd = Some k).
  assert (P (nodes c) s) as [_ Hcells].
  { apply (mfor_inv (Serializer_visit o c) P (nodes c) Serializer_init s);
      [by split| |done].
    intros pre nd post s1 s2 Epre [Hfree Hcell] Hv.
    apply Serializer_visit_Ok in Hv as (_ & _ & Hbit & Hram & _ & Hcase).
    unfold exec in *. rewrite alloc_unfold in *. simpl in *.
    assert (id nd ∉ id <$> pre) as Hfresh.
    { rewrite Epre, fmap_app, fmap_cons in Hnd.
      apply NoDup_app in Hnd as (_ & Hnd & _).
      intros Hin. apply (Hnd _ Hin). left. }
    split.
    - rewrite length_app. simpl. intros Hle.
      destruct Hfree as [Hf Hr]; [lia|].
      assert (ins !! length pre = Some nd) as Hnth.
      { rewrite Hnodes in Epre.
        assert ((ins ++ rest) !! length pre = Some nd) as Hl.
        { rewrite Epre. by rewrite list_lookup_middle. }
        rewrite lookup_app_l in Hl; [done|]. fold n. lia. }
      assert (_name (operation nd) = INPUT) as Hname.
      { by apply (Forall_lookup_1 _ _ _ _ Hinput Hnth). }
      destruct Hcase as [(_ & _ & _ & Hfree')|[Hgate _]].
      + rewrite Hfree', Hram, Hf. simpl. split; [done|]. lia.
      + rewrite Hname in Hgate. unfold gate in Hgate. set_solver.
    - intros k nd' Hk Hlt. rewrite Hbit.
      destruct (decide (k < length pre)) as [Hkp|Hkp].
      + rewrite lookup_app_l in Hk by done.
        rewrite lookup_insert_ne.
        2:{ intros E. apply Hfresh. rewrite E.
            apply list_elem_of_fmap. exists nd'. split; [done|].
            by eapply list_elem_of_lookup_2. }
        by apply Hcell.
      + rewrite lookup_app_r in Hk by lia.
        destruct (k - length pre) as [|j] eqn:Ej; [|by destruct j].
        injection Hk as <-. rewrite lookup_insert_eq.
        destruct Hfree as [Hf Hr]; [lia|]. rewrite Hf. simpl.
        f_equal. lia. }
  pose proof (rmap_length _ _ _ Hia) as Hlen.
  apply list_eq. intros j.
  rewrite list_lookup_fmap.
  destruct (decide (j < length (inputs c))) as [Hj|Hj].
  - rewrite lookup_seq_lt by done. simpl.
    destruct (lookup_lt_is_Some_2 (inputs c) j Hj) as [i Hi].
    destruct (rmap_lookup _ _ _ _ _ Hia Hi) as (y & Hy & Hget).
    rewrite Hy. f_equal.
    rewrite Hins, list_lookup_fmap in Hi.
    destruct (ins !! j) as [nd|] eqn:Hnd'; [|done]. injection Hi as <-.
    assert (nodes c !! j = Some nd) as Hn.
    { rewrite Hnodes. by apply lookup_app_l_Some. }
    assert (j < n) as Hjn by (by eapply lookup_lt_Some).
    unfold bit_id_get in Hget. rewrite (Hcells j nd Hn Hjn) in Hget.
    by injection Hget as <-.
  - rewrite lookup_ge_None_2 by lia.
    rewrite lookup_ge_None_2; [done|]. rewrite length_seq. lia.
Qed.

(** X12, witness: the three inputs of [and_xor_circuit] get the cells 0, 1
    and 2. *)
Lemma serialize_input_cells_witness :
  ∃ out, serialize default_options and_xor_circuit = Ok out
         ∧ input_addr out = [0; 1; 2]%Z.
Proof.
  destruct (serialize default_options and_xor_circuit) as [out|] eqn:Hs;
    [|vm_compute in Hs; discriminate].
  exists out. split; [reflexivity|].
  apply (serialize_input_cells default_options and_xor_circuit out
           (take 3 (nodes and_xor_circuit)) (drop 3 (nodes and_xor_circuit))
           Hs).
  - apply (bool_decide_unpack _). vm_compute. exact I.
  - by rewrite take_drop.
  - reflexivity.
  - vm_compute. repeat constructor.
Defined.

Lemma byte_of_Z_inj z1 z2 :
  (0 ≤ z1 < 256)%Z → (0 ≤ z2 < 256)%Z →
  byte_of_Z z1 = byte_of_Z z2 → z1 = z2.
Proof.
  intros H1 H2. unfold byte_of_Z.
  destruct (Byte.of_N (Z.to_N z1)) as [b1|] eqn:E1.
  2:{ apply Byte.of_N_None_iff in E1. lia. }
  destruct (Byte.of_N (Z.to_N z2)) as [b2|] eqn:E2.
  2:{ apply Byte.of_N_None_iff in E2. lia. }
  simpl. intros ->. apply Byte.to_of_N in E1, E2. lia.
Qed.

Lemma le_bytes_length w z : length (le_bytes w z) = w.
Proof. revert z. induction w as [|w IH]; intros z; simpl; [done|]. by rewrite IH. Qed.

Lemma le_bytes_inj w z1 z2 :
  (0 ≤ z1 < 2 ^ (8 * Z.of_nat w))%Z → (0 ≤ z2 < 2 ^ (8 * Z.of_nat w))%Z →
  le_bytes w z1 = le_bytes w z2 → z1 = z2.
Proof.
  revert z1 z2. induction w as [|w IH]; intros z1 z2 H1 H2.
  - simpl in *. lia.
  - assert (2 ^ (8 * Z.of_nat (S w)) = 256 * 2 ^ (8 * Z.of_nat w))%Z as E.
    { replace (8 * Z.of_nat (S w))%Z with (8 + 8 * Z.of_nat w)%Z by lia.
      rewrite Z.pow_add_r by lia. done. }
    rewrite E in H1, H2. simpl. intros [= Hb Hrest].
    apply byte_of_Z_inj in Hb; [|by apply Z.mod_pos_bound..].
    apply IH in Hrest.
    + rewrite (Z.div_mod z1 256), (Z.div_mod z2 256) by lia. congruence.
    + split; [apply Z.div_pos; lia|]. apply Z.div_lt_upper_bound; lia.
    + split; [apply Z.div_pos; lia|]. apply Z.div_lt_upper_bound; lia.
Qed.

Lemma pack_int_Ok o w z bs :
  pack_int o w z = Ok bs →
  (0 ≤ z < 2 ^ (8 * Z.of_nat w))%Z ∧ length bs = w
  ∧ bs = if little o then le_bytes w z else rev (le_bytes w z).
Proof.
  unfold pack_int. case_bool_decide; [|done]. intros [= <-].
  split; [done|]. split; [|done].
  destruct (little o); by rewrite ?length_rev, le_bytes_length.
Qed.

Lemma pack_int_inj o w z1 z2 bs :
  pack_int o w z1 = Ok bs → pack_int o w z2 = Ok bs → z1 = z2.
Proof.
  intros (H1 & _ & E1)%pack_int_Ok (H2 & _ & E2)%pack_int_Ok.
  apply (le_bytes_inj w); [done|done|].
  destruct (little o); [congruence|].
  rewrite <- (rev_involutive (le_bytes w z1)),
          <- (rev_involutive (le_bytes w z2)).
  congruence.
Qed.

(** X13.  [pack] returns exactly when every argument fits into [width]
    unsigned bytes, and raises [struct.error] otherwise; the result has
    [width] bytes for every argument, and for a positive width the
    arguments can be read back from it: two argument lists that pack to the
    same bytes are equal. *)
Theorem pack_spec (o : Options) (width : nat) (args : list Z) :
  (if decide (Forall (λ z, 0 ≤ z < 2 ^ (8 * Z.of_nat width))%Z args)
   then ∃ bs, pack o width args = Ok bs
              ∧ length bs = width * length args
   else pack o width args = Raise StructError)
  ∧ ∀ args' bs, 0 < width →
      pack o width args = Ok bs → pack o width args' = Ok bs → args' = args.
Proof.
  split.
  - destruct (decide _) as [Hall|Hnot].
    + assert (∃ bs, pack o width args = Ok bs) as [bs Hbs].
      { unfold pack. induction Hall as [|z l Hz _ IH]; [by eexists|].
        simpl. unfold pack_int at 1. rewrite bool_decide_eq_true_2 by done.
        cbn [rbind]. destruct IH as [bs IH].
        destruct (rmap (pack_int o width) l); [|done]. by eexists. }
      exists bs. split; [done|]. by eapply pack_length.
    + unfold pack. induction args as [|z l IH]; [by destruct Hnot|].
      simpl. unfold pack_int at 1. case_bool_decide as Hz; [|done].
      cbn [rbind].
      destruct (rmap (pack_int o width) l) eqn:Hl; cbn [rbind] in *.
      * exfalso. apply Hnot. constructor; [done|].
        destruct (decide (Forall (λ z, 0 ≤ z < 2 ^ (8 * Z.of_nat width))%Z l))
          as [?|Hn]; [done|]. by specialize (IH Hn).
      * destruct (decide (Forall (λ z, 0 ≤ z < 2 ^ (8 * Z.of_nat width))%Z l))
          as [Hy|Hn].
        -- exfalso. clear -Hy Hl. induction Hy as [|z' l' Hz' _ IH'] in e, Hl |- *;
             [done|].
           simpl in Hl. unfold pack_int at 1 in Hl.
           rewrite bool_decide_eq_true_2 in Hl by done. cbn [rbind] in Hl.
           destruct (rmap (pack_int o width) l') eqn:Hl'; [done|].
           by eapply IH'.
        -- specialize (IH Hn). by injection IH as ->.
  - intros args' bs Hw. unfold pack.
    destruct (rmap (pack_int o width) args) as [bss|] eqn:Hb;
      cbn [rbind]; [|done].
    destruct (rmap (pack_int o width) args') as [bss'|] eqn:Hb';
      cbn [rbind]; [|done].
    intros [= <-] [= Hjoin]. revert args' bss bss' Hb Hb' Hjoin.
    induction args as [|z args IH]; intros [|z' args'] bss bss'; simpl.
    + done.
    + intros [= <-].
      destruct (pack_int o width z') as [b'|] eqn:Hz'; cbn [rbind]; [|done].
      destruct (rmap (pack_int o width) args'); cbn [rbind]; [|done].
      intros [= <-]. simpl. apply pack_int_Ok in Hz' as (_ & Hlen & _).
      intros Hj. apply (f_equal length) in Hj.
      rewrite length_app in Hj. simpl in Hj. lia.
    + destruct (pack_int o width z) as [b|] eqn:Hz; cbn [rbind]; [|done].
      destruct (rmap (pack_int o width) args); cbn [rbind]; [|done].
      intros [= <-] [= <-]. simpl. apply pack_int_Ok in Hz as (_ & Hlen & _).
      intros Hj. apply (f_equal length) in Hj.
      rewrite length_app in Hj. simpl in Hj. lia.
    + destruct (pack_int o width z) as [b|] eqn:Hz; cbn [rbind]; [|done].
      destruct (rmap (pack_int o width) args) as [bs1|] eqn:H1;
        cbn [rbind]; [|done].
      destruct (pack_int o width z') as [b'|] eqn:Hz'; cbn [rbind]; [|done].
      destruct (rmap (pack_int o width) args') as [bs2|] eqn:H2;
        cbn [rbind]; [|done].
      intros [= <-] [= <-]. simpl. intros Hj.
      pose proof (pack_int_Ok _ _ _ _ Hz) as (_ & Hlen & _).
      pose proof (pack_int_Ok _ _ _ _ Hz') as (_ & Hlen' & _).
      apply app_inj_1 in Hj as [-> Hj]; [|congruence].
      f_equal; [by eapply pack_int_inj|]. by eapply IH.
Qed.

Section circuit_facts.
Context {V : Type} `{!PyValue V}.
Implicit Types (c : Circuit (V:=V)) (nd : Node (V:=V)).

(** X14.  In every circuit built through the construction interface and the
    in-place removals the node ids are pairwise distinct and below
    [node_counter], [inputs] lists exactly the [INPUT] nodes, in the order
    of the node list, an [INPUT] node has no parents, and the parents and
    children of every node have ids the circuit has handed out. *)
Theorem reachable_structure c :
  reachable c →
  NoDup (id <$> nodes c)
  ∧ (∀ nd, nd ∈ nodes c → id nd < node_counter c)
  ∧ inputs c = id <$> filter (λ nd, is_op INPUT nd = true) (nodes c)
  ∧ NoDup (inputs c)
  ∧ (∀ nd, nd ∈ nodes c → is_op INPUT nd = true → incoming nd = [])
  ∧ (∀ nd p, nd ∈ nodes c → p ∈ incoming nd ∨ p ∈ outgoing nd →
             p < node_counter c).
Proof.
  intros Hc. destruct (reachable_inv c Hc)
    as [Hids Hnd Hout Hinc _ _ _ _ Hin Horder].
  split_and!; try done.
  - rewrite Horder. eapply sublist_NoDup; [exact Hnd|].
    apply fmap_sublist, sublist_filter.
  - intros nd p Hn [Hp|Hp]; [by eapply Hinc|by eapply Hout].
Qed.

Lemma evaluate_with_mem_convert c rnd xs ci co ys mem :
  evaluate_with_mem c rnd xs ci co = Ok (ys, mem) →
  ∃ xs' ys', (if ci then rmap (const_manager_create (cls c)) xs = Ok xs'
              else xs' = xs)
    ∧ evaluate_with_mem c rnd xs' false false = Ok (ys', mem)
    ∧ ys = if co then const_manager_output (cls c) <$> ys' else ys'.
Proof.
  unfold evaluate_with_mem. case_bool_decide as Hlen; [done|].
  destruct (if ci then rmap (const_manager_create (cls c)) xs else Ok xs)
    as [xs'|] eqn:Hxs; cbn [rbind]; [|done].
  assert (length xs' = length xs) as Hl.
  { destruct ci; [by eapply rmap_length|by injection Hxs as <-]. }
  destruct (rfold _ _ (nodes c)) as [mem1|] eqn:Hfold; cbn [rbind]; [|done].
  destruct (rmap (mem_get mem1) (outputs c)) as [out|] eqn:Hout;
    cbn [rbind]; [|done].
  intros [= <- <-]. exists xs', out.
  split; [destruct ci; [done|by injection Hxs]|].
  rewrite bool_decide_eq_false_2 by lia. cbn [rbind].
  rewrite Hfold. cbn [rbind]. rewrite Hout. done.
Qed.

(** Every node has a value in the memory of an evaluation that returns. *)
Lemma evaluate_mem_dom c rnd xs ys mem :
  NoDup (id <$> nodes c) →
  inputs c = id <$> filter (λ nd, is_op INPUT nd = true) (nodes c) →
  evaluate_with_mem c rnd xs false false = Ok (ys, mem) →
  ∀ nd, nd ∈ nodes c → is_Some (mem !! id nd).
Proof.
  intros Hnd Hin. unfold evaluate_with_mem.
  case_bool_decide as Hlen; [done|]. cbn [rbind].
  set (mem0 := foldl _ _ _).
  destruct (rfold _ mem0 (nodes c)) as [mem1|] eqn:Hfold; [|done]. simpl.
  destruct (rmap (mem_get mem1) (outputs c)) as [out|] eqn:Hout; [|done].
  simpl. intros [= <- <-].
  assert (NoDup (inputs c)) as Hnd_in.
  { rewrite Hin. eapply sublist_NoDup; [exact Hnd|].
    apply fmap_sublist, sublist_filter. }
  pose (J := λ (pre : list (Node (V:=V))) (m : gmap nat V),
          (∀ t, t ∈ inputs c → is_Some (m !! t))
          ∧ ∀ nd, nd ∈ pre → is_Some (m !! id nd)).
  assert (J (nodes c) mem1) as [_ HJ]; [|done].
  apply (rfold_inv (evaluate_node (cls c) rnd) J (nodes c))
    with (b0 := mem0) (b := mem1); [|split|done].
  - intros pre nd post m m' Hl [Hi Hp] Hstep.
    unfold evaluate_node in Hstep.
    destruct (is_op INPUT nd) eqn:Hop.
    + injection Hstep as <-. split; [done|].
      intros nd0 [?| ->%list_elem_of_singleton]%elem_of_app; [by apply Hp|].
      apply Hi. rewrite Hin. apply list_elem_of_fmap. exists nd.
      split; [done|]. apply list_elem_of_filter. split; [done|].
      rewrite Hl. apply elem_of_app. right. left.
    + destruct (rmap (mem_get m) (incoming nd)) as [args|]; [|done].
      simpl in Hstep.
      destruct (eval (cls c) (rnd (id nd)) (operation nd) args) as [v|];
        [|done].
      injection Hstep as <-. split.
      * intros t Ht. apply lookup_insert_is_Some'. right. by apply Hi.
      * intros nd0 [?| ->%list_elem_of_singleton]%elem_of_app;
          apply lookup_insert_is_Some'; [right; by apply Hp|by left].
  - intros t [p Hp]%list_elem_of_lookup_1.
    destruct (lookup_lt_is_Some_2 xs p) as [x Hx].
    { apply lookup_lt_Some in Hp. lia. }
    exists x. by apply (input_mem_lookup _ _ _ p).
  - by intros nd ?%elem_of_nil.
Qed.

(** X15.  For a circuit built through the interface and an input on which
    [evaluate] returns, [trace] returns a value for every node of the
    circuit and for nothing else; the values satisfy the equations of the
    circuit (every node that is not an input holds the result of its
    operation on the values of its parents, input [j] holds the converted
    input value [j]), the outputs of [evaluate] are the values of the
    output nodes, and the list form gives the same values in node order. *)
Theorem trace_values c rnd xs convert_input ys :
  reachable c →
  evaluate c rnd xs convert_input false = Ok ys →
  ∃ mem xs',
    trace c rnd xs convert_input false false = Ok (TDict mem)
    ∧ (∀ i, is_Some (mem !! i) ↔ i ∈ id <$> nodes c)
    ∧ (if convert_input
       then rmap (const_manager_create (cls c)) xs = Ok xs' else xs' = xs)
    ∧ sem (cls c) rnd mem xs' c
    ∧ ys = val mem <$> outputs c
    ∧ trace c rnd xs convert_input false true
      = Ok (TList ((λ nd, val mem (id nd)) <$> nodes c)).
Proof.
  intros Hc Hev. pose proof (reachable_inv c Hc) as Hinv.
  unfold evaluate in Hev.
  destruct (evaluate_with_mem c rnd xs convert_input false)
    as [[ys0 mem]|] eqn:Hm; cbn [rbind] in Hev; [|done].
  injection Hev as ->.
  destruct (evaluate_with_mem_convert _ _ _ _ _ _ _ Hm)
    as (xs' & ys' & Hxs & Hraw & ->).
  destruct (evaluate_models c rnd xs' ys' mem (inv_nodup _ Hinv)
              (inv_inputs_order _ Hinv) Hraw) as (Hsem & Hys & Hlen).
  pose proof (evaluate_mem_dom c rnd xs' ys' mem (inv_nodup _ Hinv)
                (inv_inputs_order _ Hinv) Hraw) as Hdom.
  exists mem, xs'. unfold trace. rewrite Hm. cbn [rbind snd].
  split_and!; try done.
  - intros i. split.
    + intros Hi. revert Hraw Hi. unfold evaluate_with_mem.
      case_bool_decide as Hl; [done|]. cbn [rbind].
      set (mem0 := foldl _ _ _).
      destruct (rfold _ mem0 (nodes c)) as [mem1|] eqn:Hfold; [|done]. simpl.
      destruct (rmap (mem_get mem1) (outputs c)) as [out|]; [|done].
      simpl. intros [= <- <-].
      pose (J := λ (pre : list (Node (V:=V))) (m : gmap nat V),
              ∀ i, is_Some (m !! i) → i ∈ inputs c ∨ i ∈ id <$> pre).
      assert (J (nodes c) mem1) as HJ.
      { apply (rfold_inv (evaluate_node (cls c) rnd) J (nodes c))
          with (b0 := mem0) (b := mem1); [| |done].
        - intros pre nd post m m' Hl' HJ Hstep.
          unfold evaluate_node in Hstep.
          destruct (is_op INPUT nd) eqn:Hop.
          + injection Hstep as <-. intros j [?|?]%HJ; [by left|right].
            rewrite fmap_app. apply elem_of_app. by left.
          + destruct (rmap (mem_get m) (incoming nd)) as [args|]; [|done].
            simpl in Hstep.
            destruct (eval (cls c) (rnd (id nd)) (operation nd) args)
              as [v|]; [|done].
            injection Hstep as <-. intros j.
            destruct (decide (j = id nd)) as [->|Hne].
            * intros _. right. rewrite fmap_app. apply elem_of_app.
              right. left.
            * rewrite lookup_insert_ne by congruence.
              intros [?|?]%HJ; [by left|right].
              rewrite fmap_app. apply elem_of_app. by left.
        - intros j [Hj|Hj]%input_mem_dom; [|by left].
          rewrite lookup_empty in Hj. by destruct Hj. }
      intros Hi. destruct (HJ i Hi) as [Hin|Hin]; [|done].
      rewrite (inv_inputs_order _ Hinv) in Hin.
      apply list_elem_of_fmap in Hin as (nd & -> & Hnd).
      apply list_elem_of_filter in Hnd as [_ Hnd].
      apply list_elem_of_fmap. by exists nd.
    + intros (nd & -> & Hnd)%list_elem_of_fmap. by apply Hdom.
  - assert (rmap (λ nd, mem_get mem (id nd)) (nodes c)
            = Ok ((λ nd, val mem (id nd)) <$> nodes c)) as ->; [|done].
    clear -Hdom. induction (nodes c) as [|nd l IH]; [done|].
    simpl. destruct (Hdom nd) as [v Hv]; [left|].
    unfold mem_get at 1, val at 1. rewrite Hv. cbn [rbind].
    rewrite IH; [done|]. intros nd' Hnd'. apply Hdom. by right.
Qed.

Lemma register_inputs_run (l acc : list nat) c :
  mfor l (λ node, modify (set_inputs (λ l, l ++ [node])))
       (set_inputs (λ _, acc) c)
  = (set_inputs (λ _, acc ++ l) c, Ok tt).
Proof.
  revert acc. induction l as [|x l IH]; intros acc; simpl.
  - by rewrite app_nil_r.
  - unfold bind, modify at 1. simpl.
    change (set_inputs (λ l0, l0 ++ [x]) (set_inputs (λ _, acc) c))
      with (set_inputs (λ _, acc ++ [x]) c).
    rewrite IH. by rewrite <- app_assoc.
Qed.

Lemma register_outputs_run (l acc : list nat) c :
  mfor l _register_output_node (set_outputs (λ _, acc) c)
  = (set_outputs (λ _, acc ++ l) c, Ok tt).
Proof.
  revert acc. induction l as [|x l IH]; intros acc; simpl.
  - by rewrite app_nil_r.
  - unfold bind, _register_output_node at 1, modify at 1. simpl.
    change (set_outputs (λ l0, l0 ++ [x]) (set_outputs (λ _, acc) c))
      with (set_outputs (λ _, acc ++ [x]) c).
    rewrite IH. by rewrite <- app_assoc.
Qed.

Lemma same_set_Permutation (l l' : list nat) :
  NoDup l →
  (length l' = length l ∧ (list_to_set l' : gset nat) = list_to_set l)
  ↔ l' ≡ₚ l.
Proof.
  intros Hnd. split.
  - intros [Hlen Hset]. apply NoDup_Permutation; [|done|].
    + apply size_list_to_set_NoDup. rewrite Hset, Hlen.
      by apply size_list_to_set.
    + intros x. rewrite <- !(elem_of_list_to_set (C:=gset nat)).
      by rewrite Hset.
  - intros Hp. split; [by rewrite Hp|].
    apply set_eq. intros x. rewrite !elem_of_list_to_set. by rewrite Hp.
Qed.

Lemma input_mem_perm (l l' : list nat) (g : nat → V) :
  NoDup l → l' ≡ₚ l →
  foldl (λ m nv, <[nv.1 := nv.2]> m) (∅ : gmap nat V) (zip l' (g <$> l'))
  = foldl (λ m nv, <[nv.1 := nv.2]> m) ∅ (zip l (g <$> l)).
Proof.
  intros Hnd Hp.
  assert (∀ k, NoDup k → ∀ t,
            foldl (λ m nv, <[nv.1 := nv.2]> m) (∅ : gmap nat V)
                  (zip k (g <$> k)) !! t
            = if decide (t ∈ k) then Some (g t) else None) as Hlook.
  { intros k Hk t. destruct (decide (t ∈ k)) as [Hin|Hnin].
    - apply list_elem_of_lookup_1 in Hin as [p Hp'].
      apply (input_mem_lookup _ _ _ p); [done|done|].
      by rewrite list_lookup_fmap, Hp'.
    - by rewrite input_mem_notin by done. }
  apply map_eq. intros t. rewrite !Hlook; [|done|by rewrite Hp].
  destruct (decide (t ∈ l')) as [H1|H1], (decide (t ∈ l)) as [H2|H2];
    try done; rewrite Hp in H1; done.
Qed.

Lemma rmap_fmap_Ok {A} (h : V → result V) (f : A → V) (l : list A) r :
  rmap h (f <$> l) = Ok r →
  let g := λ x, match h (f x) with Ok v => v | Raise _ => f x end in
  r = g <$> l ∧ ∀ x, x ∈ l → h (f x) = Ok (g x).
Proof.
  intros Hr g. revert r Hr. induction l as [|a l IH]; intros r.
  - intros [= <-]. split; [done|]. by intros x ?%elem_of_nil.
  - rewrite !fmap_cons. cbn [rmap].
    destruct (h (f a)) as [v|] eqn:Ha; cbn [rbind]; [|done].
    destruct (rmap h (f <$> l)) as [vs|]; cbn [rbind]; [|done].
    intros [= <-]. destruct (IH vs eq_refl) as [-> Hall]. split.
    + f_equal. unfold g. by rewrite Ha.
    + intros x [->|Hx]%elem_of_cons; [|by apply Hall].
      unfold g. by rewrite Ha.
Qed.

Lemma rmap_fmap_build {A} (h : V → result V) (f : A → V) g (l : list A) :
  (∀ x, x ∈ l → h (f x) = Ok (g x)) → rmap h (f <$> l) = Ok (g <$> l).
Proof.
  induction l as [|a l IH]; intros Hall; [done|].
  rewrite !fmap_cons. cbn [rmap].
  rewrite (Hall a) by left. cbn [rbind].
  rewrite IH; [done|]. intros x Hx. apply Hall. by right.
Qed.

(** X16.  On a circuit whose inputs are pairwise distinct,
    [in_place_reorder_inputs] called with a list of its own accepts exactly
    the reorderings of the inputs and raises [ValueError] for every other
    list, leaving the circuit as it was; after a reordering only the order
    of the inputs has changed, and evaluating with the same value on every
    input node gives the same outputs and the same memory.  Called with the
    list the circuit holds itself it passes the check and leaves the
    circuit without inputs, because the list is emptied before it is
    read. *)
Theorem in_place_reorder_inputs_spec c :
  NoDup (inputs c) →
  in_place_reorder_inputs OwnList c = (set_inputs (λ _, []) c, Ok tt)
  ∧ ∀ new_inputs : list nat,
      (if decide (new_inputs ≡ₚ inputs c)
       then in_place_reorder_inputs (OtherList new_inputs) c
            = (set_inputs (λ _, new_inputs) c, Ok tt)
       else in_place_reorder_inputs (OtherList new_inputs) c
            = (c, Raise ValueError))
      ∧ ∀ (f : nat → V) rnd convert_input convert_output r,
          new_inputs ≡ₚ inputs c →
          evaluate_with_mem c rnd (f <$> inputs c) convert_input
            convert_output = Ok r →
          evaluate_with_mem (set_inputs (λ _, new_inputs) c) rnd
            (f <$> new_inputs) convert_input convert_output = Ok r.
Proof.
  intros Hnd. split.
  { unfold in_place_reorder_inputs.
    rewrite bool_decide_eq_false_2 by (by intros [?|?]). done. }
  intros new_inputs. split.
  - unfold in_place_reorder_inputs. destruct (decide _) as [Hp|Hp].
    + apply same_set_Permutation in Hp as [Hlen Hset]; [|done].
      rewrite bool_decide_eq_false_2 by naive_solver.
      by rewrite register_inputs_run.
    + rewrite bool_decide_eq_true_2; [done|].
      destruct (decide (length new_inputs = length (inputs c))); [|by left].
      destruct (decide ((list_to_set new_inputs : gset nat)
                        = list_to_set (inputs c))); [|by right].
      destruct Hp. by apply same_set_Permutation.
  - intros f rnd ci co r Hp. unfold evaluate_with_mem. simpl.
    rewrite !length_fmap.
    rewrite !(bool_decide_eq_false_2 (_ ≠ _)) by (by rewrite ?Hp; intros []).
    destruct ci.
    + destruct (rmap _ (f <$> inputs c)) as [xs'|] eqn:Hxs; cbn [rbind];
        [|done].
      apply rmap_fmap_Ok in Hxs as [-> Hg].
      erewrite rmap_fmap_build; [|intros x Hx; apply Hg; by rewrite <- Hp].
      cbn [rbind]. by rewrite (input_mem_perm _ _ _ Hnd Hp).
    + cbn [rbind]. by rewrite (input_mem_perm _ _ _ Hnd Hp).
Qed.

(** X17.  When [in_place_reorder_outputs] called with a list of its own
    returns, the list has the length and the set of nodes of the old
    outputs, only [outputs] has changed and is now the given list, and an
    evaluation that returned before returns, with the same memory, the
    value of each node of the new list.  Called with the list the circuit
    holds itself it returns and leaves the circuit without outputs, because
    the list is emptied before it is read. *)
Theorem in_place_reorder_outputs_spec c (new_outputs : list nat) c' :
  in_place_reorder_outputs (OtherList new_outputs) c = (c', Ok tt) →
  in_place_reorder_outputs OwnList c = (set_outputs (λ _, []) c, Ok tt)
  ∧ length new_outputs = length (outputs c)
  ∧ (∀ y, y ∈ new_outputs ↔ y ∈ outputs c)
  ∧ c' = set_outputs (λ _, new_outputs) c
  ∧ ∀ rnd xs convert_input convert_output ys mem,
      evaluate_with_mem c rnd xs convert_input convert_output = Ok (ys, mem) →
      evaluate_with_mem c' rnd xs convert_input convert_output
      = Ok ((λ y, if convert_output
                  then const_manager_output (cls c) (val mem y)
                  else val mem y) <$> new_outputs, mem).
Proof.
  intros Hrun. split.
  { unfold in_place_reorder_outputs.
    rewrite bool_decide_eq_false_2 by (by intros [?|?]). done. }
  revert Hrun.
  unfold in_place_reorder_outputs. case_bool_decide as Hchk; [done|].
  cbn zeta. rewrite register_outputs_run. simpl. intros [= <-].
  assert (length new_outputs = length (outputs c)) as Hlen.
  { destruct (decide (length new_outputs = length (outputs c))); [done|].
    destruct Hchk. by left. }
  assert ((list_to_set new_outputs : gset nat) = list_to_set (outputs c))
    as Hset.
  { destruct (decide ((list_to_set new_outputs : gset nat)
                      = list_to_set (outputs c))); [done|].
    destruct Hchk. by right. }
  assert (∀ y, y ∈ new_outputs ↔ y ∈ outputs c) as Hmem.
  { intros y. rewrite <- !(elem_of_list_to_set (C:=gset nat)).
    by rewrite Hset. }
  split_and!; try done.
  intros rnd xs ci co ys mem. unfold evaluate_with_mem. simpl.
  case_bool_decide; [done|].
  destruct (if ci then _ else _) as [xs'|]; cbn [rbind]; [|done].
  destruct (rfold _ _ (nodes c)) as [mem1|]; cbn [rbind]; [|done].
  destruct (rmap (mem_get mem1) (outputs c)) as [out|] eqn:Hout;
    cbn [rbind]; [|done].
  intros [= <- <-]. apply rmap_mem_get in Hout as [-> Hall].
  rewrite rmap_mem_get_ok.
  2:{ apply Forall_forall. intros y Hy%Hmem.
      by apply (proj1 (Forall_forall _ _) Hall). }
  cbn [rbind]. do 2 f_equal. destruct co; [|done].
  by rewrite <- list_fmap_compose.
Qed.

(** The loop of [evaluate] skips the input nodes. *)
Lemma rfold_skip_inputs cl rnd (m : gmap nat V) (l : list (Node (V:=V))) :
  rfold (evaluate_node cl rnd) m l
  = rfold (evaluate_node cl rnd) m (filter (λ nd, is_op INPUT nd = false) l).
Proof.
  revert m. induction l as [|nd l IH]; intros m; [done|].
  destruct (is_op INPUT nd) eqn:Hop.
  - rewrite filter_cons_False by congruence. cbn [rfold].
    unfold evaluate_node at 1. rewrite Hop. cbn [rbind]. apply IH.
  - rewrite filter_cons_True by done. cbn [rfold].
    destruct (evaluate_node cl rnd m nd); cbn [rbind]; [apply IH|done].
Qed.

Lemma filter_complement_perm (l : list (Node (V:=V))) :
  filter (λ nd, is_op INPUT nd = true) l
  ++ filter (λ nd, is_op INPUT nd = false) l ≡ₚ l.
Proof.
  induction l as [|nd l IH]; [done|].
  destruct (is_op INPUT nd) eqn:Hop.
  - rewrite filter_cons_True by done.
    rewrite (filter_cons_False (λ nd, is_op INPUT nd = false)) by congruence.
    simpl. by rewrite IH.
  - rewrite filter_cons_False by congruence.
    rewrite (filter_cons_True (λ nd, is_op INPUT nd = false)) by done.
    rewrite <- Permutation_middle. by rewrite IH.
Qed.

(** X18.  On a circuit with pairwise distinct node ids whose [inputs] are
    its [INPUT] nodes, in any order, [in_place_reorder_inputs_first]
    returns; the new node list is a reordering of the old one that starts
    with the input nodes in the order of [inputs] and keeps the other nodes
    in their order, and [evaluate] gives the same result, memory included,
    on every input. *)
Theorem in_place_reorder_inputs_first_spec c :
  NoDup (id <$> nodes c) →
  inputs c ≡ₚ id <$> filter (λ nd, is_op INPUT nd = true) (nodes c) →
  ∃ ins,
    in_place_reorder_inputs_first c
    = (set_nodes (λ _, ins ++ filter (λ nd, is_op INPUT nd = false) (nodes c))
                 c, Ok tt)
    ∧ id <$> ins = inputs c
    ∧ Forall (λ nd, is_op INPUT nd = true) ins
    ∧ ins ++ filter (λ nd, is_op INPUT nd = false) (nodes c) ≡ₚ nodes c
    ∧ ∀ rnd xs convert_input convert_output,
        evaluate_with_mem (exec in_place_reorder_inputs_first c) rnd xs
          convert_input convert_output
        = evaluate_with_mem c rnd xs convert_input convert_output.
Proof.
  intros Hnd Hin.
  assert (∀ i, i ∈ inputs c →
            ∃ nd, nd ∈ nodes c ∧ is_op INPUT nd = true ∧ id nd = i
                  ∧ find_node c i = Some nd) as Hfind.
  { intros i Hi. rewrite Hin in Hi.
    apply list_elem_of_fmap in Hi as (nd & -> & Hf).
    apply list_elem_of_filter in Hf as [Hop Hn].
    exists nd. split_and!; try done. by apply find_node_NoDup. }
  assert (∃ ins, omap (find_node c) (inputs c) = ins
                 ∧ id <$> ins = inputs c
                 ∧ Forall (λ nd, nd ∈ nodes c ∧ is_op INPUT nd = true) ins)
    as (ins & Hom & Hids & Hall).
  { clear Hin. induction (inputs c) as [|i l IH].
    - exists []. by split_and!.
    - destruct IH as (ins & Hom & Hids & Hall).
      { intros j Hj. apply Hfind. by right. }
      destruct (Hfind i) as (nd & Hn & Hop & Hid & Hf); [left|].
      exists (nd :: ins).
      change (omap (find_node c) (i :: l))
        with (match find_node c i with
              | Some y => y :: omap (find_node c) l
              | None => omap (find_node c) l
              end).
      rewrite Hf, Hom.
      split_and!; [done|by rewrite fmap_cons, Hid, Hids|by constructor]. }
  assert (ins ≡ₚ filter (λ nd, is_op INPUT nd = true) (nodes c)) as Hperm.
  { apply NoDup_Permutation.
    - apply (NoDup_fmap_1 id). rewrite Hids, Hin.
      eapply sublist_NoDup; [exact Hnd|]. apply fmap_sublist, sublist_filter.
    - apply NoDup_filter. by apply (NoDup_fmap_1 id).
    - intros nd. rewrite list_elem_of_filter. split.
      + intros Hx. by destruct (proj1 (Forall_forall _ _) Hall nd Hx).
      + intros [Hop Hn].
        assert (id nd ∈ id <$> ins) as Hi.
        { rewrite Hids, Hin. apply list_elem_of_fmap. exists nd.
          split; [done|]. by apply list_elem_of_filter. }
        apply list_elem_of_fmap in Hi as (nd' & Hid & Hn').
        destruct (proj1 (Forall_forall _ _) Hall nd' Hn') as [Hn'' _].
        by rewrite (NoDup_fmap_inj id (nodes c) nd nd' Hnd Hn Hn'' Hid). }
  assert (ins ++ filter (λ nd, is_op INPUT nd = false) (nodes c)
          ≡ₚ nodes c) as Hperm2.
  { rewrite Hperm. apply filter_complement_perm. }
  assert (in_place_reorder_inputs_first c
          = (set_nodes
               (λ _, ins ++ filter (λ nd, is_op INPUT nd = false) (nodes c))
               c, Ok tt)) as Hrun.
  { unfold in_place_reorder_inputs_first. rewrite Hom.
    rewrite bool_decide_eq_true_2; [done|]. by rewrite Hperm2. }
  exists ins. split_and!; try done.
  - eapply Forall_impl; [exact Hall|]. by intros nd [_ ?].
  - intros rnd xs ci co. unfold exec. rewrite Hrun.
    unfold evaluate_with_mem. cbn [nodes inputs outputs cls set_nodes fst].
    case_bool_decide; [done|].
    destruct (if ci then _ else _) as [xs'|]; cbn [rbind]; [|done].
    rewrite (rfold_skip_inputs _ _ _ (ins ++ _)).
    rewrite (rfold_skip_inputs _ _ _ (nodes c)).
    rewrite filter_app.
    assert (filter (λ nd, is_op INPUT nd = false) ins = []) as ->.
    { clear -Hall. induction Hall as [|nd l [_ Hop] _ IH]; [done|].
      by rewrite filter_cons_False by congruence. }
    rewrite app_nil_l. by rewrite list_filter_filter_l by done.
Qed.

Lemma unnamed_input_loop_None fuel (names : list (pyval (V:=V))) cntr :
  unnamed_input_loop fuel names cntr = None →
  ∀ k, k < fuel → PStr ("x" +:+ pretty (cntr + k)) ∈ names.
Proof.
  revert cntr. induction fuel as [|fuel IH]; intros cntr; simpl; [lia|].
  case_bool_decide as Hin; [|done]. intros Hnone [|k] Hk.
  - by rewrite Nat.add_0_r.
  - replace (cntr + S k) with (S cntr + k) by lia. apply IH; [done|lia].
Qed.

Lemma unnamed_input_loop_Some fuel (names : list (pyval (V:=V))) cntr name
    cntr' :
  unnamed_input_loop fuel names cntr = Some (name, cntr') →
  cntr < cntr' ∧ name = "x" +:+ pretty (cntr' - 1)
  ∧ (PStr name ∉ names)
  ∧ ∀ k, cntr ≤ k < cntr' - 1 → PStr ("x" +:+ pretty k) ∈ names.
Proof.
  revert cntr. induction fuel as [|fuel IH]; intros cntr; simpl; [done|].
  case_bool_decide as Hin.
  - intros (Hlt & Hname & Hfresh & Hall)%IH. split_and!; [lia|done|done|].
    intros k Hk. destruct (decide (k = cntr)) as [->|]; [done|].
    apply Hall. lia.
  - intros [= <- <-]. simpl. rewrite Nat.sub_0_r.
    split_and!; [lia|done|done|]. intros k Hk. lia.
Qed.

(** X19.  [_get_unnamed_input_name] always returns: it yields the first
    name [x<k>], [k] from the counter on, that is not in [_input_names],
    and leaves the counter after it; [add_input] with that name then
    returns a node in every circuit class. *)
Theorem unnamed_input_name_fresh c cntr :
  ∃ name cntr',
    _get_unnamed_input_name c cntr = Some (name, cntr')
    ∧ cntr < cntr' ∧ name = "x" +:+ pretty (cntr' - 1)
    ∧ (PStr name ∉ _input_names c)
    ∧ (∀ k, cntr ≤ k < cntr' - 1 →
            PStr ("x" +:+ pretty k) ∈ _input_names c)
    ∧ ∃ node, (add_input (PStr name) c).2 = Ok node.
Proof.
  unfold _get_unnamed_input_name.
  destruct (unnamed_input_loop (S (length (_input_names c)))
              (_input_names c) cntr) as [[name cntr']|] eqn:Hloop.
  - exists name, cntr'.
    destruct (unnamed_input_loop_Some _ _ _ _ _ Hloop)
      as (Hlt & Hname & Hfresh & Hall).
    split_and!; try done.
    unfold add_input, apply.
    rewrite (bind_run get _ c c c eq_refl).
    assert (new_Operation (V:=V) (cls c) INPUT [PStr name]
            = Ok (mkOperation INPUT [("name", PStr name)])) as Hop.
    { by destruct (cls c). }
    rewrite (bind_run (lift _) _ c c _ (f_equal (pair c) Hop)).
    unfold Operation_call.
    rewrite (bind_run get _ c c c eq_refl).
    cbn [length _name mmap n_inputs].
    rewrite (bind_run _ _ c c tt eq_refl).
    rewrite (bind_run (ret []) _ c c [] eq_refl).
    assert (precompute (mkOperation INPUT [("name", PStr name)]) [] c
            = (c, Ok None)) as Hpre.
    { unfold precompute. rewrite (bind_run get _ c c c eq_refl).
      by destruct (PRECOMPUTE_CONSTANT_OPERATIONS (cls c)). }
    rewrite (bind_run _ _ c c None Hpre).
    rewrite create_node_unfold.
    destruct (if CACHE_NODES (cls c) then _ else None) as [old|];
      [by eexists|].
    unfold before_create_node. cbn [_name].
    assert (Operation_getattr (V:=V) (mkOperation INPUT [("name", PStr name)])
              "name" = Ok (PStr name)) as Hget by reflexivity.
    rewrite (bind_run (lift _) _ c c _ (f_equal (pair c) Hget)).
    rewrite (bind_run get _ c c c eq_refl).
    rewrite bool_decide_eq_false_2 by done.
    unfold modify. by eexists.
  - exfalso.
    pose proof (unnamed_input_loop_None _ _ _ Hloop) as Hall.
    set (l := (λ k, PStr (V:=V) ("x" +:+ pretty (cntr + k)))
              <$> seq 0 (S (length (_input_names c)))).
    assert (NoDup l) as Hnd.
    { apply NoDup_fmap_2; [|apply NoDup_seq].
      intros k1 k2 [= E]. change ("" +:+ ?s) with s in E.
      apply (inj (pretty (A:=nat))) in E. lia. }
    assert (l ⊆+ _input_names c) as Hsub.
    { apply NoDup_submseteq; [done|].
      intros x (k & -> & Hk)%list_elem_of_fmap.
      apply elem_of_seq in Hk. apply Hall. lia. }
    apply submseteq_length in Hsub.
    unfold l in Hsub. rewrite length_fmap, length_seq in Hsub. lia.
Qed.

Lemma merge_sort_perm (l l' : list nat) :
  l' ≡ₚ l → merge_sort (≤) l' = merge_sort (≤) l.
Proof.
  intros Hp. apply (Sorted_unique (≤)).
  - apply Sorted_merge_sort. apply _.
  - apply Sorted_merge_sort. apply _.
  - by rewrite !merge_sort_Permutation.
Qed.

Lemma list_find_with_child inc i p (l : list (Node (V:=V))) :
  list_find (λ nd, id nd = p) (with_child inc i <$> l)
  = prod_map (λ k, k) (with_child inc i) <$> list_find (λ nd, id nd = p) l.
Proof.
  induction l as [|nd l IH]; [done|].
  rewrite fmap_cons. cbn [list_find]. rewrite IH.
  change (id (with_child inc i nd)) with (id nd).
  destruct (decide (id nd = p)); [done|].
  by destruct (list_find (λ nd0, id nd0 = p) l) as [[k x]|].
Qed.

(** A node created earlier is found as before once a node has been
    created. *)
Lemma find_node_created op inc c p :
  p < node_counter c →
  find_node (created op inc c) p
  = with_child inc (node_counter c) <$> find_node c p.
Proof.
  intros Hp. unfold find_node, created. cbn [nodes].
  pose proof (list_find_with_child inc (node_counter c) p (nodes c)) as Hw.
  destruct (list_find (λ nd, id nd = p) (nodes c)) as [[k nd]|] eqn:Hf.
  - erewrite list_find_app_l; [|exact Hw]. done.
  - rewrite list_find_app_r by done. simpl.
    rewrite decide_False by lia. done.
Qed.

Lemma const_values_created op inc c l :
  Forall (λ p, p < node_counter c) l →
  const_values (created op inc c) l = const_values c l.
Proof.
  intros Hl. unfold const_values.
  induction Hl as [|p l Hp _ IH]; [done|].
  cbn [mapM]. rewrite IH. f_equal.
  rewrite find_node_created by done.
  by destruct (find_node c p).
Qed.

Lemma const_values_perm c (l l' : list nat) :
  l' ≡ₚ l → const_values c l = None → const_values c l' = None.
Proof.
  unfold const_values. intros Hp H1. apply mapM_None. apply mapM_None in H1.
  apply Exists_exists. apply Exists_exists in H1 as (x & Hx & Hf).
  exists x. split; [by rewrite Hp|done].
Qed.

(** X20.  In a circuit class with node caching, a call that returned a
    node returns the same node when it is repeated and changes nothing
    then; for a symmetric operation the parents may come in any order. *)
Theorem node_cache_returns_same c op (inc inc' : list nat) c' n :
  CACHE_NODES (cls c) = true →
  Forall (λ p, p < node_counter c) inc →
  Operation_call op (ANode <$> inc) c = (c', Ok n) →
  (if SYMMETRIC (_name op) then inc' ≡ₚ inc else inc' = inc) →
  Operation_call op (ANode <$> inc') c' = (c', Ok n).
Proof.
  intros Hcache Hlt Hcall Hinc'.
  assert (inc' ≡ₚ inc) as Hperm.
  { by destruct (SYMMETRIC (_name op)); [|subst]. }
  assert (node_cache_key op inc' = node_cache_key op inc) as Hkey.
  { unfold node_cache_key. destruct (SYMMETRIC (_name op)); [|by subst].
    by rewrite (merge_sort_perm _ _ Hinc'). }
  unfold Operation_call in Hcall.
  rewrite (bind_run get _ c c c eq_refl) in Hcall.
  apply bind_Ok in Hcall as ([] & c0 & Harity & Hcall).
  assert (c0 = c) as ->.
  { destruct (n_inputs (cls c) (_name op)); [|by injection Harity].
    case_bool_decide; [by injection Harity|done]. }
  rewrite (bind_run _ _ c c inc (wrap_nodes inc c)) in Hcall.
  apply bind_Ok in Hcall as (folded & c1 & Hpre & Hcall).
  pose proof (precompute_unchanged _ _ _ _ _ Hpre) as (-> & _ & Hnone).
  destruct folded as [x|]; [by destruct (Hnone x)|].
  rewrite create_node_unfold, Hcache in Hcall.
  assert (cls c' = cls c ∧ node_counter c ≤ node_counter c'
          ∧ cache_get (node_cache_key op inc) (_nodes_cache c') = Some n
          ∧ ∀ l, Forall (λ p, p < node_counter c) l →
                 const_values c' l = const_values c l)
    as (Hcls & Hcnt & Hprobe & Hconst).
  { destruct (cache_get (node_cache_key op inc) (_nodes_cache c))
      as [old|] eqn:Hget.
    - injection Hcall as <- <-. by split_and!.
    - destruct (before_create_node op inc c) as [c2 [[]|e]] eqn:Hb; [|done].
      injection Hcall as <- <-.
      assert (cls c2 = cls c ∧ node_counter c2 = node_counter c
              ∧ nodes c2 = nodes c) as (Hc2 & Hn2 & Hnodes2).
      { apply before_create_node_spec in Hb as [->|[f ->]]; by split_and!. }
      split_and!.
      + done.
      + simpl. lia.
      + unfold cache_get, cache_set. simpl. by rewrite decide_True.
      + intros l Hl. unfold set_nodes_cache.
        change (const_values (mkCircuit ?a ?b ?c0 ?d ?e ?f ?g) l)
          with (const_values (mkCircuit a b c0 d e f
                                 (_nodes_cache (created op inc c2))) l).
        transitivity (const_values (created op inc c2) l); [done|].
        rewrite const_values_created by (by rewrite Hn2).
        unfold const_values, find_node. by rewrite Hnodes2. }
  unfold Operation_call.
  rewrite (bind_run get _ c' c' c' eq_refl).
  assert (match n_inputs (cls c') (_name op) with
          | Fixed k => if bool_decide (length (ANode (V:=V) <$> inc') = k)
                       then ret () else raise TypeError
          | VARIABLE => ret ()
          end c' = (c', Ok tt)) as Hcheck.
  { rewrite Hcls. destruct (n_inputs (cls c) (_name op)); [|done].
    rewrite length_fmap in *. rewrite (Permutation_length Hperm).
    case_bool_decide; [done|]. by injection Harity. }
  rewrite (bind_run _ _ c' c' tt Hcheck).
  rewrite (bind_run _ _ c' c' inc' (wrap_nodes inc' c')).
  assert (precompute op inc' c' = (c', Ok None)) as Hpre'.
  { revert Hpre. unfold precompute.
    rewrite !(bind_run get _ _ _ _ eq_refl). rewrite Hcls.
    destruct (PRECOMPUTE_CONSTANT_OPERATIONS (cls c)); [|done].
    assert (bool_decide (inc' ≠ []) = bool_decide (inc ≠ [])) as ->.
    { apply bool_decide_ext. split; intros Hne E; apply Hne.
      - rewrite E in Hperm. by apply Permutation_nil_r in Hperm.
      - rewrite E in Hperm. by apply Permutation_nil_l in Hperm. }
    destruct (PRECOMPUTABLE (_name op) && bool_decide (inc ≠ [])); [|done].
    destruct (const_values c inc) as [vs|] eqn:Hcv.
    { unfold bind, lift, raise.
      destruct (rmap pyval_to_V vs); [|done].
      destruct (eval _ _ _ _); [|done].
      by destruct (Operation_getattr op "circuit"). }
    intros _. rewrite Hconst by (by rewrite Hperm).
    by rewrite (const_values_perm c inc inc' Hperm Hcv). }
  rewrite (bind_run _ _ c' c' None Hpre').
  rewrite create_node_unfold, Hcls, Hcache, Hkey, Hprobe. done.
Qed.

Lemma search_mono c fuel : ∀ q used res,
  search fuel c q used = Some res → used ⊆ res.
Proof.
  induction fuel as [|fuel IH]; intros [|node q] used res; simpl; try done;
    try (by intros [= <-]).
  destruct (mark_incoming (incoming_of c node) (q, used))
    as [q1 used1] eqn:Hm.
  apply mark_incoming_spec in Hm as (-> & _). simpl.
  intros Hs%IH. set_solver.
Qed.

Lemma search_fuel_indep c f1 : ∀ f2 q used r1 r2,
  search f1 c q used = Some r1 → search f2 c q used = Some r2 → r1 = r2.
Proof.
  induction f1 as [|f1 IH]; intros [|f2] [|node q] used r1 r2; simpl;
    try done; try congruence.
  apply IH.
Qed.

Lemma mark_incoming_queue subs : ∀ q (used : gset nat) q' used',
  (∀ x, x ∈ q → x ∈ used) →
  mark_incoming subs (q, used) = (q', used') →
  ∀ x, x ∈ q' → x ∈ used'.
Proof.
  unfold mark_incoming.
  induction subs as [|sub subs IH]; intros q used q' used' Hq; simpl.
  - by intros [= <- <-].
  - case_bool_decide as Hsub; simpl; [by apply IH|].
    apply IH. intros x [?| ->%list_elem_of_singleton]%elem_of_app;
      [|set_solver].
    apply elem_of_union. right. by apply Hq.
Qed.

Lemma incoming_of_pruned (used : gset nat) c v :
  v ∈ used → incoming_of (pruned used c) v = incoming_of c v.
Proof.
  intros Hv. unfold incoming_of, find_node, pruned. cbn [nodes set_nodes].
  induction (nodes c) as [|nd l IH]; [done|].
  rewrite filter_cons. destruct (decide (id nd ∈ used)) as [Hin|Hnin].
  - rewrite fmap_cons. cbn [list_find].
    change (id (set_outgoing _ nd)) with (id nd).
    destruct (decide (id nd = v)); [done|].
    revert IH.
    destruct (list_find (λ nd0, id nd0 = v) (_ <$> filter _ l)) as [[k x]|];
      destruct (list_find (λ nd0, id nd0 = v) l) as [[k' x']|]; done.
  - cbn [list_find]. rewrite decide_False by (intros E; by rewrite E in Hnin).
    revert IH.
    destruct (list_find (λ nd0, id nd0 = v) (_ <$> filter _ l)) as [[k x]|];
      destruct (list_find (λ nd0, id nd0 = v) l) as [[k' x']|]; done.
Qed.

Lemma search_pruned c res fuel : ∀ q used,
  search fuel c q used = Some res →
  (∀ x, x ∈ q → x ∈ used) →
  search fuel (pruned res c) q used = Some res.
Proof.
  induction fuel as [|fuel IH]; intros [|node q] used; simpl; try done.
  intros Hs Hq.
  assert (node ∈ res) as Hnode.
  { assert (used ⊆ res) as Hsub.
    { destruct (mark_incoming (incoming_of c node) (q, used))
        as [q1 used1] eqn:Hm.
      apply mark_incoming_spec in Hm as (-> & _).
      apply search_mono in Hs. simpl in Hs. set_solver. }
    apply Hsub, Hq. left. }
  rewrite incoming_of_pruned by done.
  destruct (mark_incoming (incoming_of c node) (q, used))
    as [q1 used1] eqn:Hm.
  apply IH; [done|]. simpl.
  eapply mark_incoming_queue; [|exact Hm].
  intros x Hx. apply Hq. by right.
Qed.

Lemma pruned_idem (used : gset nat) c :
  pruned used (pruned used c) = pruned used c.
Proof.
  unfold pruned, set_nodes. simpl. f_equal.
  induction (nodes c) as [|nd l IH]; [done|].
  rewrite (filter_cons _ nd l).
  destruct (decide (id nd ∈ used)) as [Hin|Hnin]; [|done].
  rewrite fmap_cons, filter_cons.
  change (id (set_outgoing _ nd)) with (id nd) at 1.
  rewrite decide_True by done. rewrite fmap_cons, IH. f_equal.
  unfold set_outgoing. simpl. f_equal.
  by rewrite list_filter_filter_l.
Qed.

(** X21.  [in_place_remove_unused_nodes] always returns, and running it
    again on its result changes nothing. *)
Theorem remove_unused_nodes_idempotent c :
  ∃ c', in_place_remove_unused_nodes c = (c', Ok tt)
        ∧ in_place_remove_unused_nodes c' = (c', Ok tt).
Proof.
  destruct (used_nodes_total c) as [used Hused].
  assert (∀ c', c' = c ∨ c' = pruned used c →
            used_nodes c' = Some used) as Hsame.
  { intros c' [->| ->]; [done|].
    destruct (used_nodes_total (pruned used c)) as [used' Hused'].
    rewrite Hused'. f_equal.
    apply (search_fuel_indep (pruned used c) _ (search_fuel c) _ _ _ _ Hused').
    unfold used_nodes in Hused. apply search_pruned; [done|].
    intros x Hx. apply elem_of_union. right. by apply elem_of_list_to_set. }
  unfold in_place_remove_unused_nodes at 1. rewrite Hused.
  case_bool_decide as Hsize.
  - exists c. split; [done|].
    unfold in_place_remove_unused_nodes. rewrite Hused.
    by rewrite bool_decide_eq_true_2.
  - exists (pruned used c). split; [done|].
    unfold in_place_remove_unused_nodes.
    rewrite (Hsame (pruned used c)) by (by right).
    case_bool_decide; [done|].
    f_equal. apply pruned_idem.
Qed.

End circuit_facts.

(** X14, witness: [unused_and_circuit]. *)
Lemma reachable_structure_witness :
  NoDup (id <$> nodes unused_and_circuit)
  ∧ inputs unused_and_circuit = [0; 1].
Proof.
  destruct (reachable_structure unused_and_circuit
              unused_and_circuit_reachable) as (H1 & _ & H2 & _).
  split; [exact H1|]. rewrite H2. reflexivity.
Defined.

(** X15, witness: the trace of [unused_and_circuit] on [a = 1, b = 0]. *)
Lemma trace_values_witness :
  evaluate unused_and_circuit (λ _, 0%Z) [1; 0]%Z true false = Ok [1%Z]
  ∧ trace unused_and_circuit (λ _, 0%Z) [1; 0]%Z true false true
    = Ok (TList [1; 0; 0; 1]%Z).
Proof.
  assert (evaluate unused_and_circuit (λ _, 0%Z) [1; 0]%Z true false
          = Ok [1%Z]) as Hev by (vm_compute; reflexivity).
  split; [exact Hev|].
  destruct (trace_values unused_and_circuit (λ _, 0%Z) [1; 0]%Z true [1%Z]
              unused_and_circuit_reachable Hev)
    as (mem & xs' & Hd & _ & _ & _ & _ & Hl).
  rewrite Hl. f_equal. f_equal.
  vm_compute in Hd. injection Hd as <-. vm_compute. reflexivity.
Defined.

(** X16, witness: the inputs of [unused_and_circuit] swapped, and the call
    on its own list. *)
Lemma in_place_reorder_inputs_spec_witness :
  NoDup (inputs unused_and_circuit)
  ∧ in_place_reorder_inputs (OtherList [1; 0]) unused_and_circuit
    = (set_inputs (λ _, [1; 0]) unused_and_circuit, Ok tt)
  ∧ inputs (exec (in_place_reorder_inputs OwnList) unused_and_circuit) = [].
Proof.
  assert (NoDup (inputs unused_and_circuit)) as Hnd.
  { apply (bool_decide_unpack _). vm_compute. exact I. }
  split; [exact Hnd|].
  destruct (in_place_reorder_inputs_spec unused_and_circuit Hnd)
    as [Hown Hother].
  split.
  - destruct (Hother [1; 0]) as [H1 _].
    destruct (decide ([1; 0] ≡ₚ inputs unused_and_circuit)) as [_|Hn];
      [exact H1|].
    destruct Hn. vm_compute. apply perm_swap.
  - unfold exec. rewrite Hown. reflexivity.
Defined.

(** X17, witness: the two outputs of [half_adder_circuit] swapped; on
    [a = 1, b = 1] the sum is 0 and the carry 1. *)
Lemma in_place_reorder_outputs_spec_witness :
  ∃ c', in_place_reorder_outputs (OtherList [3; 2]) half_adder_circuit
        = (c', Ok tt)
        ∧ outputs half_adder_circuit = [2; 3]
        ∧ outputs c' = [3; 2]
        ∧ evaluate_with_mem half_adder_circuit (λ _, 0%Z) [1; 1]%Z true true
          = Ok ([0; 1]%Z, {[0 := 1%Z; 1 := 1%Z; 2 := 0%Z; 3 := 1%Z]})
        ∧ evaluate_with_mem c' (λ _, 0%Z) [1; 1]%Z true true
          = Ok ([1; 0]%Z, {[0 := 1%Z; 1 := 1%Z; 2 := 0%Z; 3 := 1%Z]})
        ∧ outputs (exec (in_place_reorder_outputs OwnList)
                     half_adder_circuit) = [].
Proof.
  destruct (in_place_reorder_outputs (OtherList [3; 2]) half_adder_circuit)
    as [c' r] eqn:Hrun.
  assert (r = Ok tt) as ->.
  { vm_compute in Hrun. by injection Hrun as _ <-. }
  exists c'. split; [reflexivity|]. split; [reflexivity|].
  destruct (in_place_reorder_outputs_spec half_adder_circuit [3; 2] c' Hrun)
    as (Hown & _ & _ & Hc' & Hev).
  assert (evaluate_with_mem half_adder_circuit (λ _, 0%Z) [1; 1]%Z true true
          = Ok ([0; 1]%Z, {[0 := 1%Z; 1 := 1%Z; 2 := 0%Z; 3 := 1%Z]}))
    as H0 by (vm_compute; reflexivity).
  split; [by rewrite Hc'|]. split; [exact H0|]. split.
  - rewrite (Hev _ _ _ _ _ _ H0). vm_compute. reflexivity.
  - unfold exec. rewrite Hown. reflexivity.
Defined.

(** X18, witness: [unused_and_circuit], whose inputs already come first. *)
Lemma in_place_reorder_inputs_first_spec_witness :
  NoDup (id <$> nodes unused_and_circuit)
  ∧ in_place_reorder_inputs_first unused_and_circuit
    = (unused_and_circuit, Ok tt).
Proof.
  assert (NoDup (id <$> nodes unused_and_circuit)) as Hnd.
  { apply (bool_decide_unpack _). vm_compute. exact I. }
  split; [exact Hnd|].
  destruct (in_place_reorder_inputs_first_spec unused_and_circuit Hnd)
    as (ins & Hrun & _); [reflexivity|].
  vm_compute. reflexivity.
Defined.

(** X20, witness: [a AND b] and [b AND a] in [two_inputs_opt_circuit]. *)
Lemma node_cache_returns_same_witness :
  ∃ c', Operation_call (mkOperation AND []) [ANode 0; ANode 1]
          two_inputs_opt_circuit = (c', Ok 2)
        ∧ Operation_call (mkOperation AND []) [ANode 1; ANode 0] c'
          = (c', Ok 2).
Proof.
  destruct (Operation_call (mkOperation AND []) [ANode 0; ANode 1]
              two_inputs_opt_circuit) as [c' r] eqn:Hcall.
  assert (r = Ok 2) as ->.
  { vm_compute in Hcall. by injection Hcall as _ <-. }
  exists c'. split; [reflexivity|].
  apply (node_cache_returns_same two_inputs_opt_circuit
           (mkOperation AND []) [0; 1] [1; 0] c' 2).
  - reflexivity.
  - vm_compute. repeat constructor.
  - exact Hcall.
  - simpl. apply perm_swap.
Defined.

Section copy.
Context {V : Type} `{!PyValue V}.
Implicit Types (c : Circuit (V:=V)) (nd : Node (V:=V)).

(** In a plain circuit a call on nodes that returns has run the validation
    hook and created the node. *)
Lemma plain_call_Ok op inc c c' n :
  plain (cls c) →
  Operation_call op (ANode <$> inc) c = (c', Ok n) →
  ∃ c1, before_create_node op inc c = (c1, Ok tt)
        ∧ c' = created op inc c1 ∧ n = node_counter c1.
Proof.
  intros Hplain Hcall.
  assert (n_inputs (cls c) (_name op) = Fixed (length inc)
          ∨ n_inputs (cls c) (_name op) = VARIABLE) as Harity.
  { destruct (n_inputs (cls c) (_name op)) as [k|] eqn:Hk; [|by right].
    destruct (decide (length inc = k)) as [->|Hne]; [by left|].
    exfalso. unfold Operation_call in Hcall.
    rewrite (bind_run get _ c c c eq_refl) in Hcall. rewrite Hk in Hcall.
    rewrite length_fmap in Hcall.
    rewrite bool_decide_eq_false_2 in Hcall by done. done. }
  rewrite (plain_call op inc c Hplain Harity) in Hcall.
  destruct (before_create_node op inc c) as [c1 [[]|e]]; [|done].
  injection Hcall as <- <-. by exists c1.
Qed.

Lemma getattr_single (k : string) (a : pyval (V:=V)) name attr :
  Operation_getattr (mkOperation name [(k, a)]) attr
  = if decide (k = attr) then Ok a else Raise AttributeError.
Proof.
  unfold Operation_getattr. cbn [_parameters list_find fst].
  by destruct (decide (k = attr)).
Qed.

(** The operation [reapply] builds evaluates as the original does. *)
Lemma reapply_eval cl (op op' : Operation (V:=V)) r args v :
  plain cl →
  (∀ x x', const_manager_create cl x = Ok x' → x' = x) →
  new_Operation cl (_name op) (snd <$> _parameters op) = Ok op' →
  eval cl r op args = Ok v →
  eval cl r op' args = Ok v.
Proof.
  intros Hplain Hfix Hop Hev.
  destruct op as [name ps].
  apply new_Operation_Ok in Hop as [Hin Hop].
  unfold Operation_init in Hop. cbn [_name _parameters] in *.
  case_bool_decide as Hlen; [done|].
  rewrite length_fmap in Hlen.
  assert (is_boolean cl = true ∧ cl = BooleanCircuit
          ∨ is_boolean cl = false ∧ cl = ArithmeticCircuit) as Hb.
  { destruct Hplain as [-> | ->]; auto. }
  destruct name.
  - (* INPUT *)
    destruct ps as [|[k a] [|? ?]]; cbn in Hlen, Hop; try done; try lia.
    destruct (InputNameParam_create a); cbn in Hop; [|done].
    by injection Hop as <-.
  - (* CONST *)
    destruct ps as [|[k a] [|? ?]]; cbn in Hlen, Hop; try done; try lia.
    unfold eval in Hev. cbn [_name] in Hev.
    destruct args; [|done]. rewrite getattr_single in Hev.
    destruct (decide (k = "value")) as [->|]; [|done]. cbn [rbind] in Hev.
    destruct a as [s|z|x|t]; cbn in Hop, Hev; try done.
    + destruct (const_manager_create cl (v_of_int z)) as [x'|] eqn:Hc;
        cbn in Hop; [|done].
      injection Hop as <-. apply Hfix in Hc as ->. injection Hev as <-.
      done.
    + destruct (const_manager_create cl x) as [x'|] eqn:Hc;
        cbn in Hop; [|done].
      injection Hop as <-. apply Hfix in Hc as ->. injection Hev as <-.
      done.
  - (* GET *)
    unfold eval in Hev. cbn [_name] in Hev. by destruct args as [|? [|? ?]].
  - destruct ps; cbn in Hlen, Hop; [|lia]. by injection Hop as <-.
  - destruct ps; cbn in Hlen, Hop; [|lia]. by injection Hop as <-.
  - destruct ps; cbn in Hlen, Hop; [|lia]. by injection Hop as <-.
  - destruct ps; cbn in Hlen, Hop; [|lia]. by injection Hop as <-.
  - destruct ps; cbn in Hlen, Hop; [|lia]. by injection Hop as <-.
  - destruct ps; cbn in Hlen, Hop; [|lia]. by injection Hop as <-.
  - destruct ps; cbn in Hlen, Hop; [|lia]. by injection Hop as <-.
  - destruct ps; cbn in Hlen, Hop; [|lia]. by injection Hop as <-.
  - (* LUT *)
    destruct Hb as [[Hb ->]|[Hb ->]].
    + unfold eval in Hev. cbn [_name is_boolean] in Hev.
      by destruct (Operation_getattr _ _).
    + destruct ps as [|[k a] [|? ?]]; cbn in Hlen, Hop; try done; try lia.
      unfold eval in Hev |- *. cbn [_name is_boolean] in Hev |- *.
      destruct args as [|idx [|? ?]]; try done.
      rewrite getattr_single in Hev.
      destruct (decide (k = "table")) as [->|]; [|done]. cbn [rbind] in Hev.
      destruct a as [s|z|x|t]; cbn in Hop, Hev; try done.
      by injection Hop as <-.
  - destruct ps; cbn in Hlen, Hop; [|lia]. by injection Hop as <-.
Qed.

Lemma before_create_node_same op inc c c1 r :
  before_create_node op inc c = (c1, r) →
  cls c1 = cls c ∧ nodes c1 = nodes c ∧ inputs c1 = inputs c
  ∧ outputs c1 = outputs c ∧ node_counter c1 = node_counter c.
Proof.
  intros [->|[f ->]]%before_create_node_spec; by split_and!.
Qed.

Lemma reapply_copied (src : Circuit (V:=V)) cl c m :
  plain cl →
  NoDup (id <$> nodes src) →
  mfold (λ (m : gmap nat nat) node,
           match (∅ : gmap nat nat) !! id node with
           | Some dst => ret (<[id node := dst]> m)
           | None =>
               do incoming ← lift (rmap (dict_get m) (incoming node));
               do clone ← Node_reapply node incoming;
               ret (<[id node := clone]> m)
           end) ∅ (nodes src) (new_Circuit cl) = (c, Ok m) →
  copied cl (nodes src) m c.
Proof.
  intros Hplain Hnd Hrun.
  eapply (mfold_inv _ (copied cl)) in Hrun; [done| |].
  2:{ split_and!; try done; intros ? ? H; by rewrite ?lookup_empty in H. }
  clear c m Hrun.
  intros pre nd post m c m' c' Hl (Hcls & Hcnt & Hout & Hlen & Hpre & Hm & Hin)
    Hx.
  rewrite lookup_empty in Hx.
  apply bind_Ok in Hx as (inc' & c0 & [= <- Hinc] & Hx).
  apply bind_Ok in Hx as (clone & c1 & Hre & [= <- <-]).
  unfold Node_reapply in Hre.
  apply bind_Ok in Hre as (op' & c0 & Hop & Hcall).
  unfold Operation_reapply in Hop.
  rewrite (bind_run get _ c c c eq_refl) in Hop.
  injection Hop as <- Hop. rewrite Hcls in Hop.
  apply plain_call_Ok in Hcall as (c2 & Hb & -> & ->); [|by rewrite Hcls].
  apply before_create_node_same in Hb as (Hc2 & Hn2 & Hi2 & Ho2 & Hk2).
  assert (id nd ∉ id <$> pre) as Hfresh.
  { rewrite Hl, fmap_app, fmap_cons in Hnd.
    apply NoDup_app in Hnd as (_ & Hnd & _).
    intros Hi. apply (Hnd _ Hi). left. }
  assert (∀ p q, m !! p = Some q → p ≠ id nd) as Hne.
  { intros p q Hp ->. destruct (Hm _ _ Hp) as (nd0 & Hq & Hid).
    apply Hfresh. rewrite <- Hid. apply list_elem_of_fmap. exists nd0.
    split; [done|]. by eapply list_elem_of_lookup_2. }
  assert (skeleton (created op' inc' c2)
          = skeleton c ++ [(length pre, op', inc')]) as Hsk.
  { rewrite skeleton_created. unfold skeleton. by rewrite Hn2, Hk2, Hcnt. }
  apply rmap_dict_get in Hinc.
  split_and!.
  - simpl. congruence.
  - simpl. rewrite length_app. simpl. lia.
  - simpl. congruence.
  - rewrite Hsk, !length_app. simpl. lia.
  - intros k nd0 Hk. destruct (decide (k < length pre)) as [Hlt|Hge].
    + rewrite lookup_app_l in Hk by done.
      destruct (Hpre k nd0 Hk) as (Hmk & op0 & inc0 & Hsk0 & Hop0 & Hall).
      split.
      * rewrite lookup_insert_ne; [done|]. intros E. by apply (Hne _ _ Hmk).
      * exists op0, inc0. split_and!; [|done|].
        -- rewrite Hsk. by apply lookup_app_l_Some.
        -- eapply Forall2_impl; [exact Hall|]. intros p q [Hp Hq].
           split; [|done]. rewrite lookup_insert_ne; [done|].
           intros E. by apply (Hne _ _ Hp).
    + rewrite lookup_app_r in Hk by lia.
      destruct (k - length pre) as [|j] eqn:Ej; [|by destruct j].
      injection Hk as <-. assert (k = length pre) as -> by lia.
      split; [by rewrite lookup_insert_eq, Hk2, Hcnt|].
      exists op', inc'. split_and!; [|done|].
      * rewrite Hsk, lookup_app_r by lia. rewrite Hlen, Nat.sub_diag. done.
      * eapply Forall2_impl; [exact Hinc|]. intros p q Hp. split.
        -- rewrite lookup_insert_ne; [done|]. intros E. by apply (Hne _ _ Hp).
        -- destruct (Hm _ _ Hp) as (nd0 & Hq & _).
           by eapply lookup_lt_Some.
  - intros p q. destruct (decide (p = id nd)) as [->|Hp].
    + rewrite lookup_insert_eq. intros [= <-]. exists nd.
      rewrite Hk2, Hcnt. split; [|done]. by rewrite list_lookup_middle.
    + rewrite lookup_insert_ne by done. intros Hq.
      destruct (Hm _ _ Hq) as (nd0 & Hq' & Hid). exists nd0.
      split; [by apply lookup_app_l_Some|done].
  - cbn [created inputs]. rewrite Hi2, Hin.
    rewrite filter_app, fmap_app.
    assert ((λ nd0, default 0 (<[id nd:=node_counter c2]> m !! id nd0))
              <$> filter (λ nd0, is_op INPUT nd0 = true) pre
            = (λ nd0, default 0 (m !! id nd0))
              <$> filter (λ nd0, is_op INPUT nd0 = true) pre) as ->.
    { apply list_fmap_ext. intros i nd0 Hi.
      apply list_elem_of_lookup_2, list_elem_of_filter in Hi as [_ Hi].
      rewrite lookup_insert_ne; [done|]. intros E. apply Hfresh.
      rewrite E. apply list_elem_of_fmap. by exists nd0. }
    apply new_Operation_name in Hop.
    unfold is_op at 2. rewrite filter_cons, filter_nil.
    case_bool_decide as Hname.
    + rewrite decide_True by (by apply bool_decide_eq_true_2; congruence).
      simpl. rewrite lookup_insert_eq. simpl. by rewrite Hk2, Hcnt.
    + rewrite decide_False.
      2:{ intros E%bool_decide_eq_true_1. congruence. }
      by rewrite app_nil_r.
Qed.

Lemma rfold_snoc {A S} (f : S → A → result S) (s : S) l x :
  rfold f s (l ++ [x]) = try s' ← rfold f s l; f s' x.
Proof.
  revert s. induction l as [|y l IH]; intros s; simpl.
  - by destruct (f s x).
  - destruct (f s y); simpl; [apply IH|done].
Qed.

Lemma rmap_mem_get_sim (mem_s mem_t : gmap nat V) inc inc' :
  Forall2 (λ p q, mem_t !! q = mem_s !! p) inc inc' →
  rmap (mem_get mem_t) inc' = rmap (mem_get mem_s) inc.
Proof.
  induction 1 as [|p q inc inc' Hpq _ IH]; [done|].
  cbn [rmap]. unfold mem_get at 1 3. by rewrite Hpq, IH.
Qed.

Lemma skeleton_lookup c k i op inc :
  skeleton c !! k = Some (i, op, inc) →
  ∃ nd, nodes c !! k = Some nd ∧ id nd = i ∧ operation nd = op
        ∧ incoming nd = inc.
Proof.
  unfold skeleton. rewrite list_lookup_fmap.
  destruct (nodes c !! k) as [nd|]; [|done]. intros [= <- <- <-]. eauto.
Qed.

(** The copy evaluates as the source does: node [k] of the copy gets the
    value of node [k] of the source. *)
Lemma copied_evaluate cl (src T : Circuit (V:=V)) (m : gmap nat nat)
    rnd_s rnd_t xs ci co ys mem_s :
  plain cl →
  (∀ x x', const_manager_create cl x = Ok x' → x' = x) →
  cls src = cl →
  NoDup (id <$> nodes src) →
  inputs src = id <$> filter (λ nd, is_op INPUT nd = true) (nodes src) →
  cls T = cl →
  length (skeleton T) = length (nodes src) →
  (∀ k nd, nodes src !! k = Some nd →
     m !! id nd = Some k
     ∧ ∃ op' inc',
         skeleton T !! k = Some (k, op', inc')
         ∧ new_Operation cl (_name (operation nd))
             (snd <$> _parameters (operation nd)) = Ok op'
         ∧ Forall2 (λ p q, m !! p = Some q ∧ q < k) (incoming nd) inc') →
  (∀ p q, m !! p = Some q → ∃ nd, nodes src !! q = Some nd ∧ id nd = p) →
  inputs T = (λ nd, default 0 (m !! id nd))
             <$> filter (λ nd, is_op INPUT nd = true) (nodes src) →
  Forall2 (λ o q, m !! o = Some q) (outputs src) (outputs T) →
  (∀ p q, m !! p = Some q → rnd_t q = rnd_s p) →
  evaluate_with_mem src rnd_s xs ci co = Ok (ys, mem_s) →
  ∃ mem_t, evaluate_with_mem T rnd_t xs ci co = Ok (ys, mem_t)
           ∧ ∀ p q, m !! p = Some q → mem_t !! q = mem_s !! p.
Proof.
  intros Hplain Hfix Hcl Hnd Hin HclT Hlen Hnodes Hm HinT Hout Hrnd.
  unfold evaluate_with_mem. rewrite Hcl, HclT.
  assert (length (inputs T) = length (inputs src)) as HlenI.
  { by rewrite HinT, Hin, !length_fmap. }
  rewrite HlenI. case_bool_decide as Hlx; [done|].
  destruct (if ci then rmap (const_manager_create cl) xs else Ok xs)
    as [xs'|] eqn:Hxs; cbn [rbind]; [|done].
  assert (length xs' = length (inputs src)) as Hlx'.
  { destruct ci; [apply rmap_length in Hxs|injection Hxs as <-]; lia. }
  set (mem0_s := foldl _ ∅ (zip (inputs src) xs')).
  set (mem0_t := foldl _ ∅ (zip (inputs T) xs')).
  destruct (rfold (evaluate_node cl rnd_s) mem0_s (nodes src))
    as [mem1|] eqn:Hfold; cbn [rbind]; [|done].
  destruct (rmap (mem_get mem1) (outputs src)) as [out|] eqn:Hget;
    cbn [rbind]; [|done].
  intros [= <- <-].
  assert (NoDup (nodes src)) as Hnd' by (by apply (NoDup_fmap_1 id)).
  assert (NoDup (inputs src)) as HndS.
  { rewrite Hin. eapply sublist_NoDup; [exact Hnd|].
    apply fmap_sublist, sublist_filter. }
  assert (∀ nd, nd ∈ nodes src → ∃ k, nodes src !! k = Some nd
                                       ∧ m !! id nd = Some k) as Hpos.
  { intros nd [k Hk]%list_elem_of_lookup_1. exists k. split; [done|].
    by destruct (Hnodes k nd Hk). }
  assert (NoDup (inputs T)) as HndT.
  { rewrite HinT. apply NoDup_fmap_2_strong; [|by apply NoDup_filter].
    intros x y [_ Hx]%list_elem_of_filter [_ Hy]%list_elem_of_filter.
    destruct (Hpos x Hx) as (kx & Hkx & ->).
    destruct (Hpos y Hy) as (ky & Hky & ->). simpl. intros ->. congruence. }
  (* the input nodes *)
  assert (∀ j p, inputs src !! j = Some p →
            ∃ q, m !! p = Some q ∧ inputs T !! j = Some q) as Hinj.
  { intros j p Hj. rewrite Hin, list_lookup_fmap in Hj.
    destruct (filter _ (nodes src) !! j) as [nd|] eqn:Hndj; [|done].
    injection Hj as <-.
    assert (nd ∈ nodes src) as Hmem.
    { apply list_elem_of_lookup_2 in Hndj.
      by apply list_elem_of_filter in Hndj as [_ ?]. }
    destruct (Hpos nd Hmem) as (k & Hk & Hmk). exists k. split; [done|].
    rewrite HinT, list_lookup_fmap, Hndj. simpl. by rewrite Hmk. }
  pose (R := λ (pre : list (Node (V:=V))) (ms mt : gmap nat V),
          ∀ p q, m !! p = Some q → p ∈ id <$> pre ∨ p ∈ inputs src →
                 mt !! q = ms !! p).
  pose (J := λ (pre : list (Node (V:=V))) (ms : gmap nat V),
          ∃ mt, rfold (evaluate_node cl rnd_t) mem0_t
                      (take (length pre) (nodes T)) = Ok mt
                ∧ R pre ms mt).
  assert (J (nodes src) mem1) as (mem_t & Hrun & HR).
  { apply (rfold_inv (evaluate_node cl rnd_s) J (nodes src))
      with (b0 := mem0_s) (b := mem1); [| |done].
    - intros pre nd post ms ms' Hl (mt & Hmt & HRpre) Hstep.
      assert (nodes src !! length pre = Some nd) as Hk.
      { rewrite Hl. by rewrite list_lookup_middle. }
      destruct (Hnodes _ _ Hk) as (Hmk & op' & inc' & Hsk & Hop & Hall).
      apply skeleton_lookup in Hsk as (nt & Hnt & Hidt & Hopt & Hinct).
      unfold J. rewrite length_app. cbn [length]. rewrite Nat.add_1_r.
      rewrite (take_S_r _ _ _ Hnt), rfold_snoc, Hmt. cbn [rbind].
      assert (is_op INPUT nt = is_op INPUT nd) as Hsame.
      { unfold is_op. rewrite Hopt.
        by rewrite (new_Operation_name _ _ _ _ Hop). }
      unfold evaluate_node in Hstep |- *. rewrite Hsame.
      destruct (is_op INPUT nd) eqn:Hinput.
      + injection Hstep as <-. exists mt. split; [done|].
        intros p q Hp [Hpin|Hpin]; [|by apply HRpre; [|right]].
        rewrite fmap_app in Hpin.
        apply elem_of_app in Hpin as [?| ->%list_elem_of_singleton];
          [by apply HRpre; [|left]|].
        apply HRpre; [done|]. right. rewrite Hin.
        apply list_elem_of_fmap. exists nd. split; [done|].
        apply list_elem_of_filter. split; [done|].
        by eapply list_elem_of_lookup_2.
      + destruct (rmap (mem_get ms) (incoming nd)) as [args|] eqn:Hargs;
          cbn [rbind] in Hstep; [|done].
        destruct (eval cl (rnd_s (id nd)) (operation nd) args) as [v|] eqn:Hv;
          cbn [rbind] in Hstep; [|done].
        injection Hstep as <-.
        assert (rmap (mem_get mt) (incoming nt) = Ok args) as ->.
        { rewrite <- Hargs, Hinct. apply rmap_mem_get_sim.
          eapply Forall2_impl; [exact Hall|]. intros p q [Hp Hq].
          apply HRpre; [done|]. left.
          destruct (Hm _ _ Hp) as (nd0 & Hq0 & <-).
          apply list_elem_of_fmap. exists nd0. split; [done|].
          rewrite Hl in Hq0. rewrite lookup_app_l in Hq0 by done.
          by eapply list_elem_of_lookup_2. }
        cbn [rbind]. rewrite Hidt, Hopt.
        rewrite (Hrnd _ _ Hmk).
        rewrite (reapply_eval cl _ _ _ _ _ Hplain Hfix Hop Hv). cbn [rbind].
        eexists. split; [done|].
        intros p q Hp Hpin. destruct (decide (p = id nd)) as [->|Hne].
        * assert (q = length pre) as -> by congruence.
          by rewrite !lookup_insert_eq.
        * assert (q ≠ length pre) as Hneq.
          { intros ->. destruct (Hm _ _ Hp) as (nd0 & Hq0 & Hid0).
            congruence. }
          rewrite !lookup_insert_ne by done. apply HRpre; [done|].
          destruct Hpin as [Hpin|?]; [|by right]. left.
          rewrite fmap_app in Hpin.
          apply elem_of_app in Hpin as [?|?%list_elem_of_singleton]; done.
    - exists mem0_t. split; [done|].
      intros p q Hp [?%elem_of_nil|[j Hj]%list_elem_of_lookup_1]; [done|].
      destruct (Hinj _ _ Hj) as (q' & Hq' & Hjq).
      assert (q' = q) as -> by congruence.
      destruct (lookup_lt_is_Some_2 xs' j) as [x Hx].
      { rewrite Hlx'. by eapply lookup_lt_Some. }
      unfold mem0_t, mem0_s.
      rewrite (input_mem_lookup _ _ _ j q x HndT Hjq Hx).
      by rewrite (input_mem_lookup _ _ _ j p x HndS Hj Hx). }
  assert (length (nodes T) = length (nodes src)) as HlenT.
  { rewrite <- Hlen. unfold skeleton. by rewrite length_fmap. }
  rewrite <- HlenT, firstn_all in Hrun. rewrite Hrun. cbn [rbind].
  assert (∀ p q, m !! p = Some q → mem_t !! q = mem1 !! p) as Hfinal.
  { intros p q Hp. apply HR; [done|]. left.
    destruct (Hm _ _ Hp) as (nd0 & Hq0 & <-).
    apply list_elem_of_fmap. exists nd0. split; [done|].
    by eapply list_elem_of_lookup_2. }
  assert (rmap (mem_get mem_t) (outputs T) = Ok out) as ->.
  { rewrite <- Hget. apply rmap_mem_get_sim.
    eapply Forall2_impl; [exact Hout|]. intros o q Ho. by apply Hfinal. }
  cbn [rbind]. by exists mem_t.
Qed.

Lemma reapply_outputs_run (m : gmap nat nat) os c c' :
  mfor os (λ node, do t ← lift (dict_get m node); add_output t) c
  = (c', Ok tt) →
  cls c' = cls c ∧ nodes c' = nodes c ∧ node_counter c' = node_counter c
  ∧ inputs c' = inputs c
  ∧ ∃ outs, Forall2 (λ o q, m !! o = Some q) os outs
            ∧ outputs c' = outputs c ++ outs.
Proof.
  revert c. induction os as [|o os IH]; intros c.
  - intros [= <-]. split_and!; [done..|]. exists []. split; [constructor|].
    by rewrite app_nil_r.
  - cbn [mfor]. intros ([] & c1 & Hone & Hrest)%bind_Ok.
    apply bind_Ok in Hone as (t & ? & [= <- Ht] & Hone).
    unfold dict_get in Ht. destruct (m !! o) as [q|] eqn:Ho; [|done].
    injection Ht as ->. injection Hone as <-.
    destruct (IH _ Hrest) as (-> & -> & -> & -> & outs & Hall & ->).
    split_and!; [done..|]. exists (t :: outs). split; [by constructor|].
    simpl. by rewrite <- app_assoc.
Qed.

(** A clone made by [reapply] in an empty circuit of the class of a plain
    source evaluates as the source. *)
Lemma reapply_clone_correct (src T : Circuit (V:=V)) (m : gmap nat nat) :
  plain (cls src) →
  (∀ x x', const_manager_create (cls src) x = Ok x' → x' = x) →
  NoDup (id <$> nodes src) →
  inputs src = id <$> filter (λ nd, is_op INPUT nd = true) (nodes src) →
  reapply src None true (clone_empty src) = (T, Ok m) →
  cls T = cls src
  ∧ id <$> nodes T = seq 0 (length (nodes src))
  ∧ (∀ k nd, nodes src !! k = Some nd → m !! id nd = Some k)
  ∧ length (inputs T) = length (inputs src)
  ∧ Forall2 (λ o q, m !! o = Some q) (outputs src) (outputs T)
  ∧ ∀ rnd_s rnd_t xs ci co ys,
      (∀ k nd, nodes src !! k = Some nd → rnd_t k = rnd_s (id nd)) →
      evaluate src rnd_s xs ci co = Ok ys →
      evaluate T rnd_t xs ci co = Ok ys.
Proof.
  intros Hplain Hfix Hnd Hin Hrun. unfold reapply in Hrun.
  rewrite (bind_run (ret ∅) _ _ _ _ eq_refl) in Hrun.
  apply bind_Ok in Hrun as (m' & c1 & Hfold & Hrun).
  apply bind_Ok in Hrun as ([] & c2 & Hout & [= <- <-]).
  apply reapply_copied in Hfold
    as (Hcls & Hcnt & Hout0 & Hlen & Hnodes & Hm & HinT); [|done|done].
  apply reapply_outputs_run in Hout
    as (Hc2 & Hn2 & Hk2 & Hi2 & outs & Hall & Ho2).
  rewrite Hout0 in Ho2. simpl in Ho2. subst outs.
  assert (skeleton c2 = skeleton c1) as Hsk by (unfold skeleton; by rewrite Hn2).
  split_and!.
  - congruence.
  - rewrite Hn2. apply list_eq. intros k. rewrite list_lookup_fmap.
    destruct (decide (k < length (nodes src))) as [Hk|Hk].
    + rewrite lookup_seq_lt by done.
      destruct (lookup_lt_is_Some_2 _ _ Hk) as [nd Hnd0].
      destruct (Hnodes k nd Hnd0) as (_ & op' & inc' & Hs & _).
      apply skeleton_lookup in Hs as (nt & -> & <- & _). done.
    + rewrite lookup_seq_ge by lia.
      rewrite lookup_ge_None_2; [done|].
      unfold skeleton in Hlen. rewrite length_fmap in Hlen. lia.
  - intros k nd Hk. by destruct (Hnodes k nd Hk).
  - by rewrite Hi2, HinT, Hin, !length_fmap.
  - done.
  - intros rnd_s rnd_t xs ci co ys Hrnd. unfold evaluate.
    destruct (evaluate_with_mem src _ xs ci co) as [[ys0 mem_s]|] eqn:Hev;
      cbn [rbind]; [|done].
    intros [= <-].
    destruct (copied_evaluate (cls src) src c2 m' rnd_s rnd_t xs ci co ys0
                mem_s)
      as (mem_t & -> & _); try done.
    + congruence.
    + by rewrite Hsk.
    + by rewrite Hsk.
    + by rewrite Hi2.
    + intros p q Hp. destruct (Hm _ _ Hp) as (nd & Hq & <-). by apply Hrnd.
Qed.

(** The loop of a transformer that rebuilds every node is the loop of
    [reapply]. *)
Lemma transformer_loop_reapply (l : list (Node (V:=V))) :
  ∀ (m : gmap nat nat) c c' res,
  mfold (λ (result : gmap nat tres) node,
           do args ← lift (rmap (dict_get result) (incoming node));
           do r ← CircuitTransformer_visit node args;
           ret (<[id node := r]> result)) (RNode <$> m) l c = (c', Ok res) →
  ∃ m', res = RNode <$> m'
    ∧ mfold (λ (m : gmap nat nat) node,
               match (∅ : gmap nat nat) !! id node with
               | Some dst => ret (<[id node := dst]> m)
               | None =>
                   do incoming ← lift (rmap (dict_get m) (incoming node));
                   do clone ← Node_reapply node incoming;
                   ret (<[id node := clone]> m)
               end) m l c = (c', Ok m').
Proof.
  induction l as [|nd l IH]; intros m c c' res.
  - intros [= <- <-]. by exists m.
  - cbn [mfold]. intros (r1 & c1 & Hstep & Hrest)%bind_Ok.
    apply bind_Ok in Hstep as (args & c0 & [= <- Hargs] & Hstep).
    apply bind_Ok in Hstep as (r & c2 & Hvisit & [= -> <-]).
    assert (∃ inc', rmap (dict_get m) (incoming nd) = Ok inc'
                    ∧ args = RNode <$> inc') as (inc' & Hinc & ->).
    { clear -Hargs. revert args Hargs.
      induction (incoming nd) as [|p ps IHp]; intros args; simpl.
      - intros [= <-]. by exists [].
      - unfold dict_get at 1 3. rewrite lookup_fmap.
        destruct (m !! p) as [q|]; cbn [fmap option_fmap option_map rbind];
          [|done].
        destruct (rmap (dict_get (RNode <$> m)) ps) as [as'|] eqn:Hps;
          cbn [rbind]; [|done].
        intros [= <-]. destruct (IHp as' eq_refl) as (inc' & -> & ->).
        by exists (q :: inc'). }
    assert (∃ clone, Node_reapply nd inc' c = (c1, Ok clone)
                     ∧ r = RNode clone) as (clone & Hclone & ->).
    { unfold CircuitTransformer_visit in Hvisit.
      assert (visit_generic nd (RNode <$> inc') c = (c1, Ok r)) as Hgen.
      { destruct (_name (operation nd)); try done.
        by destruct inc' as [|q [|? ?]]. }
      unfold visit_generic in Hgen.
      assert (rmap (λ a, match a with
                         | RNode n => Ok n
                         | RArray _ => Raise AttributeError
                         end) (RNode <$> inc') = Ok inc') as Hback.
      { clear. induction inc' as [|q l IH]; [done|].
        rewrite fmap_cons. cbn [rmap rbind]. by rewrite IH. }
      rewrite (bind_run (lift _) _ c c _ (f_equal (pair c) Hback)) in Hgen.
      apply bind_Ok in Hgen as (clone & c3 & Hre & [= <- <-]).
      by exists clone. }
    rewrite <- fmap_insert in Hrest.
    destruct (IH _ _ _ _ Hrest) as (m' & -> & Hloop).
    exists m'. split; [done|].
    rewrite lookup_empty.
    assert ((do incoming ← lift (rmap (dict_get m) (incoming nd));
             do clone ← Node_reapply nd incoming;
             ret (<[id nd := clone]> m)) c
            = (c1, Ok (<[id nd := clone]> m))) as Hs.
    { rewrite (bind_run (lift _) _ c c _ (f_equal (pair c) Hinc)).
      by rewrite (bind_run _ _ c c1 _ Hclone). }
    by rewrite (bind_run _ _ _ _ _ Hs).
Qed.

Lemma mfor_ext {S A} (f g : A → ST S unit) l :
  (∀ x s, f x s = g x s) → ∀ s, mfor l f s = mfor l g s.
Proof.
  intros Hfg. induction l as [|x l IH]; intros s; [done|].
  cbn [mfor]. unfold bind. rewrite Hfg.
  destruct (g x s) as [s1 [[]|e]]; [apply IH|done].
Qed.

Lemma transformer_outputs_reapply (m : gmap nat nat) os c :
  mfor os (λ node, do r ← lift (dict_get (RNode <$> m) node); make_output r)
       c
  = mfor os (λ node, do t ← lift (dict_get m node); add_output t) c.
Proof.
  apply mfor_ext. intros o c0. unfold bind, lift, dict_get.
  rewrite lookup_fmap. by destruct (m !! o).
Qed.

Lemma transformer_is_reapply (src T : Circuit (V:=V)) :
  CircuitTransformer_transform src = Ok T →
  ∃ m, reapply src None true (clone_empty src) = (T, Ok m).
Proof.
  unfold CircuitTransformer_transform.
  destruct (bind _ _ (new_Circuit (cls src))) as [c [[]|e]] eqn:Hrun;
    cbn [rbind snd fst]; [|done].
  intros [= <-].
  apply bind_Ok in Hrun as (res & c1 & Hloop & Hout).
  rewrite <- (fmap_empty RNode) in Hloop.
  apply transformer_loop_reapply in Hloop as (m & -> & Hloop).
  rewrite transformer_outputs_reapply in Hout.
  exists m. unfold reapply, clone_empty.
  rewrite (bind_run (ret ∅) _ _ _ _ eq_refl).
  rewrite (bind_run _ _ _ _ _ Hloop).
  rewrite (bind_run _ _ _ _ _ Hout). done.
Qed.

(** X22.  Let [src] be a circuit of a plain class, with pairwise distinct
    node ids, whose [inputs] are its [INPUT] nodes in node order, and whose
    constant manager returns the values it accepts unchanged.  If
    [reapply] of [src] on an empty circuit of its class returns, the result
    is a copy: it has the class of [src], its nodes are numbered [0, 1, ...]
    in the order of [src], the returned dictionary maps node [k] of [src] to
    node [k], inputs and outputs correspond in order, and whenever [src]
    evaluates to [ys] the copy evaluates to [ys] on the same input, with
    the random nodes drawing the same values. *)
Theorem reapply_clone (src T : Circuit (V:=V)) (m : gmap nat nat) :
  plain (cls src) →
  (∀ x x', const_manager_create (cls src) x = Ok x' → x' = x) →
  NoDup (id <$> nodes src) →
  inputs src = id <$> filter (λ nd, is_op INPUT nd = true) (nodes src) →
  reapply src None true (clone_empty src) = (T, Ok m) →
  cls T = cls src
  ∧ id <$> nodes T = seq 0 (length (nodes src))
  ∧ (∀ k nd, nodes src !! k = Some nd → m !! id nd = Some k)
  ∧ length (inputs T) = length (inputs src)
  ∧ Forall2 (λ o q, m !! o = Some q) (outputs src) (outputs T)
  ∧ ∀ rnd_s rnd_t xs ci co ys,
      (∀ k nd, nodes src !! k = Some nd → rnd_t k = rnd_s (id nd)) →
      evaluate src rnd_s xs ci co = Ok ys →
      evaluate T rnd_t xs ci co = Ok ys.
Proof. apply reapply_clone_correct. Qed.

(** X23.  A [CircuitTransformer] without visit methods of its own copies
    the circuit: under the conditions of X22, if [transform] returns [T]
    then [T] has the class of the source, one node per node of the source,
    numbered in order, as many inputs and outputs, and it evaluates to
    [ys] whenever the source does. *)
Theorem CircuitTransformer_copies (src T : Circuit (V:=V)) :
  plain (cls src) →
  (∀ x x', const_manager_create (cls src) x = Ok x' → x' = x) →
  NoDup (id <$> nodes src) →
  inputs src = id <$> filter (λ nd, is_op INPUT nd = true) (nodes src) →
  CircuitTransformer_transform src = Ok T →
  cls T = cls src
  ∧ id <$> nodes T = seq 0 (length (nodes src))
  ∧ length (inputs T) = length (inputs src)
  ∧ length (outputs T) = length (outputs src)
  ∧ ∀ rnd_s rnd_t xs ci co ys,
      (∀ k nd, nodes src !! k = Some nd → rnd_t k = rnd_s (id nd)) →
      evaluate src rnd_s xs ci co = Ok ys →
      evaluate T rnd_t xs ci co = Ok ys.
Proof.
  intros Hplain Hfix Hnd Hin [m Hrun]%transformer_is_reapply.
  destruct (reapply_clone_correct src T m Hplain Hfix Hnd Hin Hrun)
    as (H1 & H2 & _ & H3 & H4 & H5).
  split_and!; try done. symmetry. by eapply Forall2_length.
Qed.

End copy.

Lemma Boolean_create_fixed (x x' : Z) :
  const_manager_create BooleanCircuit x = Ok x' → x' = x.
Proof.
  unfold const_manager_create, Boolean_create. simpl.
  case_bool_decide; [|done]. by intros [= <-].
Qed.

(** X22, witness: the clone of [unused_and_circuit]. *)
Lemma reapply_clone_witness :
  ∃ T m, reapply unused_and_circuit None true (clone_empty unused_and_circuit)
         = (T, Ok m)
         ∧ id <$> nodes T = [0; 1; 2; 3]
         ∧ evaluate unused_and_circuit (λ _, 0%Z) [1; 0]%Z true true
           = Ok [1%Z]
         ∧ evaluate T (λ _, 0%Z) [1; 0]%Z true true = Ok [1%Z].
Proof.
  destruct (reapply unused_and_circuit None true
              (clone_empty unused_and_circuit)) as [T [m|]] eqn:Hrun;
    [|vm_compute in Hrun; discriminate].
  exists T, m. split; [reflexivity|].
  destruct (reapply_clone unused_and_circuit T m) as (_ & H2 & _ & _ & _ & H5).
  - right. reflexivity.
  - apply Boolean_create_fixed.
  - apply (bool_decide_unpack _). vm_compute. exact I.
  - reflexivity.
  - exact Hrun.
  - split; [exact H2|]. split; [vm_compute; reflexivity|].
    apply (H5 (λ _, 0%Z) (λ _, 0%Z)); [done|]. vm_compute. reflexivity.
Defined.

(** X23, witness: the transformer on [unused_and_circuit]. *)
Lemma CircuitTransformer_copies_witness :
  ∃ T, CircuitTransformer_transform unused_and_circuit = Ok T
       ∧ id <$> nodes T = [0; 1; 2; 3]
       ∧ evaluate T (λ _, 0%Z) [1; 0]%Z true true = Ok [1%Z].
Proof.
  destruct (CircuitTransformer_transform unused_and_circuit) as [T|] eqn:Hrun;
    [|vm_compute in Hrun; discriminate].
  exists T. split; [reflexivity|].
  destruct (CircuitTransformer_copies unused_and_circuit T)
    as (_ & H2 & _ & _ & H5).
  - right. reflexivity.
  - apply Boolean_create_fixed.
  - apply (bool_decide_unpack _). vm_compute. exact I.
  - reflexivity.
  - exact Hrun.
  - split; [exact H2|].
    apply (H5 (λ _, 0%Z) (λ _, 0%Z)); [done|]. vm_compute. reflexivity.
Defined.

Section operation_facts.
Context {V : Type} `{!PyValue V}.





End operation_facts.

Lemma uses_app p l1 l2 : uses p (l1 ++ l2) = uses p l1 + uses p l2.
Proof. unfold uses. by rewrite filter_app, length_app. Qed.

Lemma uses_snoc_eq p us : uses p (us ++ [p]) = S (uses p us).
Proof.
  rewrite uses_app. unfold uses at 2. rewrite filter_cons_True by done.
  simpl. lia.
Qed.

Lemma uses_snoc_ne p a us : a ≠ p → uses p (us ++ [a]) = uses p us.
Proof.
  intros Hne. rewrite uses_app. unfold uses at 2.
  rewrite filter_cons_False by done. simpl. lia.
Qed.

Lemma uses_zero p us : p ∉ us ↔ uses p us = 0.
Proof.
  unfold uses. split.
  - intros Hnot. destruct (filter _ us) as [|a l] eqn:E; [done|].
    assert (a ∈ filter (λ a, a = p) us) as Ha by (rewrite E; left).
    apply list_elem_of_filter in Ha as [-> Ha]. done.
  - intros Hlen Hin.
    assert (p ∈ filter (λ a, a = p) us) as Ha
      by (by apply list_elem_of_filter).
    apply length_zero_iff_nil in Hlen. rewrite Hlen in Ha.
    by apply elem_of_nil in Ha.
Qed.

Lemma filter_ext_in {A} (P Q : A → Prop) `{!∀ x, Decision (P x)}
    `{!∀ x, Decision (Q x)} (l : list A) :
  (∀ x, x ∈ l → (P x ↔ Q x)) → filter P l = filter Q l.
Proof.
  induction l as [|x l IH]; intros Hl; [done|].
  rewrite !filter_cons.
  rewrite IH by (intros y Hy; apply Hl; by right).
  destruct (decide (P x)) as [HP|HP], (decide (Q x)) as [HQ|HQ]; try done.
  - destruct HQ. by apply (Hl x); [left|].
  - destruct HP. by apply (Hl x); [left|].
Qed.

(** A predicate that stops to hold of one element of a list without
    duplicates loses one element of the filtered list. *)
Lemma filter_length_flip {A} (P Q : A → Prop) `{!∀ x, Decision (P x)}
    `{!∀ x, Decision (Q x)} (l : list A) a :
  NoDup l → a ∈ l → P a → ¬ Q a → (∀ x, x ≠ a → (P x ↔ Q x)) →
  length (filter P l) = S (length (filter Q l)).
Proof.
  intros Hnd Hin HPa HQa Hiff.
  induction l as [|x l IH]; [by apply elem_of_nil in Hin|].
  apply NoDup_cons in Hnd as [Hx Hnd].
  apply elem_of_cons in Hin as [->|Hin].
  - rewrite filter_cons_True, filter_cons_False by done. cbn. f_equal.
    f_equal. apply filter_ext_in. intros y Hy. apply Hiff. by intros ->.
  - assert (x ≠ a) as Hne by (by intros ->).
    rewrite !filter_cons. specialize (IH Hnd Hin).
    destruct (decide (P x)) as [HP|HP], (decide (Q x)) as [HQ|HQ]; cbn;
      try lia.
    + destruct HQ. by apply (Hiff x).
    + destruct HP. by apply (Hiff x).
Qed.

Section cell_lifetimes.
Context {V : Type} `{!PyValue V}.
Variable o : Options.
Variable c : Circuit (V:=V).

Lemma visit_generic_unfold (bit : Node (V:=V)) :
  Serializer_visit_generic o c bit
  = (do _ ← alloc (id bit);
     do _ ← serialize_bit o bit;
     mfor (incoming bit) (count_use o c)).
Proof. reflexivity. Qed.

(** One round of the loop over the parents. *)
Lemma count_use_Ok arg s s' :
  count_use o c arg s = (s', Ok tt) →
  let u := S (default 0 (n_used s !! arg)) in
  u ≤ n_outgoing c arg
  ∧ n_used s' = <[arg := u]> (n_used s)
  ∧ bit_id s' = bit_id s ∧ ram_size s' = ram_size s
  ∧ result_of s' = result_of s
  ∧ (if bool_decide (u = n_outgoing c arg) && negb (is_OUTPUT c arg)
        && reuse_memory o
     then ∃ cell, bit_id s !! arg = Some cell ∧ free s' = free s ++ [cell]
     else free s' = free s).
Proof.
  unfold count_use, bind, modify, get, lift. cbn.
  rewrite lookup_insert_eq. cbn.
  unfold assert. case_bool_decide as Hle; [|done].
  case_bool_decide as Heq; cbn.
  - unfold on_free. destruct (is_OUTPUT c arg); cbn.
    + unfold ret. intros [= <-]. by split_and!.
    + destruct (reuse_memory o); cbn.
      * unfold bind, get, modify. cbn.
        destruct (bit_id s !! arg) as [cell|] eqn:Hcell; [|done].
        intros [= <-]. cbn. split_and!; try done. by exists cell.
      * unfold ret. intros [= <-]. by split_and!.
  - unfold ret. intros [= <-]. by split_and!.
Qed.

(** A parent released once stays released as long as the run goes on. *)
Lemma released_snoc p a us :
  (p ∈ us ++ [a] → uses p (us ++ [a]) ≤ n_outgoing c p) →
  released o c p us → released o c p (us ++ [a]).
Proof.
  intros Hb (Hr & Ho & Hin & Hu).
  assert (p ∈ us ++ [a]) as Hin' by (apply elem_of_app; by left).
  specialize (Hb Hin').
  destruct (decide (a = p)) as [->|Hne].
  - rewrite uses_snoc_eq in Hb. lia.
  - rewrite uses_snoc_ne in Hb by done.
    split_and!; try done. by rewrite uses_snoc_ne.
Qed.

Lemma released_snoc_inv p a us :
  p ≠ a → released o c p (us ++ [a]) → released o c p us.
Proof.
  intros Hne (Hr & Ho & Hin & Hu). rewrite uses_snoc_ne in Hu by done.
  split_and!; try done.
  apply elem_of_app in Hin as [?|Hin]; [done|].
  by apply list_elem_of_singleton in Hin.
Qed.

Lemma count_use_inv arg al us s s' :
  cells_inv o c al us s → arg ∈ al →
  count_use o c arg s = (s', Ok tt) →
  cells_inv o c al (us ++ [arg]) s'.
Proof.
  intros [Hused Hbound Hdom Hram Hnd Hfr Hlive Hshare Hal Hndal Hcnt]
    Harg Hrun.
  apply count_use_Ok in Hrun as (Hle & Hn & Hb & Hr & _ & Hfree).
  rewrite Hused in Hle, Hn, Hfree.
  assert (∀ p, p ∈ us ++ [arg] → uses p (us ++ [arg]) ≤ n_outgoing c p)
    as Hbound'.
  { intros p Hp. destruct (decide (arg = p)) as [->|Hne].
    - by rewrite uses_snoc_eq.
    - rewrite uses_snoc_ne by done. apply Hbound.
      apply elem_of_app in Hp as [Hp|Hp]; [done|].
      apply list_elem_of_singleton in Hp. congruence. }
  assert (¬ released o c arg us) as Hlivearg.
  { intros (_ & _ & _ & Hu). lia. }
  assert (∀ p, released o c p us → released o c p (us ++ [arg])) as Hmono.
  { intros p. apply released_snoc. apply Hbound'. }
  split.
  - intros p. rewrite Hn. destruct (decide (arg = p)) as [->|Hne].
    + by rewrite lookup_insert_eq, uses_snoc_eq.
    + rewrite lookup_insert_ne by done. by rewrite uses_snoc_ne.
  - done.
  - intros p. rewrite Hb. apply Hdom.
  - intros p cell. rewrite Hb, Hr. apply Hram.
  - destruct (_ && _); [|by rewrite Hfree].
    destruct Hfree as (cell & Hcell & ->).
    apply NoDup_app. split_and!; [done| |apply NoDup_singleton].
    intros x Hx Hx'. apply list_elem_of_singleton in Hx' as ->.
    by apply (Hlive arg cell).
  - intros cell. rewrite Hr. destruct (_ && _).
    + destruct Hfree as (cell' & Hcell & ->).
      intros [Hin|Hin]%elem_of_app; [by apply Hfr|].
      apply list_elem_of_singleton in Hin as ->. by eapply Hram.
    + rewrite Hfree. apply Hfr.
  - intros p cell. rewrite Hb. intros Hp Hnot.
    assert (¬ released o c p us) as Hnot' by (intros H; by apply Hnot, Hmono).
    destruct (_ && _) eqn:Hcond.
    + destruct Hfree as (cell' & Hcell & ->).
      intros [Hin|Hin]%elem_of_app; [by apply (Hlive p cell)|].
      apply list_elem_of_singleton in Hin as ->.
      destruct (decide (p = arg)) as [->|Hne].
      * apply Hnot. apply andb_true_iff in Hcond as [Hcond Hreuse].
        apply andb_true_iff in Hcond as [Heq Hout].
        apply bool_decide_eq_true in Heq. apply negb_true_iff in Hout.
        split_and!; try done.
        -- apply elem_of_app. right. by apply list_elem_of_singleton.
        -- by rewrite uses_snoc_eq.
      * destruct (Hshare p arg cell' Hne Hp Hcell); done.
    + rewrite Hfree. by apply (Hlive p cell).
  - intros p q cell Hne. rewrite Hb. intros Hp Hq.
    destruct (Hshare p q cell Hne Hp Hq); [left|right]; by apply Hmono.
  - intros p [Hp|Hp]%elem_of_app; [by apply Hal|].
    by apply list_elem_of_singleton in Hp as ->.
  - done.
  - rewrite Hr, <- Hcnt. destruct (_ && _) eqn:Hcond.
    + destruct Hfree as (cell & Hcell & ->).
      apply andb_true_iff in Hcond as [Hcond Hreuse].
      apply andb_true_iff in Hcond as [Heq Hout].
      apply bool_decide_eq_true in Heq. apply negb_true_iff in Hout.
      rewrite length_app. cbn [length].
      rewrite (filter_length_flip (λ p, ¬ released o c p us)
                 (λ p, ¬ released o c p (us ++ [arg])) al arg); try done.
      * lia.
      * intros Hnot. apply Hnot. split_and!; try done.
        -- apply elem_of_app. right. by apply list_elem_of_singleton.
        -- by rewrite uses_snoc_eq.
      * intros p Hne. split; intros Hnot Hrel; apply Hnot.
        -- by eapply released_snoc_inv.
        -- by apply Hmono.
    + rewrite Hfree. f_equal. f_equal. apply filter_ext_in. intros p _.
      destruct (decide (p = arg)) as [->|Hne].
      * split; [intros _; exact Hlivearg|intros _].
        intros (Hreuse & Hout & _ & Hu).
        rewrite uses_snoc_eq in Hu.
        rewrite Hreuse, Hout, bool_decide_eq_true_2 in Hcond by done.
        done.
      * split; intros Hnot Hrel; apply Hnot.
        -- by apply Hmono.
        -- by eapply released_snoc_inv.
Qed.

Lemma count_uses_inv args al us s s' :
  cells_inv o c al us s → Forall (λ a, a ∈ al) args →
  mfor args (count_use o c) s = (s', Ok tt) →
  cells_inv o c al (us ++ args) s'
  ∧ bit_id s' = bit_id s ∧ result_of s' = result_of s.
Proof.
  revert us s. induction args as [|a args IH]; intros us s Hinv Hargs; simpl.
  - unfold ret. intros [= <-]. by rewrite app_nil_r.
  - intros H. apply bind_Ok in H as ([] & s1 & Ha & Hrest).
    apply Forall_cons in Hargs as [Hin Hargs].
    pose proof (count_use_inv _ _ _ _ _ Hinv Hin Ha) as Hinv1.
    apply count_use_Ok in Ha as (_ & _ & Hb & _ & Hres & _).
    destruct (IH (us ++ [a]) s1 Hinv1 Hargs Hrest) as (Hinv2 & Hb2 & Hres2).
    rewrite <- app_assoc in Hinv2. split_and!; [done|congruence..].
Qed.

(** [alloc] hands out a cell that no node still waiting for a use holds. *)
Lemma alloc_inv n al us s :
  cells_inv o c al us s → n ∉ al →
  cells_inv o c (al ++ [n]) us (exec (alloc n) s).
Proof.
  intros [Hused Hbound Hdom Hram Hnd Hfr Hlive Hshare Hal Hndal Hcnt] Hfresh.
  assert (filter (λ p, ¬ released o c p us) (al ++ [n])
          = filter (λ p, ¬ released o c p us) al ++ [n]) as Hfilter.
  { rewrite filter_app, filter_cons_True; [done|].
    intros (_ & _ & Hin & _). by apply Hfresh, Hal. }
  assert (NoDup (al ++ [n])) as Hndal'.
  { apply NoDup_app. split_and!; [done| |apply NoDup_singleton].
    intros x Hx Hx'. apply list_elem_of_singleton in Hx' as ->. done. }
  unfold exec. rewrite alloc_unfold. cbn.
  assert (bit_id s !! n = None) as Hnone.
  { apply eq_None_not_Some. by rewrite Hdom. }
  assert (free s = [] ∨ ∃ l0 x0, free s = l0 ++ [x0])
    as [Hfree|(l0 & x0 & Hfree)].
  { destruct (free s) as [|a l _] using rev_ind; [by left|right; eauto]. }
  - rewrite Hfree. cbn. split; cbn; try done.
    + intros p. destruct (decide (n = p)) as [->|Hne].
      * rewrite lookup_insert_eq. split; [|by eexists].
        intros _. apply elem_of_app. right. by apply list_elem_of_singleton.
      * rewrite lookup_insert_ne by done. rewrite Hdom.
        rewrite elem_of_app, list_elem_of_singleton. naive_solver.
    + intros p cell. destruct (decide (n = p)) as [->|Hne].
      * rewrite lookup_insert_eq. intros [= <-]. lia.
      * rewrite lookup_insert_ne by done. intros Hp.
        specialize (Hram p cell Hp). lia.
    + constructor.
    + intros cell Hin. by apply elem_of_nil in Hin.
    + intros p cell _ _ Hin. by apply elem_of_nil in Hin.
    + intros p q cell Hne.
      destruct (decide (n = p)) as [->|Hp]; [|destruct (decide (n = q)) as [->|Hq]].
      * rewrite lookup_insert_eq, lookup_insert_ne by done.
        intros [= <-] Hq. specialize (Hram q _ Hq). lia.
      * rewrite lookup_insert_eq, lookup_insert_ne by done.
        intros Hp' [= <-]. specialize (Hram p _ Hp'). lia.
      * rewrite !lookup_insert_ne by done. apply Hshare. done.
    + intros p Hp. apply elem_of_app. left. by apply Hal.
    + rewrite Hfilter, length_app. rewrite Hfree in Hcnt. cbn in *. lia.
  - rewrite Hfree in *. rewrite last_snoc, removelast_last.
    rewrite bool_decide_eq_false_2 by (by destruct l0).
    cbn.
    apply NoDup_app in Hnd as (Hnd & Hx & _).
    assert (x0 ∉ l0) as Hx0.
    { intros Hin. apply (Hx _ Hin). by apply list_elem_of_singleton. }
    split; cbn; try done.
    + intros p. destruct (decide (n = p)) as [->|Hne].
      * rewrite lookup_insert_eq. split; [|by eexists].
        intros _. apply elem_of_app. right. by apply list_elem_of_singleton.
      * rewrite lookup_insert_ne by done. rewrite Hdom.
        rewrite elem_of_app, list_elem_of_singleton. naive_solver.
    + intros p cell. destruct (decide (n = p)) as [->|Hne].
      * rewrite lookup_insert_eq. intros [= <-]. apply Hfr.
        apply elem_of_app. right. by apply list_elem_of_singleton.
      * rewrite lookup_insert_ne by done. apply Hram.
    + intros cell Hin. apply Hfr. apply elem_of_app. by left.
    + intros p cell. destruct (decide (n = p)) as [->|Hne].
      * rewrite lookup_insert_eq. by intros [= <-] _.
      * rewrite lookup_insert_ne by done. intros Hp Hnot Hin.
        apply (Hlive p cell Hp Hnot). apply elem_of_app. by left.
    + assert (∀ q, q ≠ n → bit_id s !! q = Some x0 → released o c q us)
        as Hrel.
      { intros q Hq Hcell. destruct (decide (released o c q us)); [done|].
        destruct (Hlive q x0 Hcell); [done|].
        apply elem_of_app. right. by apply list_elem_of_singleton. }
      intros p q cell Hne.
      destruct (decide (n = p)) as [->|Hp]; [|destruct (decide (n = q)) as [->|Hq]].
      * rewrite lookup_insert_eq, lookup_insert_ne by done.
        intros [= <-] Hq. right. by apply Hrel.
      * rewrite lookup_insert_eq, lookup_insert_ne by done.
        intros Hp' [= <-]. left. by apply Hrel.
      * rewrite !lookup_insert_ne by done. apply Hshare. done.
    + intros p Hp. apply elem_of_app. left. by apply Hal.
    + rewrite Hfilter, length_app. rewrite length_app in Hcnt. cbn in *. lia.
Qed.

Lemma alloc_run n s : alloc n s = (exec (alloc n) s, Ok tt).
Proof. unfold exec. by rewrite alloc_unfold. Qed.

Lemma parents_of_snoc (pre : list (Node (V:=V))) nd :
  parents_of (pre ++ [nd]) = parents_of pre ++ incoming nd.
Proof.
  unfold parents_of. rewrite bind_app. f_equal.
  cbn. apply app_nil_r.
Qed.

Lemma cells_visited_init : cells_visited o c [] Serializer_init.
Proof.
  unfold cells_visited. split_and!.
  - split; cbn; try done.
    + intros p _. lia.
    + intros p. split; [by intros [? ?]|by intros ?%elem_of_nil].
    + constructor.
    + by intros cell ?%elem_of_nil.
    + constructor.
  - cbn. by intros p [? ?].
  - by intros i j p nd _ ?.
Qed.

Lemma cells_visited_step pre nd s s' :
  id nd ∉ id <$> pre →
  cells_visited o c pre s → Serializer_visit o c nd s = (s', Ok tt) →
  cells_visited o c (pre ++ [nd]) s'.
Proof.
  intros Hfresh (Hinv & Hres & Hhist) H.
  unfold Serializer_visit in H.
  apply bind_Ok in H as (s0 & s1 & Hg & H). injection Hg as <- <-.
  apply bind_Ok in H as (rs & s1 & Hl & H).
  unfold lift in Hl. injection Hl as <- Hl.
  apply rmap_dict_get_Some in Hl.
  apply bind_Ok in H as ([] & s3 & Hv & Hm).
  unfold modify in Hm. injection Hm as <-.
  assert (Forall (λ a, a ∈ id <$> pre ++ [nd]) (incoming nd)) as Hargs.
  { eapply Forall_impl; [exact Hl|]. cbn. intros a Ha.
    rewrite fmap_app. apply elem_of_app. left. by apply Hres. }
  pose proof (alloc_inv (id nd) _ _ _ Hinv Hfresh) as Hinv1.
  replace ((id <$> pre) ++ [id nd]) with (id <$> (pre ++ [nd])) in Hinv1
    by (by rewrite fmap_app).
  assert (cells_inv o c (id <$> pre ++ [nd]) (parents_of (pre ++ [nd])) s3
          ∧ bit_id s3 = bit_id (exec (alloc (id nd)) s)
          ∧ result_of s3 = result_of s) as (Hinv3 & Hbit & Hres3).
  { assert (result_of (exec (alloc (id nd)) s) = result_of s) as Hra
      by (unfold exec; by rewrite alloc_unfold).
    destruct (_name (operation nd)) eqn:Hname.
    1:{ destruct (incoming nd) eqn:Hinc; [|done].
        unfold Serializer_visit_INPUT in Hv. rewrite alloc_run in Hv.
        injection Hv as <-. rewrite parents_of_snoc, Hinc, app_nil_r.
        done. }
    2: done.
    all: rewrite visit_generic_unfold in Hv;
      rewrite (bind_run _ _ _ _ _ (alloc_run _ _)) in Hv;
      apply bind_Ok in Hv as ([] & sb & Hbit & Hrel);
      apply serialize_bit_Ok in Hbit
        as (? & ? & ? & ? & _ & _ & _ & _ & ->);
      (eapply count_uses_inv in Hrel as (Hinv3 & Hb3 & Hr3);
       [| |exact Hargs]);
      [rewrite parents_of_snoc; split_and!; [exact Hinv3|done|by rewrite Hr3]
      |by destruct Hinv1]. }
  unfold cells_visited. split_and!.
  - destruct Hinv3. by split.
  - cbn. intros p. rewrite Hres3, fmap_app. cbn.
    destruct (decide (id nd = p)) as [<-|Hne].
    + intros _. apply elem_of_app. right. by apply list_elem_of_singleton.
    + rewrite lookup_insert_ne by done. intros Hp.
      apply elem_of_app. left. by apply Hres.
  - cbn. intros i j p nd' Hij Hi Hj. rewrite Hbit.
    unfold exec. rewrite alloc_unfold. cbn.
    assert (i < length pre) as Hi'.
    { apply lookup_lt_Some in Hj. rewrite length_app in Hj. simpl in Hj. lia. }
    rewrite lookup_app_l in Hi by done.
    assert (id p ∈ id <$> pre) as Hp.
    { apply list_elem_of_fmap. exists p. split; [done|].
      by eapply list_elem_of_lookup_2. }
    rewrite (lookup_insert_ne _ (id nd) (id p)) by congruence.
    destruct (decide (j < length pre)) as [Hjp|Hjp].
    + rewrite lookup_app_l in Hj by done.
      assert (id nd' ∈ id <$> pre) as Hq.
      { apply list_elem_of_fmap. exists nd'. split; [done|].
        by eapply list_elem_of_lookup_2. }
      rewrite lookup_insert_ne by congruence.
      rewrite take_app_le by lia. by apply (Hhist i j p nd').
    + assert (j = length pre) as ->.
      { apply lookup_lt_Some in Hj. rewrite length_app in Hj. simpl in Hj. lia. }
      rewrite list_lookup_middle in Hj by done. injection Hj as <-.
      rewrite take_app_length. intros Hsame.
      destruct Hinv1 as [_ _ Hdom1 _ _ _ _ Hshare1 Hal1 _ _].
      unfold exec in *. rewrite alloc_unfold in *. cbn in *.
      destruct (proj2 (Hdom1 (id p))) as [cell Hcell].
      { rewrite fmap_app. apply elem_of_app. by left. }
      rewrite lookup_insert_ne in Hcell by congruence.
      rewrite lookup_insert_eq in Hsame.
      destruct (Hshare1 (id p) (id nd) cell) as [Hrel|Hrel].
      * congruence.
      * by rewrite lookup_insert_ne by congruence.
      * rewrite lookup_insert_eq. congruence.
      * done.
      * destruct Hrel as (_ & _ & Hin & _).
        destruct Hinv as [_ _ _ _ _ _ _ _ Hal _ _]. by apply Hal in Hin.
Qed.

(** X25.  The raw serializer hands a cell to a second node only when the
    first one is done with it: after a run that returns every node has a
    cell below [ram_size], and when a node got the cell an earlier node
    had, memory reuse is on, the earlier node is not an output, and neither
    the later node nor any node after it has the earlier one as a
    parent. *)
Theorem serialize_cell_reuse s :
  NoDup (id <$> nodes c) →
  Serializer_visit_all o c Serializer_init = (s, Ok tt) →
  (∀ nd, nd ∈ nodes c →
         ∃ cell, bit_id s !! id nd = Some cell ∧ cell < ram_size s)
  ∧ ∀ i j p nd, i < j → nodes c !! i = Some p → nodes c !! j = Some nd →
      bit_id s !! id p = bit_id s !! id nd →
      reuse_memory o = true ∧ (id p ∉ outputs c)
      ∧ ∀ k u, j ≤ k → nodes c !! k = Some u → id p ∉ incoming u.
Proof.
  intros Hnd Hrun. unfold Serializer_visit_all in Hrun.
  assert (cells_visited o c (nodes c) s) as (Hinv & _ & Hhist).
  { apply (mfor_inv (Serializer_visit o c) (cells_visited o c) (nodes c)
             Serializer_init s); [apply cells_visited_init| |done].
    intros pre nd post s1 s2 Epre Hvis Hv.
    apply (cells_visited_step pre nd s1 s2); [|done..].
    rewrite Epre, fmap_app, fmap_cons in Hnd.
    apply NoDup_app in Hnd as (_ & Hnd & _).
    intros Hin. apply (Hnd _ Hin). left. }
  destruct Hinv as [_ Hbound Hdom Hram _ _ _ _ _ _ _].
  split.
  - intros nd Hin. destruct (proj2 (Hdom (id nd))) as [cell Hcell].
    { apply list_elem_of_fmap. by exists nd. }
    exists cell. split; [done|]. by eapply Hram.
  - intros i j p nd Hij Hi Hj Hsame.
    destruct (Hhist i j p nd Hij Hi Hj Hsame) as (Hreuse & Hout & Hin & Hu).
    split_and!; [done| |].
    + unfold is_OUTPUT in Hout. by apply bool_decide_eq_false in Hout.
    + intros k u Hk Hu' Hpar.
      assert (id p ∈ parents_of (nodes c)) as Hall.
      { rewrite <- (take_drop j (nodes c)). unfold parents_of.
        rewrite bind_app. apply elem_of_app. by left. }
      specialize (Hbound _ Hall).
      rewrite <- (take_drop j (nodes c)) in Hbound.
      unfold parents_of in Hbound. rewrite bind_app, uses_app in Hbound.
      fold (parents_of (take j (nodes c))) in Hbound.
      assert (uses (id p) (drop j (nodes c) ≫= incoming) = 0) as Hz by lia.
      apply uses_zero in Hz. apply Hz.
      apply list_elem_of_bind. exists u. split; [done|].
      apply list_elem_of_lookup. exists (k - j).
      rewrite lookup_drop. rewrite <- Hu'. f_equal. lia.
Qed.

End cell_lifetimes.

(** X25, witness: [and_xor_circuit] with the default options. *)
Lemma serialize_cell_reuse_witness :
  NoDup (id <$> nodes and_xor_circuit)
  ∧ Forall (λ nd, ∃ cell,
      bit_id (exec (Serializer_visit_all default_options and_xor_circuit)
                Serializer_init) !! id nd = Some cell
      ∧ cell < ram_size
                 (exec (Serializer_visit_all default_options and_xor_circuit)
                    Serializer_init))
      (nodes and_xor_circuit).
Proof.
  assert (NoDup (id <$> nodes and_xor_circuit)) as Hnd.
  { apply (bool_decide_unpack _). vm_compute. exact I. }
  split; [exact Hnd|]. apply Forall_forall.
  apply (serialize_cell_reuse default_options and_xor_circuit); [exact Hnd|].
  vm_compute. reflexivity.
Defined.

(* ===================================================================== *)
(** * The cells of the serializer *)
(* ===================================================================== *)



Section live_cells.
Context {V : Type} `{!PyValue V}.
Variable o : Options.
Variable c : Circuit (V:=V).
Hypothesis Hids : NoDup (id <$> nodes c).




End live_cells.



